(** * Verification of the game-server core (roads, collisions, session tick,
      state snapshot)

    The C++ sources are embedded shallowly.  C++ [double] values are modelled
    as exact rationals ([Q]); every comparison of the sources is therefore
    decided exactly ([==] is [Qeq]).  [size_t] values are binary naturals
    ([N]), taken modulo [2^64] where the sources can make them wrap; [int]
    values are integers ([Z]; signed overflow is undefined behaviour in C++
    and is not modelled).  Exceptions are modelled by [option].

    The first part of the file holds the embedding, the second part the
    lemmas and theorems. *)

From Stdlib Require Import QArith Qround Qabs Lqa ZArith Lia Bool.
From stdpp Require Import base list sorting gmap strings.
From Stdlib Require Import Ascii DecimalString DecimalZ.

Local Open Scope Q_scope.

(** ** Comparisons on doubles *)

Definition Qltb (a b : Q) : bool := negb (Qle_bool b a).
Definition Qleb (a b : Q) : bool := Qle_bool a b.
Definition Qeqb (a b : Q) : bool := Qeq_bool a b.

(** [std::min], [std::max] and [std::clamp] as the standard defines them. *)
Definition std_min (a b : Q) : Q := if Qltb b a then b else a.
Definition std_max (a b : Q) : Q := if Qltb a b then b else a.
Definition std_clamp (v lo hi : Q) : Q :=
  if Qltb v lo then lo else if Qltb hi v then hi else v.

(** ** geom.h *)

Module geom.

(** [std::round]: to the nearest integer, halfway cases away from zero. *)
Definition std_round (v : Q) : Z :=
  if Qltb v 0 then (- Qfloor (- v + 0.5))%Z else Qfloor (v + 0.5).

Definition Round6 (v : Q) : Q :=
  inject_Z (std_round (v * 1000000)) / 1000000.

Record Position := { x : Q; y : Q }.

Record Speed := { vx : Q; vy : Q }.

Record MoveResult := { position : Position; hit_boundary : bool }.

Record Loot := {
  id : N;
  type : N;
  loot_position : Position;
  value : Z
}.

Inductive Direction := NORTH | SOUTH | WEST | EAST.

(** [Position::operator==] *)
Definition Position_eqb (a b : Position) : bool :=
  Qeqb (x a) (x b) && Qeqb (y a) (y b).

End geom.

Abbreviation Position := geom.Position.
Abbreviation Speed := geom.Speed.
Abbreviation MoveResult := geom.MoveResult.
Abbreviation Loot := geom.Loot.
Abbreviation Direction := geom.Direction.

(** Two positions hold the same numbers. *)
Definition pos_eq (a b : Position) : Prop :=
  geom.x a == geom.x b /\ geom.y a == geom.y b.

(** ** collision_detector.cpp *)

Module collision_detector.

Record CollectionResult := { cr_sq_distance : Q; proj_ratio : Q }.

Record Item := { item_position : Position; item_width : Q }.

Record Gatherer := { start_pos : Position; end_pos : Position; width : Q }.

Record GatheringEvent := {
  item_id : nat;
  gatherer_id : nat;
  sq_distance : Q;
  time : Q
}.

(** The abstract class [ItemGathererProvider].  The getters are called with
    indices below the counts only. *)
Class ItemGathererProvider (P : Type) := {
  ItemsCount : P -> nat;
  GetItem : P -> nat -> Item;
  GatherersCount : P -> nat;
  GetGatherer : P -> nat -> Gatherer
}.

(** [TryCollectPoint]; its assertion that [a] and [b] differ is the guard of
    the caller. *)
Definition TryCollectPoint (a b c : Position) : CollectionResult :=
  let u_x := geom.x c - geom.x a in
  let u_y := geom.y c - geom.y a in
  let v_x := geom.x b - geom.x a in
  let v_y := geom.y b - geom.y a in
  let u_dot_v := u_x * v_x + u_y * v_y in
  let u_len2 := u_x * u_x + u_y * u_y in
  let v_len2 := v_x * v_x + v_y * v_y in
  let proj_ratio := u_dot_v / v_len2 in
  let sq_distance := u_len2 - (u_dot_v * u_dot_v) / v_len2 in
  {| cr_sq_distance := sq_distance; proj_ratio := proj_ratio |}.

(** The test of the inner loop of [FindGatherEvents]. *)
Definition collects (gatherer : Gatherer) (result : CollectionResult) : bool :=
  Qleb 0 (proj_ratio result) && Qleb (proj_ratio result) 1 &&
  Qleb (cr_sq_distance result) (width gatherer * width gatherer).

(** The test that skips a gatherer. *)
Definition zero_move (gatherer : Gatherer) : bool :=
  Qeqb (geom.x (start_pos gatherer)) (geom.x (end_pos gatherer)) &&
  Qeqb (geom.y (start_pos gatherer)) (geom.y (end_pos gatherer)).

(** Inner loop of [FindGatherEvents] for one gatherer. *)
Definition item_events `{ItemGathererProvider P} (provider : P)
    (gatherer_idx : nat) (gatherer : Gatherer) (item_idx : nat) : list GatheringEvent :=
  let item := GetItem provider item_idx in
  let result := TryCollectPoint (start_pos gatherer) (end_pos gatherer) (item_position item) in
  if collects gatherer result then
    [ {| item_id := item_idx; gatherer_id := gatherer_idx;
         sq_distance := cr_sq_distance result; time := proj_ratio result |} ]
  else [].

(** Body of the outer loop of [FindGatherEvents]. *)
Definition gatherer_events `{ItemGathererProvider P} (provider : P)
    (gatherer_idx : nat) : list GatheringEvent :=
  let gatherer := GetGatherer provider gatherer_idx in
  if zero_move gatherer then []
  else flat_map (item_events provider gatherer_idx gatherer) (seq 0 (ItemsCount provider)).

(** The events in the order the two loops push them. *)
Definition unsorted_events `{ItemGathererProvider P} (provider : P) : list GatheringEvent :=
  flat_map (gatherer_events provider) (seq 0 (GatherersCount provider)).

(** The order [std::sort] establishes with the comparator
    [e1.time < e2.time]: no later element has a smaller time. *)
Definition time_le (e1 e2 : GatheringEvent) : Prop := time e1 <= time e2.

#[export] Instance time_le_dec e1 e2 : Decision (time_le e1 e2) :=
  match Qlt_le_dec (time e2) (time e1) with
  | left H => right (Qlt_not_le _ _ H)
  | right H => left H
  end.

(** [FindGatherEvents].  [std::sort] leaves the order of events with equal
    times open; [merge_sort] returns one of the orders it may produce. *)
Definition FindGatherEvents `{ItemGathererProvider P} (provider : P) : list GatheringEvent :=
  merge_sort time_le (unsorted_events provider).

(** The provider of the detector's tests: two vectors read with [at]. *)
Record TestProvider := { items_ : list Item; gatherers_ : list Gatherer }.

Definition no_item : Item :=
  {| item_position := {| geom.x := 0; geom.y := 0 |}; item_width := 0 |}.
Definition no_gatherer : Gatherer :=
  {| start_pos := {| geom.x := 0; geom.y := 0 |};
     end_pos := {| geom.x := 0; geom.y := 0 |}; width := 0 |}.

#[export] Instance TestProvider_provider : ItemGathererProvider TestProvider := {
  ItemsCount p := length (items_ p);
  GetItem p idx := nth idx (items_ p) no_item;
  GatherersCount p := length (gatherers_ p);
  GetGatherer p idx := nth idx (gatherers_ p) no_gatherer
}.

(** The acceptance test in the words of the specification: the gatherer
    moves, the projection ratio lies in [0, 1] and the squared distance is at
    most the square of the sum of both radii. *)
Definition spec_collects (gatherer : Gatherer) (item : Item) : Prop :=
  ~ pos_eq (start_pos gatherer) (end_pos gatherer) /\
  let result := TryCollectPoint (start_pos gatherer) (end_pos gatherer) (item_position item) in
  0 <= proj_ratio result /\ proj_ratio result <= 1 /\
  cr_sq_distance result <= (width gatherer + item_width item) * (width gatherer + item_width item).

End collision_detector.

(** ** The loot generator *)

Module loot_gen.

Section generator.

(** [std::pow] on doubles.  Its values at exponents that are not integers
    have no exact rational counterpart, so the function is a parameter. *)
Variable std_pow : Q -> Q -> Q.

(** Modelled from the spec: [loot_generator.h] and [loot_generator.cpp] are
    missing from the sources; only the tests and the caller are there.  The
    generator is configured by a base interval (milliseconds) and a base
    probability and keeps the accumulator [T] of unconsumed time. *)
Record LootGenerator := {
  base_interval : Z;
  base_probability : Q;
  time_without_loot : Z
}.

Definition reset (g : LootGenerator) : LootGenerator :=
  {| base_interval := base_interval g;
     base_probability := base_probability g;
     time_without_loot := 0 |}.

Definition shortage (loot_count looter_count : N) : N :=
  if (looter_count <=? loot_count)%N then 0%N else (looter_count - loot_count)%N.

(** Modelled from the spec: the six steps of section 4.3.  [random] is the
    value the injected random source returns on this call; [delta] is the
    elapsed time in milliseconds.
    1. [T := T + delta];
    2. [shortage := max(0, looter_count - loot_count)]; if it is zero, reset
       [T] and return 0;
    3. [ratio := min(1, T / base_interval)];
    4. [p := 1 - (1 - base_probability)^ratio];
    5. [n := floor(shortage * p * random + 0.5)];
    6. if [n > 0] reset [T]; return [n], clamped to [shortage]. *)
Definition Generate (g : LootGenerator) (random : Q) (delta : Z)
    (loot_count looter_count : N) : N * LootGenerator :=
  let T := (time_without_loot g + delta)%Z in
  let loot_shortage := shortage loot_count looter_count in
  if (loot_shortage =? 0)%N then (0%N, reset g)
  else
    let ratio := std_min 1 (inject_Z T / inject_Z (base_interval g)) in
    let p := 1 - std_pow (1 - base_probability g) ratio in
    let n := Z.to_N (Qfloor (inject_Z (Z.of_N loot_shortage) * p * random + 0.5)) in
    let g' := if (0 <? n)%N then reset g
              else {| base_interval := base_interval g;
                      base_probability := base_probability g;
                      time_without_loot := T |} in
    (if (loot_shortage <? n)%N then loot_shortage else n, g').

End generator.

End loot_gen.

(** ** model.h, model.cpp: roads and maps *)

Module model.

(** [Road]: [start_], [end_] and the constant member [width_ = 0.4]. *)
Record Road := { start_ : Position; end_ : Position }.

Definition width_ : Q := 0.4.

(** The two constructors of [Road]. *)
Definition Road_HORIZONTAL (start : Position) (end_x : Q) : Road :=
  {| start_ := start; end_ := {| geom.x := end_x; geom.y := geom.y start |} |}.

Definition Road_VERTICAL (start : Position) (end_y : Q) : Road :=
  {| start_ := start; end_ := {| geom.x := geom.x start; geom.y := end_y |} |}.

Definition IsHorizontal (r : Road) : bool :=
  Qeqb (geom.y (start_ r)) (geom.y (end_ r)).

Definition IsVertical (r : Road) : bool :=
  Qeqb (geom.x (start_ r)) (geom.x (end_ r)).

Definition GetStart (r : Road) : Position := start_ r.
Definition GetEnd (r : Road) : Position := end_ r.
Definition GetMinX (r : Road) : Q := std_min (geom.x (start_ r)) (geom.x (end_ r)).
Definition GetMaxX (r : Road) : Q := std_max (geom.x (start_ r)) (geom.x (end_ r)).
Definition GetMinY (r : Road) : Q := std_min (geom.y (start_ r)) (geom.y (end_ r)).
Definition GetMaxY (r : Road) : Q := std_max (geom.y (start_ r)) (geom.y (end_ r)).
Definition GetWidth (r : Road) : Q := width_.

Definition GetBorders (r : Road) : Position * Position :=
  ({| geom.x := GetMinX r - width_; geom.y := GetMinY r - width_ |},
   {| geom.x := GetMaxX r + width_; geom.y := GetMaxY r + width_ |}).

Definition IsPositionInRoad (r : Road) (pos : Position) : bool :=
  let borders := GetBorders r in
  let more_than_min :=
    Qleb (geom.x (fst borders)) (geom.x pos) && Qleb (geom.y (fst borders)) (geom.y pos) in
  let less_than_max :=
    Qleb (geom.x pos) (geom.x (snd borders)) && Qleb (geom.y pos) (geom.y (snd borders)) in
  more_than_min && less_than_max.

(** [Office]: identifier and position (the offset plays no part in the
    simulation). *)
Record Office := { office_id : string; office_position : Position }.

(** [Map].  [loot_types_] keeps, for each entry of the JSON catalogue, what
    the read in [GameSession::UpdateState] makes of it: [Some value] for an
    object, with the [int] under its key ["value"] (0 when it has none), and
    [None] for an entry on which the read throws (no object, or a ["value"]
    that is no [int64]). *)
Record Map := {
  map_id : string;
  roads_ : list Road;
  offices_ : list Office;
  dog_speed_ : Q;
  loot_types_count_ : N;
  loot_types_ : list (option Z);
  map_bag_capacity_ : N
}.

(** [Map::FindRoadByPosition]: the first road holding the position. *)
Definition FindRoadByPosition (roads : list Road) (position : Position) : option Road :=
  List.find (fun road => IsPositionInRoad road position) roads.

(** The walkable strip of a road: the road inflated by 0.4 on all sides,
    borders included. *)
Definition in_strip (r : Road) (p : Position) : Prop :=
  (GetMinX r - 0.4 <= geom.x p /\ GetMinY r - 0.4 <= geom.y p) /\
  (geom.x p <= GetMaxX r + 0.4 /\ geom.y p <= GetMaxY r + 0.4).

(** One step of the four accumulating loops of [GetExactMovementBounds]. *)
Definition bounds_step (acc : Position * Position) (road : Road) : Position * Position :=
  ({| geom.x := std_min (geom.x (fst acc)) (GetMinX road - GetWidth road);
      geom.y := std_min (geom.y (fst acc)) (GetMinY road - GetWidth road) |},
   {| geom.x := std_max (geom.x (snd acc)) (GetMaxX road + GetWidth road);
      geom.y := std_max (geom.y (snd acc)) (GetMaxY road + GetWidth road) |}).

(** [Map::GetExactMovementBounds].  The source starts the four accumulators
    at the largest and the lowest finite double; the first road replaces
    them, so the fold starts here from the first road's own borders. *)
Definition GetExactMovementBounds (m : Map) : Position * Position :=
  match roads_ m with
  | [] => ({| geom.x := 0; geom.y := 0 |}, {| geom.x := 0; geom.y := 0 |})
  | road :: rest => fold_left bounds_step rest (GetBorders road)
  end.

(** The map-box clamp of one coordinate with its [hit_boundary] flag. *)
Definition clamp_axis (t lo hi : Q) : Q * bool :=
  if Qltb t lo then (lo, true)
  else if Qltb hi t then (hi, true)
  else (t, false).

(** First loop of [Map::MoveDog]: [None] is the early return taken when a
    road holds the final position, otherwise the roads that hold the start
    are collected in order. *)
Fixpoint scan_roads (roads : list Road) (final_position start : Position)
    (cur_roads : list Road) : option (list Road) :=
  match roads with
  | [] => Some cur_roads
  | road :: rest =>
      if IsPositionInRoad road final_position then None
      else if IsPositionInRoad road start
        then scan_roads rest final_position start (cur_roads ++ [road])
        else scan_roads rest final_position start cur_roads
  end.

Definition distance_sq (final_position projected : Position) : Q :=
  (geom.x final_position - geom.x projected) * (geom.x final_position - geom.x projected) +
  (geom.y final_position - geom.y projected) * (geom.y final_position - geom.y projected).

(** The projection computed by the branch of the second loop that applies. *)
Definition projection (road : Road) (final_position : Position) (speed : Speed)
    : option Position :=
  if IsHorizontal road && negb (Qeqb (geom.vy speed) 0) then
    let road_y := if Qltb 0 (geom.vy speed)
                  then geom.y (GetStart road) + GetWidth road
                  else geom.y (GetStart road) - GetWidth road in
    let road_min_x := GetMinX road - GetWidth road in
    let road_max_x := GetMaxX road + GetWidth road in
    Some {| geom.x := std_clamp (geom.x final_position) road_min_x road_max_x;
            geom.y := road_y |}
  else if IsHorizontal road && negb (Qeqb (geom.vx speed) 0) then
    let road_y := geom.y (GetStart road) + GetWidth road in
    let road_min_x := GetMinX road - GetWidth road in
    let road_max_x := GetMaxX road + GetWidth road in
    Some {| geom.x := std_clamp (geom.x final_position) road_min_x road_max_x;
            geom.y := road_y |}
  else if IsVertical road && negb (Qeqb (geom.vx speed) 0) then
    let road_x := if Qltb 0 (geom.vx speed)
                  then geom.x (GetStart road) + GetWidth road
                  else geom.x (GetStart road) - GetWidth road in
    let road_min_y := GetMinY road - GetWidth road in
    let road_max_y := GetMaxY road + GetWidth road in
    Some {| geom.x := road_x;
            geom.y := std_clamp (geom.y final_position) road_min_y road_max_y |}
  else if IsVertical road && negb (Qeqb (geom.vy speed) 0) then
    let road_min_y := GetMinY road - GetWidth road in
    let road_max_y := GetMaxY road + GetWidth road in
    Some {| geom.x := geom.x final_position;
            geom.y := std_clamp (geom.y final_position) road_min_y road_max_y |}
  else None.

(** Body of the second loop.  The accumulator is [best_position] with
    [min_distance_sq]; [None] stands for the initial largest finite double,
    below which every distance lies. *)
Definition slide_step (final_position : Position) (speed : Speed)
    (acc : Position * option Q) (road : Road) : Position * option Q :=
  match projection road final_position speed with
  | Some projected =>
      if IsPositionInRoad road projected then
        let d := distance_sq final_position projected in
        match snd acc with
        | None => (projected, Some d)
        | Some min_distance_sq =>
            if Qltb d min_distance_sq then (projected, Some d) else acc
        end
      else acc
  | None => acc
  end.

(** The target of a move and its clamp to the bounding box of the map, with
    the [hit_boundary] flag the clamp sets (first block of [Map::MoveDog]). *)
Definition move_target (start : Position) (speed : Speed) (delta_time : Q) : Position :=
  {| geom.x := geom.x start + geom.vx speed * delta_time;
     geom.y := geom.y start + geom.vy speed * delta_time |}.

Definition map_box_clamp (m : Map) (target : Position) : Position * bool :=
  let '(min_bound, max_bound) := GetExactMovementBounds m in
  let cx := clamp_axis (geom.x target) (geom.x min_bound) (geom.x max_bound) in
  let cy := clamp_axis (geom.y target) (geom.y min_bound) (geom.y max_bound) in
  ({| geom.x := fst cx; geom.y := fst cy |}, snd cx || snd cy).

Definition MoveDog (m : Map) (start : Position) (speed : Speed) (delta_time : Q)
    : MoveResult :=
  match roads_ m with
  | [] => {| geom.position := start; geom.hit_boundary := false |}
  | _ :: _ =>
      let target := move_target start speed delta_time in
      let '(final_position, hit) := map_box_clamp m target in
      match scan_roads (roads_ m) final_position start [] with
      | None => {| geom.position := final_position; geom.hit_boundary := hit |}
      | Some cur_roads =>
          let best_position :=
            fst (fold_left (slide_step final_position speed) cur_roads (start, None)) in
          let hit_road_boundary :=
            negb (Qeqb (geom.x best_position) (geom.x final_position)) ||
            negb (Qeqb (geom.y best_position) (geom.y final_position)) in
          {| geom.position := best_position;
             geom.hit_boundary := hit || hit_road_boundary |}
      end
  end.

(** ** model.h: dogs and players *)

Record Dog := {
  dog_id : string;
  dog_name : string;
  dog_map_id : string;
  position_ : Position;
  speed_ : Speed;
  direction_ : Direction;
  previous_position_ : Position
}.

(** The constructor of [Dog]. *)
Definition Dog_new (id name dog_map : string) : Dog :=
  {| dog_id := id; dog_name := name; dog_map_id := dog_map;
     position_ := {| geom.x := 0; geom.y := 0 |};
     speed_ := {| geom.vx := 0; geom.vy := 0 |};
     direction_ := geom.NORTH;
     previous_position_ := {| geom.x := 0; geom.y := 0 |} |}.

Definition SetPosition (d : Dog) (position : Position) : Dog :=
  {| dog_id := dog_id d; dog_name := dog_name d; dog_map_id := dog_map_id d;
     position_ := position; speed_ := speed_ d; direction_ := direction_ d;
     previous_position_ := previous_position_ d |}.

Definition SetSpeed (d : Dog) (speed : Speed) : Dog :=
  {| dog_id := dog_id d; dog_name := dog_name d; dog_map_id := dog_map_id d;
     position_ := position_ d; speed_ := speed; direction_ := direction_ d;
     previous_position_ := previous_position_ d |}.

Definition SetDirection (d : Dog) (direction : Direction) : Dog :=
  {| dog_id := dog_id d; dog_name := dog_name d; dog_map_id := dog_map_id d;
     position_ := position_ d; speed_ := speed_ d; direction_ := direction;
     previous_position_ := previous_position_ d |}.

Definition SetPreviousPosition (d : Dog) (position : Position) : Dog :=
  {| dog_id := dog_id d; dog_name := dog_name d; dog_map_id := dog_map_id d;
     position_ := position_ d; speed_ := speed_ d; direction_ := direction_ d;
     previous_position_ := position |}.

Definition Stop (d : Dog) : Dog := SetSpeed d {| geom.vx := 0; geom.vy := 0 |}.

Definition IsMoving (d : Dog) : bool :=
  negb (Qeqb (geom.vx (speed_ d)) 0) && negb (Qeqb (geom.vy (speed_ d)) 0).

Record Player := {
  player_id : N;
  dog_ : Dog;
  token_ : string;
  bag_ : list Loot;
  bag_capacity_ : N;
  score_ : Z;
  play_time_ : Q;
  idle_time_ : Q
}.

(** The constructor of [Player]. *)
Definition Player_new (id : N) (dog : Dog) (token : string) (bag_capacity : N) : Player :=
  {| player_id := id; dog_ := dog; token_ := token; bag_ := [];
     bag_capacity_ := bag_capacity; score_ := 0; play_time_ := 0; idle_time_ := 0 |}.

(** Assignment through the reference [GetDog] returns. *)
Definition set_dog (p : Player) (dog : Dog) : Player :=
  {| player_id := player_id p; dog_ := dog; token_ := token_ p; bag_ := bag_ p;
     bag_capacity_ := bag_capacity_ p; score_ := score_ p;
     play_time_ := play_time_ p; idle_time_ := idle_time_ p |}.

Definition set_bag (p : Player) (bag : list Loot) : Player :=
  {| player_id := player_id p; dog_ := dog_ p; token_ := token_ p; bag_ := bag;
     bag_capacity_ := bag_capacity_ p; score_ := score_ p;
     play_time_ := play_time_ p; idle_time_ := idle_time_ p |}.

Definition bag_size (p : Player) : N := N.of_nat (length (bag_ p)).

Definition AddToBag (p : Player) (loot : Loot) : Player :=
  if (bag_size p <? bag_capacity_ p)%N then set_bag p (bag_ p ++ [loot]) else p.

Definition ClearBag (p : Player) : Player := set_bag p [].

Definition IsBagFull (p : Player) : bool := (bag_capacity_ p <=? bag_size p)%N.

Definition AddScore (p : Player) (delta : Z) : Player :=
  {| player_id := player_id p; dog_ := dog_ p; token_ := token_ p; bag_ := bag_ p;
     bag_capacity_ := bag_capacity_ p; score_ := (score_ p + delta)%Z;
     play_time_ := play_time_ p; idle_time_ := idle_time_ p |}.

Definition AddPlayTime (p : Player) (dt : Q) : Player :=
  {| player_id := player_id p; dog_ := dog_ p; token_ := token_ p; bag_ := bag_ p;
     bag_capacity_ := bag_capacity_ p; score_ := score_ p;
     play_time_ := play_time_ p + dt; idle_time_ := idle_time_ p |}.

Definition AddIdleTime (p : Player) (dt : Q) : Player :=
  {| player_id := player_id p; dog_ := dog_ p; token_ := token_ p; bag_ := bag_ p;
     bag_capacity_ := bag_capacity_ p; score_ := score_ p;
     play_time_ := play_time_ p; idle_time_ := idle_time_ p + dt |}.

Definition ResetIdleTime (p : Player) : Player :=
  {| player_id := player_id p; dog_ := dog_ p; token_ := token_ p; bag_ := bag_ p;
     bag_capacity_ := bag_capacity_ p; score_ := score_ p;
     play_time_ := play_time_ p; idle_time_ := 0 |}.

(** ** model.h, model.cpp: sessions *)

(** What a session reads through its [game_] pointer when a tick runs: the
    retirement time of the game and whether a retired-player callback is
    installed.  The session functions that follow the pointer take this
    record as an argument. *)
Record GameConfig := {
  dog_retirement_time_ : Q;
  retired_player_callback_ : bool
}.

Record GameSession := {
  session_id : string;
  map_ : Map;
  game_ : bool;
  players_ : list Player;
  loots_ : list Loot;
  next_loot_id_ : N;
  loot_generator_ : option loot_gen.LootGenerator
}.

(** The constructor of [GameSession]; [game] tells whether the pointer
    passed is not null. *)
Definition GameSession_new (id : string) (m : Map) (game : bool) : GameSession :=
  {| session_id := id; map_ := m; game_ := game; players_ := []; loots_ := [];
     next_loot_id_ := 0; loot_generator_ := None |}.

Definition set_players (s : GameSession) (players : list Player) : GameSession :=
  {| session_id := session_id s; map_ := map_ s; game_ := game_ s;
     players_ := players; loots_ := loots_ s; next_loot_id_ := next_loot_id_ s;
     loot_generator_ := loot_generator_ s |}.

Definition set_loots (s : GameSession) (loots : list Loot) : GameSession :=
  {| session_id := session_id s; map_ := map_ s; game_ := game_ s;
     players_ := players_ s; loots_ := loots; next_loot_id_ := next_loot_id_ s;
     loot_generator_ := loot_generator_ s |}.

Definition AddPlayer (s : GameSession) (player : Player) : GameSession :=
  set_players s (players_ s ++ [player]).

Definition AddLoot (s : GameSession) (loot : Loot) : GameSession :=
  set_loots s (loots_ s ++ [loot]).

Definition SetNextLootId (s : GameSession) (id : N) : GameSession :=
  {| session_id := session_id s; map_ := map_ s; game_ := game_ s;
     players_ := players_ s; loots_ := loots_ s; next_loot_id_ := id;
     loot_generator_ := loot_generator_ s |}.

Definition SetLootGenerator (s : GameSession) (g : option loot_gen.LootGenerator)
    : GameSession :=
  {| session_id := session_id s; map_ := map_ s; game_ := game_ s;
     players_ := players_ s; loots_ := loots_ s; next_loot_id_ := next_loot_id_ s;
     loot_generator_ := g |}.

(** *** [GameSession::HandleCollisions] *)

(** The gatherer both providers build for a player: the sweep of its dog
    with width 0.6. *)
Definition player_gatherer (p : Player) : collision_detector.Gatherer :=
  {| collision_detector.start_pos := previous_position_ (dog_ p);
     collision_detector.end_pos := position_ (dog_ p);
     collision_detector.width := 0.6 |}.

Definition players_gatherer (players : list Player) (idx : nat) : collision_detector.Gatherer :=
  match players !! idx with
  | Some p => player_gatherer p
  | None => collision_detector.no_gatherer
  end.

Record LootProvider := { lp_loots_ : list Loot; lp_players_ : list Player }.

#[export] Instance LootProvider_provider
    : collision_detector.ItemGathererProvider LootProvider := {
  collision_detector.ItemsCount p := length (lp_loots_ p);
  collision_detector.GetItem p idx :=
    match lp_loots_ p !! idx with
    | Some loot => {| collision_detector.item_position := geom.loot_position loot;
                      collision_detector.item_width := 0 |}
    | None => collision_detector.no_item
    end;
  collision_detector.GatherersCount p := length (lp_players_ p);
  collision_detector.GetGatherer p idx := players_gatherer (lp_players_ p) idx
}.

Record OfficeProvider := { op_offices_ : list Office; op_players_ : list Player }.

#[export] Instance OfficeProvider_provider
    : collision_detector.ItemGathererProvider OfficeProvider := {
  collision_detector.ItemsCount p := length (op_offices_ p);
  collision_detector.GetItem p idx :=
    match op_offices_ p !! idx with
    | Some office => {| collision_detector.item_position := office_position office;
                        collision_detector.item_width := 0.5 |}
    | None => collision_detector.no_item
    end;
  collision_detector.GatherersCount p := length (op_players_ p);
  collision_detector.GetGatherer p idx := players_gatherer (op_players_ p) idx
}.

Inductive GameEventType := LOOT | OFFICE.

Record GameEvent := {
  ge_time : Q;
  ge_type : GameEventType;
  ge_gatherer_id : nat;
  ge_item_id : nat
}.

Definition to_game_event (type : GameEventType)
    (event : collision_detector.GatheringEvent) : GameEvent :=
  {| ge_time := collision_detector.time event;
     ge_type := type;
     ge_gatherer_id := collision_detector.gatherer_id event;
     ge_item_id := collision_detector.item_id event |}.

(** The order [std::sort] establishes with [GameEvent::operator<]. *)
Definition game_event_le (e1 e2 : GameEvent) : Prop := ge_time e1 <= ge_time e2.

#[export] Instance game_event_le_dec e1 e2 : Decision (game_event_le e1 e2) :=
  match Qlt_le_dec (ge_time e2) (ge_time e1) with
  | left H => right (Qlt_not_le _ _ H)
  | right H => left H
  end.

(** The merged events before they are sorted. *)
Definition merged_events (s : GameSession) : list GameEvent :=
  let loot_events := collision_detector.FindGatherEvents
    {| lp_loots_ := loots_ s; lp_players_ := players_ s |} in
  let office_events := collision_detector.FindGatherEvents
    {| op_offices_ := offices_ (map_ s); op_players_ := players_ s |} in
  List.map (to_game_event LOOT) loot_events ++ List.map (to_game_event OFFICE) office_events.

(** The sorted list [all_events]; as in [FindGatherEvents] the order of
    events with equal times is one of those [std::sort] may produce. *)
Definition all_events (s : GameSession) : list GameEvent :=
  merge_sort game_event_le (merged_events s).

(** State of the loop over [all_events]: the players, the set
    [collected_loots], and (not in the source) the list of the pickups that
    took place, kept for the statements only. *)
Record CollisionState := {
  cs_players : list Player;
  cs_collected : gset N;
  cs_picked : list (nat * Loot)
}.

Definition bag_total (bag : list Loot) : Z :=
  fold_left (fun sum loot => (sum + geom.value loot)%Z) bag 0%Z.

(** Body of the loop over [all_events].  The source indexes [players_] with
    the gatherer of the event before any check; the detector only yields
    indices in range. *)
Definition process_event (loots : list Loot) (st : CollisionState) (event : GameEvent)
    : CollisionState :=
  match cs_players st !! ge_gatherer_id event with
  | None => st
  | Some player =>
      match ge_type event with
      | LOOT =>
          match loots !! ge_item_id event with
          | None => st
          | Some loot =>
              if decide (geom.id loot ∈ cs_collected st) then st
              else if negb (IsBagFull player) then
                {| cs_players := <[ge_gatherer_id event := AddToBag player loot]> (cs_players st);
                   cs_collected := {[geom.id loot]} ∪ cs_collected st;
                   cs_picked := cs_picked st ++ [(ge_gatherer_id event, loot)] |}
              else st
          end
      | OFFICE =>
          let total_score := bag_total (bag_ player) in
          {| cs_players :=
               <[ge_gatherer_id event := ClearBag (AddScore player total_score)]> (cs_players st);
             cs_collected := cs_collected st;
             cs_picked := cs_picked st |}
      end
  end.

Definition process_events (loots : list Loot) (events : list GameEvent)
    (st : CollisionState) : CollisionState :=
  fold_left (process_event loots) events st.

Definition collisions_start (s : GameSession) : CollisionState :=
  {| cs_players := players_ s; cs_collected := ∅; cs_picked := [] |}.

(** [HandleCollisions]: the session afterwards and the pickups made. *)
Definition HandleCollisions (s : GameSession) : GameSession * list (nat * Loot) :=
  let st := process_events (loots_ s) (all_events s) (collisions_start s) in
  (set_loots (set_players s (cs_players st))
     (List.filter (fun loot => negb (bool_decide (geom.id loot ∈ cs_collected st))) (loots_ s)),
   cs_picked st).

(** *** [GameSession::RetireInactivePlayers] *)

(** The loop over the players: the survivors in [active_players] and the
    players handed to [Game::OnPlayerRetired], which calls the callback when
    one is installed. *)
Fixpoint retire_loop (g : GameConfig) (players active_players notified : list Player)
    : list Player * list Player :=
  match players with
  | [] => (active_players, notified)
  | player :: rest =>
      if Qleb (dog_retirement_time_ g) (idle_time_ player) then
        retire_loop g rest active_players
          (if retired_player_callback_ g then notified ++ [player] else notified)
      else retire_loop g rest (active_players ++ [player]) notified
  end.

Definition RetireInactivePlayers (g : GameConfig) (s : GameSession)
    : GameSession * list Player :=
  if game_ s then
    let '(active_players, notified) := retire_loop g (players_ s) [] [] in
    (set_players s active_players, notified)
  else (s, []).


(** *** [GameSession::UpdateState] *)

Definition EPS : Q := 1 # 10000000000.

Definition update_times (delta_time : Q) (player : Player) : Player :=
  let player := AddPlayTime player delta_time in
  let speed := speed_ (dog_ player) in
  let is_idle := Qltb (Qabs (geom.vx speed)) EPS && Qltb (Qabs (geom.vy speed)) EPS in
  if is_idle then AddIdleTime player delta_time else ResetIdleTime player.

(** The randomness of one tick: the value the random source of the loot
    generator returns, and for the i-th new loot the type and the position
    that the random engines deliver. *)
Record TickInput := {
  ti_random : Q;
  ti_draw : nat -> N * Position
}.

(** The value of a new loot of type [type]: 0 when the catalogue has no
    entry for it.  On an entry that cannot be read the code throws;
    [game_tick] has the tick with that exception, and the value here is
    0. *)
Definition loot_value (m : Map) (type : N) : Z :=
  match loot_types_ m !! N.to_nat type with
  | Some (Some value) => value
  | _ => 0%Z
  end.

Definition size_max : N := 2 ^ 64.

(** The loop that creates [new_loot_count] loots. *)
Fixpoint spawn_loots (inp : TickInput) (i new_loot_count : nat) (s : GameSession)
    : GameSession :=
  match new_loot_count with
  | O => s
  | S remaining =>
      let '(type, pos) := ti_draw inp i in
      let value := loot_value (map_ s) type in
      let loot := {| geom.id := next_loot_id_ s; geom.type := type;
                     geom.loot_position := pos; geom.value := value |} in
      let s := SetNextLootId s ((next_loot_id_ s + 1) mod size_max)%N in
      spawn_loots inp (S i) remaining (AddLoot s loot)
  end.

(** [duration_cast] of seconds held in a double to whole milliseconds: the
    fraction is dropped (rounding toward zero). *)
Definition to_milliseconds (delta_time : Q) : Z :=
  let ms := delta_time * 1000 in Z.quot (Qnum ms) (Z.pos (Qden ms)).

Definition save_previous (player : Player) : Player :=
  set_dog player (SetPreviousPosition (dog_ player) (position_ (dog_ player))).

Definition move_player (m : Map) (delta_time : Q) (player : Player) : Player :=
  let dog := dog_ player in
  let current_position := position_ dog in
  let speed := speed_ dog in
  if IsMoving dog || Qltb EPS (Qabs (geom.vx speed)) || Qltb EPS (Qabs (geom.vy speed)) then
    let move_result := MoveDog m current_position speed delta_time in
    let dog := SetPosition dog (geom.position move_result) in
    set_dog player (if geom.hit_boundary move_result then Stop dog else dog)
  else player.

Section tick.

Variable std_pow : Q -> Q -> Q.

(** The call of [Generate] in [UpdateState]: the number of new loots and
    the generator afterwards. *)
Definition call_generator (g : loot_gen.LootGenerator) (inp : TickInput) (delta_time : Q)
    (s : GameSession) : N * loot_gen.LootGenerator :=
  loot_gen.Generate std_pow g (ti_random inp) (to_milliseconds delta_time)
    (N.of_nat (length (loots_ s))) (N.of_nat (length (players_ s))).

Definition generate_loots (inp : TickInput) (delta_time : Q) (s : GameSession) : GameSession :=
  match loot_generator_ s with
  | None => s
  | Some g =>
      let '(new_loot_count, g') := call_generator g inp delta_time s in
      spawn_loots inp 0 (N.to_nat new_loot_count) (SetLootGenerator s (Some g'))
  end.

(** [UpdateState] up to the call of [HandleCollisions]. *)
Definition tick_before_collisions (s : GameSession) (delta_time : Q) (inp : TickInput)
    : GameSession :=
  let s := set_players s (List.map (update_times delta_time) (players_ s)) in
  let s := generate_loots inp delta_time s in
  let s := set_players s (List.map save_previous (players_ s)) in
  set_players s (List.map (move_player (map_ s) delta_time) (players_ s)).

(** [UpdateState] up to and including [HandleCollisions]. *)
Definition tick_before_retirement (s : GameSession) (delta_time : Q) (inp : TickInput)
    : GameSession * list (nat * Loot) :=
  HandleCollisions (tick_before_collisions s delta_time inp).

(** [UpdateState]: the session afterwards, the players handed to the
    retired-player callback, and the pickups made. *)
Definition UpdateState (g : GameConfig) (s : GameSession) (delta_time : Q)
    (inp : TickInput) : GameSession * list Player * list (nat * Loot) :=
  let '(s, picked) := tick_before_retirement s delta_time inp in
  let '(s, retired) := RetireInactivePlayers g s in
  (s, retired, picked).

(** The number of loots a tick creates. *)
Definition new_loot_count (s : GameSession) (delta_time : Q) (inp : TickInput) : N :=
  match loot_generator_ s with
  | None => 0%N
  | Some g =>
      fst (call_generator g inp delta_time
             (set_players s (List.map (update_times delta_time) (players_ s))))
  end.

(** A run of ticks: the session afterwards and all pickups made, in order. *)
Fixpoint run_ticks (g : GameConfig) (s : GameSession) (ticks : list (Q * TickInput))
    : GameSession * list (nat * Loot) :=
  match ticks with
  | [] => (s, [])
  | (delta_time, inp) :: rest =>
      let '(s', _, picked) := UpdateState g s delta_time inp in
      let '(s'', picked') := run_ticks g s' rest in
      (s'', picked ++ picked')
  end.

(** The loot counter does not pass [2^64] during the run. *)
Fixpoint counter_in_range (g : GameConfig) (s : GameSession)
    (ticks : list (Q * TickInput)) : Prop :=
  match ticks with
  | [] => True
  | (delta_time, inp) :: rest =>
      (next_loot_id_ s + new_loot_count s delta_time inp < size_max)%N /\
      counter_in_range g (fst (fst (UpdateState g s delta_time inp))) rest
  end.

End tick.

(** Every [Road] object comes from one of the two constructors, so it is
    horizontal or vertical. *)
Definition road_wf (r : Road) : Prop :=
  IsHorizontal r = true \/ IsVertical r = true.

(** Corner sliding in the words of the specification: the target is
    projected onto the strip along the axis perpendicular to the road (y for
    a horizontal road, x for a vertical one) and clamped along the long axis
    of the road to the extent of the strip.  Both coordinates end up in
    their range of the strip whichever axis is the perpendicular one. *)
Definition strip_projection (r : Road) (target : Position) : Position :=
  {| geom.x := std_clamp (geom.x target) (GetMinX r - 0.4) (GetMaxX r + 0.4);
     geom.y := std_clamp (geom.y target) (GetMinY r - 0.4) (GetMaxY r + 0.4) |}.

(** A position lies in the union of the walkable strips of the map. *)
Definition on_roads (m : Map) (p : Position) : Prop :=
  exists r, r ∈ roads_ m /\ in_strip r p.

(** A rectangle [acc] covers the strip of [r]. *)
Definition covers (acc : Position * Position) (r : Road) : Prop :=
  (geom.x (fst acc) <= GetMinX r - 0.4 /\ geom.y (fst acc) <= GetMinY r - 0.4) /\
  (GetMaxX r + 0.4 <= geom.x (snd acc) /\ GetMaxY r + 0.4 <= geom.y (snd acc)).

(** The speeds for which the second loop of [MoveDog] computes the
    projection of the specification for road [r]: a vertical or zero speed,
    or a horizontal speed when [r] is not horizontal. *)
Definition slides_as_specified (speed : Speed) (r : Road) : Prop :=
  geom.vx speed == 0 \/ (geom.vy speed == 0 /\ IsHorizontal r = false).

(** Road [r] yields the projection [p] in the second loop of [MoveDog], and
    [IsPositionInRoad] accepts it. *)
Definition accepted (fp : Position) (speed : Speed) (r : Road) (p : Position) : Prop :=
  projection r fp speed = Some p /\ IsPositionInRoad r p = true.

(** Invariant of the second loop of [MoveDog] over the roads visited. *)
Definition slide_inv (fp : Position) (speed : Speed) (start : Position)
    (visited : list Road) (acc : Position * option Q) : Prop :=
  match snd acc with
  | None => fst acc = start /\ forall r p, r ∈ visited -> ~ accepted fp speed r p
  | Some d =>
      d = distance_sq fp (fst acc) /\
      (exists r, r ∈ visited /\ accepted fp speed r (fst acc)) /\
      forall r p, r ∈ visited -> accepted fp speed r p -> d <= distance_sq fp p
  end.

Definition loot_ids (loots : list Loot) : list N := List.map geom.id loots.

Definition picked_ids (picked : list (nat * Loot)) : list N :=
  List.map (fun entry => geom.id (snd entry)) picked.

(** The live loots have distinct identifiers, all below the counter. *)
Definition loots_fresh (s : GameSession) : Prop :=
  NoDup (loot_ids (loots_ s)) /\
  Forall (fun loot => (geom.id loot < next_loot_id_ s)%N) (loots_ s).

(** Invariant of the loop over the events: the pickups made so far took
    distinct loots of the session, and [collected_loots] holds exactly their
    identifiers. *)
Definition picked_inv (loots : list Loot) (st : CollisionState) : Prop :=
  NoDup (picked_ids (cs_picked st)) /\
  (forall id, id ∈ cs_collected st <-> id ∈ picked_ids (cs_picked st)) /\
  (forall entry, entry ∈ cs_picked st -> snd entry ∈ loots).

(** The bag of a player holds no more items than its capacity. *)
Definition bag_ok (p : Player) : Prop := (bag_size p <= bag_capacity_ p)%N.

End model.

(** ** model.h, model.cpp: the game *)

Module game.
Import model.

Record Game := {
  maps_ : list Map;
  sessions_ : list GameSession;
  loot_generator_config_ : option loot_gen.LootGenerator;
  config_ : GameConfig
}.

Definition set_sessions (g : Game) (sessions : list GameSession) : Game :=
  {| maps_ := maps_ g; sessions_ := sessions;
     loot_generator_config_ := loot_generator_config_ g; config_ := config_ g |}.

(** [Game::FindMap]; [AddMap] refuses a second map with the same id, so the
    index it keeps points at the only map with that id. *)
Definition FindMap (g : Game) (id : string) : option Map :=
  List.find (fun m => String.eqb (map_id m) id) (maps_ g).

(** [Game::FindSessionByMapId], as the index of the session found. *)
Fixpoint find_session (sessions : list GameSession) (id : string) : option nat :=
  match sessions with
  | [] => None
  | session :: rest =>
      if String.eqb (map_id (map_ session)) id then Some O
      else option_map S (find_session rest id)
  end.

Definition FindSessionByMapId (g : Game) (id : string) : option nat :=
  find_session (sessions_ g) id.

(** [Game::GetOrCreateSession]: the game afterwards and the index of the
    session; [None] when it throws because the map is unknown. *)
Definition GetOrCreateSession (g : Game) (id : string) : option (Game * nat) :=
  match FindSessionByMapId g id with
  | Some idx => Some (g, idx)
  | None =>
      match FindMap g id with
      | Some m =>
          let session := GameSession_new (id ++ "_session") m true in
          let session :=
            match loot_generator_config_ g with
            | Some config => SetLootGenerator session (Some config)
            | None => session
            end in
          Some (set_sessions g (sessions_ g ++ [session]), length (sessions_ g))
      | None => None
      end
  end.

(** A change made through the reference [GetOrCreateSession] returned. *)
Definition update_session (g : Game) (idx : nat) (f : GameSession -> GameSession) : Game :=
  set_sessions g (alter f idx (sessions_ g)).

End game.

(** ** Boost.JSON values *)

Module json.

#[warnings="-register-all"] Inductive value :=
| null
| bool_ (b : bool)
| int64 (i : Z)
| uint64 (u : N)
| double (d : Q)
| string_ (s : string)
| array (a : list value)
| object_ (o : list (string * value)).

(** [json::object]: the members in the order of their insertion; the keys
    are distinct. *)
Definition object := list (string * value).

Definition contains (o : object) (key : string) : bool :=
  existsb (fun member => String.eqb (fst member) key) o.

(** [object::at]; [None] when it throws. *)
Fixpoint at_ (o : object) (key : string) : option value :=
  match o with
  | [] => None
  | (k, v) :: rest => if String.eqb k key then Some v else at_ rest key
  end.

(** The checked accessors; [None] when the kind differs and they throw. *)
Definition as_int64 (v : value) : option Z :=
  match v with int64 i => Some i | _ => None end.
Definition as_double (v : value) : option Q :=
  match v with double d => Some d | _ => None end.
Definition as_string (v : value) : option string :=
  match v with string_ s => Some s | _ => None end.
Definition as_array (v : value) : option (list value) :=
  match v with array a => Some a | _ => None end.
Definition as_object (v : value) : option object :=
  match v with object_ o => Some o | _ => None end.

Definition INT64_MAX : N := 2 ^ 63 - 1.

(** What [json::parse] reads back from the text [json::serialize] wrote for
    a value: an unsigned number that fits [int64_t] comes back as a signed
    one (its text carries no mark of its kind); a double is written with an
    exponent and comes back as a double; everything else is unchanged. *)
Fixpoint reparse (v : value) : value :=
  match v with
  | uint64 u => if (u <=? INT64_MAX)%N then int64 (Z.of_N u) else uint64 u
  | array a => array (List.map reparse a)
  | object_ o => object_ (List.map (fun member => (fst member, reparse (snd member))) o)
  | _ => v
  end.

End json.

(** ** state_serializer.cpp *)

Module state_serializer.
Import model game.

(** [static_cast<int64_t>] of a [size_t], the conversion of an [int64_t] to
    [size_t], and the conversion of an [int64_t] to [int]. *)
Definition to_int64 (n : N) : Z :=
  if (n <? 2 ^ 63)%N then Z.of_N n else (Z.of_N n - 2 ^ 64)%Z.
Definition to_size_t (i : Z) : N := Z.to_N (i mod 2 ^ 64).
Definition to_int (i : Z) : Z := ((i + 2 ^ 31) mod 2 ^ 32 - 2 ^ 31)%Z.

(** The [std::string] built from [c_str()]: the characters before the first
    NUL. *)
Fixpoint c_str (s : string) : string :=
  match s with
  | EmptyString => EmptyString
  | String c rest =>
      if Ascii.eqb c Ascii.zero then EmptyString else String c (c_str rest)
  end.

Definition SerializePosition (pos : Position) : json.object :=
  [ ("x"%string, json.double (geom.Round6 (geom.x pos)));
    ("y"%string, json.double (geom.Round6 (geom.y pos))) ].

Definition SerializeLoot (loot : Loot) : json.object :=
  [ ("id"%string, json.int64 (to_int64 (geom.id loot)));
    ("type"%string, json.int64 (to_int64 (geom.type loot)));
    ("value"%string, json.int64 (geom.value loot));
    ("position"%string, json.object_ (SerializePosition (geom.loot_position loot))) ].

Definition SerializeDirection (d : Direction) : string :=
  match d with
  | geom.NORTH => "north"
  | geom.SOUTH => "south"
  | geom.WEST => "west"
  | geom.EAST => "east"
  end.

Definition SerializeDog (dog : Dog) : json.object :=
  [ ("id"%string, json.string_ (dog_id dog));
    ("name"%string, json.string_ (dog_name dog));
    ("map_id"%string, json.string_ (dog_map_id dog));
    ("position"%string, json.object_ (SerializePosition (position_ dog)));
    ("speed"%string, json.object_
       [ ("vx"%string, json.double (geom.Round6 (geom.vx (speed_ dog))));
         ("vy"%string, json.double (geom.Round6 (geom.vy (speed_ dog)))) ]);
    ("direction"%string, json.string_ (SerializeDirection (direction_ dog))) ].

Definition SerializePlayer (player : Player) : json.object :=
  [ ("id"%string, json.int64 (to_int64 (player_id player)));
    ("token"%string, json.string_ (token_ player));
    ("score"%string, json.int64 (score_ player));
    ("bag_capacity"%string, json.int64 (to_int64 (bag_capacity_ player)));
    ("dog"%string, json.object_ (SerializeDog (dog_ player)));
    ("bag"%string,
       json.array (List.map (fun loot => json.object_ (SerializeLoot loot)) (bag_ player))) ].

Definition SerializeSession (session : GameSession) : json.object :=
  [ ("id"%string, json.string_ (session_id session));
    ("map_id"%string, json.string_ (map_id (map_ session)));
    ("next_loot_id"%string, json.uint64 (next_loot_id_ session));
    ("players"%string,
       json.array (List.map (fun player => json.object_ (SerializePlayer player))
                     (players_ session)));
    ("loots"%string,
       json.array (List.map (fun loot => json.object_ (SerializeLoot loot))
                     (loots_ session))) ].

Definition SerializeGame (g : Game) : json.object :=
  [ ("sessions"%string,
       json.array (List.map (fun session => json.object_ (SerializeSession session))
                     (sessions_ g))) ].

(** [Serialize] followed by the reading and parsing of the file in
    [Deserialize]: the value [DeserializeGame] receives. *)
Definition saved_state (g : Game) : json.value :=
  json.reparse (json.object_ (SerializeGame g)).

Definition DeserializePosition (pos_obj : json.object) : option Position :=
  x ← json.at_ pos_obj "x" ≫= json.as_double;
  y ← json.at_ pos_obj "y" ≫= json.as_double;
  Some {| geom.x := x; geom.y := y |}.

(** [DeserializeLoot]; [None] when it throws. *)
Definition DeserializeLoot (json_val : json.object) : option Loot :=
  if negb (json.contains json_val "id" && json.contains json_val "type" &&
           json.contains json_val "value" && json.contains json_val "position")
  then None
  else
    id ← json.at_ json_val "id" ≫= json.as_int64;
    type ← json.at_ json_val "type" ≫= json.as_int64;
    value ← json.at_ json_val "value" ≫= json.as_int64;
    pos_obj ← json.at_ json_val "position" ≫= json.as_object;
    pos ← DeserializePosition pos_obj;
    Some {| geom.id := to_size_t id; geom.type := to_size_t type;
            geom.loot_position := pos; geom.value := to_int value |}.

Definition DeserializeDirection (dir_str : string) : Direction :=
  if String.eqb dir_str "north" then geom.NORTH
  else if String.eqb dir_str "south" then geom.SOUTH
  else if String.eqb dir_str "west" then geom.WEST
  else if String.eqb dir_str "east" then geom.EAST
  else geom.NORTH.

(** [DeserializeDog]; [None] when it throws. *)
Definition DeserializeDog (json_val : json.object) : option Dog :=
  if negb (json.contains json_val "id" && json.contains json_val "name" &&
           json.contains json_val "map_id" && json.contains json_val "position" &&
           json.contains json_val "speed" && json.contains json_val "direction")
  then None
  else
    id ← json.at_ json_val "id" ≫= json.as_string;
    name ← json.at_ json_val "name" ≫= json.as_string;
    dog_map ← json.at_ json_val "map_id" ≫= json.as_string;
    let dog := Dog_new (c_str id) (c_str name) (c_str dog_map) in
    pos_obj ← json.at_ json_val "position" ≫= json.as_object;
    pos ← DeserializePosition pos_obj;
    let dog := SetPosition dog pos in
    speed_obj ← json.at_ json_val "speed" ≫= json.as_object;
    vx ← json.at_ speed_obj "vx" ≫= json.as_double;
    vy ← json.at_ speed_obj "vy" ≫= json.as_double;
    let dog := SetSpeed dog {| geom.vx := vx; geom.vy := vy |} in
    dir_str ← json.at_ json_val "direction" ≫= json.as_string;
    Some (SetDirection dog (DeserializeDirection (c_str dir_str))).

(** The loop that restores a bag: an element that fails to deserialize is
    skipped. *)
Definition restore_bag_item (player : Player) (loot_val : json.value) : Player :=
  match json.as_object loot_val ≫= DeserializeLoot with
  | Some loot => AddToBag player loot
  | None => player
  end.

(** [DeserializePlayer]; [None] when it throws. *)
Definition DeserializePlayer (json_val : json.object) : option Player :=
  if negb (json.contains json_val "id" && json.contains json_val "token" &&
           json.contains json_val "score" && json.contains json_val "bag_capacity" &&
           json.contains json_val "dog")
  then None
  else
    id ← json.at_ json_val "id" ≫= json.as_int64;
    token_str ← json.at_ json_val "token" ≫= json.as_string;
    score ← json.at_ json_val "score" ≫= json.as_int64;
    bag_capacity ← json.at_ json_val "bag_capacity" ≫= json.as_int64;
    dog_obj ← json.at_ json_val "dog" ≫= json.as_object;
    dog ← DeserializeDog dog_obj;
    let player := Player_new (to_size_t id) dog (c_str token_str) (to_size_t bag_capacity) in
    let player := AddScore player (to_int score) in
    if json.contains json_val "bag" then
      bag_array ← json.at_ json_val "bag" ≫= json.as_array;
      Some (fold_left restore_bag_item bag_array player)
    else Some player.

Definition restore_player (session : GameSession) (player_val : json.value) : GameSession :=
  match json.as_object player_val ≫= DeserializePlayer with
  | Some player => AddPlayer session player
  | None => session
  end.

Definition restore_loot (session : GameSession) (loot_val : json.value) : GameSession :=
  match json.as_object loot_val ≫= DeserializeLoot with
  | Some loot => AddLoot session loot
  | None => session
  end.

(** [DeserializeSession]: the game afterwards (what was done before an
    exception stays done) and whether it returned without throwing. *)
Definition DeserializeSession (g : Game) (json_val : json.object) : Game * bool :=
  if negb (json.contains json_val "map_id") then (g, false)
  else
    match json.at_ json_val "map_id" ≫= json.as_string with
    | None => (g, false)
    | Some map_id_str =>
        match GetOrCreateSession g (c_str map_id_str) with
        | None => (g, false)
        | Some (g, idx) =>
            match
              (if json.contains json_val "next_loot_id" then
                 next ← json.at_ json_val "next_loot_id" ≫= json.as_int64;
                 Some (update_session g idx (fun s => SetNextLootId s (to_size_t next)))
               else Some g)
            with
            | None => (g, false)
            | Some g =>
                match
                  (if json.contains json_val "players" then
                     players_array ← json.at_ json_val "players" ≫= json.as_array;
                     Some (update_session g idx
                             (fun s => fold_left restore_player players_array s))
                   else Some g)
                with
                | None => (g, false)
                | Some g =>
                    match
                      (if json.contains json_val "loots" then
                         loots_array ← json.at_ json_val "loots" ≫= json.as_array;
                         Some (update_session g idx
                                 (fun s => fold_left restore_loot loots_array s))
                       else Some g)
                    with
                    | None => (g, false)
                    | Some g => (g, true)
                    end
                end
            end
        end
    end.

(** Body of the loop of [DeserializeGame]: a session that throws is logged
    and the loop goes on. *)
Definition restore_session (g : Game) (session_val : json.value) : Game :=
  match json.as_object session_val with
  | Some session_obj => fst (DeserializeSession g session_obj)
  | None => g
  end.

(** [DeserializeGame]; [None] when it throws. *)
Definition DeserializeGame (g : Game) (json_val : json.object) : option Game :=
  if negb (json.contains json_val "sessions") then Some g
  else
    sessions_array ← json.at_ json_val "sessions" ≫= json.as_array;
    Some (fold_left restore_session sessions_array g).

(** [Deserialize] of a file that exists and holds the given value; [None]
    when it throws. *)
Definition Deserialize (g : Game) (file : json.value) : option Game :=
  json.as_object file ≫= DeserializeGame g.

(** *** Equality modulo the rounding of coordinates to 6 decimals *)

Definition rounded_position (pos : Position) : Position :=
  {| geom.x := geom.Round6 (geom.x pos); geom.y := geom.Round6 (geom.y pos) |}.

Definition rounded_speed (speed : Speed) : Speed :=
  {| geom.vx := geom.Round6 (geom.vx speed); geom.vy := geom.Round6 (geom.vy speed) |}.

Definition loot_restored (loot restored : Loot) : Prop :=
  geom.id restored = geom.id loot /\
  geom.type restored = geom.type loot /\
  geom.value restored = geom.value loot /\
  geom.loot_position restored = rounded_position (geom.loot_position loot).

Definition dog_restored (dog restored : Dog) : Prop :=
  dog_id restored = dog_id dog /\
  dog_name restored = dog_name dog /\
  dog_map_id restored = dog_map_id dog /\
  direction_ restored = direction_ dog /\
  position_ restored = rounded_position (position_ dog) /\
  speed_ restored = rounded_speed (speed_ dog).

Definition player_restored (player restored : Player) : Prop :=
  player_id restored = player_id player /\
  token_ restored = token_ player /\
  score_ restored = score_ player /\
  bag_capacity_ restored = bag_capacity_ player /\
  Forall2 loot_restored (bag_ player) (bag_ restored) /\
  dog_restored (dog_ player) (dog_ restored).

Definition session_restored (session restored : GameSession) : Prop :=
  session_id restored = session_id session /\
  map_ restored = map_ session /\
  next_loot_id_ restored = next_loot_id_ session /\
  Forall2 player_restored (players_ session) (players_ restored) /\
  Forall2 loot_restored (loots_ session) (loots_ restored).

(** *** The sessions a game can hold *)

(** A string without a NUL character. *)
Fixpoint no_nul (s : string) : Prop :=
  match s with
  | EmptyString => True
  | String c rest => c <> Ascii.zero /\ no_nul rest
  end.

(** The values of a [size_t] and of an [int]. *)
Definition size_t_range (n : N) : Prop := (n < 2 ^ 64)%N.
Definition int_range (i : Z) : Prop := (- 2 ^ 31 <= i < 2 ^ 31)%Z.

Definition loot_wf (loot : Loot) : Prop :=
  size_t_range (geom.id loot) /\ size_t_range (geom.type loot) /\
  int_range (geom.value loot).

Definition dog_wf (dog : Dog) : Prop :=
  no_nul (dog_id dog) /\ no_nul (dog_name dog) /\ no_nul (dog_map_id dog).

Definition player_wf (player : Player) : Prop :=
  size_t_range (player_id player) /\ size_t_range (bag_capacity_ player) /\
  int_range (score_ player) /\ no_nul (token_ player) /\ dog_wf (dog_ player) /\
  Forall loot_wf (bag_ player) /\ bag_ok player.

(** A session as [GetOrCreateSession] of game [g] makes it and ticks keep
    it: named after its map, which is the map [g] finds under that id. *)
Definition session_wf (g : Game) (session : GameSession) : Prop :=
  session_id session = (map_id (map_ session) ++ "_session")%string /\
  FindMap g (map_id (map_ session)) = Some (map_ session) /\
  no_nul (map_id (map_ session)) /\
  (next_loot_id_ session <= json.INT64_MAX)%N /\
  Forall player_wf (players_ session) /\
  Forall loot_wf (loots_ session).

(** What the snapshot gives back for a loot, a dog and a player. *)
Definition saved_loot (loot : Loot) : Loot :=
  {| geom.id := geom.id loot; geom.type := geom.type loot;
     geom.loot_position := rounded_position (geom.loot_position loot);
     geom.value := geom.value loot |}.

Definition saved_dog (dog : Dog) : Dog :=
  {| dog_id := dog_id dog; dog_name := dog_name dog; dog_map_id := dog_map_id dog;
     position_ := rounded_position (position_ dog);
     speed_ := rounded_speed (speed_ dog);
     direction_ := direction_ dog;
     previous_position_ := {| geom.x := 0; geom.y := 0 |} |}.

Definition saved_player (player : Player) : Player :=
  {| player_id := player_id player; dog_ := saved_dog (dog_ player);
     token_ := token_ player; bag_ := List.map saved_loot (bag_ player);
     bag_capacity_ := bag_capacity_ player; score_ := score_ player;
     play_time_ := 0; idle_time_ := 0 |}.

(** What the snapshot gives back for a session of game [g]. *)
Definition saved_session (g : Game) (session : GameSession) : GameSession :=
  {| session_id := session_id session; map_ := map_ session; game_ := true;
     players_ := List.map saved_player (players_ session);
     loots_ := List.map saved_loot (loots_ session);
     next_loot_id_ := next_loot_id_ session;
     loot_generator_ := loot_generator_config_ g |}.

(** Every player of every session of the game has its bag within capacity. *)
Definition game_bags_ok (g : Game) : Prop :=
  Forall (fun session => Forall bag_ok (players_ session)) (sessions_ g).

End state_serializer.

(** ** geom.h: [Round6] as doubles compute it *)

Module geom_double.

(** The unit roundoff of [double], [2^-53]; half the least positive
    [double], [2^-1075]; and [2^1023], below which no result overflows. *)
Definition unit_roundoff : Q := 1 # (2 ^ 53).
Definition half_least : Q := 1 # (2 ^ 1075).
Definition largest : Q := 2 ^ 1023 # 1.

(** [fl] takes the exact result of an operation to the [double] the
    operation returns, as IEEE 754 arithmetic does when it rounds to
    nearest: the relative error is at most the unit roundoff, or, for a
    subnormal result, the absolute error at most half the least double. *)
Definition rounds_to_nearest (fl : Q -> Q) : Prop :=
  forall x, Qabs x <= largest -> Qabs (fl x - x) <= unit_roundoff * Qabs x + half_least.

(** [Round6]: the product and the quotient are rounded; [std::round] of a
    [double] is exact, and so is the constant. *)
Definition Round6 (fl : Q -> Q) (v : Q) : Q :=
  fl (inject_Z (geom.std_round (fl (v * 1000000))) / 1000000).

End geom_double.

(** ** Measures of a session (for the statements only) *)

Module accounting.
Import model.

(** What a player holds: the score and the value of the bag. *)
Definition player_value (p : Player) : Z := (score_ p + bag_total (bag_ p))%Z.

Definition players_value (players : list Player) : Z :=
  foldr (fun p sum => (player_value p + sum)%Z) 0%Z players.

(** The value in a session: what its players hold and what lies on the
    map. *)
Definition session_value (s : GameSession) : Z :=
  (players_value (players_ s) + bag_total (loots_ s))%Z.

(** What a tick leaves alone in a player. *)
Definition same_identity (p p' : Player) : Prop :=
  player_id p' = player_id p /\ token_ p' = token_ p /\
  bag_capacity_ p' = bag_capacity_ p /\
  dog_id (dog_ p') = dog_id (dog_ p) /\ dog_name (dog_ p') = dog_name (dog_ p) /\
  dog_map_id (dog_ p') = dog_map_id (dog_ p) /\
  direction_ (dog_ p') = direction_ (dog_ p).

(** The test [is_idle] of [UpdateState]. *)
Definition is_idle (p : Player) : bool :=
  Qltb (Qabs (geom.vx (speed_ (dog_ p)))) EPS && Qltb (Qabs (geom.vy (speed_ (dog_ p)))) EPS.

(** Invariant of the loop over the events: what the players hold grew by
    the value of the pickups. *)
Definition value_inv (players : list Player) (st : CollisionState) : Prop :=
  players_value (cs_players st) =
  (players_value players + bag_total (List.map snd (cs_picked st)))%Z.

(** What one tick does to a player apart from its dog's position and speed,
    its bag and its score. *)
Definition ticked (dt : Q) (p p' : Player) : Prop :=
  same_identity p p' /\
  play_time_ p' = play_time_ p + dt /\
  idle_time_ p' = if is_idle p then idle_time_ p + dt else 0.

End accounting.

(** ** model.cpp: the other member functions of [Map] *)

Module model_map.
Import model.

(** [Map::GetMovementBounds]; its body is that of
    [GetExactMovementBounds]. *)
Definition GetMovementBounds (m : Map) : Position * Position :=
  match roads_ m with
  | [] => ({| geom.x := 0; geom.y := 0 |}, {| geom.x := 0; geom.y := 0 |})
  | road :: rest => fold_left bounds_step rest (GetBorders road)
  end.

Definition IsOutOfBounds (m : Map) (pos : Position) : bool :=
  let '(min_bound, max_bound) := GetMovementBounds m in
  Qltb (geom.x pos) (geom.x min_bound) || Qltb (geom.x max_bound) (geom.x pos) ||
  Qltb (geom.y pos) (geom.y min_bound) || Qltb (geom.y max_bound) (geom.y pos).

(** [Map::ProjectToRoad]: the nearest point of the centre line of the
    road. *)
Definition ProjectToRoad (pos : Position) (road : Road) : Position :=
  if IsHorizontal road then
    let road_y := geom.y (GetStart road) in
    let road_min_x := std_min (geom.x (GetStart road)) (geom.x (GetEnd road)) in
    let road_max_x := std_max (geom.x (GetStart road)) (geom.x (GetEnd road)) in
    let projected_x := std_max road_min_x (std_min (geom.x pos) road_max_x) in
    {| geom.x := projected_x; geom.y := road_y |}
  else
    let road_x := geom.x (GetStart road) in
    let road_min_y := std_min (geom.y (GetStart road)) (geom.y (GetEnd road)) in
    let road_max_y := std_max (geom.y (GetStart road)) (geom.y (GetEnd road)) in
    let projected_y := std_max road_min_y (std_min (geom.y pos) road_max_y) in
    {| geom.x := road_x; geom.y := projected_y |}.

Section distance.

(** [std::sqrt] on doubles; its values are not rational in general, so the
    function is a parameter. *)
Variable std_sqrt : Q -> Q.

Definition CalculateDistanceToRoad (pos : Position) (road : Road) : Q :=
  if IsHorizontal road then
    let road_y := geom.y (GetStart road) in
    let road_min_x := std_min (geom.x (GetStart road)) (geom.x (GetEnd road)) in
    let road_max_x := std_max (geom.x (GetStart road)) (geom.x (GetEnd road)) in
    let y_dist := Qabs (geom.y pos - road_y) in
    let x_dist :=
      if Qltb (geom.x pos) road_min_x then road_min_x - geom.x pos
      else if Qltb road_max_x (geom.x pos) then geom.x pos - road_max_x
      else 0 in
    std_sqrt (y_dist * y_dist + x_dist * x_dist)
  else
    let road_x := geom.x (GetStart road) in
    let road_min_y := std_min (geom.y (GetStart road)) (geom.y (GetEnd road)) in
    let road_max_y := std_max (geom.y (GetStart road)) (geom.y (GetEnd road)) in
    let x_dist := Qabs (geom.x pos - road_x) in
    let y_dist :=
      if Qltb (geom.y pos) road_min_y then road_min_y - geom.y pos
      else if Qltb road_max_y (geom.y pos) then geom.y pos - road_max_y
      else 0 in
    std_sqrt (x_dist * x_dist + y_dist * y_dist).

(** The loop of [GetClosestValidPosition] with what follows it.  The
    accumulator is [closest_road] with [min_distance]; [None] stands for the
    null pointer and the initial largest finite double, below which every
    distance lies. *)
Fixpoint closest_road_loop (roads : list Road) (pos : Position)
    (acc : option (Road * Q)) : Position :=
  match roads with
  | [] =>
      match acc with
      | Some (closest_road, _) => ProjectToRoad pos closest_road
      | None => pos
      end
  | road :: rest =>
      if IsPositionInRoad road pos then pos
      else
        let distance := CalculateDistanceToRoad pos road in
        match acc with
        | None => closest_road_loop rest pos (Some (road, distance))
        | Some (_, min_distance) =>
            if Qltb distance min_distance
            then closest_road_loop rest pos (Some (road, distance))
            else closest_road_loop rest pos acc
        end
  end.

(** The clamp to the movement bounds at the start of
    [GetClosestValidPosition]. *)
Definition clamp_to_bounds (m : Map) (pos : Position) : Position :=
  let '(min_bound, max_bound) := GetMovementBounds m in
  {| geom.x := std_max (geom.x min_bound) (std_min (geom.x pos) (geom.x max_bound));
     geom.y := std_max (geom.y min_bound) (std_min (geom.y pos) (geom.y max_bound)) |}.

Definition GetClosestValidPosition (m : Map) (pos : Position) : Position :=
  match roads_ m with
  | [] => pos
  | _ :: _ => closest_road_loop (roads_ m) (clamp_to_bounds m pos) None
  end.

End distance.

(** Invariant of the loop of [GetClosestValidPosition] over the roads
    visited. *)
Definition closest_inv (std_sqrt : Q -> Q) (pos : Position) (visited : list Road) (acc : option (Road * Q))
    : Prop :=
  match acc with
  | None => visited = []
  | Some (road, d) =>
      road ∈ visited /\ d = CalculateDistanceToRoad std_sqrt pos road /\
      forall r, r ∈ visited -> d <= CalculateDistanceToRoad std_sqrt pos r
  end.

Definition GetStartPosition (m : Map) : Position :=
  match roads_ m with
  | [] => {| geom.x := 0; geom.y := 0 |}
  | first_road :: _ =>
      let start_point := GetStart first_road in
      {| geom.x := geom.x start_point; geom.y := geom.y start_point |}
  end.

(** What the random engine delivers to one call of [GetRandomPosition]: for
    the bounds they are given, the index drawn from [road_dist] and the
    value drawn from [pos_dist]. *)
Record PositionDraw := {
  road_dist : nat -> nat -> nat;
  pos_dist : Q -> Q -> Q
}.

(** [Map::GetRandomPosition]. *)
Definition GetRandomPosition (m : Map) (draw : PositionDraw) : Position :=
  match roads_ m with
  | [] => {| geom.x := 0; geom.y := 0 |}
  | first_road :: _ =>
      let road := nth (road_dist draw 0 (length (roads_ m) - 1)) (roads_ m) first_road in
      let start := GetStart road in
      let end_ := GetEnd road in
      let tolerance := 0.4 in
      if IsHorizontal road then
        let min_x := std_min (geom.x start) (geom.x end_) + tolerance in
        let max_x := std_max (geom.x start) (geom.x end_) - tolerance in
        let '(min_x, max_x) :=
          if Qleb max_x min_x then (geom.x start, geom.x end_) else (min_x, max_x) in
        {| geom.x := pos_dist draw min_x max_x; geom.y := geom.y start |}
      else
        let min_y := std_min (geom.y start) (geom.y end_) + tolerance in
        let max_y := std_max (geom.y start) (geom.y end_) - tolerance in
        let '(min_y, max_y) :=
          if Qleb max_y min_y then (geom.y start, geom.y end_) else (min_y, max_y) in
        {| geom.x := geom.x start; geom.y := pos_dist draw min_y max_y |}
  end.

(** [std::uniform_int_distribution] returns a value between its bounds. *)
Definition uniform_int (draw : PositionDraw) : Prop :=
  forall a b, (a <= b)%nat -> (a <= road_dist draw a b <= b)%nat.

(** [std::uniform_real_distribution] requires its bounds in order and then
    returns a value between them. *)
Definition uniform_real (draw : PositionDraw) : Prop :=
  forall a b, a <= b -> a <= pos_dist draw a b <= b.

(** A road on which [GetRandomPosition] calls [pos_dist] with its bounds in
    order: it is longer than 0.8, or it runs towards the larger
    coordinate. *)
Definition samplable (r : Road) : Prop :=
  if IsHorizontal r
  then GetMinX r + 0.4 < GetMaxX r - 0.4 \/ geom.x (start_ r) <= geom.x (end_ r)
  else GetMinY r + 0.4 < GetMaxY r - 0.4 \/ geom.y (start_ r) <= geom.y (end_ r).

(** The position lies within the movement bounds, borders included. *)
Definition in_bounds (m : Map) (p : Position) : Prop :=
  let '(min_bound, max_bound) := GetMovementBounds m in
  (geom.x min_bound <= geom.x p /\ geom.x p <= geom.x max_bound) /\
  (geom.y min_bound <= geom.y p /\ geom.y p <= geom.y max_bound).

End model_map.

(** ** model.cpp: the map index and the player lookup of [Game] *)

Module game_index.
Import model game.

(** The two members of [Game] that [AddMap] and [FindMap] work on. *)
Record MapStore := {
  store_maps_ : list Map;
  map_id_to_index_ : gmap string nat
}.

Definition empty_store : MapStore :=
  {| store_maps_ := []; map_id_to_index_ := ∅ |}.

(** [Game::AddMap]; [None] when it throws because the id is taken. *)
Definition AddMap (st : MapStore) (m : Map) : option MapStore :=
  let index := length (store_maps_ st) in
  match map_id_to_index_ st !! map_id m with
  | Some _ => None
  | None =>
      Some {| store_maps_ := store_maps_ st ++ [m];
              map_id_to_index_ := <[map_id m := index]> (map_id_to_index_ st) |}
  end.

(** [Game::FindMap] as the source has it, through the index. *)
Definition FindMap (st : MapStore) (id : string) : option Map :=
  match map_id_to_index_ st !! id with
  | Some index => store_maps_ st !! index
  | None => None
  end.

(** The maps of a configuration added one after the other, as the loop of
    [LoadGame] does; [None] when one of the calls throws. *)
Definition add_maps (maps : list Map) (st : MapStore) : option MapStore :=
  foldl (fun acc m => acc ≫= fun st => AddMap st m) (Some st) maps.

(** [GameSession::FindPlayerByToken], as the index of the player found. *)
Fixpoint find_player (players : list Player) (token : string) : option nat :=
  match players with
  | [] => None
  | player :: rest =>
      if String.eqb (token_ player) token then Some O
      else option_map S (find_player rest token)
  end.

(** [Game::FindPlayerByToken], as the indices of the session and of the
    player found. *)
Fixpoint find_player_in (sessions : list GameSession) (token : string)
    : option (nat * nat) :=
  match sessions with
  | [] => None
  | session :: rest =>
      match find_player (players_ session) token with
      | Some player => Some (O, player)
      | None => option_map (fun found => (S (fst found), snd found))
                  (find_player_in rest token)
      end
  end.

Definition FindPlayerByToken (g : Game) (token : string) : option (nat * nat) :=
  find_player_in (sessions_ g) token.

(** The index holds exactly the positions of the maps under their ids. *)
Definition index_inv (st : MapStore) : Prop :=
  (forall id i, map_id_to_index_ st !! id = Some i ->
     exists m, store_maps_ st !! i = Some m /\ map_id m = id) /\
  (forall i m, store_maps_ st !! i = Some m ->
     map_id_to_index_ st !! map_id m = Some i).

(** The map ids of the sessions of a game. *)
Definition session_map_ids (g : Game) : list string :=
  List.map (fun s => map_id (map_ s)) (sessions_ g).

End game_index.

(** ** token.h *)

Module token.

(** The lower-case digit a stream in [std::hex] mode writes for a value
    below 16. *)
Definition hex_digit (d : N) : Ascii.ascii :=
  nth (N.to_nat d) (String.list_ascii_of_string "0123456789abcdef") "0"%char.

(** The digits [operator<<] writes for an unsigned number in [std::hex]
    mode: base 16, most significant digit first, no leading zeros.  A
    [uint64_t] has at most 16 of them, which bounds the recursion. *)
Fixpoint hex_digits (fuel : nat) (n : N) : list Ascii.ascii :=
  match fuel with
  | O => []
  | S fuel' =>
      if (n <? 16)%N then [hex_digit n]
      else hex_digits fuel' (n / 16) ++ [hex_digit (n mod 16)]
  end.

(** [std::setw(width)] with [std::setfill(fill)]: a shorter output is
    padded on the left. *)
Definition setw (width : nat) (fill : Ascii.ascii) (out : list Ascii.ascii) : list Ascii.ascii :=
  replicate (width - length out) fill ++ out.

(** [TokenGenerator::GenerateToken] for the two numbers the generators
    deliver. *)
Definition GenerateToken (part1 part2 : N) : string :=
  let ss := setw 16 "0"%char (hex_digits 16 part1) ++ setw 16 "0"%char (hex_digits 16 part2) in
  let token_str :=
    if (32 <? length ss)%nat then take 32 ss
    else if (length ss <? 32)%nat then replicate (32 - length ss) "0"%char ++ ss
    else ss in
  String.string_of_list_ascii token_str.

(** [std::isxdigit] in the C locale. *)
Definition isxdigit (c : Ascii.ascii) : bool :=
  let n := Ascii.nat_of_ascii c in
  ((48 <=? n) && (n <=? 57) || (97 <=? n) && (n <=? 102) || (65 <=? n) && (n <=? 70))%nat.

(** The test of the token that the handlers of the authorised requests
    make: 32 characters, all of them hexadecimal digits. *)
Definition valid_token_format (token_str : string) : bool :=
  (String.length token_str =? 32)%nat && forallb isxdigit (String.list_ascii_of_string token_str).

(** The value of a hexadecimal digit and of a string of such digits (for
    the statements only). *)
Definition digit_value (c : Ascii.ascii) : N :=
  let n := N.of_nat (Ascii.nat_of_ascii c) in
  if (n <? 58)%N then n - 48 else n - 87.

Definition hex_value (l : list Ascii.ascii) : N :=
  fold_left (fun acc c => acc * 16 + digit_value c)%N l 0%N.

(** The characters of the token before it is made a string. *)
Definition token_chars (part1 part2 : N) : list Ascii.ascii :=
  setw 16 "0"%char (hex_digits 16 part1) ++ setw 16 "0"%char (hex_digits 16 part2).

End token.

(** ** json_loader.cpp *)

Module json_loader.
Import model.

(** [ParseRoad]; [None] when it throws.  The [int64_t] coordinates are
    converted to [double]. *)
Definition ParseRoad (road_obj : json.object) : option Road :=
  if json.contains road_obj "x0" && json.contains road_obj "y0" then
    x0 ← json.at_ road_obj "x0" ≫= json.as_int64;
    y0 ← json.at_ road_obj "y0" ≫= json.as_int64;
    let start := {| geom.x := inject_Z x0; geom.y := inject_Z y0 |} in
    if json.contains road_obj "x1" then
      x1 ← json.at_ road_obj "x1" ≫= json.as_int64;
      Some (Road_HORIZONTAL start (inject_Z x1))
    else if json.contains road_obj "y1" then
      y1 ← json.at_ road_obj "y1" ≫= json.as_int64;
      Some (Road_VERTICAL start (inject_Z y1))
    else None
  else None.

(** The four coordinates of the road are whole numbers. *)
Definition integer_road (r : Road) : Prop :=
  exists x0 y0 x1 y1 : Z,
    start_ r = {| geom.x := inject_Z x0; geom.y := inject_Z y0 |} /\
    end_ r = {| geom.x := inject_Z x1; geom.y := inject_Z y1 |}.

End json_loader.

(** ** serializing_listener.cpp *)

Module serializing_listener.

(** The two members of [SerializingListener] that [OnTick] works on, in
    milliseconds. *)
Record SerializingListener := {
  save_period_ : Z;
  time_since_last_save_ : Z
}.

(** The constructor. *)
Definition SerializingListener_new (save_period : Z) : SerializingListener :=
  {| save_period_ := save_period; time_since_last_save_ := 0 |}.

(** [OnTick]: the listener afterwards and whether it wrote the state.
    [written] tells whether [Serialize] returns (it throws when the file
    cannot be written, which [OnTick] catches). *)
Definition OnTick (l : SerializingListener) (delta : Z) (written : bool)
    : SerializingListener * bool :=
  let time := (time_since_last_save_ l + delta)%Z in
  if (save_period_ l <=? time)%Z then
    if written
    then ({| save_period_ := save_period_ l; time_since_last_save_ := 0 |}, true)
    else ({| save_period_ := save_period_ l; time_since_last_save_ := time |}, false)
  else ({| save_period_ := save_period_ l; time_since_last_save_ := time |}, false).

(** A run of ticks, each with its [delta] and with whether the file can be
    written: the listener afterwards and, tick by tick, whether the state
    was written. *)
Fixpoint run (l : SerializingListener) (ticks : list (Z * bool))
    : SerializingListener * list bool :=
  match ticks with
  | [] => (l, [])
  | (delta, written) :: rest =>
      let '(l', saved) := OnTick l delta written in
      let '(l'', log) := run l' rest in
      (l'', saved :: log)
  end.

(** The game time that the last written state does not cover: the sum of
    the [delta]s of the ticks after the last one that wrote the state (of
    all ticks when none did). *)
Fixpoint uncovered (ticks : list (Z * bool)) (log : list bool) : Z :=
  match ticks, log with
  | (delta, _) :: ticks', saved :: log' =>
      ((if saved || existsb (fun saved : bool => saved) log' then 0 else delta) + uncovered ticks' log')%Z
  | _, _ => 0%Z
  end.

End serializing_listener.

(** ** What a game keeps when a state is loaded into it (for the statements only) *)

Module snapshot.
Import model game state_serializer.

(** A session holds all that another held, in the same places: the same
    id and map, and the players and the loots of the other at the front of
    its own. *)
Definition session_extends (s s' : GameSession) : Prop :=
  session_id s' = session_id s /\ map_ s' = map_ s /\ game_ s' = game_ s /\
  loot_generator_ s' = loot_generator_ s /\
  players_ s `prefix_of` players_ s' /\ loots_ s `prefix_of` loots_ s'.

(** A game holds all that another held: the same maps and configuration,
    and session by session what the other held. *)
Definition game_extends (g g' : Game) : Prop :=
  maps_ g' = maps_ g /\ config_ g' = config_ g /\
  loot_generator_config_ g' = loot_generator_config_ g /\
  forall i s, sessions_ g !! i = Some s ->
    exists s', sessions_ g' !! i = Some s' /\ session_extends s s'.

End snapshot.

(** ** model.cpp: the tick of the whole game, with its exception *)

Module game_tick.
Import model game.

(** The read of the catalogue in [GameSession::UpdateState] throws: the
    entry is there and is one the code cannot read (no object, or a
    ["value"] that is no [int64]). *)
Definition loot_value_throws (m : Map) (type : N) : bool :=
  match loot_types_ m !! N.to_nat type with
  | Some None => true
  | _ => false
  end.

(** The loop that creates the loots, up to the first read that throws:
    the session at that point, and whether a read threw.  The type and the
    position are drawn before the read, the loot is made and the counter
    advanced after it. *)
Fixpoint spawn_loots_checked (inp : TickInput) (i new_loot_count : nat) (s : GameSession)
    : GameSession * bool :=
  match new_loot_count with
  | O => (s, false)
  | S remaining =>
      let '(type, pos) := ti_draw inp i in
      if loot_value_throws (map_ s) type then (s, true)
      else
        let value := loot_value (map_ s) type in
        let loot := {| geom.id := next_loot_id_ s; geom.type := type;
                       geom.loot_position := pos; geom.value := value |} in
        let s := SetNextLootId s ((next_loot_id_ s + 1) mod size_max)%N in
        spawn_loots_checked inp (S i) remaining (AddLoot s loot)
  end.

Section tick.

Variable std_pow : Q -> Q -> Q.

Definition generate_loots_checked (inp : TickInput) (delta_time : Q) (s : GameSession)
    : GameSession * bool :=
  match loot_generator_ s with
  | None => (s, false)
  | Some g =>
      let '(new_loot_count, g') := call_generator std_pow g inp delta_time s in
      spawn_loots_checked inp 0 (N.to_nat new_loot_count) (SetLootGenerator s (Some g'))
  end.

(** [GameSession::UpdateState] with its exception: the session afterwards,
    the players handed to the retired-player callback, and whether the
    function threw.  When a read of the catalogue throws, the times of the
    players are updated, the generator has run and the loots made so far are
    in the session; nothing else has happened.  Otherwise the tick is the
    one of [model.UpdateState]. *)
Definition GameSession_UpdateState (g : GameConfig) (s : GameSession) (delta_time : Q)
    (inp : TickInput) : GameSession * list Player * bool :=
  let timed := set_players s (List.map (update_times delta_time) (players_ s)) in
  let '(spawned, thrown) := generate_loots_checked inp delta_time timed in
  if thrown then (spawned, [], true)
  else
    let '(s', retired, _) := model.UpdateState std_pow g s delta_time inp in
    (s', retired, false).

(** The loop of [Game::UpdateState] from session [i] on: the sessions
    afterwards, the players handed to the retired-player callback, and
    whether a session threw, which ends the loop.  [inp] gives each
    session, by its index, the randomness of its tick. *)
Fixpoint update_sessions (g : GameConfig) (sessions : list GameSession) (delta_time : Q)
    (inp : nat -> TickInput) (i : nat) : list GameSession * list Player * bool :=
  match sessions with
  | [] => ([], [], false)
  | session :: rest =>
      let '(session', retired, thrown) :=
        GameSession_UpdateState g session delta_time (inp i) in
      if thrown then (session' :: rest, retired, true)
      else
        let '(rest', retired', thrown') := update_sessions g rest delta_time inp (S i) in
        (session' :: rest', retired ++ retired', thrown')
  end.

Definition UpdateState (g : Game) (delta_time : Q) (inp : nat -> TickInput)
    : Game * list Player * bool :=
  let '(sessions, retired, thrown) :=
    update_sessions (config_ g) (sessions_ g) delta_time inp 0 in
  (set_sessions g sessions, retired, thrown).

End tick.

End game_tick.

(** ** request_handler.h: joining, moving and ticking *)

Module http_handler.
Import model game game_index model_map token serializing_listener.

Inductive verb := get | head | post | other_verb.

Inductive status :=
  ok | bad_request | unauthorized | not_found | method_not_allowed | internal_server_error.

(** What the handlers read of a request. *)
Record Request := {
  method : verb;
  content_type : option string;
  authorization : option string;
  body : string
}.

(** Status and JSON body of a response ([None] for an empty body); the
    header fields are left out. *)
Record Response := {
  result : status;
  response_body : option json.value
}.

Definition MakeErrorResponse (st : status) (message error_code : string) : Response :=
  {| result := st;
     response_body := Some (json.object_ [ ("code"%string, json.string_ error_code);
                                           ("message"%string, json.string_ message) ]) |}.

Definition MakeInvalidTokenResponse (message : string) : Response :=
  {| result := unauthorized;
     response_body := Some (json.object_ [ ("code"%string, json.string_ "invalidToken");
                                           ("message"%string, json.string_ message) ]) |}.

Definition MakeUnknownTokenResponse : Response :=
  {| result := unauthorized;
     response_body :=
       Some (json.object_ [ ("code"%string, json.string_ "unknownToken");
                            ("message"%string,
                             json.string_ "Player token has not been found") ]) |}.

Definition MakeMethodNotAllowedResponse : Response :=
  {| result := method_not_allowed;
     response_body := Some (json.object_ [ ("code"%string, json.string_ "invalidMethod");
                                           ("message"%string, json.string_ "Invalid method") ]) |}.

Definition MakeJsonResponse (req : Request) (st : status) (body : json.value) : Response :=
  {| result := st;
     response_body := match method req with head => None | _ => Some body end |}.

(** The test of the [Content-Type] field. *)
Definition is_json (req : Request) : bool :=
  match content_type req with
  | Some value => String.eqb value "application/json"
  | None => false
  end.

(** The members of [RequestHandler] that the three handlers work on. *)
Record RequestHandler := {
  rh_game_ : Game;
  next_player_id_ : N;
  randomize_spawn_points_ : bool;
  tick_listener_ : option SerializingListener
}.

(** What the random engines deliver to one call of [HandleJoinGame]. *)
Record JoinDraw := {
  token_part1 : N;
  token_part2 : N;
  spawn_draw : PositionDraw
}.

(** A change made through the pointer [FindPlayerByToken] returned. *)
Definition update_player (g : Game) (session_idx player_idx : nat) (f : Player -> Player)
    : Game :=
  update_session g session_idx (fun s => set_players s (alter f player_idx (players_ s))).

(** The chain of tests on the string ["move"] in [HandlePlayerAction];
    [None] when it is none of the five. *)
Definition apply_move (speed : Q) (dog : Dog) (move_str : string) : option Dog :=
  if String.eqb move_str "L" then
    Some (SetSpeed (SetDirection dog geom.WEST) {| geom.vx := - speed; geom.vy := 0 |})
  else if String.eqb move_str "R" then
    Some (SetSpeed (SetDirection dog geom.EAST) {| geom.vx := speed; geom.vy := 0 |})
  else if String.eqb move_str "U" then
    Some (SetSpeed (SetDirection dog geom.NORTH) {| geom.vx := 0; geom.vy := - speed |})
  else if String.eqb move_str "D" then
    Some (SetSpeed (SetDirection dog geom.SOUTH) {| geom.vx := 0; geom.vy := speed |})
  else if String.eqb move_str "" then
    Some (SetSpeed dog {| geom.vx := 0; geom.vy := 0 |})
  else None.

Section handlers.

(** [json::parse]; [None] when it throws. *)
Variable json_parse : string -> option json.value.

Variable std_pow : Q -> Q -> Q.

(** [HandleJoinGame].  An exception thrown inside its [try] block ends in
    the response of the [catch]. *)
Definition HandleJoinGame (h : RequestHandler) (req : Request) (draw : JoinDraw)
    : RequestHandler * Response :=
  if negb (is_json req) then
    (h, MakeErrorResponse bad_request "Invalid content type" "invalidArgument")
  else
    let caught :=
      (h, MakeErrorResponse bad_request "Join game request parse error" "invalidArgument") in
    match json_parse (body req) ≫= json.as_object with
    | None => caught
    | Some obj =>
        if negb (json.contains obj "userName") || negb (json.contains obj "mapId") then
          (h, MakeErrorResponse bad_request "Missing required fields" "invalidArgument")
        else
          match json.at_ obj "userName" ≫= json.as_string,
                json.at_ obj "mapId" ≫= json.as_string with
          | Some user_name, Some map_id =>
              if String.eqb user_name "" then
                (h, MakeErrorResponse bad_request "Invalid name" "invalidArgument")
              else
                match game.FindMap (rh_game_ h) map_id with
                | None => (h, MakeErrorResponse not_found "Map not found" "mapNotFound")
                | Some map =>
                    let dog := Dog_new (user_name ++ "_" ++ map_id) user_name map_id in
                    let start_position :=
                      if randomize_spawn_points_ h
                      then GetRandomPosition map (spawn_draw draw)
                      else GetStartPosition map in
                    let dog := SetPosition dog start_position in
                    match GetOrCreateSession (rh_game_ h) map_id with
                    | None => caught
                    | Some (g, session) =>
                        let bag_capacity := map_bag_capacity_ map in
                        let token := GenerateToken (token_part1 draw) (token_part2 draw) in
                        let player_id := next_player_id_ h in
                        let player := Player_new player_id dog token bag_capacity in
                        let g := update_session g session (fun s => AddPlayer s player) in
                        ({| rh_game_ := g;
                            next_player_id_ := (next_player_id_ h + 1) mod size_max;
                            randomize_spawn_points_ := randomize_spawn_points_ h;
                            tick_listener_ := tick_listener_ h |},
                         MakeJsonResponse req ok
                           (json.object_
                              [ ("authToken"%string, json.string_ token);
                                ("playerId"%string,
                                 json.int64 (state_serializer.to_int64 player_id)) ]))
                    end
                end
          | _, _ => caught
          end
    end.

(** The token of an [Authorization] field as [HandlePlayerAction] extracts
    and tests it; on the left the response that refuses the field. *)
Definition bearer_token (req : Request) : Response + string :=
  match authorization req with
  | None => inl (MakeInvalidTokenResponse "Authorization header is required")
  | Some auth_value =>
      if (String.length auth_value <? 7)%nat || negb (String.prefix "Bearer " auth_value) then
        inl (MakeInvalidTokenResponse "Invalid authorization format")
      else
        let token_str := String.substring 7 (String.length auth_value - 7) auth_value in
        if negb (valid_token_format token_str) then
          inl (MakeInvalidTokenResponse "Invalid token format")
        else inr token_str
  end.

Definition set_game (h : RequestHandler) (g : Game) : RequestHandler :=
  {| rh_game_ := g; next_player_id_ := next_player_id_ h;
     randomize_spawn_points_ := randomize_spawn_points_ h;
     tick_listener_ := tick_listener_ h |}.

(** [HandlePlayerAction]. *)
Definition HandlePlayerAction (h : RequestHandler) (req : Request)
    : RequestHandler * Response :=
  match method req with
  | post =>
      match bearer_token req with
      | inl refused => (h, refused)
      | inr token =>
          match FindPlayerByToken (rh_game_ h) token with
          | None => (h, MakeUnknownTokenResponse)
          | Some (session_idx, player_idx) =>
              if negb (is_json req) then
                (h, MakeErrorResponse bad_request "Invalid content type" "invalidArgument")
              else
                let caught :=
                  (h, MakeErrorResponse bad_request "Failed to parse player action JSON"
                        "invalidArgument") in
                match json_parse (body req) ≫= json.as_object with
                | None => caught
                | Some obj =>
                    if negb (json.contains obj "move") then
                      (h, MakeErrorResponse bad_request "Missing move field" "invalidArgument")
                    else
                      match json.at_ obj "move" with
                      | Some (json.string_ move_str) =>
                          match sessions_ (rh_game_ h) !! session_idx ≫=
                                  fun s => players_ s !! player_idx with
                          | None => caught
                          | Some player =>
                              let dog := dog_ player in
                              match game.FindMap (rh_game_ h) (dog_map_id dog) with
                              | None =>
                                  (h, MakeErrorResponse internal_server_error
                                        "Map not found" "internalError")
                              | Some map =>
                                  match apply_move (dog_speed_ map) dog move_str with
                                  | Some dog' =>
                                      (set_game h
                                         (update_player (rh_game_ h) session_idx player_idx
                                            (fun p => set_dog p dog')),
                                       MakeJsonResponse req ok (json.object_ []))
                                  | None =>
                                      (h, MakeErrorResponse bad_request
                                            "Invalid move direction" "invalidArgument")
                                  end
                              end
                          end
                      | Some _ =>
                          (h, MakeErrorResponse bad_request "Invalid move value"
                                "invalidArgument")
                      | None => caught
                      end
                end
          end
      end
  | _ => (h, MakeMethodNotAllowedResponse)
  end.

(** What one call of [HandleGameTick] hands to the world besides its
    response: the players given to the retired-player callback and the
    state written to the file, if one was written. *)
Record TickEffects := {
  retired : list Player;
  written_state : option json.object
}.

Definition no_effects : TickEffects := {| retired := []; written_state := None |}.

(** [HandleGameTick].  [inp] is the randomness of the tick, session by
    session; [writable] tells whether the state file can be written.  The
    update runs inside the [try] block: when it throws, the request is
    answered by the [catch] with the sessions as the exception left them,
    and the listener is not told.  The period that [SetTickPeriod] stores
    is read by the game loop only and is left out. *)
Definition HandleGameTick (h : RequestHandler) (req : Request) (inp : nat -> TickInput)
    (writable : bool) : RequestHandler * Response * TickEffects :=
  match method req with
  | post =>
      if negb (is_json req) then
        (h, MakeErrorResponse bad_request "Invalid content type" "invalidArgument", no_effects)
      else
        let caught :=
          MakeErrorResponse bad_request "Failed to parse tick request JSON"
            "invalidArgument" in
        match json_parse (body req) ≫= json.as_object with
        | None => (h, caught, no_effects)
        | Some obj =>
            if negb (json.contains obj "timeDelta") then
              (h, MakeErrorResponse bad_request "Missing timeDelta field" "invalidArgument",
               no_effects)
            else
              match json.at_ obj "timeDelta" with
              | Some (json.int64 time_delta_ms) =>
                  if (time_delta_ms <? 0)%Z then
                    (h, MakeErrorResponse bad_request "Invalid timeDelta value"
                          "invalidArgument", no_effects)
                  else
                    let delta_time := inject_Z time_delta_ms / 1000 in
                    let '(g, retired_players, thrown) :=
                      game_tick.UpdateState std_pow (rh_game_ h) delta_time inp in
                    if thrown then
                      (set_game h g, caught,
                       {| retired := retired_players; written_state := None |})
                    else
                      let '(listener, saved) :=
                        match tick_listener_ h with
                        | Some l =>
                            let '(l', saved) := OnTick l time_delta_ms writable in
                            (Some l', saved)
                        | None => (None, false)
                        end in
                      ({| rh_game_ := g; next_player_id_ := next_player_id_ h;
                          randomize_spawn_points_ := randomize_spawn_points_ h;
                          tick_listener_ := listener |},
                       MakeJsonResponse req ok (json.object_ []),
                       {| retired := retired_players;
                          written_state :=
                            if saved then Some (state_serializer.SerializeGame g)
                            else None |})
              | Some _ =>
                  (h, MakeErrorResponse bad_request "Invalid timeDelta value"
                        "invalidArgument", no_effects)
              | None => (h, caught, no_effects)
              end
        end
  | _ => (h, MakeMethodNotAllowedResponse, no_effects)
  end.

End handlers.

(** [std::to_string] of an [int64_t]. *)
Definition to_string (i : Z) : string := NilZero.string_of_int (Z.to_int i).

(** Assignment to [object[key]]: the member with the key gets the value
    where it stands, or a new member is added at the end. *)
Fixpoint json_set (o : json.object) (key : string) (v : json.value) : json.object :=
  match o with
  | [] => [(key, v)]
  | (k, x) :: rest =>
      if String.eqb k key then (k, v) :: rest else (k, x) :: json_set rest key v
  end.

(** The token of an [Authorization] field as [HandleGetPlayers] and
    [HandleGetGameState] extract and test it. *)
Definition bearer_token_of_get (req : Request) : Response + string :=
  match authorization req with
  | None => inl (MakeInvalidTokenResponse "Authorization header is required")
  | Some auth_value =>
      if (String.length auth_value <? 7)%nat || negb (String.prefix "Bearer " auth_value) then
        inl (MakeInvalidTokenResponse "Invalid authorization format")
      else
        let token_str := String.substring 7 (String.length auth_value - 7) auth_value in
        if negb (String.length token_str =? 32)%nat then
          inl (MakeInvalidTokenResponse "Invalid token length")
        else if negb (forallb isxdigit (String.list_ascii_of_string token_str)) then
          inl (MakeInvalidTokenResponse "Invalid token format")
        else inr token_str
  end.

(** The session both handlers answer from: the one [FindSessionByMapId]
    returns for the map of the dog of the player that [FindPlayerByToken]
    returns; on the left the response when one of the two finds nothing. *)
Definition session_of_token (g : Game) (token : string) : Response + GameSession :=
  match FindPlayerByToken g token with
  | None => inl MakeUnknownTokenResponse
  | Some (session_idx, player_idx) =>
      match sessions_ g !! session_idx ≫= fun s => players_ s !! player_idx with
      | None => inl MakeUnknownTokenResponse
      | Some player =>
          match FindSessionByMapId g (dog_map_id (dog_ player)) ≫=
                  fun idx => sessions_ g !! idx with
          | None => inl MakeUnknownTokenResponse
          | Some session => inr session
          end
      end
  end.

(** The loop of [HandleGetPlayers] over the players of the session. *)
Definition players_names (players : list Player) : json.object :=
  fold_left
    (fun players_json session_player =>
       json_set players_json
         (to_string (state_serializer.to_int64 (player_id session_player)))
         (json.object_ [ ("name"%string, json.string_ (dog_name (dog_ session_player))) ]))
    players [].

(** [HandleGetPlayers]. *)
Definition HandleGetPlayers (h : RequestHandler) (req : Request) : Response :=
  match method req with
  | get | head =>
      match bearer_token_of_get req with
      | inl refused => refused
      | inr token =>
          match session_of_token (rh_game_ h) token with
          | inl refused => refused
          | inr session =>
              MakeJsonResponse req ok (json.object_ (players_names (players_ session)))
          end
      end
  | _ => MakeMethodNotAllowedResponse
  end.

(** [CreateLootJson]. *)
Definition CreateLootJson (loot : Loot) : json.value :=
  json.object_
    [ ("type"%string, json.int64 (state_serializer.to_int64 (geom.type loot)));
      ("pos"%string,
       json.array [ json.double (geom.Round6 (geom.x (geom.loot_position loot)));
                    json.double (geom.Round6 (geom.y (geom.loot_position loot))) ]) ].

(** What [HandleGetGameState] shows of a player. *)
Definition player_state (session_player : Player) : json.value :=
  let dog := dog_ session_player in
  let position := position_ dog in
  let speed := speed_ dog in
  let dir_str :=
    match direction_ dog with
    | geom.WEST => "L"
    | geom.EAST => "R"
    | geom.NORTH => "U"
    | geom.SOUTH => "D"
    end%string in
  let bag_array :=
    List.map
      (fun loot =>
         json.object_
           [ ("id"%string, json.int64 (state_serializer.to_int64 (geom.id loot)));
             ("type"%string, json.int64 (state_serializer.to_int64 (geom.type loot))) ])
      (bag_ session_player) in
  json.object_
    [ ("pos"%string, json.array [ json.double (geom.Round6 (geom.x position));
                                  json.double (geom.Round6 (geom.y position)) ]);
      ("speed"%string, json.array [ json.double (geom.Round6 (geom.vx speed));
                                    json.double (geom.Round6 (geom.vy speed)) ]);
      ("dir"%string, json.string_ dir_str);
      ("bag"%string, json.array bag_array);
      ("score"%string, json.int64 (score_ session_player)) ].

(** The two loops of [HandleGetGameState]. *)
Definition players_state (players : list Player) : json.object :=
  fold_left
    (fun players_json session_player =>
       json_set players_json
         (to_string (state_serializer.to_int64 (player_id session_player)))
         (player_state session_player))
    players [].

Definition lost_objects (loots : list Loot) : json.object :=
  fold_left
    (fun lost_objects_json loot =>
       json_set lost_objects_json (to_string (state_serializer.to_int64 (geom.id loot)))
         (CreateLootJson loot))
    loots [].

(** [HandleGetGameState]. *)
Definition HandleGetGameState (h : RequestHandler) (req : Request) : Response :=
  match method req with
  | get | head =>
      match bearer_token_of_get req with
      | inl refused => refused
      | inr token =>
          match session_of_token (rh_game_ h) token with
          | inl refused => refused
          | inr session =>
              MakeJsonResponse req ok
                (json.object_
                   [ ("players"%string, json.object_ (players_state (players_ session)));
                     ("lostObjects"%string, json.object_ (lost_objects (loots_ session))) ])
          end
      end
  | _ => MakeMethodNotAllowedResponse
  end.

End http_handler.

(** ** Invariants of the served game (for the statements only) *)

Module served.
Import model game game_index model_map token http_handler.

(** The speeds [HandlePlayerAction] gives a dog on a map of dog speed [v]:
    none, or [v] along one axis. *)
Definition axis_speed (v : Q) (speed : Speed) : Prop :=
  speed = {| geom.vx := 0; geom.vy := 0 |} \/
  speed = {| geom.vx := - v; geom.vy := 0 |} \/
  speed = {| geom.vx := v; geom.vy := 0 |} \/
  speed = {| geom.vx := 0; geom.vy := - v |} \/
  speed = {| geom.vx := 0; geom.vy := v |}.

(** A player of a session on map [m]: the dog stands on a road of [m],
    belongs to [m] and moves along one axis at the speed of [m] or not at
    all; the bag has the capacity of [m] and holds no more; the token has
    the format the handlers accept. *)
Definition player_inv (m : Map) (p : Player) : Prop :=
  on_roads m (position_ (dog_ p)) /\
  dog_map_id (dog_ p) = map_id m /\
  axis_speed (dog_speed_ m) (speed_ (dog_ p)) /\
  bag_ok p /\
  bag_capacity_ p = map_bag_capacity_ m /\
  valid_token_format (token_ p) = true.

(** The map of the session is the map the game finds under its id. *)
Definition session_inv (g : Game) (s : GameSession) : Prop :=
  game.FindMap g (map_id (map_ s)) = Some (map_ s) /\
  Forall (player_inv (map_ s)) (players_ s).

(** The players of all sessions, session by session. *)
Definition all_players (g : Game) : list Player := flat_map players_ (sessions_ g).

(** The object [listed] shows the [items], each under its [key] with its
    [entry]: the keys are distinct, every member stands for an item, every
    item has a member under its key, and an item that shares its key with
    no other item is shown with its own entry. *)
Definition lists {A} (key : A -> string) (entry : A -> json.value) (items : list A)
    (listed : json.object) : Prop :=
  NoDup (List.map fst listed) /\
  (forall k v, (k, v) ∈ listed ->
     exists item, item ∈ items /\ k = key item /\ v = entry item) /\
  (forall item, item ∈ items -> json.contains listed (key item) = true) /\
  (forall item, item ∈ items ->
     (forall item', item' ∈ items -> key item' = key item -> item' = item) ->
     json.at_ listed (key item) = Some (entry item)).

(** Every map has a road, and roads that [GetRandomPosition] can sample
    when the spawn points are random. *)
Definition maps_ok (h : RequestHandler) : Prop :=
  Forall (fun m => roads_ m <> [] /\
                   (randomize_spawn_points_ h = true -> Forall samplable (roads_ m)))
    (maps_ (rh_game_ h)).

Definition handler_inv (h : RequestHandler) : Prop :=
  NoDup (session_map_ids (rh_game_ h)) /\
  Forall (session_inv (rh_game_ h)) (sessions_ (rh_game_ h)).

(** Every entry of the loot catalogue of the map is one the tick can read:
    an object with an [int64] under ["value"], or with no such member. *)
Definition catalogue_readable (m : Map) : Prop := Forall is_Some (loot_types_ m).

(** The request carries [Bearer] and the token of a player of the game. *)
Definition authorized (h : RequestHandler) (req : Request) : Prop :=
  exists token_str s p,
    authorization req = Some ("Bearer " ++ token_str)%string /\
    s ∈ sessions_ (rh_game_ h) /\ p ∈ players_ s /\ token_ p = token_str.

(** The ids of the players of the game, and what the counter of
    [HandleJoinGame] keeps of them: they are distinct and below it. *)
Definition player_ids (g : Game) : list N := List.map player_id (all_players g).

Definition ids_fresh (h : RequestHandler) : Prop :=
  NoDup (player_ids (rh_game_ h)) /\
  Forall (fun id => (id < next_player_id_ h)%N) (player_ids (rh_game_ h)).

(** The random engines keep to the contracts of their distributions. *)
Definition draw_ok (draw : JoinDraw) : Prop :=
  (token_part1 draw < 2 ^ 64)%N /\ (token_part2 draw < 2 ^ 64)%N /\
  uniform_int (spawn_draw draw) /\ uniform_real (spawn_draw draw).

Section served.

Variable json_parse : string -> option json.value.
Variable std_pow : Q -> Q -> Q.

(** The states of the handler that requests to join, to move and to tick
    lead to from the state [start]; the handler runs the requests to the
    API one after another, on its strand. *)
Inductive reachable (start : RequestHandler) : RequestHandler -> Prop :=
| reach_start : reachable start start
| reach_join h req draw :
    reachable start h -> draw_ok draw ->
    reachable start (fst (HandleJoinGame json_parse h req draw))
| reach_action h req :
    reachable start h -> reachable start (fst (HandlePlayerAction json_parse h req))
| reach_tick h req inp writable :
    reachable start h ->
    reachable start (fst (fst (HandleGameTick json_parse std_pow h req inp writable))).

End served.

End served.

(** ** Sample data

    The corner of scenario S4: roads (0,0)-(10,0) and (10,0)-(10,10). *)
Definition corner_map : model.Map :=
  {| model.map_id := "corner";
     model.roads_ := [ model.Road_HORIZONTAL {| geom.x := 0; geom.y := 0 |} 10;
                       model.Road_VERTICAL {| geom.x := 10; geom.y := 0 |} 10 ];
     model.offices_ := [];
     model.dog_speed_ := 1;
     model.loot_types_count_ := 0;
     model.loot_types_ := [];
     model.map_bag_capacity_ := 3 |}.

(** Two horizontal roads with a gap between them: (0,0)-(10,0) and
    (20,0)-(30,0). *)
Definition gap_map : model.Map :=
  {| model.map_id := "gap";
     model.roads_ := [ model.Road_HORIZONTAL {| geom.x := 0; geom.y := 0 |} 10;
                       model.Road_HORIZONTAL {| geom.x := 20; geom.y := 0 |} 30 ];
     model.offices_ := [];
     model.dog_speed_ := 1;
     model.loot_types_count_ := 0;
     model.loot_types_ := [];
     model.map_bag_capacity_ := 3 |}.

(** The provider of the test "Gatherer width exactly matches distance":
    one item at (5, 1) of width 0.5, one gatherer of width 0.5 sweeping from
    (0, 0) to (10, 0). *)
Definition width_test_provider : collision_detector.TestProvider :=
  {| collision_detector.items_ :=
       [ {| collision_detector.item_position := {| geom.x := 5; geom.y := 1 |};
            collision_detector.item_width := 0.5 |} ];
     collision_detector.gatherers_ :=
       [ {| collision_detector.start_pos := {| geom.x := 0; geom.y := 0 |};
            collision_detector.end_pos := {| geom.x := 10; geom.y := 0 |};
            collision_detector.width := 0.5 |} ] |}.

(** Scenario S3: one road (0,0)-(10,0) with an office at its end, a loot of
    value 5 at (2,0), and a dog at (0,0) running right at speed 10. *)
Definition line_map : model.Map :=
  {| model.map_id := "line";
     model.roads_ := [ model.Road_HORIZONTAL {| geom.x := 0; geom.y := 0 |} 10 ];
     model.offices_ := [ {| model.office_id := "o0";
                            model.office_position := {| geom.x := 10; geom.y := 0 |} |} ];
     model.dog_speed_ := 10;
     model.loot_types_count_ := 1;
     model.loot_types_ := [Some 5%Z];
     model.map_bag_capacity_ := 3 |}.

Definition sample_game : model.GameConfig :=
  {| model.dog_retirement_time_ := 2; model.retired_player_callback_ := true |}.

Definition runner : model.Player :=
  model.Player_new 0
    (model.SetSpeed (model.Dog_new "rex_line" "rex" "line") {| geom.vx := 10; geom.vy := 0 |})
    "0123456789abcdef0123456789abcdef" 3.

(** A player whose dog stands still at the origin. *)
Definition sleeper : model.Player :=
  model.Player_new 1 (model.Dog_new "tom_line" "tom" "line")
    "fedcba9876543210fedcba9876543210" 3.

Definition line_session : model.GameSession :=
  {| model.session_id := "line_session";
     model.map_ := line_map;
     model.game_ := true;
     model.players_ := [runner; sleeper];
     model.loots_ := [ {| geom.id := 0; geom.type := 0;
                          geom.loot_position := {| geom.x := 2; geom.y := 0 |};
                          geom.value := 5 |} ];
     model.next_loot_id_ := 1;
     model.loot_generator_ := None |}.

Definition no_randomness : model.TickInput :=
  {| model.ti_random := 0;
     model.ti_draw := fun _ => (0%N, {| geom.x := 0; geom.y := 0 |}) |}.

(** The generator of scenario S6: period 1 s, probability 0.5. *)
Definition sample_generator : loot_gen.LootGenerator :=
  {| loot_gen.base_interval := 1000;
     loot_gen.base_probability := 0.5;
     loot_gen.time_without_loot := 0 |}.

(** The session of scenario S3 with that generator. *)
Definition spawning_session : model.GameSession :=
  model.SetLootGenerator line_session (Some sample_generator).

Definition random_one : model.TickInput :=
  {| model.ti_random := 1;
     model.ti_draw := fun _ => (0%N, {| geom.x := 5; geom.y := 0 |}) |}.

(** A stand-in for [std::pow] that is exact where the exponent is 1. *)
Definition pow_one (b e : Q) : Q := if Qeqb e 1 then b else 1.

(** A game with the map of scenario S3 and no session, and the same game
    with the session of scenario S3 in the middle of play. *)
Definition empty_game : game.Game :=
  {| game.maps_ := [line_map];
     game.sessions_ := [];
     game.loot_generator_config_ := Some sample_generator;
     game.config_ := sample_game |}.

Definition running_game : game.Game :=
  game.set_sessions empty_game
    [fst (fst (model.UpdateState pow_one sample_game spawning_session 0.5 random_one))].

(** A session in the middle of a tick, just before [HandleCollisions]: the
    dog has run from (0,0) to (10,0) past an office at (3,0) and a loot at
    (7,0), with one item of value 4 in its bag. *)
Definition depot_map : model.Map :=
  {| model.map_id := "depot";
     model.roads_ := [ model.Road_HORIZONTAL {| geom.x := 0; geom.y := 0 |} 10 ];
     model.offices_ := [ {| model.office_id := "o0";
                            model.office_position := {| geom.x := 3; geom.y := 0 |} |} ];
     model.dog_speed_ := 10;
     model.loot_types_count_ := 1;
     model.loot_types_ := [Some 5%Z];
     model.map_bag_capacity_ := 3 |}.

Definition carrier : model.Player :=
  model.set_bag
    (model.set_dog runner
       (model.SetPosition (model.dog_ runner) {| geom.x := 10; geom.y := 0 |}))
    [ {| geom.id := 3; geom.type := 0;
         geom.loot_position := {| geom.x := 1; geom.y := 0 |}; geom.value := 4 |} ].

Definition depot_session : model.GameSession :=
  {| model.session_id := "depot_session";
     model.map_ := depot_map;
     model.game_ := true;
     model.players_ := [carrier];
     model.loots_ := [ {| geom.id := 7; geom.type := 0;
                          geom.loot_position := {| geom.x := 7; geom.y := 0 |};
                          geom.value := 5 |} ];
     model.next_loot_id_ := 8;
     model.loot_generator_ := None |}.

Definition no_event : model.GameEvent :=
  {| model.ge_time := 0; model.ge_type := model.LOOT;
     model.ge_gatherer_id := 0; model.ge_item_id := 0 |}.

(** The two events of [depot_session] in the order they are processed. *)
Definition depot_first : model.GameEvent := nth 0 (model.all_events depot_session) no_event.
Definition depot_second : model.GameEvent := nth 1 (model.all_events depot_session) no_event.

(** A stand-in for [std::sqrt]; the statements that take one hold for every
    function in its place. *)
Definition sqrt_stand_in (v : Q) : Q := v.

(** A game with the session of scenario S3, and a player who has not
    joined it yet. *)
Definition line_game : game.Game := game.set_sessions empty_game [line_session].

Definition newcomer : model.Player :=
  model.Player_new 2 (model.Dog_new "bob_line" "bob" "line")
    "00000000000000ff0000000000001000" 3.

(** A handler on the game without sessions, with random spawn points and
    no listener; a stand-in for [json::parse] that reads two request
    bodies; the requests to join as bob and to turn right; and what the
    random engines deliver to the join. *)
Definition fresh_handler : http_handler.RequestHandler :=
  {| http_handler.rh_game_ := empty_game;
     http_handler.next_player_id_ := 0;
     http_handler.randomize_spawn_points_ := true;
     http_handler.tick_listener_ := None |}.

Definition parse_stand_in (text : string) : option json.value :=
  if String.eqb text "join bob" then
    Some (json.object_ [ ("userName"%string, json.string_ "bob");
                         ("mapId"%string, json.string_ "line") ])
  else if String.eqb text "move right" then
    Some (json.object_ [ ("move"%string, json.string_ "R") ])
  else None.

Definition join_request : http_handler.Request :=
  {| http_handler.method := http_handler.post;
     http_handler.content_type := Some "application/json"%string;
     http_handler.authorization := None;
     http_handler.body := "join bob" |}.

Definition first_draw : http_handler.JoinDraw :=
  {| http_handler.token_part1 := 255;
     http_handler.token_part2 := 4096;
     http_handler.spawn_draw :=
       {| model_map.road_dist := fun a _ => a; model_map.pos_dist := fun a _ => a |} |}.

Definition joined_handler : http_handler.RequestHandler :=
  fst (http_handler.HandleJoinGame parse_stand_in fresh_handler join_request first_draw).

Definition move_request : http_handler.Request :=
  {| http_handler.method := http_handler.post;
     http_handler.content_type := Some "application/json"%string;
     http_handler.authorization := Some "Bearer 00000000000000ff0000000000001000"%string;
     http_handler.body := "move right" |}.

Definition players_request : http_handler.Request :=
  {| http_handler.method := http_handler.get;
     http_handler.content_type := None;
     http_handler.authorization := Some "Bearer 00000000000000ff0000000000001000"%string;
     http_handler.body := "" |}.

(** A user name with a NUL character inside, as the JSON escape of U+0000
    in the body of a join request gives one; a stand-in for [json::parse]
    that reads such a body; and the handler after the join of that user on
    the game without sessions. *)
Definition nul_name : string := String "a"%char (String Ascii.zero "b"%string).

Definition parse_nul_join (text : string) : option json.value :=
  Some (json.object_ [ ("userName"%string, json.string_ nul_name);
                       ("mapId"%string, json.string_ "line") ]).

Definition nul_joined : http_handler.RequestHandler :=
  fst (http_handler.HandleJoinGame parse_nul_join fresh_handler join_request first_draw).

(** The map of scenario S3 with a catalogue entry that cannot be read, a
    game with that map and a session on it whose generator is due, and the
    request for a tick of one second with its stand-in for
    [json::parse]. *)
Definition unreadable_map : model.Map :=
  {| model.map_id := "line";
     model.roads_ := model.roads_ line_map;
     model.offices_ := model.offices_ line_map;
     model.dog_speed_ := model.dog_speed_ line_map;
     model.loot_types_count_ := 1;
     model.loot_types_ := [None];
     model.map_bag_capacity_ := model.map_bag_capacity_ line_map |}.

Definition unreadable_session : model.GameSession :=
  {| model.session_id := "line_session";
     model.map_ := unreadable_map;
     model.game_ := true;
     model.players_ := [runner; sleeper];
     model.loots_ := model.loots_ line_session;
     model.next_loot_id_ := 1;
     model.loot_generator_ := Some sample_generator |}.

Definition unreadable_handler : http_handler.RequestHandler :=
  {| http_handler.rh_game_ :=
       {| game.maps_ := [unreadable_map];
          game.sessions_ := [unreadable_session];
          game.loot_generator_config_ := Some sample_generator;
          game.config_ := sample_game |};
     http_handler.next_player_id_ := 2;
     http_handler.randomize_spawn_points_ := false;
     http_handler.tick_listener_ := None |}.

Definition parse_tick (text : string) : option json.value :=
  Some (json.object_ [ ("timeDelta"%string, json.int64 1000) ]).

Definition tick_request : http_handler.Request :=
  {| http_handler.method := http_handler.post;
     http_handler.content_type := Some "application/json"%string;
     http_handler.authorization := None;
     http_handler.body := "tick" |}.

(** * Lemmas and theorems *)

(** ** Comparisons *)

Lemma Qltb_lt a b : Qltb a b = true <-> a < b.
Proof.
  unfold Qltb. rewrite negb_true_iff. split; intros H.
  - apply Qnot_le_lt. intros Hle. apply Qle_bool_iff in Hle. congruence.
  - destruct (Qle_bool b a) eqn:E; [|reflexivity].
    apply Qle_bool_iff in E. lra.
Qed.

Lemma Qltb_ge a b : Qltb a b = false <-> b <= a.
Proof. unfold Qltb. rewrite negb_false_iff. apply Qle_bool_iff. Qed.

Lemma Qleb_le a b : Qleb a b = true <-> a <= b.
Proof. apply Qle_bool_iff. Qed.

Lemma Qleb_gt a b : Qleb a b = false <-> b < a.
Proof.
  unfold Qleb. split; intros H.
  - apply Qnot_le_lt. intros Hle. apply Qle_bool_iff in Hle. congruence.
  - destruct (Qle_bool a b) eqn:E; [|reflexivity].
    apply Qle_bool_iff in E. lra.
Qed.

Lemma Qeqb_eq a b : Qeqb a b = true <-> a == b.
Proof. apply Qeq_bool_iff. Qed.

Lemma Qeqb_neq a b : Qeqb a b = false <-> ~ a == b.
Proof.
  unfold Qeqb. split; intros H.
  - intros E. apply Qeq_bool_iff in E. congruence.
  - destruct (Qeq_bool a b) eqn:E; [|reflexivity].
    apply Qeq_bool_iff in E. contradiction.
Qed.

Lemma std_min_spec a b :
  (b < a /\ std_min a b = b) \/ (a <= b /\ std_min a b = a).
Proof.
  unfold std_min. destruct (Qltb b a) eqn:E.
  - left. apply Qltb_lt in E. auto.
  - right. apply Qltb_ge in E. auto.
Qed.

Lemma std_max_spec a b :
  (a < b /\ std_max a b = b) \/ (b <= a /\ std_max a b = a).
Proof.
  unfold std_max. destruct (Qltb a b) eqn:E.
  - left. apply Qltb_lt in E. auto.
  - right. apply Qltb_ge in E. auto.
Qed.

Lemma std_clamp_spec v lo hi :
  (v < lo /\ std_clamp v lo hi = lo) \/
  (lo <= v /\ hi < v /\ std_clamp v lo hi = hi) \/
  (lo <= v /\ v <= hi /\ std_clamp v lo hi = v).
Proof.
  unfold std_clamp. destruct (Qltb v lo) eqn:E1.
  - left. apply Qltb_lt in E1. auto.
  - apply Qltb_ge in E1. destruct (Qltb hi v) eqn:E2.
    + right; left. apply Qltb_lt in E2. auto.
    + right; right. apply Qltb_ge in E2. auto.
Qed.

Lemma pos_eq_refl a : pos_eq a a.
Proof. split; reflexivity. Qed.

(** ** Roads and movement *)

Module MoveDogProofs.
Import model.

Lemma IsPositionInRoad_strip r p :
  IsPositionInRoad r p = true <-> in_strip r p.
Proof.
  unfold IsPositionInRoad, in_strip, GetBorders. simpl.
  rewrite !andb_true_iff, !Qleb_le. unfold width_. tauto.
Qed.

Lemma on_roads_exists m p :
  on_roads m p <-> exists r, r ∈ roads_ m /\ IsPositionInRoad r p = true.
Proof.
  unfold on_roads. split; intros (r & Hr & H); exists r; split; auto;
    apply IsPositionInRoad_strip; auto.
Qed.

Lemma scan_roads_None roads fp start acc :
  scan_roads roads fp start acc = None ->
  exists r, r ∈ roads /\ IsPositionInRoad r fp = true.
Proof.
  revert acc. induction roads as [|r rs IH]; intros acc H; simpl in H.
  - discriminate.
  - destruct (IsPositionInRoad r fp) eqn:E.
    + exists r. split; [apply elem_of_cons; auto | exact E].
    + destruct (IsPositionInRoad r start);
        apply IH in H; destruct H as (r' & Hin & Hr');
        exists r'; (split; [apply elem_of_cons; auto | exact Hr']).
Qed.

Lemma scan_roads_Some roads fp start acc cur :
  scan_roads roads fp start acc = Some cur ->
  cur = acc ++ filter (fun r => IsPositionInRoad r start = true) roads /\
  forall r, r ∈ roads -> IsPositionInRoad r fp = false.
Proof.
  revert acc. induction roads as [|r rs IH]; intros acc H; simpl in H.
  - inversion H; subst. rewrite app_nil_r. split; [reflexivity|].
    intros r Hr. inversion Hr.
  - destruct (IsPositionInRoad r fp) eqn:E; [discriminate|].
    destruct (IsPositionInRoad r start) eqn:Es.
    + apply IH in H. destruct H as [Hc Hall]. split.
      * rewrite Hc, <- app_assoc. simpl. rewrite filter_cons.
        destruct (decide (IsPositionInRoad r start = true)); [reflexivity|congruence].
      * intros r' Hr'. apply elem_of_cons in Hr'. destruct Hr' as [->|Hr']; auto.
    + apply IH in H. destruct H as [Hc Hall]. split.
      * rewrite Hc. rewrite filter_cons.
        destruct (decide (IsPositionInRoad r start = true)); [congruence|reflexivity].
      * intros r' Hr'. apply elem_of_cons in Hr'. destruct Hr' as [->|Hr']; auto.
Qed.

(** The second loop keeps [best_position] at the start or moves it to a
    point that [IsPositionInRoad] accepted for one of the roads visited. *)
Lemma slide_fold_in_road fp speed start cur acc :
  (fst acc = start \/ exists r, r ∈ cur /\ IsPositionInRoad r (fst acc) = true) ->
  let best := fst (fold_left (slide_step fp speed) cur acc) in
  best = start \/ exists r, r ∈ cur /\ IsPositionInRoad r best = true.
Proof.
  simpl. revert acc.
  assert (Hgen : forall done todo acc,
    (fst acc = start \/ exists r, r ∈ done ++ todo /\ IsPositionInRoad r (fst acc) = true) ->
    fst (fold_left (slide_step fp speed) todo acc) = start \/
    exists r, r ∈ done ++ todo /\
      IsPositionInRoad r (fst (fold_left (slide_step fp speed) todo acc)) = true).
  { intros done todo. revert done.
    induction todo as [|r rs IH]; intros done acc H; simpl.
    - exact H.
    - replace (done ++ r :: rs) with ((done ++ [r]) ++ rs) in *
        by (rewrite <- app_assoc; reflexivity).
      apply IH. unfold slide_step.
      destruct (projection r fp speed) as [p|]; [|exact H].
      destruct (IsPositionInRoad r p) eqn:E; [|exact H].
      assert (Hp : exists r0, r0 ∈ (done ++ [r]) ++ rs /\ IsPositionInRoad r0 p = true).
      { exists r. split; [|exact E]. rewrite !elem_of_app, list_elem_of_singleton. auto. }
      destruct (snd acc) as [d|]; [|right; exact Hp].
      destruct (Qltb _ d); [right; exact Hp | exact H]. }
  intros acc H. apply (Hgen [] cur acc). exact H.
Qed.

Lemma road_range r :
  GetMinX r <= GetMaxX r /\ GetMinY r <= GetMaxY r.
Proof.
  unfold GetMinX, GetMaxX, GetMinY, GetMaxY.
  destruct (std_min_spec (geom.x (start_ r)) (geom.x (end_ r))) as [[? ->]|[? ->]];
  destruct (std_max_spec (geom.x (start_ r)) (geom.x (end_ r))) as [[? ->]|[? ->]];
  destruct (std_min_spec (geom.y (start_ r)) (geom.y (end_ r))) as [[? ->]|[? ->]];
  destruct (std_max_spec (geom.y (start_ r)) (geom.y (end_ r))) as [[? ->]|[? ->]];
  split; lra.
Qed.

Lemma bounds_step_covers_new acc r : covers (bounds_step acc r) r.
Proof.
  unfold covers, bounds_step, GetWidth, width_. simpl.
  destruct (std_min_spec (geom.x (fst acc)) (GetMinX r - 0.4)) as [[? ->]|[? ->]];
  destruct (std_min_spec (geom.y (fst acc)) (GetMinY r - 0.4)) as [[? ->]|[? ->]];
  destruct (std_max_spec (geom.x (snd acc)) (GetMaxX r + 0.4)) as [[? ->]|[? ->]];
  destruct (std_max_spec (geom.y (snd acc)) (GetMaxY r + 0.4)) as [[? ->]|[? ->]];
  repeat split; lra.
Qed.

Lemma bounds_step_covers_old acc r r' : covers acc r' -> covers (bounds_step acc r) r'.
Proof.
  unfold covers, bounds_step, GetWidth, width_. simpl. intros [[? ?] [? ?]].
  destruct (std_min_spec (geom.x (fst acc)) (GetMinX r - 0.4)) as [[? ->]|[? ->]];
  destruct (std_min_spec (geom.y (fst acc)) (GetMinY r - 0.4)) as [[? ->]|[? ->]];
  destruct (std_max_spec (geom.x (snd acc)) (GetMaxX r + 0.4)) as [[? ->]|[? ->]];
  destruct (std_max_spec (geom.y (snd acc)) (GetMaxY r + 0.4)) as [[? ->]|[? ->]];
  repeat split; lra.
Qed.

Lemma bounds_fold_covers rs acc r :
  covers acc r \/ r ∈ rs -> covers (fold_left bounds_step rs acc) r.
Proof.
  revert acc. induction rs as [|r1 rs IH]; intros acc [H|H]; simpl.
  - exact H.
  - inversion H.
  - apply IH. left. apply bounds_step_covers_old. exact H.
  - apply IH. apply elem_of_cons in H. destruct H as [->|H].
    + left. apply bounds_step_covers_new.
    + right. exact H.
Qed.

(** The bounding box of the map covers the strip of each of its roads. *)
Lemma bounds_cover m r :
  r ∈ roads_ m -> covers (GetExactMovementBounds m) r.
Proof.
  unfold GetExactMovementBounds. destruct (roads_ m) as [|r0 rs]; intros H.
  - inversion H.
  - apply bounds_fold_covers. apply elem_of_cons in H. destruct H as [->|H].
    + left. unfold covers, GetBorders, width_. simpl. repeat split; lra.
    + right. exact H.
Qed.

Lemma clamp_axis_spec t lo hi :
  (t < lo /\ clamp_axis t lo hi = (lo, true)) \/
  (lo <= t /\ hi < t /\ clamp_axis t lo hi = (hi, true)) \/
  (lo <= t /\ t <= hi /\ clamp_axis t lo hi = (t, false)).
Proof.
  unfold clamp_axis. destruct (Qltb t lo) eqn:E1.
  - left. apply Qltb_lt in E1. auto.
  - apply Qltb_ge in E1. destruct (Qltb hi t) eqn:E2.
    + right; left. apply Qltb_lt in E2. auto.
    + right; right. apply Qltb_ge in E2. auto.
Qed.

Lemma horizontal_range r :
  IsHorizontal r = true ->
  GetMinY r == geom.y (start_ r) /\ GetMaxY r == geom.y (start_ r).
Proof.
  unfold IsHorizontal, GetMinY, GetMaxY. intros H. apply Qeqb_eq in H.
  destruct (std_min_spec (geom.y (start_ r)) (geom.y (end_ r))) as [[? ->]|[? ->]];
  destruct (std_max_spec (geom.y (start_ r)) (geom.y (end_ r))) as [[? ->]|[? ->]];
  split; lra.
Qed.

Lemma vertical_range r :
  IsVertical r = true ->
  GetMinX r == geom.x (start_ r) /\ GetMaxX r == geom.x (start_ r).
Proof.
  unfold IsVertical, GetMinX, GetMaxX. intros H. apply Qeqb_eq in H.
  destruct (std_min_spec (geom.x (start_ r)) (geom.x (end_ r))) as [[? ->]|[? ->]];
  destruct (std_max_spec (geom.x (start_ r)) (geom.x (end_ r))) as [[? ->]|[? ->]];
  split; lra.
Qed.

Lemma projection_agrees m r start speed dt fp hit :
  road_wf r -> r ∈ roads_ m -> in_strip r start ->
  map_box_clamp m (move_target start speed dt) = (fp, hit) ->
  ~ in_strip r fp -> 0 <= dt -> slides_as_specified speed r ->
  exists p, projection r fp speed = Some p /\ IsPositionInRoad r p = true /\
            pos_eq p (strip_projection r fp).
Proof.
  intros Hwf Hin Hs Hclamp Hout Hdt Hax.
  pose proof (bounds_cover m r Hin) as Hcov.
  pose proof (road_range r) as [Hrx Hry].
  unfold map_box_clamp in Hclamp.
  destruct (GetExactMovementBounds m) as [lo hi].
  unfold covers in Hcov. simpl in Hcov. destruct Hcov as [[Hc1 Hc2] [Hc3 Hc4]].
  unfold in_strip in Hs. destruct Hs as [[Hs1 Hs2] [Hs3 Hs4]].
  injection Hclamp as Hfp Hhit. clear Hhit.
  unfold move_target in Hfp. simpl in Hfp.
  set (tx := geom.x start + geom.vx speed * dt) in *.
  set (ty := geom.y start + geom.vy speed * dt) in *.
  assert (Hfx : geom.x fp = fst (clamp_axis tx (geom.x lo) (geom.x hi)))
    by (rewrite <- Hfp; reflexivity).
  assert (Hfy : geom.y fp = fst (clamp_axis ty (geom.y lo) (geom.y hi)))
    by (rewrite <- Hfp; reflexivity).
  clear Hfp.
  assert (Hout' : ~ ((GetMinX r - 0.4 <= geom.x fp /\ GetMinY r - 0.4 <= geom.y fp) /\
                     (geom.x fp <= GetMaxX r + 0.4 /\ geom.y fp <= GetMaxY r + 0.4)))
    by exact Hout.
  clear Hout.
  unfold projection, strip_projection, GetWidth, width_, GetStart.
  assert (Hstrip : forall p, in_strip r p -> IsPositionInRoad r p = true)
    by (intros p; apply IsPositionInRoad_strip).
  unfold in_strip in Hstrip.
  destruct Hax as [Hvx | [Hvy HnH]].
  - (* no horizontal component *)
    assert (Htx : tx == geom.x start) by (unfold tx; rewrite Hvx; ring).
    assert (Hfx' : geom.x fp == geom.x start).
    { rewrite Hfx.
      destruct (clamp_axis_spec tx (geom.x lo) (geom.x hi)) as [[? ->]|[[? [? ->]]|[? [? ->]]]];
        simpl; lra. }
    assert (Hvy0 : ~ geom.vy speed == 0).
    { intros Hvy. apply Hout'.
      assert (Hty : ty == geom.y start) by (unfold ty; rewrite Hvy; ring).
      assert (geom.y fp == geom.y start).
      { rewrite Hfy.
        destruct (clamp_axis_spec ty (geom.y lo) (geom.y hi)) as [[? ->]|[[? [? ->]]|[? [? ->]]]];
          simpl; lra. }
      repeat split; lra. }
    apply Qeqb_neq in Hvy0. rewrite Hvy0.
    assert (Hvxb : Qeqb (geom.vx speed) 0 = true) by (apply Qeqb_eq; exact Hvx).
    rewrite Hvxb. simpl.
    apply Qeqb_neq in Hvy0.
    destruct (std_clamp_spec (geom.x fp) (GetMinX r - 0.4) (GetMaxX r + 0.4))
      as [[? Hcx]|[[? [? Hcx]]|[? [? Hcx]]]]; try lra.
    destruct (IsHorizontal r) eqn:EH; simpl.
    + destruct (horizontal_range r EH) as [Hmin Hmax].
      destruct (Qltb 0 (geom.vy speed)) eqn:Epos.
      * apply Qltb_lt in Epos.
        assert (0 <= geom.vy speed * dt) by (apply Qmult_le_0_compat; lra).
        assert (Hge : GetMinY r - 0.4 <= geom.y fp).
        { rewrite Hfy. unfold ty in *.
          destruct (clamp_axis_spec (geom.y start + geom.vy speed * dt) (geom.y lo) (geom.y hi))
            as [[? ->]|[[? [? ->]]|[? [? ->]]]]; simpl; lra. }
        eexists. split; [reflexivity|]. split.
        -- apply Hstrip. simpl. rewrite Hcx. repeat split; lra.
        -- split; simpl; [reflexivity|].
           destruct (std_clamp_spec (geom.y fp) (GetMinY r - 0.4) (GetMaxY r + 0.4))
             as [[? ->]|[[? [? ->]]|[? [? ->]]]]; lra.
      * apply Qltb_ge in Epos.
        assert (geom.vy speed * dt <= 0).
        { assert (0 <= (- geom.vy speed) * dt) by (apply Qmult_le_0_compat; lra). lra. }
        assert (Hle : geom.y fp <= GetMaxY r + 0.4).
        { rewrite Hfy. unfold ty in *.
          destruct (clamp_axis_spec (geom.y start + geom.vy speed * dt) (geom.y lo) (geom.y hi))
            as [[? ->]|[[? [? ->]]|[? [? ->]]]]; simpl; lra. }
        eexists. split; [reflexivity|]. split.
        -- apply Hstrip. simpl. rewrite Hcx. repeat split; lra.
        -- split; simpl; [reflexivity|].
           destruct (std_clamp_spec (geom.y fp) (GetMinY r - 0.4) (GetMaxY r + 0.4))
             as [[? ->]|[[? [? ->]]|[? [? ->]]]]; lra.
    + destruct Hwf as [Hwf|Hwf]; [congruence|]. rewrite Hwf. simpl.
      eexists. split; [reflexivity|]. split.
      * apply Hstrip. simpl.
        destruct (std_clamp_spec (geom.y fp) (GetMinY r - 0.4) (GetMaxY r + 0.4))
          as [[? ->]|[[? [? ->]]|[? [? ->]]]]; repeat split; lra.
      * split; simpl; [rewrite Hcx|]; reflexivity.
  - (* horizontal speed on a road that is not horizontal *)
    destruct Hwf as [Hwf|Hwf]; [congruence|].
    rewrite HnH, Hwf. simpl.
    destruct (vertical_range r Hwf) as [Hmin Hmax].
    assert (Hty : ty == geom.y start) by (unfold ty; rewrite Hvy; ring).
    assert (Hfy' : geom.y fp == geom.y start).
    { rewrite Hfy.
      destruct (clamp_axis_spec ty (geom.y lo) (geom.y hi)) as [[? ->]|[[? [? ->]]|[? [? ->]]]];
        simpl; lra. }
    assert (Hvx0 : ~ geom.vx speed == 0).
    { intros Hvx. apply Hout'.
      assert (Htx : tx == geom.x start) by (unfold tx; rewrite Hvx; ring).
      assert (geom.x fp == geom.x start).
      { rewrite Hfx.
        destruct (clamp_axis_spec tx (geom.x lo) (geom.x hi)) as [[? ->]|[[? [? ->]]|[? [? ->]]]];
          simpl; lra. }
      repeat split; lra. }
    apply Qeqb_neq in Hvx0. rewrite Hvx0. simpl. apply Qeqb_neq in Hvx0.
    destruct (std_clamp_spec (geom.y fp) (GetMinY r - 0.4) (GetMaxY r + 0.4))
      as [[? Hcy]|[[? [? Hcy]]|[? [? Hcy]]]]; try lra.
    destruct (Qltb 0 (geom.vx speed)) eqn:Epos.
    + apply Qltb_lt in Epos.
      assert (0 <= geom.vx speed * dt) by (apply Qmult_le_0_compat; lra).
      assert (Hge : GetMinX r - 0.4 <= geom.x fp).
      { rewrite Hfx. unfold tx in *.
        destruct (clamp_axis_spec (geom.x start + geom.vx speed * dt) (geom.x lo) (geom.x hi))
          as [[? ->]|[[? [? ->]]|[? [? ->]]]]; simpl; lra. }
      eexists. split; [reflexivity|]. split.
      * apply Hstrip. simpl. rewrite Hcy. repeat split; lra.
      * split; simpl; [|rewrite Hcy; reflexivity].
        destruct (std_clamp_spec (geom.x fp) (GetMinX r - 0.4) (GetMaxX r + 0.4))
          as [[? ->]|[[? [? ->]]|[? [? ->]]]]; lra.
    + apply Qltb_ge in Epos.
      assert (geom.vx speed * dt <= 0).
      { assert (0 <= (- geom.vx speed) * dt) by (apply Qmult_le_0_compat; lra). lra. }
      assert (Hle : geom.x fp <= GetMaxX r + 0.4).
      { rewrite Hfx. unfold tx in *.
        destruct (clamp_axis_spec (geom.x start + geom.vx speed * dt) (geom.x lo) (geom.x hi))
          as [[? ->]|[[? [? ->]]|[? [? ->]]]]; simpl; lra. }
      eexists. split; [reflexivity|]. split.
      * apply Hstrip. simpl. rewrite Hcy. repeat split; lra.
      * split; simpl; [|rewrite Hcy; reflexivity].
        destruct (std_clamp_spec (geom.x fp) (GetMinX r - 0.4) (GetMaxX r + 0.4))
          as [[? ->]|[[? [? ->]]|[? [? ->]]]]; lra.
Qed.

Lemma slide_step_inv fp speed start visited acc r :
  slide_inv fp speed start visited acc ->
  slide_inv fp speed start (visited ++ [r]) (slide_step fp speed acc r).
Proof.
  unfold slide_inv, slide_step, accepted. destruct acc as [best md]. simpl.
  intros H.
  destruct (projection r fp speed) as [p|] eqn:Ep.
  - destruct (IsPositionInRoad r p) eqn:Ea.
    + destruct md as [d|]; simpl.
      * destruct H as (Hd & (r1 & Hr1 & Hacc1) & Hmin).
        destruct (Qltb (distance_sq fp p) d) eqn:Elt; simpl.
        -- apply Qltb_lt in Elt. split; [reflexivity|]. split.
           ++ exists r. rewrite elem_of_app, list_elem_of_singleton. auto.
           ++ intros r' p' Hr' [Hp' Ha']. apply elem_of_app in Hr'.
              destruct Hr' as [Hr'|Hr'].
              ** specialize (Hmin r' p' Hr' (conj Hp' Ha')). lra.
              ** apply list_elem_of_singleton in Hr'. subst r'.
                 rewrite Ep in Hp'. inversion Hp'; subst. lra.
        -- apply Qltb_ge in Elt. split; [exact Hd|]. split.
           ++ exists r1. rewrite elem_of_app. auto.
           ++ intros r' p' Hr' [Hp' Ha']. apply elem_of_app in Hr'.
              destruct Hr' as [Hr'|Hr'].
              ** apply (Hmin r' p' Hr' (conj Hp' Ha')).
              ** apply list_elem_of_singleton in Hr'. subst r'.
                 rewrite Ep in Hp'. inversion Hp'; subst. exact Elt.
      * split; [reflexivity|]. split.
        -- exists r. rewrite elem_of_app, list_elem_of_singleton. auto.
        -- intros r' p' Hr' [Hp' Ha']. apply elem_of_app in Hr'.
           destruct Hr' as [Hr'|Hr'].
           ++ destruct H as [_ H]. exfalso. apply (H r' p' Hr'). auto.
           ++ apply list_elem_of_singleton in Hr'. subst r'.
              rewrite Ep in Hp'. inversion Hp'; subst. lra.
    + destruct md as [d|].
      * destruct H as (Hd & (r1 & Hr1 & Hacc1) & Hmin). split; [exact Hd|]. split.
        -- exists r1. rewrite elem_of_app. auto.
        -- intros r' p' Hr' [Hp' Ha']. apply elem_of_app in Hr'.
           destruct Hr' as [Hr'|Hr'].
           ++ apply (Hmin r' p' Hr' (conj Hp' Ha')).
           ++ apply list_elem_of_singleton in Hr'. subst r'.
              rewrite Ep in Hp'. inversion Hp'; subst. congruence.
      * destruct H as [Hs H]. split; [exact Hs|].
        intros r' p' Hr' [Hp' Ha']. apply elem_of_app in Hr'.
        destruct Hr' as [Hr'|Hr'].
        -- apply (H r' p' Hr'). auto.
        -- apply list_elem_of_singleton in Hr'. subst r'.
           rewrite Ep in Hp'. inversion Hp'; subst. congruence.
  - destruct md as [d|].
    + destruct H as (Hd & (r1 & Hr1 & Hacc1) & Hmin). split; [exact Hd|]. split.
      * exists r1. rewrite elem_of_app. auto.
      * intros r' p' Hr' [Hp' Ha']. apply elem_of_app in Hr'.
        destruct Hr' as [Hr'|Hr'].
        -- apply (Hmin r' p' Hr' (conj Hp' Ha')).
        -- apply list_elem_of_singleton in Hr'. subst r'. congruence.
    + destruct H as [Hs H]. split; [exact Hs|].
      intros r' p' Hr' [Hp' Ha']. apply elem_of_app in Hr'.
      destruct Hr' as [Hr'|Hr'].
      * apply (H r' p' Hr'). auto.
      * apply list_elem_of_singleton in Hr'. subst r'. congruence.
Qed.

Lemma slide_fold_inv fp speed start todo : forall visited acc,
  slide_inv fp speed start visited acc ->
  slide_inv fp speed start (visited ++ todo) (fold_left (slide_step fp speed) todo acc).
Proof.
  induction todo as [|r rs IH]; intros visited acc H; simpl.
  - rewrite app_nil_r. exact H.
  - replace (visited ++ r :: rs) with ((visited ++ [r]) ++ rs)
      by (rewrite <- app_assoc; reflexivity).
    apply IH. apply slide_step_inv. exact H.
Qed.

Lemma distance_sq_pos_eq fp p q :
  pos_eq p q -> distance_sq fp p == distance_sq fp q.
Proof. unfold pos_eq, distance_sq. intros [Hx Hy]. rewrite Hx, Hy. reflexivity. Qed.

(** C2.  For every map with at least one road, every start position in the
    union of the road strips, every speed and every [delta_time >= 0], the
    position returned by [MoveDog] lies in the union of the road strips. *)
Theorem MoveDog_stays_on_roads (m : Map) (start : Position) (speed : Speed)
    (delta_time : Q) :
  roads_ m <> [] ->
  on_roads m start ->
  0 <= delta_time ->
  on_roads m (geom.position (MoveDog m start speed delta_time)).
Proof.
  intros Hne Hstart _. unfold MoveDog.
  destruct (roads_ m) as [|r0 rs] eqn:Hroads; [congruence|].
  destruct (map_box_clamp m (move_target start speed delta_time)) as [fp hit].
  rewrite <- Hroads.
  destruct (scan_roads (roads_ m) fp start []) as [cur|] eqn:Hscan; simpl.
  - apply scan_roads_Some in Hscan. destruct Hscan as [Hcur _]. simpl in Hcur.
    destruct (slide_fold_in_road fp speed start cur (start, None)) as [Hb|Hb].
    + left. reflexivity.
    + rewrite Hb. exact Hstart.
    + destruct Hb as (r & Hr & Hin). apply on_roads_exists. exists r. split; [|exact Hin].
      rewrite Hcur in Hr. apply list_elem_of_filter in Hr. tauto.
  - apply scan_roads_None in Hscan. apply on_roads_exists. exact Hscan.
Qed.

Lemma MoveDog_stays_on_roads_witness :
  on_roads corner_map
    (geom.position (MoveDog corner_map {| geom.x := 10; geom.y := 0 |}
                      {| geom.vx := 5; geom.vy := 5 |} 1)).
Proof.
  apply MoveDog_stays_on_roads.
  - discriminate.
  - apply on_roads_exists. eexists. split; [apply list_elem_of_here|]. reflexivity.
  - lra.
Defined.

Lemma Road_HORIZONTAL_wf start end_x : road_wf (Road_HORIZONTAL start end_x).
Proof. left. unfold IsHorizontal. simpl. apply Qeqb_eq. reflexivity. Qed.

Lemma Road_VERTICAL_wf start end_y : road_wf (Road_VERTICAL start end_y).
Proof. right. unfold IsVertical. simpl. apply Qeqb_eq. reflexivity. Qed.

(** C3, as the code has it.  [MoveDog] returns the map-box-clamped target
    unchanged whenever some road strip holds it, the flag then being the one
    of the map-box clamp.  When no strip holds it, [delta_time >= 0] and the
    speed is vertical or zero, or horizontal with no horizontal road under
    the start, the result is the start if no strip holds the start, and
    otherwise the projection of the clamped target into a strip holding the
    start that is closest to the clamped target among these projections;
    [hit_boundary] is set whenever the result differs from the clamped
    target. *)
Theorem MoveDog_accepts_or_slides (m : Map) (start : Position) (speed : Speed)
    (delta_time : Q) :
  Forall road_wf (roads_ m) ->
  roads_ m <> [] ->
  let clamped := map_box_clamp m (move_target start speed delta_time) in
  let res := MoveDog m start speed delta_time in
  (on_roads m (fst clamped) ->
     res = {| geom.position := fst clamped; geom.hit_boundary := snd clamped |}) /\
  (~ on_roads m (fst clamped) ->
   0 <= delta_time ->
   (forall r, r ∈ roads_ m -> in_strip r start -> slides_as_specified speed r) ->
   ((forall r, r ∈ roads_ m -> ~ in_strip r start) -> geom.position res = start) /\
   (forall r0, r0 ∈ roads_ m -> in_strip r0 start ->
      exists r, r ∈ roads_ m /\ in_strip r start /\
        pos_eq (geom.position res) (strip_projection r (fst clamped)) /\
        forall r', r' ∈ roads_ m -> in_strip r' start ->
          distance_sq (fst clamped) (geom.position res) <=
          distance_sq (fst clamped) (strip_projection r' (fst clamped))) /\
   (~ pos_eq (geom.position res) (fst clamped) -> geom.hit_boundary res = true)).
Proof.
  intros Hwf Hne. unfold MoveDog.
  destruct (roads_ m) as [|r0 rs] eqn:Hroads; [congruence|].
  destruct (map_box_clamp m (move_target start speed delta_time)) as [fp hit] eqn:Hc.
  rewrite <- Hroads in *. simpl fst. simpl snd. split.
  - intros Hon. destruct (scan_roads (roads_ m) fp start []) as [cur|] eqn:Hscan.
    + apply scan_roads_Some in Hscan. destruct Hscan as [_ Hall].
      apply on_roads_exists in Hon. destruct Hon as (r & Hr & Hrin).
      rewrite (Hall r Hr) in Hrin. discriminate.
    + reflexivity.
  - intros Hoff Hdt Hax.
    destruct (scan_roads (roads_ m) fp start []) as [cur|] eqn:Hscan.
    2:{ apply scan_roads_None in Hscan. exfalso. apply Hoff.
        apply on_roads_exists. exact Hscan. }
    apply scan_roads_Some in Hscan. destruct Hscan as [Hcur _]. simpl in Hcur.
    assert (Hcur_in : forall r, r ∈ cur <-> r ∈ roads_ m /\ in_strip r start).
    { intros r. rewrite Hcur, list_elem_of_filter, IsPositionInRoad_strip. tauto. }
    assert (Hagree : forall r, r ∈ cur ->
              exists p, accepted fp speed r p /\ pos_eq p (strip_projection r fp)).
    { intros r Hr. apply Hcur_in in Hr. destruct Hr as [Hr Hs].
      destruct (projection_agrees m r start speed delta_time fp hit) as (p & Hp & Ha & He);
        auto.
      - rewrite Forall_forall in Hwf. apply Hwf. exact Hr.
      - intros Hin. apply Hoff. exists r. auto.
      - exists p. unfold accepted. auto. }
    pose proof (slide_fold_inv fp speed start cur [] (start, None)) as Hinv.
    simpl in Hinv. specialize (Hinv (conj eq_refl (fun r p (H : r ∈ []) =>
      match elem_of_nil r with conj f _ => fun _ => f H end))).
    destruct (fold_left (slide_step fp speed) cur (start, None)) as [best md].
    unfold slide_inv in Hinv. simpl in *. split; [|split].
    + intros Hnone. destruct md as [d|]; [|tauto].
      destruct Hinv as (_ & (r & Hr & _) & _). apply Hcur_in in Hr.
      exfalso. apply (Hnone r); tauto.
    + intros r1 Hr1 Hs1.
      assert (Hr1c : r1 ∈ cur) by (apply Hcur_in; auto).
      destruct (Hagree r1 Hr1c) as (p1 & Ha1 & _).
      destruct md as [d|].
      2:{ destruct Hinv as [_ Hno]. exfalso. apply (Hno r1 p1 Hr1c Ha1). }
      destruct Hinv as (Hd & (r & Hr & Hacc) & Hmin).
      exists r. destruct (proj1 (Hcur_in r) Hr) as [Hrm Hrs].
      split; [exact Hrm|]. split; [exact Hrs|]. split.
      * destruct (Hagree r Hr) as (p & [Hp _] & He).
        destruct Hacc as [Hb _]. rewrite Hb in Hp. inversion Hp; subst. exact He.
      * intros r' Hr' Hs'.
        assert (Hr'c : r' ∈ cur) by (apply Hcur_in; auto).
        destruct (Hagree r' Hr'c) as (p' & Ha' & He').
        rewrite <- (distance_sq_pos_eq fp p' _ He'). rewrite <- Hd.
        apply (Hmin r' p' Hr'c Ha').
    + intros Hdiff.
      destruct (Qeqb (geom.x best) (geom.x fp)) eqn:Ex;
      destruct (Qeqb (geom.y best) (geom.y fp)) eqn:Ey; simpl;
        try (rewrite orb_true_r; reflexivity).
      exfalso. apply Hdiff. apply Qeqb_eq in Ex, Ey. split; assumption.
Qed.

(** Scenario S4 (the clamped target (10.4, 5) lies in the strip of the
    vertical road), and a dog that walks off the end of the horizontal road
    sideways. *)
Lemma MoveDog_accepts_or_slides_witness :
  MoveDog corner_map {| geom.x := 10; geom.y := 0 |} {| geom.vx := 5; geom.vy := 5 |} 1 =
    {| geom.position := {| geom.x := 10.4; geom.y := 5 |}; geom.hit_boundary := true |} /\
  exists r, r ∈ roads_ corner_map /\
    pos_eq (geom.position (MoveDog corner_map {| geom.x := 5; geom.y := 0 |}
                             {| geom.vx := 0; geom.vy := 5 |} 1))
           (strip_projection r {| geom.x := 5; geom.y := 5 |}).
Proof.
  assert (Hwf : Forall road_wf (roads_ corner_map)).
  { unfold corner_map. simpl. constructor; [apply Road_HORIZONTAL_wf|].
    constructor; [apply Road_VERTICAL_wf|]. constructor. }
  assert (Hne : roads_ corner_map <> []) by discriminate.
  split.
  - destruct (MoveDog_accepts_or_slides corner_map {| geom.x := 10; geom.y := 0 |}
                {| geom.vx := 5; geom.vy := 5 |} 1 Hwf Hne) as [Hacc _].
    apply Hacc. apply on_roads_exists. eexists. split.
    + apply list_elem_of_further, list_elem_of_here.
    + reflexivity.
  - destruct (MoveDog_accepts_or_slides corner_map {| geom.x := 5; geom.y := 0 |}
                {| geom.vx := 0; geom.vy := 5 |} 1 Hwf Hne) as [_ Hslide].
    destruct Hslide as (_ & Hproj & _).
    + intros Hon. apply on_roads_exists in Hon. destruct Hon as (r & Hr & Hin).
      repeat (apply elem_of_cons in Hr; destruct Hr as [->|Hr]); try discriminate.
      inversion Hr.
    + lra.
    + intros r _ _. left. reflexivity.
    + destruct (Hproj (Road_HORIZONTAL {| geom.x := 0; geom.y := 0 |} 10)) as (r & Hr & _ & He & _).
      * apply list_elem_of_here.
      * apply IsPositionInRoad_strip. reflexivity.
      * exists r. split; [exact Hr | exact He].
Defined.

(** C3 as stated fails on its own example: the dog of scenario S4 ends at
    (10.4, 5), neither at (10.4, 0) nor at (10, 0.4). *)
Lemma MoveDog_corner_counterexample :
  pos_eq (geom.position (MoveDog corner_map {| geom.x := 10; geom.y := 0 |}
                           {| geom.vx := 5; geom.vy := 5 |} 1))
         {| geom.x := 10.4; geom.y := 5 |} /\
  geom.hit_boundary (MoveDog corner_map {| geom.x := 10; geom.y := 0 |}
                       {| geom.vx := 5; geom.vy := 5 |} 1) = true /\
  ~ (pos_eq (geom.position (MoveDog corner_map {| geom.x := 10; geom.y := 0 |}
                              {| geom.vx := 5; geom.vy := 5 |} 1))
            {| geom.x := 10.4; geom.y := 0 |} \/
     pos_eq (geom.position (MoveDog corner_map {| geom.x := 10; geom.y := 0 |}
                              {| geom.vx := 5; geom.vy := 5 |} 1))
            {| geom.x := 10; geom.y := 0.4 |}).
Proof.
  vm_compute. split; [split; reflexivity|]. split; [reflexivity|].
  intros [[_ H]|[H _]]; discriminate.
Qed.

(** A dog that runs horizontally off the end of a horizontal road into a gap
    of the map is moved to the upper border of the strip: from (10, 0) with
    speed (5, 0) it ends at (10.4, 0.4), whereas the projection of its target
    (15, 0) into the strip is (10.4, 0). *)
Lemma MoveDog_gap_sideways_shift :
  let road := Road_HORIZONTAL {| geom.x := 0; geom.y := 0 |} 10 in
  let res := MoveDog gap_map {| geom.x := 10; geom.y := 0 |}
               {| geom.vx := 5; geom.vy := 0 |} 1 in
  fst (map_box_clamp gap_map (move_target {| geom.x := 10; geom.y := 0 |}
                                {| geom.vx := 5; geom.vy := 0 |} 1)) =
    {| geom.x := 10 + 5 * 1; geom.y := 0 + 0 * 1 |} /\
  pos_eq (geom.position res) {| geom.x := 10.4; geom.y := 0.4 |} /\
  pos_eq (strip_projection road {| geom.x := 15; geom.y := 0 |})
         {| geom.x := 10.4; geom.y := 0 |}.
Proof.
  vm_compute. split; [reflexivity|]. split; split; reflexivity.
Qed.

End MoveDogProofs.


(** ** The collision detector *)

Module DetectorProofs.
Import collision_detector.

Section provider.
Context `{ItemGathererProvider P} (provider : P).

Lemma elem_of_item_events gi g ii ev :
  ev ∈ item_events provider gi g ii <->
  collects g (TryCollectPoint (start_pos g) (end_pos g)
                (item_position (GetItem provider ii))) = true /\
  ev = {| item_id := ii; gatherer_id := gi;
          sq_distance := cr_sq_distance (TryCollectPoint (start_pos g) (end_pos g)
                            (item_position (GetItem provider ii)));
          time := proj_ratio (TryCollectPoint (start_pos g) (end_pos g)
                            (item_position (GetItem provider ii))) |}.
Proof.
  unfold item_events. destruct (collects g _).
  - rewrite list_elem_of_singleton. tauto.
  - rewrite elem_of_nil. split; [tauto | intros [? _]; discriminate].
Qed.

Lemma elem_of_flat_map {A B} (f : A -> list B) (l : list A) (y : B) :
  y ∈ flat_map f l <-> exists x, x ∈ l /\ y ∈ f x.
Proof.
  rewrite list_elem_of_In, in_flat_map. split; intros (x & Hx & Hy); exists x;
    rewrite ?list_elem_of_In in *; auto.
Qed.

(** What [FindGatherEvents] reports: exactly the pairs of a moving gatherer
    and an item that pass the test of the inner loop. *)
Lemma elem_of_FindGatherEvents ev :
  ev ∈ FindGatherEvents provider <->
  exists gi ii,
    (gi < GatherersCount provider)%nat /\ (ii < ItemsCount provider)%nat /\
    let g := GetGatherer provider gi in
    let result := TryCollectPoint (start_pos g) (end_pos g)
                    (item_position (GetItem provider ii)) in
    zero_move g = false /\ collects g result = true /\
    ev = {| item_id := ii; gatherer_id := gi;
            sq_distance := cr_sq_distance result; time := proj_ratio result |}.
Proof.
  unfold FindGatherEvents. rewrite merge_sort_Permutation.
  unfold unsorted_events. rewrite elem_of_flat_map. split.
  - intros (gi & Hgi & Hev). apply elem_of_seq in Hgi.
    unfold gatherer_events in Hev.
    destruct (zero_move (GetGatherer provider gi)) eqn:Ez; [inversion Hev|].
    apply elem_of_flat_map in Hev. destruct Hev as (ii & Hii & Hev).
    apply elem_of_seq in Hii. apply elem_of_item_events in Hev.
    exists gi, ii. simpl. repeat split; try lia; tauto.
  - intros (gi & ii & Hgi & Hii & Hz & Hc & Hev). exists gi. split.
    + apply elem_of_seq. lia.
    + unfold gatherer_events. rewrite Hz. apply elem_of_flat_map.
      exists ii. split; [apply elem_of_seq; lia|].
      apply elem_of_item_events. auto.
Qed.

Lemma FindGatherEvents_indices ev :
  ev ∈ FindGatherEvents provider ->
  (gatherer_id ev < GatherersCount provider)%nat /\
  (item_id ev < ItemsCount provider)%nat /\
  zero_move (GetGatherer provider (gatherer_id ev)) = false.
Proof.
  intros Hev. apply elem_of_FindGatherEvents in Hev.
  destruct Hev as (gi & ii & Hgi & Hii & Hz & _ & ->). simpl. auto.
Qed.

(** A gatherer with a zero-length sweep contributes no event. *)
Lemma zero_move_no_event gi :
  zero_move (GetGatherer provider gi) = true ->
  forall ev, ev ∈ FindGatherEvents provider -> gatherer_id ev <> gi.
Proof.
  intros Hz ev Hev Heq. subst gi. apply FindGatherEvents_indices in Hev.
  destruct Hev as (_ & _ & Hnz). congruence.
Qed.

Lemma FindGatherEvents_sorted :
  StronglySorted time_le (FindGatherEvents provider).
Proof.
  unfold FindGatherEvents. apply StronglySorted_merge_sort.
  - intros a b c. unfold time_le. intros. lra.
  - intros a b. unfold time_le. lra.
Qed.

End provider.

(** C1 on the input of the repository's test "Gatherer width exactly matches
    distance".  The gatherer moves, the projection ratio of the item is 1/2
    and its squared distance 1 equals [(0.5 + 0.5)^2], so the claim (and the
    test) require an event; [FindGatherEvents] compares the squared distance
    with the square of the gatherer's width alone, 0.25, and reports
    nothing. *)
Theorem FindGatherEvents_ignores_item_width :
  let g := GetGatherer width_test_provider 0 in
  let i := GetItem width_test_provider 0 in
  spec_collects g i /\
  FindGatherEvents width_test_provider = [].
Proof.
  split.
  - unfold spec_collects, pos_eq. vm_compute. split.
    + intros [H _]. discriminate.
    + repeat split; discriminate.
  - vm_compute. reflexivity.
Qed.

End DetectorProofs.

(** ** The loot generator *)

Module LootGenProofs.
Import loot_gen.

Lemma floor_at_most (x : Q) (k : Z) : x <= inject_Z k + 0.5 -> (Qfloor x <= k)%Z.
Proof.
  intros Hx. pose proof (Qfloor_le x) as Hf.
  destruct (Z_le_gt_dec (Qfloor x) k) as [Hle|Hgt]; [exact Hle|].
  assert (Hk : (k + 1 <= Qfloor x)%Z) by lia.
  rewrite Zle_Qle in Hk. rewrite inject_Z_plus in Hk.
  change (inject_Z 1) with 1 in Hk. lra.
Qed.

Section generator.
Variable std_pow : Q -> Q -> Q.

(** With a probability and a random value in [0, 1] the rounding of step 5
    stays within the shortage by itself; the clamp of step 6 is then idle. *)
Lemma rounding_within_shortage (loot_shortage : N) (p random : Q) :
  0 <= p <= 1 -> 0 <= random <= 1 ->
  (Z.to_N (Qfloor (inject_Z (Z.of_N loot_shortage) * p * random + 0.5)) <= loot_shortage)%N.
Proof.
  intros [Hp0 Hp1] [Hr0 Hr1].
  assert (Hs : 0 <= inject_Z (Z.of_N loot_shortage)).
  { change 0 with (inject_Z 0). rewrite <- Zle_Qle. lia. }
  assert (Hle : inject_Z (Z.of_N loot_shortage) * p * random + 0.5 <=
                inject_Z (Z.of_N loot_shortage) + 0.5).
  { assert (Hpr : p * random <= 1) by nra.
    assert (0 <= p * random) by nra.
    assert (inject_Z (Z.of_N loot_shortage) * (p * random) <=
            inject_Z (Z.of_N loot_shortage)) by nra.
    lra. }
  apply floor_at_most in Hle. lia.
Qed.

(** C7.  [Generate] never returns more than
    [max(0, looter_count - loot_count)], and it returns 0 whenever there are
    at least as many loots as looters. *)
Theorem Generate_at_most_shortage (g : LootGenerator) (random : Q) (delta : Z)
    (loot_count looter_count : N) :
  (Z.of_N (fst (Generate std_pow g random delta loot_count looter_count)) <=
   Z.max 0 (Z.of_N looter_count - Z.of_N loot_count))%Z /\
  ((looter_count <= loot_count)%N ->
   fst (Generate std_pow g random delta loot_count looter_count) = 0%N).
Proof.
  unfold Generate, shortage.
  destruct (looter_count <=? loot_count)%N eqn:Ecount.
  - simpl. split; [lia | reflexivity].
  - apply N.leb_gt in Ecount.
    destruct (looter_count - loot_count =? 0)%N eqn:Ezero.
    + apply N.eqb_eq in Ezero. lia.
    + split; [|lia]. simpl fst.
      match goal with
      | |- context [(?a <? ?b)%N] => destruct (a <? b)%N eqn:Eclamp
      end.
      * lia.
      * apply N.ltb_ge in Eclamp. lia.
Qed.

End generator.

(** Scenario S6 continued: with three loots for ten looters the second call
    after 0.1 s returns 0, and with ten loots nothing is ever generated. *)
Lemma Generate_at_most_shortage_witness :
  fst (Generate pow_one sample_generator 0.5 1000 10 10) = 0%N.
Proof.
  apply (Generate_at_most_shortage pow_one sample_generator 0.5 1000 10 10).
  vm_compute. discriminate.
Defined.

(** Scenario S6: [floor(10 * 0.5 * 0.5 + 0.5) = 3], and the accumulator is
    reset. *)
Lemma Generate_S6 :
  Generate pow_one sample_generator 0.5 1000 0 10 = (3%N, sample_generator).
Proof. vm_compute. reflexivity. Qed.

End LootGenProofs.

(** ** The session tick *)

Module SessionProofs.
Import model.

(** *** Fields the phases of a tick leave alone *)

Lemma spawn_loots_fields inp n : forall i s,
  players_ (spawn_loots inp i n s) = players_ s /\
  game_ (spawn_loots inp i n s) = game_ s /\
  map_ (spawn_loots inp i n s) = map_ s.
Proof.
  induction n as [|n IH]; intros i s; simpl; [auto|].
  destruct (ti_draw inp i) as [type pos].
  destruct (IH (S i) (AddLoot (SetNextLootId s ((next_loot_id_ s + 1) mod size_max)%N)
                        {| geom.id := next_loot_id_ s; geom.type := type;
                           geom.loot_position := pos;
                           geom.value := loot_value (map_ s) type |})) as (-> & -> & ->).
  auto.
Qed.

Section tick.
Variable std_pow : Q -> Q -> Q.

Lemma generate_loots_fields inp dt s :
  players_ (generate_loots std_pow inp dt s) = players_ s /\
  game_ (generate_loots std_pow inp dt s) = game_ s /\
  map_ (generate_loots std_pow inp dt s) = map_ s.
Proof.
  unfold generate_loots. destruct (loot_generator_ s) as [g|]; [|auto].
  destruct (call_generator std_pow g inp dt s) as [n g'].
  destruct (spawn_loots_fields inp (N.to_nat n) 0 (SetLootGenerator s (Some g')))
    as (-> & -> & ->). auto.
Qed.

Lemma tick_before_collisions_players s dt inp :
  players_ (tick_before_collisions std_pow s dt inp) =
  List.map (fun p => move_player (map_ s) dt (save_previous (update_times dt p))) (players_ s).
Proof.
  unfold tick_before_collisions. simpl.
  destruct (generate_loots_fields inp dt
              (set_players s (List.map (update_times dt) (players_ s)))) as (-> & _ & ->).
  simpl. rewrite !List.map_map. reflexivity.
Qed.

Lemma tick_before_collisions_game s dt inp :
  game_ (tick_before_collisions std_pow s dt inp) = game_ s.
Proof.
  unfold tick_before_collisions. simpl.
  destruct (generate_loots_fields inp dt
              (set_players s (List.map (update_times dt) (players_ s)))) as (_ & -> & _).
  reflexivity.
Qed.


(** *** The loop over the events *)

Lemma process_event_length loots st ev :
  length (cs_players (process_event loots st ev)) = length (cs_players st).
Proof.
  unfold process_event.
  destruct (cs_players st !! ge_gatherer_id ev) as [pl|]; [|reflexivity].
  destruct (ge_type ev).
  - destruct (loots !! ge_item_id ev) as [loot|]; [|reflexivity].
    destruct (decide (geom.id loot ∈ cs_collected st)); [reflexivity|].
    destruct (negb (IsBagFull pl)); [|reflexivity].
    simpl. apply length_insert.
  - simpl. apply length_insert.
Qed.

Lemma process_events_length loots evs : forall st,
  length (cs_players (process_events loots evs st)) = length (cs_players st).
Proof.
  induction evs as [|ev evs IH]; intros st; simpl; [reflexivity|].
  unfold process_events in *. simpl. rewrite IH. apply process_event_length.
Qed.

(** An event touches the player it names and no other. *)
Lemma process_event_other loots st ev i :
  ge_gatherer_id ev <> i ->
  cs_players (process_event loots st ev) !! i = cs_players st !! i.
Proof.
  intros Hne. unfold process_event.
  destruct (cs_players st !! ge_gatherer_id ev) as [pl|]; [|reflexivity].
  destruct (ge_type ev).
  - destruct (loots !! ge_item_id ev) as [loot|]; [|reflexivity].
    destruct (decide (geom.id loot ∈ cs_collected st)); [reflexivity|].
    destruct (negb (IsBagFull pl)); [|reflexivity].
    simpl. apply list_lookup_insert_ne. exact Hne.
  - simpl. apply list_lookup_insert_ne. exact Hne.
Qed.

Lemma process_event_picked_other loots st ev i :
  ge_gatherer_id ev <> i ->
  (forall entry, entry ∈ cs_picked st -> fst entry <> i) ->
  forall entry, entry ∈ cs_picked (process_event loots st ev) -> fst entry <> i.
Proof.
  intros Hne Hst entry. unfold process_event.
  destruct (cs_players st !! ge_gatherer_id ev) as [pl|]; [|apply Hst].
  destruct (ge_type ev).
  - destruct (loots !! ge_item_id ev) as [loot|]; [|apply Hst].
    destruct (decide (geom.id loot ∈ cs_collected st)); [apply Hst|].
    destruct (negb (IsBagFull pl)); [|apply Hst].
    simpl. rewrite elem_of_app, list_elem_of_singleton.
    intros [Hin| ->]; [apply Hst; exact Hin | exact Hne].
  - simpl. apply Hst.
Qed.

Lemma process_events_other loots i evs : forall st,
  (forall ev, ev ∈ evs -> ge_gatherer_id ev <> i) ->
  cs_players (process_events loots evs st) !! i = cs_players st !! i /\
  ((forall entry, entry ∈ cs_picked st -> fst entry <> i) ->
   forall entry, entry ∈ cs_picked (process_events loots evs st) -> fst entry <> i).
Proof.
  induction evs as [|ev evs IH]; intros st Hall; simpl; [auto|].
  assert (Hev : ge_gatherer_id ev <> i) by (apply Hall, list_elem_of_here).
  destruct (IH (process_event loots st ev)) as [Hl Hp].
  { intros ev' Hin. apply Hall, list_elem_of_further, Hin. }
  unfold process_events in *. simpl. split.
  - rewrite Hl. apply process_event_other. exact Hev.
  - intros Hst. apply Hp. apply process_event_picked_other; assumption.
Qed.

(** *** The events of a tick *)

Lemma elem_of_all_events s ev : ev ∈ all_events s <-> ev ∈ merged_events s.
Proof. unfold all_events. rewrite merge_sort_Permutation. reflexivity. Qed.

Lemma all_events_sorted s : StronglySorted game_event_le (all_events s).
Proof.
  unfold all_events. apply StronglySorted_merge_sort.
  - intros a b c. unfold game_event_le. intros. lra.
  - intros a b. unfold game_event_le. lra.
Qed.

(** Every event names a player of the session whose dog has moved, and an
    item that exists. *)
Lemma merged_events_indices s ev :
  ev ∈ merged_events s ->
  (ge_gatherer_id ev < length (players_ s))%nat /\
  collision_detector.zero_move (players_gatherer (players_ s) (ge_gatherer_id ev)) = false /\
  (ge_type ev = LOOT -> (ge_item_id ev < length (loots_ s))%nat).
Proof.
  unfold merged_events. rewrite elem_of_app, !list_elem_of_In, !in_map_iff.
  intros [(e & <- & He)|(e & <- & He)]; apply list_elem_of_In in He;
    apply DetectorProofs.FindGatherEvents_indices in He;
    destruct He as (Hg & Hi & Hz); simpl in *; repeat split; auto; discriminate.
Qed.

(** *** A dog that stands still *)

Lemma update_times_fields dt p :
  dog_ (update_times dt p) = dog_ p /\ bag_ (update_times dt p) = bag_ p /\
  score_ (update_times dt p) = score_ p /\
  bag_capacity_ (update_times dt p) = bag_capacity_ p.
Proof.
  unfold update_times. simpl.
  destruct (Qltb (Qabs (geom.vx (speed_ (dog_ p)))) EPS &&
            Qltb (Qabs (geom.vy (speed_ (dog_ p)))) EPS); simpl; auto.
Qed.

Lemma standing_dog_not_moved m dt p :
  geom.vx (speed_ (dog_ p)) == 0 -> geom.vy (speed_ (dog_ p)) == 0 ->
  move_player m dt p = p.
Proof.
  intros Hx Hy. unfold move_player, IsMoving.
  assert (Ex : Qeqb (geom.vx (speed_ (dog_ p))) 0 = true) by (apply Qeqb_eq; exact Hx).
  rewrite Ex. simpl.
  assert (Ax : Qltb EPS (Qabs (geom.vx (speed_ (dog_ p)))) = false).
  { apply Qltb_ge. rewrite Hx. unfold EPS. simpl. discriminate. }
  assert (Ay : Qltb EPS (Qabs (geom.vy (speed_ (dog_ p)))) = false).
  { apply Qltb_ge. rewrite Hy. unfold EPS. simpl. discriminate. }
  rewrite Ax, Ay. reflexivity.
Qed.

(** *** Pickups *)

Lemma process_event_picked_inv loots st ev :
  picked_inv loots st -> picked_inv loots (process_event loots st ev).
Proof.
  intros (Hnd & Hcol & Hin). unfold process_event.
  destruct (cs_players st !! ge_gatherer_id ev) as [pl|]; [|repeat split; auto; apply Hcol].
  destruct (ge_type ev).
  - destruct (loots !! ge_item_id ev) as [loot|] eqn:Hloot;
      [|repeat split; auto; apply Hcol].
    destruct (decide (geom.id loot ∈ cs_collected st)) as [Hc|Hc];
      [repeat split; auto; apply Hcol|].
    destruct (negb (IsBagFull pl)); [|repeat split; auto; apply Hcol].
    unfold picked_inv, picked_ids in *. simpl. rewrite map_app. simpl.
    split; [|split].
    + apply NoDup_app. split; [exact Hnd|]. split.
      * intros id Hid Hid'. apply list_elem_of_singleton in Hid'. subst id.
        apply Hc, Hcol, Hid.
      * apply NoDup_singleton.
    + intros id. rewrite elem_of_union, elem_of_singleton, elem_of_app,
        list_elem_of_singleton, Hcol. tauto.
    + intros entry. rewrite elem_of_app, list_elem_of_singleton.
      intros [He| ->]; [apply Hin, He|]. simpl.
      apply list_elem_of_lookup_2 in Hloot. exact Hloot.
  - repeat split; auto; apply Hcol.
Qed.

Lemma process_events_picked_inv loots evs : forall st,
  picked_inv loots st -> picked_inv loots (process_events loots evs st).
Proof.
  induction evs as [|ev evs IH]; intros st H; simpl; [exact H|].
  apply IH, process_event_picked_inv, H.
Qed.

Lemma collisions_start_picked_inv s : picked_inv (loots_ s) (collisions_start s).
Proof.
  unfold picked_inv, collisions_start, picked_ids. simpl. split; [apply NoDup_nil_2|].
  split.
  - intros id. rewrite elem_of_empty, elem_of_nil. tauto.
  - intros entry H. inversion H.
Qed.

Lemma elem_of_bool_filter {A} (f : A -> bool) (l : list A) (x : A) :
  x ∈ List.filter f l <-> x ∈ l /\ f x = true.
Proof. rewrite !list_elem_of_In. apply filter_In. Qed.

Lemma NoDup_map_bool_filter {A B} (g : A -> B) (f : A -> bool) (l : list A) :
  NoDup (List.map g l) -> NoDup (List.map g (List.filter f l)).
Proof.
  induction l as [|a l IH]; simpl; intros H; [exact H|].
  apply NoDup_cons in H. destruct H as [Hn Hd].
  destruct (f a); simpl; [|apply IH, Hd].
  apply NoDup_cons. split; [|apply IH, Hd].
  intros Hin. apply Hn. apply list_elem_of_In, in_map_iff in Hin.
  destruct Hin as (b & Hb & Hbin). apply filter_In in Hbin.
  apply list_elem_of_In, in_map_iff. exists b. tauto.
Qed.

(** What [HandleCollisions] does to the loots: the pickups took distinct
    live loots, which are gone afterwards; the other loots stay. *)
Lemma HandleCollisions_loots s :
  let '(s', picked) := HandleCollisions s in
  NoDup (picked_ids picked) /\
  (forall entry, entry ∈ picked -> snd entry ∈ loots_ s) /\
  (forall entry, entry ∈ picked -> geom.id (snd entry) ∉ loot_ids (loots_ s')) /\
  (forall loot, loot ∈ loots_ s' -> loot ∈ loots_ s) /\
  (NoDup (loot_ids (loots_ s)) -> NoDup (loot_ids (loots_ s'))) /\
  next_loot_id_ s' = next_loot_id_ s.
Proof.
  unfold HandleCollisions.
  pose proof (process_events_picked_inv (loots_ s) (all_events s) (collisions_start s)
                (collisions_start_picked_inv s)) as (Hnd & Hcol & Hin).
  set (st := process_events (loots_ s) (all_events s) (collisions_start s)) in *.
  cbn [loots_ set_loots set_players next_loot_id_].
  split; [exact Hnd|]. split; [exact Hin|]. split; [|split; [|split]].
  - intros entry He Hid. unfold loot_ids in Hid.
    apply list_elem_of_In, in_map_iff in Hid. destruct Hid as (l & Hl & Hlin).
    apply filter_In in Hlin. destruct Hlin as [_ Hkeep].
    apply negb_true_iff, bool_decide_eq_false in Hkeep. apply Hkeep.
    apply Hcol. rewrite Hl. unfold picked_ids.
    apply list_elem_of_In, in_map_iff. exists entry. split; [reflexivity|].
    apply list_elem_of_In. exact He.
  - intros loot Hl. apply elem_of_bool_filter in Hl. tauto.
  - apply NoDup_map_bool_filter.
  - reflexivity.
Qed.

(** *** New loots *)

Lemma spawn_loots_loots inp n : forall i s,
  (next_loot_id_ s + N.of_nat n < size_max)%N ->
  next_loot_id_ (spawn_loots inp i n s) = (next_loot_id_ s + N.of_nat n)%N /\
  exists new, loots_ (spawn_loots inp i n s) = loots_ s ++ new /\
    Forall (fun loot => (next_loot_id_ s <= geom.id loot < next_loot_id_ s + N.of_nat n)%N) new /\
    NoDup (loot_ids new).
Proof.
  induction n as [|n IH]; intros i s Hr.
  - simpl. split; [lia|]. exists []. rewrite app_nil_r.
    split; [reflexivity|]. split; [constructor | apply NoDup_nil_2].
  - simpl. destruct (ti_draw inp i) as [type pos].
    set (loot := {| geom.id := next_loot_id_ s; geom.type := type;
                    geom.loot_position := pos; geom.value := loot_value (map_ s) type |}).
    set (s1 := AddLoot (SetNextLootId s ((next_loot_id_ s + 1) mod size_max)%N) loot).
    assert (Hnext : next_loot_id_ s1 = (next_loot_id_ s + 1)%N).
    { unfold s1. simpl. apply N.mod_small. lia. }
    destruct (IH (S i) s1) as (Hn & new & Hl & Hall & Hnd); [lia|].
    split; [lia|].
    exists (loot :: new). split; [|split].
    + rewrite Hl. unfold s1. simpl. rewrite <- app_assoc. reflexivity.
    + constructor.
      * simpl. lia.
      * eapply Forall_impl; [exact Hall|]. intros l. rewrite Hnext. lia.
    + unfold loot_ids. simpl. apply NoDup_cons. split; [|exact Hnd].
      intros Hin. apply list_elem_of_In, in_map_iff in Hin.
      destruct Hin as (l & Hid & Hlin). rewrite Forall_forall in Hall.
      apply list_elem_of_In, Hall in Hlin. rewrite Hnext in Hlin. simpl in Hid. lia.
Qed.

(** *** Retirement *)

Lemma retire_loop_filter g players : forall active notified,
  retire_loop g players active notified =
  (active ++ List.filter (fun p => Qltb (idle_time_ p) (dog_retirement_time_ g)) players,
   notified ++ (if retired_player_callback_ g
                then List.filter (fun p => Qleb (dog_retirement_time_ g) (idle_time_ p)) players
                else [])).
Proof.
  induction players as [|p ps IH]; intros active notified; simpl.
  - destruct (retired_player_callback_ g); rewrite !app_nil_r; reflexivity.
  - change (Qltb (idle_time_ p) (dog_retirement_time_ g))
      with (negb (Qleb (dog_retirement_time_ g) (idle_time_ p))).
    destruct (Qleb (dog_retirement_time_ g) (idle_time_ p)); simpl; rewrite IH.
    + destruct (retired_player_callback_ g); [rewrite <- app_assoc|]; reflexivity.
    + rewrite <- app_assoc. reflexivity.
Qed.


(** C10.  A player whose dog has speed exactly (0,0) when a tick starts is no
    gatherer of any event of the tick and picks nothing up; after the
    collisions it stands at the same index with the same dog position, bag
    and score, and unless the tick retires it, it is still in the session
    afterwards. *)
Theorem standing_dog_is_untouched (g : GameConfig) (s : GameSession) (delta_time : Q)
    (inp : TickInput) (i : nat) (p : Player) :
  players_ s !! i = Some p ->
  geom.vx (speed_ (dog_ p)) == 0 ->
  geom.vy (speed_ (dog_ p)) == 0 ->
  let before := tick_before_collisions std_pow s delta_time inp in
  let after := fst (tick_before_retirement std_pow s delta_time inp) in
  let '(s', _, picked) := UpdateState std_pow g s delta_time inp in
  (forall ev, ev ∈ all_events before -> ge_gatherer_id ev <> i) /\
  (forall entry, entry ∈ picked -> fst entry <> i) /\
  exists p', players_ after !! i = Some p' /\
    position_ (dog_ p') = position_ (dog_ p) /\
    bag_ p' = bag_ p /\
    score_ p' = score_ p /\
    (p' ∈ players_ s' \/
     (game_ s = true /\ dog_retirement_time_ g <= idle_time_ p')).
Proof.
  intros Hp Hvx Hvy before after.
  set (p1 := save_previous (update_times delta_time p)).
  destruct (update_times_fields delta_time p) as (Hdog & Hbag & Hscore & _).
  assert (Hp1 : players_ before !! i = Some p1).
  { unfold before. rewrite tick_before_collisions_players.
    rewrite list_lookup_fmap, Hp. simpl. f_equal.
    apply standing_dog_not_moved; unfold save_previous; simpl; rewrite Hdog; assumption. }
  assert (Hzero : collision_detector.zero_move (players_gatherer (players_ before) i) = true).
  { unfold players_gatherer. rewrite Hp1.
    unfold collision_detector.zero_move, player_gatherer, p1, save_previous. simpl.
    apply andb_true_iff. split; apply Qeqb_eq; reflexivity. }
  assert (Hev : forall ev, ev ∈ all_events before -> ge_gatherer_id ev <> i).
  { intros ev Hin Heq. apply elem_of_all_events, merged_events_indices in Hin.
    destruct Hin as (_ & Hz & _). rewrite Heq in Hz. congruence. }
  destruct (process_events_other (loots_ before) i (all_events before)
              (collisions_start before) Hev) as [Hsame Hpicked].
  set (st := process_events (loots_ before) (all_events before) (collisions_start before))
    in *.
  assert (Htick : tick_before_retirement std_pow s delta_time inp =
            (set_loots (set_players before (cs_players st))
               (List.filter (fun loot => negb (bool_decide (geom.id loot ∈ cs_collected st)))
                  (loots_ before)),
             cs_picked st)) by reflexivity.
  assert (Hgame : game_ before = game_ s) by apply tick_before_collisions_game.
  unfold UpdateState. subst after. rewrite Htick. cbv zeta. simpl fst.
  unfold RetireInactivePlayers. cbn [game_ set_loots set_players players_].
  rewrite Hgame.
  assert (Hafter : cs_players st !! i = Some p1) by (rewrite Hsame; exact Hp1).
  assert (Hnone : forall entry, entry ∈ cs_picked st -> fst entry <> i).
  { apply Hpicked. intros entry Hin. inversion Hin. }
  assert (Hfields : position_ (dog_ p1) = position_ (dog_ p) /\
                    bag_ p1 = bag_ p /\ score_ p1 = score_ p).
  { unfold p1, save_previous. simpl. rewrite Hdog. auto. }
  destruct Hfields as (Hf1 & Hf2 & Hf3).
  destruct (game_ s) eqn:Hg.
  - rewrite retire_loop_filter. cbn [players_ set_players app].
    split; [exact Hev|]. split; [exact Hnone|].
    exists p1. repeat (split; [assumption|]).
    apply list_elem_of_lookup_2 in Hafter.
    destruct (Qltb (idle_time_ p1) (dog_retirement_time_ g)) eqn:Eidle.
    + left. apply list_elem_of_In, filter_In. split.
      * apply list_elem_of_In. exact Hafter.
      * exact Eidle.
    + right. split; [reflexivity|]. apply Qltb_ge. exact Eidle.
  - split; [exact Hev|]. split; [exact Hnone|].
    exists p1. repeat (split; [assumption|]).
    left. apply list_elem_of_lookup_2 in Hafter. exact Hafter.
Qed.

(** *** Bags *)

Lemma bag_ok_AddToBag p loot : bag_ok p -> bag_ok (AddToBag p loot).
Proof.
  unfold bag_ok, AddToBag, bag_size. intros H.
  destruct (N.of_nat (length (bag_ p)) <? bag_capacity_ p)%N eqn:E; [|exact H].
  apply N.ltb_lt in E. simpl. rewrite length_app. simpl. lia.
Qed.

Lemma bag_ok_fields p q :
  bag_ q = bag_ p -> bag_capacity_ q = bag_capacity_ p -> bag_ok p -> bag_ok q.
Proof. unfold bag_ok, bag_size. intros -> ->. auto. Qed.

Lemma bag_ok_update_times dt p : bag_ok p -> bag_ok (update_times dt p).
Proof.
  destruct (update_times_fields dt p) as (_ & Hb & _ & Hc). apply bag_ok_fields; assumption.
Qed.

Lemma bag_ok_move_player m dt p : bag_ok p -> bag_ok (move_player m dt p).
Proof.
  unfold move_player.
  destruct (IsMoving (dog_ p) || _ || _); [|auto]. apply bag_ok_fields; reflexivity.
Qed.

Lemma process_event_bag_ok loots st ev :
  Forall bag_ok (cs_players st) -> Forall bag_ok (cs_players (process_event loots st ev)).
Proof.
  intros H. unfold process_event.
  destruct (cs_players st !! ge_gatherer_id ev) as [pl|] eqn:Hpl; [|exact H].
  assert (Hok : bag_ok pl).
  { rewrite Forall_forall in H. apply H. apply list_elem_of_lookup_2 in Hpl. exact Hpl. }
  destruct (ge_type ev).
  - destruct (loots !! ge_item_id ev) as [loot|]; [|exact H].
    destruct (decide (geom.id loot ∈ cs_collected st)); [exact H|].
    destruct (negb (IsBagFull pl)); [|exact H].
    simpl. apply Forall_insert; [exact H|]. apply bag_ok_AddToBag, Hok.
  - simpl. apply Forall_insert; [exact H|]. unfold bag_ok, bag_size. simpl. lia.
Qed.

Lemma process_events_bag_ok loots evs : forall st,
  Forall bag_ok (cs_players st) -> Forall bag_ok (cs_players (process_events loots evs st)).
Proof.
  induction evs as [|ev evs IH]; intros st H; simpl; [exact H|].
  apply IH, process_event_bag_ok, H.
Qed.

Lemma UpdateState_bag_ok g s dt inp :
  Forall bag_ok (players_ s) ->
  Forall bag_ok (players_ (fst (fst (UpdateState std_pow g s dt inp)))).
Proof.
  intros H.
  assert (Hbefore : Forall bag_ok (players_ (tick_before_collisions std_pow s dt inp))).
  { rewrite tick_before_collisions_players. rewrite Forall_forall in *.
    intros q Hq. apply list_elem_of_In, in_map_iff in Hq. destruct Hq as (p & <- & Hp).
    apply bag_ok_move_player, (bag_ok_fields (update_times dt p)); try reflexivity.
    apply bag_ok_update_times, H, list_elem_of_In, Hp. }
  unfold UpdateState, tick_before_retirement, HandleCollisions.
  set (before := tick_before_collisions std_pow s dt inp) in *.
  set (st := process_events (loots_ before) (all_events before) (collisions_start before)).
  assert (Hst : Forall bag_ok (cs_players st)) by (apply process_events_bag_ok, Hbefore).
  unfold RetireInactivePlayers. cbn [game_ set_loots set_players players_].
  destruct (game_ before); [|exact Hst].
  rewrite retire_loop_filter. cbn [fst players_ set_players app].
  rewrite Forall_forall in *. intros q Hq. apply elem_of_bool_filter in Hq.
  apply Hst. tauto.
Qed.

(** *** Loots over a run of ticks *)

Lemma tick_before_collisions_loots s dt inp :
  (next_loot_id_ s + new_loot_count std_pow s dt inp < size_max)%N ->
  let before := tick_before_collisions std_pow s dt inp in
  next_loot_id_ before = (next_loot_id_ s + new_loot_count std_pow s dt inp)%N /\
  exists new, loots_ before = loots_ s ++ new /\
    Forall (fun loot => (next_loot_id_ s <= geom.id loot)%N /\
                        (geom.id loot < next_loot_id_ s + new_loot_count std_pow s dt inp)%N)
      new /\
    NoDup (loot_ids new).
Proof.
  intros Hr. unfold tick_before_collisions. cbn [next_loot_id_ loots_ set_players].
  unfold generate_loots, new_loot_count in *.
  cbn [loot_generator_ set_players] in *.
  destruct (loot_generator_ s) as [g|].
  - destruct (call_generator std_pow g inp dt
                (set_players s (List.map (update_times dt) (players_ s)))) as [n g'].
    simpl fst in Hr.
    destruct (spawn_loots_loots inp (N.to_nat n) 0
                (SetLootGenerator (set_players s (List.map (update_times dt) (players_ s)))
                   (Some g'))) as (Hn & new & Hl & Hall & Hnd).
    { simpl. rewrite N2Nat.id. exact Hr. }
    simpl in Hn, Hl, Hall. rewrite N2Nat.id in Hn, Hall. simpl fst.
    split; [exact Hn|]. exists new. auto.
  - simpl. split; [lia|]. exists []. rewrite app_nil_r.
    split; [reflexivity|]. split; [constructor | apply NoDup_nil_2].
Qed.

Lemma RetireInactivePlayers_loots g s :
  loots_ (fst (RetireInactivePlayers g s)) = loots_ s /\
  next_loot_id_ (fst (RetireInactivePlayers g s)) = next_loot_id_ s.
Proof.
  unfold RetireInactivePlayers. destruct (game_ s); [|auto].
  destruct (retire_loop g (players_ s) [] []). auto.
Qed.

Lemma UpdateState_loots g s dt inp :
  loots_fresh s ->
  (next_loot_id_ s + new_loot_count std_pow s dt inp < size_max)%N ->
  let '(s', _, picked) := UpdateState std_pow g s dt inp in
  loots_fresh s' /\
  (next_loot_id_ s <= next_loot_id_ s')%N /\
  NoDup (picked_ids picked) /\
  (forall id, id ∈ picked_ids picked ->
     (id < next_loot_id_ s')%N /\ (id ∉ loot_ids (loots_ s')) /\
     (id ∈ loot_ids (loots_ s) \/ (next_loot_id_ s <= id)%N)) /\
  (forall loot, loot ∈ loots_ s' ->
     loot ∈ loots_ s \/ (next_loot_id_ s <= geom.id loot)%N).
Proof.
  intros [Hnd Hbound] Hr. unfold UpdateState, tick_before_retirement.
  destruct (tick_before_collisions_loots s dt inp Hr) as (Hnext & new & Hl & Hnew & Hndnew).
  set (before := tick_before_collisions std_pow s dt inp) in *.
  pose proof (HandleCollisions_loots before) as Hc.
  destruct (HandleCollisions before) as [s1 picked].
  destruct Hc as (Hpnd & Hpin & Hpgone & Hsub & Hkeep & Hn1).
  destruct (RetireInactivePlayers_loots g s1) as [Hrl Hrn].
  destruct (RetireInactivePlayers g s1) as [s2 retired]. simpl in Hrl, Hrn.
  rewrite Forall_forall in Hbound, Hnew.
  assert (Hbefore : forall loot, loot ∈ loots_ before ->
            (geom.id loot < next_loot_id_ before)%N /\
            (loot ∈ loots_ s \/ (next_loot_id_ s <= geom.id loot)%N)).
  { intros loot Hin. rewrite Hl in Hin. apply elem_of_app in Hin.
    destruct Hin as [Hin|Hin].
    - specialize (Hbound loot Hin). split; [lia | auto].
    - specialize (Hnew loot Hin). split; [lia|]. right. lia. }
  assert (Hndb : NoDup (loot_ids (loots_ before))).
  { rewrite Hl. unfold loot_ids. rewrite map_app. apply NoDup_app.
    split; [exact Hnd|]. split; [|exact Hndnew].
    intros id Hid Hid'. apply list_elem_of_In, in_map_iff in Hid, Hid'.
    destruct Hid as (l & <- & Hlin). destruct Hid' as (l' & Heq & Hlin').
    apply list_elem_of_In in Hlin, Hlin'.
    specialize (Hbound l Hlin). specialize (Hnew l' Hlin'). lia. }
  unfold loots_fresh. rewrite Hrl, Hrn, Hn1. split; [|split; [|split; [|split]]].
  - split; [apply Hkeep, Hndb|]. rewrite Forall_forall. intros loot Hin.
    apply Hsub, Hbefore in Hin. tauto.
  - lia.
  - exact Hpnd.
  - intros id Hid. unfold picked_ids in Hid. apply list_elem_of_In, in_map_iff in Hid.
    destruct Hid as (entry & <- & Hentry). apply list_elem_of_In in Hentry.
    destruct (Hbefore _ (Hpin entry Hentry)) as [Hlt Hold].
    split; [exact Hlt|]. split; [apply Hpgone, Hentry|].
    destruct Hold as [Hold|Hold]; [left|right; exact Hold].
    unfold loot_ids. apply list_elem_of_In, in_map_iff. exists (snd entry).
    split; [reflexivity | apply list_elem_of_In, Hold].
  - intros loot Hin. apply Hsub, Hbefore in Hin. tauto.
Qed.

(** C5.  Over any run of ticks of a session whose live loots have distinct
    identifiers below the counter (a new session has no loots), with the
    counter staying below [2^64]: no loot identifier occurs in two pickups,
    whichever players and ticks they belong to; a loot that was picked up is
    no live loot at the end of the run; the counter never decreases; and
    every live loot that was not there at the start carries an identifier
    that was at or above the counter then, so no identifier is handed out
    twice. *)
Theorem loot_picked_at_most_once (g : GameConfig) (ticks : list (Q * TickInput)) :
  forall s : GameSession,
  loots_fresh s ->
  counter_in_range std_pow g s ticks ->
  let '(s', picked) := run_ticks std_pow g s ticks in
  NoDup (picked_ids picked) /\
  (forall id, id ∈ picked_ids picked -> id ∉ loot_ids (loots_ s')) /\
  loots_fresh s' /\
  (next_loot_id_ s <= next_loot_id_ s')%N /\
  (forall id, id ∈ picked_ids picked ->
     (id < next_loot_id_ s')%N /\
     (id ∈ loot_ids (loots_ s) \/ (next_loot_id_ s <= id)%N)) /\
  (forall loot, loot ∈ loots_ s' ->
     loot ∈ loots_ s \/ (next_loot_id_ s <= geom.id loot)%N).
Proof.
  induction ticks as [|[dt inp] rest IH]; intros s Hfresh Hrange.
  - simpl. split; [apply NoDup_nil_2|]. split; [intros id H; inversion H|].
    split; [exact Hfresh|]. split; [lia|]. split; [intros id H; inversion H|]. auto.
  - simpl in Hrange. destruct Hrange as [Hr Hrest]. simpl.
    pose proof (UpdateState_loots g s dt inp Hfresh Hr) as Hstep.
    destruct (UpdateState std_pow g s dt inp) as [[s1 retired] picked]. simpl in Hrest.
    destruct Hstep as (Hf1 & Hmono1 & Hnd1 & Hp1 & Hl1).
    specialize (IH s1 Hf1 Hrest).
    destruct (run_ticks std_pow g s1 rest) as [s2 picked'].
    destruct IH as (Hnd2 & Hgone2 & Hf2 & Hmono2 & Hp2 & Hl2).
    assert (Hold : forall loot, loot ∈ loots_ s1 -> geom.id loot ∈ loot_ids (loots_ s1)).
    { intros loot Hin. unfold loot_ids. apply list_elem_of_In, in_map_iff.
      exists loot. split; [reflexivity | apply list_elem_of_In, Hin]. }
    unfold picked_ids in *. rewrite map_app.
    split; [|split; [|split; [|split; [|split]]]].
    + apply NoDup_app. split; [exact Hnd1|]. split; [|exact Hnd2].
      intros id Hid Hid'. destruct (Hp1 id Hid) as (Hlt & Hnot & _).
      destruct (Hp2 id Hid') as (_ & [Hin|Hge]); [contradiction | lia].
    + intros id Hid. apply elem_of_app in Hid. destruct Hid as [Hid|Hid].
      * destruct (Hp1 id Hid) as (Hlt & Hnot & _). intros Hin.
        unfold loot_ids in Hin. apply list_elem_of_In, in_map_iff in Hin.
        destruct Hin as (loot & <- & Hloot). apply list_elem_of_In in Hloot.
        destruct (Hl2 loot Hloot) as [Hin1|Hge]; [|lia].
        apply Hnot, Hold, Hin1.
      * apply Hgone2, Hid.
    + exact Hf2.
    + lia.
    + intros id Hid. apply elem_of_app in Hid. destruct Hid as [Hid|Hid].
      * destruct (Hp1 id Hid) as (Hlt & _ & Horigin). split; [lia | exact Horigin].
      * destruct (Hp2 id Hid) as (Hlt & Horigin). split; [exact Hlt|].
        destruct Horigin as [Hin|Hge]; [|right; lia].
        unfold loot_ids in Hin. apply list_elem_of_In, in_map_iff in Hin.
        destruct Hin as (loot & <- & Hloot). apply list_elem_of_In in Hloot.
        destruct (Hl1 loot Hloot) as [Hin0|Hge]; [left|right; exact Hge].
        unfold loot_ids. apply list_elem_of_In, in_map_iff. exists loot.
        split; [reflexivity | apply list_elem_of_In, Hin0].
    + intros loot Hloot. destruct (Hl2 loot Hloot) as [Hin1|Hge]; [|right; lia].
      apply Hl1, Hin1.
Qed.

End tick.


Lemma standing_dog_is_untouched_witness :
  exists p',
    players_ (fst (tick_before_retirement pow_one line_session 1 no_randomness)) !! 1%nat
      = Some p' /\
    position_ (dog_ p') = position_ (dog_ sleeper) /\
    bag_ p' = bag_ sleeper /\
    score_ p' = score_ sleeper.
Proof.
  pose proof (standing_dog_is_untouched pow_one sample_game line_session 1 no_randomness
                1 sleeper eq_refl (Qeq_refl _) (Qeq_refl _)) as H.
  cbv zeta in H.
  destruct (UpdateState pow_one sample_game line_session 1 no_randomness)
    as [[s' retired] picked].
  destruct H as (_ & _ & p' & H1 & H2 & H3 & H4 & _).
  exists p'. auto.
Defined.

(** *** The order of deliveries and pickups *)

Lemma bag_total_sum bag :
  bag_total bag = foldr (fun loot sum => (geom.value loot + sum)%Z) 0%Z bag.
Proof.
  unfold bag_total.
  assert (H : forall acc, fold_left (fun sum loot => (sum + geom.value loot)%Z) bag acc =
                          (acc + foldr (fun loot sum => (geom.value loot + sum)%Z) 0%Z bag)%Z).
  { induction bag as [|l bag IH]; intros acc; simpl; [lia|]. rewrite IH. lia. }
  rewrite H. lia.
Qed.

(** In a list sorted by time an event with a smaller time stands before one
    with a larger time. *)
Lemma earlier_event_first (l : list GameEvent) (d p : GameEvent) :
  StronglySorted game_event_le l -> d ∈ l -> p ∈ l -> ge_time d < ge_time p ->
  exists l1 l2 l3, l = l1 ++ d :: l2 ++ p :: l3.
Proof.
  intros Hs Hd Hp Hlt.
  apply list_elem_of_split in Hp. destruct Hp as (la & lb & ->).
  apply elem_of_app in Hd. destruct Hd as [Hd|Hd].
  - apply list_elem_of_split in Hd. destruct Hd as (l1 & l2 & ->).
    exists l1, l2, lb. rewrite <- app_assoc. reflexivity.
  - exfalso. apply elem_of_cons in Hd. destruct Hd as [->|Hd]; [lra|].
    assert (Hle : game_event_le p d).
    { apply (StronglySorted_app_1_elem_of game_event_le (la ++ [p]) lb).
      - rewrite <- app_assoc. exact Hs.
      - rewrite elem_of_app, list_elem_of_singleton. auto.
      - exact Hd. }
    unfold game_event_le in Hle. lra.
Qed.

(** C4.  The events of a tick are processed in nondecreasing order of time.
    A delivery of a player that is earlier than a pickup of the same player
    is processed first: it adds the total value of the bag the player has at
    that moment to the score and empties the bag; the pickup comes later in
    the list and appends its loot to the bag the player has then, provided
    the loot is not yet collected and the bag is not full. *)
Theorem delivery_before_pickup (s : GameSession) (d p : GameEvent) :
  d ∈ all_events s -> p ∈ all_events s ->
  ge_type d = OFFICE -> ge_type p = LOOT ->
  ge_gatherer_id d = ge_gatherer_id p ->
  ge_time d < ge_time p ->
  StronglySorted game_event_le (all_events s) /\
  exists l1 l2 l3, all_events s = l1 ++ d :: l2 ++ p :: l3 /\
    let g := ge_gatherer_id d in
    let st1 := process_events (loots_ s) l1 (collisions_start s) in
    let st2 := process_event (loots_ s) st1 d in
    let st3 := process_events (loots_ s) l2 st2 in
    let st4 := process_event (loots_ s) st3 p in
    players_ (fst (HandleCollisions s)) = cs_players (process_events (loots_ s) l3 st4) /\
    (exists pl pl2, cs_players st1 !! g = Some pl /\ cs_players st2 !! g = Some pl2 /\
       bag_ pl2 = [] /\
       score_ pl2 = (score_ pl + foldr (fun loot sum => (geom.value loot + sum)%Z) 0%Z (bag_ pl))%Z) /\
    (exists pl3 pl4 loot, cs_players st3 !! g = Some pl3 /\ cs_players st4 !! g = Some pl4 /\
       loots_ s !! ge_item_id p = Some loot /\
       score_ pl4 = score_ pl3 /\
       bag_ pl4 = if decide (geom.id loot ∈ cs_collected st3) then bag_ pl3
                  else if (bag_size pl3 <? bag_capacity_ pl3)%N then bag_ pl3 ++ [loot]
                  else bag_ pl3).
Proof.
  intros Hd Hp Htd Htp Hg Hlt.
  pose proof (all_events_sorted s) as Hsorted. split; [exact Hsorted|].
  destruct (earlier_event_first _ d p Hsorted Hd Hp Hlt) as (l1 & l2 & l3 & Hsplit).
  exists l1, l2, l3. split; [exact Hsplit|]. cbv zeta.
  apply elem_of_all_events, merged_events_indices in Hd. destruct Hd as (Hgd & _ & _).
  apply elem_of_all_events, merged_events_indices in Hp. destruct Hp as (_ & _ & Hip).
  specialize (Hip Htp).
  set (st1 := process_events (loots_ s) l1 (collisions_start s)).
  set (st2 := process_event (loots_ s) st1 d).
  set (st3 := process_events (loots_ s) l2 st2).
  assert (Hlen1 : length (cs_players st1) = length (players_ s))
    by (unfold st1; rewrite process_events_length; reflexivity).
  assert (Hlen3 : length (cs_players st3) = length (players_ s)).
  { unfold st3. rewrite process_events_length. unfold st2.
    rewrite process_event_length. exact Hlen1. }
  split; [|split].
  - unfold HandleCollisions. cbn [fst players_ set_loots set_players].
    rewrite Hsplit. unfold process_events.
    rewrite fold_left_app. simpl. rewrite fold_left_app. reflexivity.
  - destruct (lookup_lt_is_Some_2 (cs_players st1) (ge_gatherer_id d)) as [pl Hpl]; [lia|].
    exists pl, (ClearBag (AddScore pl (bag_total (bag_ pl)))).
    split; [exact Hpl|]. split; [|split].
    + unfold st2, process_event. rewrite Hpl, Htd. simpl.
      apply list_lookup_insert_eq. lia.
    + reflexivity.
    + simpl. rewrite bag_total_sum. reflexivity.
  - destruct (lookup_lt_is_Some_2 (cs_players st3) (ge_gatherer_id d)) as [pl3 Hpl3]; [lia|].
    destruct (lookup_lt_is_Some_2 (loots_ s) (ge_item_id p)) as [loot Hloot]; [lia|].
    exists pl3. unfold process_event. rewrite <- Hg, Hpl3, Htp, Hloot.
    destruct (decide (geom.id loot ∈ cs_collected st3)) as [Hc|Hc].
    + exists pl3, loot. rewrite (decide_True _ _ Hc). auto.
    + unfold IsBagFull. rewrite N.leb_antisym, negb_involutive.
      destruct (bag_size pl3 <? bag_capacity_ pl3)%N eqn:Eroom.
      * exists (AddToBag pl3 loot), loot. rewrite (decide_False _ _ Hc).
        split; [reflexivity|]. split.
        -- simpl. apply list_lookup_insert_eq. lia.
        -- unfold AddToBag. rewrite Eroom. simpl. auto.
      * exists pl3, loot. rewrite (decide_False _ _ Hc). auto.
Qed.

(** In [depot_session] the delivery at the office (time 0.3) comes before the
    pickup (time 0.7). *)
Lemma delivery_before_pickup_witness :
  exists l1 l2 l3,
    all_events depot_session = l1 ++ depot_first :: l2 ++ depot_second :: l3.
Proof.
  destruct (delivery_before_pickup depot_session depot_first depot_second)
    as [_ (l1 & l2 & l3 & Hsplit & _)].
  - vm_compute. apply list_elem_of_here.
  - vm_compute. apply list_elem_of_further, list_elem_of_here.
  - reflexivity.
  - reflexivity.
  - reflexivity.
  - vm_compute. reflexivity.
  - exists l1, l2, l3. exact Hsplit.
Defined.

(** What [HandleCollisions] makes of [depot_session]: the old item of value
    4 is turned into score, and the bag holds the loot picked up after the
    delivery. *)
Lemma depot_session_outcome :
  List.map (fun p => (score_ p, picked_ids (List.map (fun l => (0%nat, l)) (bag_ p))))
    (players_ (fst (HandleCollisions depot_session))) = [(4%Z, [7%N])] /\
  loots_ (fst (HandleCollisions depot_session)) = [].
Proof. vm_compute. auto. Qed.

(** Two ticks of the session of scenario S3 with a generator that spawns one
    loot per tick. *)
Lemma loot_picked_at_most_once_witness :
  NoDup (picked_ids (snd (run_ticks pow_one sample_game spawning_session
                            [(1, random_one); (1, random_one)]))).
Proof.
  pose proof (loot_picked_at_most_once pow_one sample_game
                [(1, random_one); (1, random_one)] spawning_session) as H.
  destruct (run_ticks pow_one sample_game spawning_session
              [(1, random_one); (1, random_one)]) as [s' picked].
  apply H.
  - split.
    + apply NoDup_cons. split; [intros Hin; inversion Hin | apply NoDup_nil_2].
    + apply List.Forall_cons; [simpl; lia | apply List.Forall_nil].
  - vm_compute. repeat split; reflexivity.
Defined.

Lemma spawning_session_run :
  picked_ids (snd (run_ticks pow_one sample_game spawning_session
                     [(1, random_one); (1, random_one)])) = [0%N; 1%N] /\
  loot_ids (loots_ (fst (run_ticks pow_one sample_game spawning_session
                           [(1, random_one); (1, random_one)]))) = [2%N].
Proof. vm_compute. auto. Qed.

End SessionProofs.

(** ** The state snapshot *)

Module SerializerProofs.
Import model game state_serializer.

Lemma to_size_t_to_int64 n : size_t_range n -> to_size_t (to_int64 n) = n.
Proof.
  unfold size_t_range, to_size_t, to_int64. intros H.
  destruct (n <? 2 ^ 63)%N eqn:E.
  - rewrite Z.mod_small by lia. apply N2Z.id.
  - apply N.ltb_ge in E.
    replace (Z.of_N n - 2 ^ 64)%Z with (Z.of_N n + (-1) * 2 ^ 64)%Z by lia.
    rewrite Z_mod_plus_full. rewrite Z.mod_small by lia. apply N2Z.id.
Qed.

Lemma to_int_id i : int_range i -> to_int i = i.
Proof.
  unfold int_range, to_int. intros H. rewrite Z.mod_small by lia. lia.
Qed.

Lemma c_str_no_nul s : no_nul s -> c_str s = s.
Proof.
  induction s as [|c s IH]; simpl; [reflexivity|]. intros [Hc Hs].
  apply Ascii.eqb_neq in Hc. rewrite Hc, IH by exact Hs. reflexivity.
Qed.

Lemma DeserializeDirection_Serialize d :
  DeserializeDirection (c_str (SerializeDirection d)) = d.
Proof. destruct d; reflexivity. Qed.

Lemma DeserializeLoot_Serialize loot :
  loot_wf loot -> DeserializeLoot (SerializeLoot loot) = Some (saved_loot loot).
Proof.
  intros (Hid & Htype & Hvalue). unfold DeserializeLoot, SerializeLoot. simpl.
  rewrite !to_size_t_to_int64, to_int_id by assumption. reflexivity.
Qed.

Lemma DeserializeDog_Serialize dog :
  dog_wf dog -> DeserializeDog (SerializeDog dog) = Some (saved_dog dog).
Proof.
  intros (Hid & Hname & Hmap). unfold DeserializeDog, SerializeDog. simpl.
  rewrite DeserializeDirection_Serialize, !c_str_no_nul by assumption. reflexivity.
Qed.

Lemma reparse_SerializeLoot loot :
  json.reparse (json.object_ (SerializeLoot loot)) = json.object_ (SerializeLoot loot).
Proof. reflexivity. Qed.

Lemma reparse_loots loots :
  List.map json.reparse (List.map (fun loot => json.object_ (SerializeLoot loot)) loots) =
  List.map (fun loot => json.object_ (SerializeLoot loot)) loots.
Proof. rewrite List.map_map. apply map_ext. intros loot. apply reparse_SerializeLoot. Qed.

Lemma reparse_SerializePlayer player :
  json.reparse (json.object_ (SerializePlayer player)) = json.object_ (SerializePlayer player).
Proof.
  unfold SerializePlayer. simpl. rewrite reparse_loots. reflexivity.
Qed.

#[local] Arguments DeserializeDog : simpl never.
#[local] Arguments SerializeDog : simpl never.
#[local] Arguments DeserializeLoot : simpl never.
#[local] Arguments SerializeLoot : simpl never.
#[local] Arguments DeserializePlayer : simpl never.
#[local] Arguments SerializePlayer : simpl never.
#[local] Arguments to_size_t : simpl never.
#[local] Arguments to_int64 : simpl never.
#[local] Arguments to_int : simpl never.
#[local] Arguments c_str : simpl never.

Lemma restore_bag_items bag : forall player,
  (N.of_nat (length (bag_ player)) + N.of_nat (length bag) <= bag_capacity_ player)%N ->
  Forall loot_wf bag ->
  fold_left restore_bag_item
    (List.map (fun loot => json.object_ (SerializeLoot loot)) bag) player =
  set_bag player (bag_ player ++ List.map saved_loot bag).
Proof.
  induction bag as [|loot bag IH]; intros player Hlen Hwf; simpl.
  - rewrite app_nil_r. destruct player; reflexivity.
  - apply Forall_cons in Hwf. destruct Hwf as [Hloot Hwf].
    simpl in Hlen.
    assert (Hstep : restore_bag_item player (json.object_ (SerializeLoot loot)) =
                    set_bag player (bag_ player ++ [saved_loot loot])).
    { unfold restore_bag_item. cbn [json.as_object mbind option_bind].
      rewrite (DeserializeLoot_Serialize loot Hloot).
      unfold AddToBag, bag_size.
      destruct (N.of_nat (length (bag_ player)) <? bag_capacity_ player)%N eqn:E;
        [reflexivity|]. apply N.ltb_ge in E. lia. }
    rewrite Hstep. rewrite IH.
    + simpl. rewrite <- app_assoc. reflexivity.
    + simpl. rewrite length_app. simpl. lia.
    + exact Hwf.
Qed.

Lemma DeserializePlayer_Serialize player :
  player_wf player ->
  DeserializePlayer (SerializePlayer player) = Some (saved_player player).
Proof.
  intros (Hid & Hcap & Hscore & Htoken & Hdog & Hbag & Hok).
  destruct Hdog as (Hdid & Hdname & Hdmap).
  unfold DeserializePlayer, SerializePlayer. simpl.
  rewrite DeserializeDirection_Serialize.
  rewrite !to_size_t_to_int64, to_int_id, !c_str_no_nul by assumption.
  rewrite restore_bag_items.
  - reflexivity.
  - simpl. unfold bag_ok, bag_size in Hok. lia.
  - exact Hbag.
Qed.

Lemma restore_players players : forall session,
  Forall player_wf players ->
  fold_left restore_player
    (List.map (fun player => json.object_ (SerializePlayer player)) players) session =
  set_players session (players_ session ++ List.map saved_player players).
Proof.
  induction players as [|player players IH]; intros session Hwf; simpl.
  - rewrite app_nil_r. destruct session; reflexivity.
  - apply Forall_cons in Hwf. destruct Hwf as [Hp Hwf].
    assert (Hstep : restore_player session (json.object_ (SerializePlayer player)) =
                    AddPlayer session (saved_player player)).
    { unfold restore_player. cbn [json.as_object mbind option_bind].
      rewrite (DeserializePlayer_Serialize player Hp). reflexivity. }
    rewrite Hstep, IH by exact Hwf. simpl. rewrite <- app_assoc. reflexivity.
Qed.

Lemma restore_loots loots : forall session,
  Forall loot_wf loots ->
  fold_left restore_loot
    (List.map (fun loot => json.object_ (SerializeLoot loot)) loots) session =
  set_loots session (loots_ session ++ List.map saved_loot loots).
Proof.
  induction loots as [|loot loots IH]; intros session Hwf; simpl.
  - rewrite app_nil_r. destruct session; reflexivity.
  - apply Forall_cons in Hwf. destruct Hwf as [Hl Hwf].
    assert (Hstep : restore_loot session (json.object_ (SerializeLoot loot)) =
                    AddLoot session (saved_loot loot)).
    { unfold restore_loot. cbn [json.as_object mbind option_bind].
      rewrite (DeserializeLoot_Serialize loot Hl). reflexivity. }
    rewrite Hstep, IH by exact Hwf. simpl. rewrite <- app_assoc. reflexivity.
Qed.

Lemma reparse_players players :
  List.map json.reparse
    (List.map (fun player => json.object_ (SerializePlayer player)) players) =
  List.map (fun player => json.object_ (SerializePlayer player)) players.
Proof. rewrite List.map_map. apply map_ext. intros p. apply reparse_SerializePlayer. Qed.

Lemma update_last_session g sessions session f :
  update_session (set_sessions g (sessions ++ [session])) (length sessions) f =
  set_sessions g (sessions ++ [f session]).
Proof.
  unfold update_session, set_sessions. simpl. f_equal.
  rewrite <- (Nat.add_0_r (length sessions)). rewrite alter_app_r. reflexivity.
Qed.

(** Restoring one saved session into a game that has the map and no session
    for it yet appends the saved session. *)
Lemma restore_session_saved g s :
  find_session (sessions_ g) (map_id (map_ s)) = None ->
  session_wf g s ->
  restore_session g (json.reparse (json.object_ (SerializeSession s))) =
  set_sessions g (sessions_ g ++ [saved_session g s]).
Proof.
  intros Hnone (Hid & Hmap & Hnul & Hnext & Hplayers & Hloots).
  unfold restore_session, SerializeSession.
  cbn [json.reparse List.map fst snd json.as_object].
  rewrite reparse_players, reparse_loots.
  apply N.leb_le in Hnext. rewrite Hnext.
  unfold DeserializeSession.
  cbn [json.contains json.at_ existsb String.eqb Ascii.eqb Bool.eqb fst snd negb orb
       mbind option_bind json.as_string json.as_int64 json.as_array].
  rewrite (c_str_no_nul _ Hnul).
  unfold GetOrCreateSession, FindSessionByMapId. rewrite Hnone, Hmap.
  rewrite !update_last_session.
  rewrite restore_players by exact Hplayers.
  rewrite restore_loots by exact Hloots.
  assert (Hn : to_size_t (Z.of_N (next_loot_id_ s)) = next_loot_id_ s).
  { apply N.leb_le in Hnext. unfold json.INT64_MAX in Hnext. unfold to_size_t.
    rewrite Z.mod_small by lia. apply N2Z.id. }
  rewrite Hn. cbn [fst]. f_equal. f_equal. f_equal.
  unfold saved_session. rewrite Hid.
  destruct (loot_generator_config_ g); reflexivity.
Qed.

Lemma restore_session_fields g s :
  maps_ (set_sessions g s) = maps_ g /\
  loot_generator_config_ (set_sessions g s) = loot_generator_config_ g.
Proof. auto. Qed.

Lemma find_session_app sessions session id :
  find_session sessions id = None ->
  map_id (map_ session) <> id ->
  find_session (sessions ++ [session]) id = None.
Proof.
  induction sessions as [|s0 sessions IH]; simpl; intros Hnone Hne.
  - apply String.eqb_neq in Hne. rewrite Hne. reflexivity.
  - destruct (String.eqb (map_id (map_ s0)) id); [discriminate|].
    destruct (find_session sessions id) eqn:E; [discriminate|].
    rewrite IH; auto.
Qed.

(** Restoring all saved sessions one after the other. *)
Lemma restore_sessions_saved saved : forall g,
  NoDup (List.map (fun s => map_id (map_ s)) saved) ->
  Forall (session_wf g) saved ->
  (forall s, s ∈ saved -> find_session (sessions_ g) (map_id (map_ s)) = None) ->
  fold_left restore_session
    (List.map json.reparse
       (List.map (fun session => json.object_ (SerializeSession session)) saved)) g =
  set_sessions g (sessions_ g ++ List.map (saved_session g) saved).
Proof.
  induction saved as [|s saved IH]; intros g Hnd Hwf Hfree; cbn [List.map fold_left].
  - rewrite app_nil_r. destruct g; reflexivity.
  - cbn [List.map] in Hnd.
    apply NoDup_cons in Hnd. destruct Hnd as [Hnotin Hnd].
    apply Forall_cons in Hwf. destruct Hwf as [Hs Hwf].
    rewrite (restore_session_saved g s); [|apply Hfree, list_elem_of_here|exact Hs].
    set (g1 := set_sessions g (sessions_ g ++ [saved_session g s])).
    assert (Hwf1 : Forall (session_wf g1) saved).
    { eapply Forall_impl; [exact Hwf|]. intros s' Hs'. exact Hs'. }
    rewrite (IH g1 Hnd Hwf1).
    + unfold g1. simpl. unfold set_sessions. simpl. rewrite <- app_assoc. reflexivity.
    + intros s' Hs'. unfold g1. simpl. apply find_session_app.
      * apply Hfree, list_elem_of_further, Hs'.
      * simpl. intros Heq. apply Hnotin. rewrite Heq.
        apply list_elem_of_In, in_map_iff. exists s'. split; [reflexivity|].
        apply list_elem_of_In, Hs'.
Qed.

Lemma Forall2_map_self {A B} (P : A -> B -> Prop) (f : A -> B) (l : list A) :
  (forall x, P x (f x)) -> Forall2 P l (List.map f l).
Proof. intros H. induction l; simpl; constructor; auto. Qed.

Lemma saved_loot_restored loot : loot_restored loot (saved_loot loot).
Proof. unfold loot_restored. simpl. auto. Qed.

Lemma saved_player_restored player : player_restored player (saved_player player).
Proof.
  unfold player_restored, dog_restored. simpl.
  repeat (split; [reflexivity|]). split; [|repeat split; reflexivity].
  apply Forall2_map_self, saved_loot_restored.
Qed.

Lemma saved_session_restored g session : session_restored session (saved_session g session).
Proof.
  unfold session_restored. simpl. repeat (split; [reflexivity|]). split.
  - apply Forall2_map_self, saved_player_restored.
  - apply Forall2_map_self, saved_loot_restored.
Qed.

(** The round trip where the reads of the loader through [c_str()] lose
    nothing.  Let [src] hold sessions as the game makes them (one per map,
    named after it, with the map the game finds under that id), with
    identifiers that contain no NUL character, numbers within their C++
    types, the loot counter within [int64_t] and bags within capacity.
    Saving [src] and
    loading the file into a game with the same maps and no session succeeds
    and yields, session by session and in the same order, the same session
    id, map and loot counter, and the same players (id, token, score, bag
    capacity, bag, dog id, name, map id and direction) and loots in the same
    order, with every position and speed rounded to 6 decimals. *)
Theorem snapshot_round_trip (src target : Game) :
  maps_ target = maps_ src ->
  sessions_ target = [] ->
  NoDup (List.map (fun s => map_id (map_ s)) (sessions_ src)) ->
  Forall (session_wf src) (sessions_ src) ->
  exists restored,
    Deserialize target (saved_state src) = Some restored /\
    Forall2 session_restored (sessions_ src) (sessions_ restored).
Proof.
  intros Hmaps Hempty Hnd Hwf.
  exists (set_sessions target (List.map (saved_session target) (sessions_ src))).
  split; [|apply Forall2_map_self, saved_session_restored].
  unfold Deserialize, saved_state, SerializeGame.
  cbn [json.reparse List.map fst snd json.as_object mbind option_bind].
  unfold DeserializeGame.
  cbn [json.contains json.at_ existsb String.eqb Ascii.eqb Bool.eqb fst snd negb orb
       mbind option_bind json.as_array].
  rewrite restore_sessions_saved.
  - rewrite Hempty. reflexivity.
  - exact Hnd.
  - eapply Forall_impl; [exact Hwf|]. intros s (H1 & H2 & H3).
    split; [exact H1|]. split; [|exact H3].
    unfold FindMap in *. rewrite Hmaps. exact H2.
  - intros s _. rewrite Hempty. reflexivity.
Qed.

Ltac range_fact :=
  unfold size_t_range, int_range, bag_ok, bag_size, json.INT64_MAX; simpl; lia.

Ltac no_nul_fact := simpl; repeat split; discriminate.

Ltac loots_fact :=
  repeat (apply List.Forall_cons; [unfold loot_wf; simpl; repeat split; range_fact|]);
  apply List.Forall_nil.

Ltac player_fact :=
  unfold player_wf, dog_wf;
  cbn [player_id bag_capacity_ score_ token_ dog_ bag_ dog_id dog_name dog_map_id];
  repeat split; first [range_fact | no_nul_fact | loots_fact].

Lemma snapshot_round_trip_witness :
  exists restored,
    Deserialize empty_game (saved_state running_game) = Some restored /\
    Forall2 session_restored (sessions_ running_game) (sessions_ restored).
Proof.
  apply snapshot_round_trip.
  - reflexivity.
  - reflexivity.
  - vm_compute. apply NoDup_cons. split; [intros H; inversion H | apply NoDup_nil_2].
  - remember (sessions_ running_game) as l eqn:Hl. vm_compute in Hl. subst l.
    apply List.Forall_cons; [|apply List.Forall_nil].
    unfold session_wf. cbn [session_id map_ next_loot_id_ players_ loots_ map_id].
    split; [reflexivity|]. split; [reflexivity|]. split; [no_nul_fact|].
    split; [range_fact|]. split; [|loots_fact].
    apply List.Forall_cons; [player_fact|].
    apply List.Forall_cons; [player_fact|]. apply List.Forall_nil.
Defined.

(** *** Bags after a restore *)

Lemma restore_bag_bag_ok bag_array : forall player,
  bag_ok player -> bag_ok (fold_left restore_bag_item bag_array player).
Proof.
  induction bag_array as [|v bag_array IH]; intros player H; simpl; [exact H|].
  apply IH. unfold restore_bag_item.
  destruct (json.as_object v ≫= DeserializeLoot); [|exact H].
  apply SessionProofs.bag_ok_AddToBag, H.
Qed.

Lemma Player_new_bag_ok id dog token bag_capacity :
  bag_ok (Player_new id dog token bag_capacity).
Proof. unfold bag_ok, bag_size. simpl. lia. Qed.

Lemma DeserializePlayer_bag_ok json_val player :
  DeserializePlayer json_val = Some player -> bag_ok player.
Proof.
  unfold DeserializePlayer. intros H.
  destruct (negb _); [discriminate|].
  destruct (json.at_ json_val "id" ≫= json.as_int64) as [id|]; [|discriminate].
  destruct (json.at_ json_val "token" ≫= json.as_string) as [token|]; [|discriminate].
  destruct (json.at_ json_val "score" ≫= json.as_int64) as [score|]; [|discriminate].
  destruct (json.at_ json_val "bag_capacity" ≫= json.as_int64) as [cap|]; [|discriminate].
  destruct (json.at_ json_val "dog" ≫= json.as_object) as [dog_obj|]; [|discriminate].
  cbn [mbind option_bind] in H.
  destruct (DeserializeDog dog_obj) as [dog|]; [|discriminate].
  cbn [mbind option_bind] in H.
  assert (Hnew : bag_ok (AddScore (Player_new (to_size_t id) dog (c_str token)
                                     (to_size_t cap)) (to_int score))).
  { unfold bag_ok, bag_size. simpl. lia. }
  destruct (json.contains json_val "bag").
  - destruct (json.at_ json_val "bag" ≫= json.as_array) as [bag_array|]; [|discriminate].
    cbn [mbind option_bind] in H. inversion H; subst.
    apply restore_bag_bag_ok, Hnew.
  - inversion H; subst. exact Hnew.
Qed.

Lemma restore_players_bag_ok players_array : forall session,
  Forall bag_ok (players_ session) ->
  Forall bag_ok (players_ (fold_left restore_player players_array session)).
Proof.
  induction players_array as [|v players_array IH]; intros session H; simpl; [exact H|].
  apply IH. unfold restore_player.
  destruct (json.as_object v ≫= DeserializePlayer) as [player|] eqn:E; [|exact H].
  simpl. apply Forall_app. split; [exact H|].
  apply List.Forall_cons; [|apply List.Forall_nil].
  destruct (json.as_object v) as [o|]; [|discriminate].
  apply (DeserializePlayer_bag_ok o). exact E.
Qed.

Lemma restore_loots_players loots_array : forall session,
  players_ (fold_left restore_loot loots_array session) = players_ session.
Proof.
  induction loots_array as [|v loots_array IH]; intros session; simpl; [reflexivity|].
  rewrite IH. unfold restore_loot.
  destruct (json.as_object v ≫= DeserializeLoot); reflexivity.
Qed.

Lemma update_session_bags_ok g idx f :
  (forall session, Forall bag_ok (players_ session) -> Forall bag_ok (players_ (f session))) ->
  game_bags_ok g -> game_bags_ok (update_session g idx f).
Proof.
  unfold game_bags_ok, update_session. simpl. intros Hf H.
  apply Forall_alter; [exact H|]. intros session _. apply Hf.
Qed.

Lemma GetOrCreateSession_bags_ok g id g' idx :
  GetOrCreateSession g id = Some (g', idx) -> game_bags_ok g -> game_bags_ok g'.
Proof.
  unfold GetOrCreateSession, game_bags_ok. intros H Hok.
  destruct (FindSessionByMapId g id); [inversion H; subst; exact Hok|].
  destruct (FindMap g id) as [m|]; [|discriminate].
  inversion H; subst. simpl. apply Forall_app. split; [exact Hok|].
  apply List.Forall_cons; [|apply List.Forall_nil].
  destruct (loot_generator_config_ g); simpl; apply List.Forall_nil.
Qed.

(** A session restored from any JSON value keeps all bags of the game
    within capacity, wherever the restore stops. *)
Lemma DeserializeSession_bags_ok g json_val :
  game_bags_ok g -> game_bags_ok (fst (DeserializeSession g json_val)).
Proof.
  intros Hok. unfold DeserializeSession.
  destruct (negb _); [exact Hok|].
  destruct (json.at_ json_val "map_id" ≫= json.as_string) as [str|]; [|exact Hok].
  destruct (GetOrCreateSession g (c_str str)) as [[g1 idx]|] eqn:Hget; [|exact Hok].
  pose proof (GetOrCreateSession_bags_ok _ _ _ _ Hget Hok) as Hok1.
  match goal with
  | |- context [match ?step with Some _ => _ | None => _ end] =>
      destruct step as [g2|] eqn:Hstep2
  end; [|exact Hok1].
  assert (Hok2 : game_bags_ok g2).
  { destruct (json.contains json_val "next_loot_id").
    - destruct (json.at_ json_val "next_loot_id" ≫= json.as_int64); [|discriminate].
      cbn [mbind option_bind] in Hstep2. inversion Hstep2; subst.
      apply update_session_bags_ok; [|exact Hok1]. intros session H. exact H.
    - inversion Hstep2; subst. exact Hok1. }
  match goal with
  | |- context [match ?step with Some _ => _ | None => _ end] =>
      destruct step as [g3|] eqn:Hstep3
  end; [|exact Hok2].
  assert (Hok3 : game_bags_ok g3).
  { destruct (json.contains json_val "players").
    - destruct (json.at_ json_val "players" ≫= json.as_array) as [arr|]; [|discriminate].
      cbn [mbind option_bind] in Hstep3. inversion Hstep3; subst.
      apply update_session_bags_ok; [|exact Hok2]. apply restore_players_bag_ok.
    - inversion Hstep3; subst. exact Hok2. }
  match goal with
  | |- context [match ?step with Some _ => _ | None => _ end] =>
      destruct step as [g4|] eqn:Hstep4
  end; [|exact Hok3].
  destruct (json.contains json_val "loots").
  - destruct (json.at_ json_val "loots" ≫= json.as_array) as [arr|]; [|discriminate].
    cbn [mbind option_bind] in Hstep4. inversion Hstep4; subst.
    apply update_session_bags_ok; [|exact Hok3].
    intros session H. rewrite restore_loots_players. exact H.
  - inversion Hstep4; subst. exact Hok3.
Qed.

Lemma Deserialize_bags_ok g file g' :
  Deserialize g file = Some g' -> game_bags_ok g -> game_bags_ok g'.
Proof.
  unfold Deserialize. intros H Hok.
  destruct (json.as_object file) as [o|]; [|discriminate].
  cbn [mbind option_bind] in H. unfold DeserializeGame in H.
  destruct (negb (json.contains o "sessions")); [inversion H; subst; exact Hok|].
  destruct (json.at_ o "sessions" ≫= json.as_array) as [arr|]; [|discriminate].
  cbn [mbind option_bind] in H. inversion H; subst. clear H.
  revert g Hok. induction arr as [|v arr IH]; intros g Hok; simpl; [exact Hok|].
  apply IH. unfold restore_session. destruct (json.as_object v); [|exact Hok].
  apply DeserializeSession_bags_ok, Hok.
Qed.

(** C6.  The bag of a player never holds more items than its capacity: the
    players of a session whose bags are within capacity are so after a tick;
    a newly constructed player is; a player that [DeserializePlayer] returns
    is, whatever the JSON value; and a game restored from any snapshot file
    keeps all bags within capacity. *)
Theorem bag_within_capacity (std_pow : Q -> Q -> Q) (g : GameConfig) (s : GameSession)
    (delta_time : Q) (inp : TickInput) :
  Forall bag_ok (players_ s) ->
  Forall bag_ok (players_ (fst (fst (UpdateState std_pow g s delta_time inp)))) /\
  (forall id dog token bag_capacity, bag_ok (Player_new id dog token bag_capacity)) /\
  (forall json_val player, DeserializePlayer json_val = Some player -> bag_ok player) /\
  (forall game file restored,
     Deserialize game file = Some restored -> game_bags_ok game -> game_bags_ok restored).
Proof.
  intros H. split; [apply SessionProofs.UpdateState_bag_ok, H|].
  split; [apply Player_new_bag_ok|]. split; [apply DeserializePlayer_bag_ok|].
  apply Deserialize_bags_ok.
Qed.

Lemma bag_within_capacity_witness :
  Forall bag_ok
    (players_ (fst (fst (UpdateState pow_one sample_game line_session 1 no_randomness)))).
Proof.
  apply (bag_within_capacity pow_one sample_game line_session 1 no_randomness).
  apply List.Forall_cons; [range_fact|].
  apply List.Forall_cons; [range_fact|]. apply List.Forall_nil.
Defined.

End SerializerProofs.

(** ** Rounding to six decimals *)

Module GeomProofs.

Lemma Qfloor_half (q : Q) (k : Z) : q == inject_Z k + 0.5 -> Qfloor q = k.
Proof.
  intros Hq.
  assert (Hle : (Qfloor q <= k)%Z) by (apply LootGenProofs.floor_at_most; lra).
  assert (Hge : (k <= Qfloor q)%Z).
  { rewrite <- (Qfloor_Z k). apply Qfloor_resp_le. lra. }
  lia.
Qed.

Lemma std_round_integer (q : Q) (z : Z) : q == inject_Z z -> geom.std_round q = z.
Proof.
  intros Hq. unfold geom.std_round. destruct (Qltb q 0).
  - rewrite (Qfloor_half (- q + 0.5) (- z)); [lia|].
    rewrite inject_Z_opp. lra.
  - apply Qfloor_half. lra.
Qed.

Lemma std_round_near (v : Q) :
  - (1 # 2) <= inject_Z (geom.std_round v) - v <= 1 # 2.
Proof.
  unfold geom.std_round. destruct (Qltb v 0).
  - pose proof (Qfloor_le (- v + 0.5)) as Hlo.
    pose proof (Qlt_floor (- v + 0.5)) as Hhi.
    rewrite inject_Z_plus in Hhi. rewrite inject_Z_opp.
    change (inject_Z 1) with 1 in Hhi. lra.
  - pose proof (Qfloor_le (v + 0.5)) as Hlo.
    pose proof (Qlt_floor (v + 0.5)) as Hhi.
    rewrite inject_Z_plus in Hhi.
    change (inject_Z 1) with 1 in Hhi. lra.
Qed.

Lemma Round6_near (v : Q) : Qabs (geom.Round6 v - v) <= 1 # 2000000.
Proof.
  apply Qabs_Qle_condition. unfold geom.Round6.
  pose proof (std_round_near (v * 1000000)) as H.
  set (t := inject_Z (geom.std_round (v * 1000000))) in *.
  assert (Ht : t / 1000000 == t * (1 # 1000000)) by (field; discriminate).
  rewrite Ht. split; lra.
Qed.

Lemma Round6_idempotent (v : Q) : geom.Round6 (geom.Round6 v) = geom.Round6 v.
Proof.
  unfold geom.Round6 at 1.
  rewrite (std_round_integer _ (geom.std_round (v * 1000000))); [reflexivity|].
  unfold geom.Round6. field.
Qed.

Lemma std_round_mono (v w : Q) : v <= w -> (geom.std_round v <= geom.std_round w)%Z.
Proof.
  intros Hvw. unfold geom.std_round.
  destruct (Qltb v 0) eqn:Hv; destruct (Qltb w 0) eqn:Hw.
  - assert (Qfloor (- w + 0.5) <= Qfloor (- v + 0.5))%Z by (apply Qfloor_resp_le; lra).
    lia.
  - apply Qltb_lt in Hv. apply Qltb_ge in Hw.
    assert (0 <= Qfloor (- v + 0.5))%Z.
    { rewrite <- (Qfloor_Z 0). apply Qfloor_resp_le. change (inject_Z 0) with 0. lra. }
    assert (0 <= Qfloor (w + 0.5))%Z.
    { rewrite <- (Qfloor_Z 0). apply Qfloor_resp_le. change (inject_Z 0) with 0. lra. }
    lia.
  - apply Qltb_ge in Hv. apply Qltb_lt in Hw. lra.
  - apply Qfloor_resp_le. lra.
Qed.

Lemma Round6_mono (v w : Q) : v <= w -> geom.Round6 v <= geom.Round6 w.
Proof.
  intros Hvw. unfold geom.Round6.
  assert (H : (geom.std_round (v * 1000000) <= geom.std_round (w * 1000000))%Z)
    by (apply std_round_mono; lra).
  rewrite Zle_Qle in H.
  set (a := inject_Z (geom.std_round (v * 1000000))) in *.
  set (b := inject_Z (geom.std_round (w * 1000000))) in *.
  assert (Ha : a / 1000000 == a * (1 # 1000000)) by (field; discriminate).
  assert (Hb : b / 1000000 == b * (1 # 1000000)) by (field; discriminate).
  rewrite Ha, Hb. lra.
Qed.

(** A value with at most six decimals is not changed by [Round6]. *)
Lemma Round6_exact (v : Q) (k : Z) : v * 1000000 == inject_Z k -> geom.Round6 v == v.
Proof.
  intros Hk. unfold geom.Round6. rewrite (std_round_integer _ k Hk).
  rewrite <- Hk. field.
Qed.

Ltac double_constants :=
  unfold geom_double.largest, geom_double.unit_roundoff, geom_double.half_least in *;
  let a := eval vm_compute in (2 ^ 53)%positive in
  let b := eval vm_compute in (2 ^ 1075)%positive in
  let c := eval vm_compute in (2 ^ 1023)%Z in
  change (2 ^ 53)%positive with a in *;
  change (2 ^ 1075)%positive with b in *;
  change (2 ^ 1023)%Z with c in *.

(** X1.  In double arithmetic, where the product and the quotient of
    [Round6] are each rounded to nearest, [Round6] moves a value [v] whose
    product with a million does not overflow by at most half a millionth
    plus a rounding error of at most [2^-53 * (3 |v| + 10^-6) + 2^-1074]. *)
Theorem Round6_accuracy (fl : Q -> Q) (v : Q) :
  geom_double.rounds_to_nearest fl ->
  Qabs v * 1000000 <= geom_double.largest ->
  Qabs (geom_double.Round6 fl v - v) <=
    (1 # 2000000) +
    geom_double.unit_roundoff * (3 * Qabs v + (1 # 1000000)) +
    2 * geom_double.half_least.
Proof.
  intros Hfl Hrange. unfold geom_double.Round6.
  pose proof (Qabs_nonneg v) as Hv0.
  pose proof (Qle_Qabs v) as Hv1.
  pose proof (Qle_Qabs (- v)) as Hv2. rewrite Qabs_opp in Hv2.
  assert (Hprod : Qabs (v * 1000000) == Qabs v * 1000000).
  { rewrite Qabs_Qmult. reflexivity. }
  pose proof (Hfl (v * 1000000)) as Hp. rewrite Hprod in Hp. specialize (Hp Hrange).
  set (p := fl (v * 1000000)) in *.
  pose proof (std_round_near p) as Hk.
  set (k := inject_Z (geom.std_round p)) in *.
  assert (Hq : k / 1000000 == k * (1 # 1000000)) by (field; discriminate).
  apply Qabs_Qle_condition in Hp.
  set (a := Qabs v) in *. clearbody a p k.
  assert (Hkabs : Qabs k <= a * 1000000 * (1 + geom_double.unit_roundoff) +
                             geom_double.half_least + (1 # 2)).
  { apply Qabs_Qle_condition. double_constants. split; lra. }
  assert (Hquot : Qabs (k / 1000000) == Qabs k * (1 # 1000000)).
  { rewrite Hq, Qabs_Qmult. reflexivity. }
  pose proof (Hfl (k / 1000000)) as Hr. rewrite Hquot in Hr.
  assert (Hsmall : Qabs k * (1 # 1000000) <= geom_double.largest).
  { double_constants. lra. }
  specialize (Hr Hsmall).
  set (r := fl (k / 1000000)) in *. clearbody r.
  apply Qabs_Qle_condition in Hr. apply Qabs_Qle_condition.
  set (b := Qabs k) in *. clearbody b.
  rewrite Hq in Hr. double_constants. split; lra.
Qed.

Lemma Round6_accuracy_witness :
  Qabs (geom_double.Round6 (fun x => x) (1234565 # 10000000) - (1234565 # 10000000)) <=
    (1 # 2000000) +
    geom_double.unit_roundoff * (3 * Qabs (1234565 # 10000000) + (1 # 1000000)) +
    2 * geom_double.half_least.
Proof.
  apply (Round6_accuracy (fun x => x) (1234565 # 10000000)).
  - intros x _. apply Qabs_Qle_condition. pose proof (Qabs_nonneg x) as Hx.
    double_constants. split; lra.
  - vm_compute. discriminate.
Defined.

End GeomProofs.

(** ** More on the collision detector *)

Module DetectorFacts.
Import collision_detector.

Lemma zero_move_pos_eq g : zero_move g = false <-> ~ pos_eq (start_pos g) (end_pos g).
Proof.
  unfold zero_move, pos_eq. rewrite andb_false_iff, !Qeqb_neq. split.
  - intros [H|H] [Hx Hy]; contradiction.
  - intros H. destruct (Qeq_dec (geom.x (start_pos g)) (geom.x (end_pos g))) as [Hx|Hx].
    + right. intros Hy. apply H. split; assumption.
    + left. exact Hx.
Qed.

Lemma collects_spec g result :
  collects g result = true <->
  0 <= proj_ratio result /\ proj_ratio result <= 1 /\
  cr_sq_distance result <= width g * width g.
Proof.
  unfold collects. rewrite !andb_true_iff, !Qleb_le. tauto.
Qed.

Lemma NoDup_map_flat_map {A B K} (key : B -> K) (owner : K -> A) (f : A -> list B)
    (l : list A) :
  (forall x y, y ∈ f x -> owner (key y) = x) ->
  (forall x, NoDup (List.map key (f x))) ->
  NoDup l -> NoDup (List.map key (flat_map f l)).
Proof.
  intros Howner Hf. induction 1 as [|a l Ha Hl IH]; simpl; [constructor|].
  rewrite List.map_app. apply NoDup_app. split; [apply Hf|]. split; [|exact IH].
  intros k Hk1 Hk2.
  apply list_elem_of_fmap in Hk1 as [y1 [-> Hy1]].
  apply list_elem_of_fmap in Hk2 as [y2 [Heq Hy2]].
  apply DetectorProofs.elem_of_flat_map in Hy2 as [x [Hx Hy2]].
  apply Howner in Hy1. apply Howner in Hy2. rewrite Heq in Hy1.
  apply Ha. congruence.
Qed.

Section provider.
Context `{ItemGathererProvider P} (provider : P).

Lemma FindGatherEvents_member (ev : GatheringEvent) :
  ev ∈ FindGatherEvents provider <->
  (gatherer_id ev < GatherersCount provider)%nat /\
  (item_id ev < ItemsCount provider)%nat /\
  let g := GetGatherer provider (gatherer_id ev) in
  let result := TryCollectPoint (start_pos g) (end_pos g)
                  (item_position (GetItem provider (item_id ev))) in
  ~ pos_eq (start_pos g) (end_pos g) /\
  0 <= proj_ratio result /\ proj_ratio result <= 1 /\
  cr_sq_distance result <= width g * width g /\
  sq_distance ev = cr_sq_distance result /\ time ev = proj_ratio result.
Proof.
  rewrite DetectorProofs.elem_of_FindGatherEvents. split.
  - intros (gi & ii & Hgi & Hii & Hz & Hc & ->). simpl.
    apply zero_move_pos_eq in Hz. apply collects_spec in Hc.
    tauto.
  - intros (Hgi & Hii & Hz & H0 & H1 & Hd & Hsq & Ht).
    exists (gatherer_id ev), (item_id ev). split; [exact Hgi|]. split; [exact Hii|].
    cbv zeta. split; [apply zero_move_pos_eq; exact Hz|].
    split; [apply collects_spec; auto|].
    destruct ev as [ii gi sq t]. simpl in *. subst. reflexivity.
Qed.

(** X3.  [FindGatherEvents] returns its events in the order of their times,
    and it reports an event exactly for a gatherer that moved and an item
    whose projection falls on the sweep and whose squared distance from the
    line of the sweep is at most the square of the width of the gatherer;
    the width of the item plays no part.  The event carries the squared
    distance and, as its time, the projection ratio. *)
Theorem FindGatherEvents_reports (ev : GatheringEvent) :
  StronglySorted time_le (FindGatherEvents provider) /\
  (ev ∈ FindGatherEvents provider <->
   (gatherer_id ev < GatherersCount provider)%nat /\
   (item_id ev < ItemsCount provider)%nat /\
   let g := GetGatherer provider (gatherer_id ev) in
   let result := TryCollectPoint (start_pos g) (end_pos g)
                   (item_position (GetItem provider (item_id ev))) in
   ~ pos_eq (start_pos g) (end_pos g) /\
   0 <= proj_ratio result /\ proj_ratio result <= 1 /\
   cr_sq_distance result <= width g * width g /\
   sq_distance ev = cr_sq_distance result /\ time ev = proj_ratio result).
Proof.
  split; [apply DetectorProofs.FindGatherEvents_sorted|apply FindGatherEvents_member].
Qed.

Lemma item_events_length gi g ii : (length (item_events provider gi g ii) <= 1)%nat.
Proof. unfold item_events. destruct (collects _ _); simpl; lia. Qed.

Lemma flat_map_length_le {A B} (f : A -> list B) (l : list A) (n : nat) :
  (forall x, (length (f x) <= n)%nat) -> (length (flat_map f l) <= length l * n)%nat.
Proof.
  intros Hf. induction l as [|a l IH]; simpl; [lia|].
  rewrite length_app. specialize (Hf a). lia.
Qed.

(** X4.  No pair of a gatherer and an item is reported twice, so there are
    at most [GatherersCount * ItemsCount] events; without gatherers or
    without items there is none. *)
Theorem FindGatherEvents_once_per_pair :
  NoDup (List.map (fun ev => (gatherer_id ev, item_id ev)) (FindGatherEvents provider)) /\
  (length (FindGatherEvents provider) <= GatherersCount provider * ItemsCount provider)%nat.
Proof.
  split.
  - unfold FindGatherEvents.
    assert (Hp : List.map (fun ev => (gatherer_id ev, item_id ev))
                   (merge_sort time_le (unsorted_events provider)) ≡ₚ
                 List.map (fun ev => (gatherer_id ev, item_id ev)) (unsorted_events provider))
      by apply Permutation_map, merge_sort_Permutation.
    rewrite Hp. unfold unsorted_events.
    apply (NoDup_map_flat_map _ fst).
    + intros gi ev Hev. unfold gatherer_events in Hev.
      destruct (zero_move _); [inversion Hev|].
      apply DetectorProofs.elem_of_flat_map in Hev as (ii & _ & Hev).
      apply DetectorProofs.elem_of_item_events in Hev as [_ ->]. reflexivity.
    + intros gi. unfold gatherer_events.
      destruct (zero_move _); [constructor|].
      apply (NoDup_map_flat_map _ snd).
      * intros ii ev Hev.
        apply DetectorProofs.elem_of_item_events in Hev as [_ ->]. reflexivity.
      * intros ii. unfold item_events. destruct (collects _ _); simpl.
        -- apply NoDup_singleton.
        -- constructor.
      * apply NoDup_seq.
    + apply NoDup_seq.
  - unfold FindGatherEvents.
    rewrite (Permutation_length (merge_sort_Permutation _ _)).
    unfold unsorted_events.
    etransitivity; [apply flat_map_length_le with (n := ItemsCount provider)|].
    + intros gi. unfold gatherer_events. destruct (zero_move _); simpl; [lia|].
      etransitivity; [apply flat_map_length_le with (n := 1%nat)|].
      * intros ii. apply item_events_length.
      * rewrite length_seq. lia.
    + rewrite length_seq. lia.
Qed.

End provider.

End DetectorFacts.

(** ** Collisions in a session *)

Module CollisionFacts.
Import model accounting.

Lemma elem_of_merged_loot s gi ii :
  (exists ev, ev ∈ all_events s /\ ge_type ev = LOOT /\
              ge_gatherer_id ev = gi /\ ge_item_id ev = ii) <->
  exists gev, gev ∈ collision_detector.FindGatherEvents
                      {| lp_loots_ := loots_ s; lp_players_ := players_ s |} /\
              collision_detector.gatherer_id gev = gi /\
              collision_detector.item_id gev = ii.
Proof.
  split.
  - intros (ev & Hev & Ht & Hg & Hi).
    apply SessionProofs.elem_of_all_events in Hev. unfold merged_events in Hev.
    apply elem_of_app in Hev as [Hev|Hev];
      apply list_elem_of_fmap in Hev as (gev & -> & Hgev); simpl in *.
    + exists gev. auto.
    + discriminate Ht.
  - intros (gev & Hgev & Hg & Hi). exists (to_game_event LOOT gev).
    split; [|simpl; auto].
    apply SessionProofs.elem_of_all_events. unfold merged_events.
    apply elem_of_app. left. apply list_elem_of_fmap. exists gev. auto.
Qed.

(** X5.  In [HandleCollisions] a loot event is raised for a player and a
    loot exactly when the dog moved in the tick, the loot projects onto its
    sweep, and the loot lies within 0.6, the width of the dog, of the line
    of the sweep. *)
Theorem loot_event_condition (s : GameSession) (gi ii : nat) (player : Player)
    (loot : Loot) :
  players_ s !! gi = Some player ->
  loots_ s !! ii = Some loot ->
  ((exists ev, ev ∈ all_events s /\ ge_type ev = LOOT /\
               ge_gatherer_id ev = gi /\ ge_item_id ev = ii) <->
   let result :=
     collision_detector.TryCollectPoint (previous_position_ (dog_ player))
       (position_ (dog_ player)) (geom.loot_position loot) in
   ~ pos_eq (previous_position_ (dog_ player)) (position_ (dog_ player)) /\
   0 <= collision_detector.proj_ratio result /\
   collision_detector.proj_ratio result <= 1 /\
   collision_detector.cr_sq_distance result <= 0.6 * 0.6).
Proof.
  intros Hp Hl. rewrite elem_of_merged_loot.
  assert (Hg : collision_detector.GetGatherer
                 {| lp_loots_ := loots_ s; lp_players_ := players_ s |} gi =
               player_gatherer player).
  { simpl. unfold players_gatherer. rewrite Hp. reflexivity. }
  assert (Hi : collision_detector.GetItem
                 {| lp_loots_ := loots_ s; lp_players_ := players_ s |} ii =
               {| collision_detector.item_position := geom.loot_position loot;
                  collision_detector.item_width := 0 |}).
  { simpl. rewrite Hl. reflexivity. }
  cbv zeta.
  split.
  - intros (gev & Hgev & <- & <-).
    apply DetectorFacts.FindGatherEvents_member in Hgev.
    destruct Hgev as (_ & _ & Hgev). cbv zeta in Hgev.
    rewrite Hg, Hi in Hgev. simpl in Hgev.
    destruct Hgev as (Hz & H0 & H1 & Hd & _).
    repeat split; try assumption; try lra.
  - intros (Hz & H0 & H1 & Hd).
    set (result := collision_detector.TryCollectPoint
                     (previous_position_ (dog_ player)) (position_ (dog_ player))
                     (geom.loot_position loot)) in *.
    exists {| collision_detector.item_id := ii; collision_detector.gatherer_id := gi;
              collision_detector.sq_distance := collision_detector.cr_sq_distance result;
              collision_detector.time := collision_detector.proj_ratio result |}.
    split; [|auto].
    apply DetectorFacts.FindGatherEvents_member. cbv zeta.
    cbn [collision_detector.item_id collision_detector.gatherer_id
         collision_detector.sq_distance collision_detector.time].
    rewrite Hg, Hi.
    cbn [collision_detector.item_position collision_detector.ItemsCount
         collision_detector.GatherersCount LootProvider_provider lp_loots_ lp_players_
         player_gatherer collision_detector.start_pos collision_detector.end_pos
         collision_detector.width].
    fold result.
    split; [eapply lookup_lt_Some; exact Hp|].
    split; [eapply lookup_lt_Some; exact Hl|].
    repeat split; try assumption; try lra.
Qed.

Lemma loot_event_condition_witness :
  (exists ev, ev ∈ all_events depot_session /\ ge_type ev = LOOT /\
              ge_gatherer_id ev = 0%nat /\ ge_item_id ev = 0%nat) <->
  let result :=
    collision_detector.TryCollectPoint (previous_position_ (dog_ carrier))
      (position_ (dog_ carrier)) {| geom.x := 7; geom.y := 0 |} in
  ~ pos_eq (previous_position_ (dog_ carrier)) (position_ (dog_ carrier)) /\
  0 <= collision_detector.proj_ratio result /\
  collision_detector.proj_ratio result <= 1 /\
  collision_detector.cr_sq_distance result <= 0.6 * 0.6.
Proof.
  apply (loot_event_condition depot_session 0 0 carrier
           {| geom.id := 7; geom.type := 0;
              geom.loot_position := {| geom.x := 7; geom.y := 0 |}; geom.value := 5 |});
    reflexivity.
Defined.

Lemma bag_total_cons loot bag :
  bag_total (loot :: bag) = (geom.value loot + bag_total bag)%Z.
Proof. rewrite !SessionProofs.bag_total_sum. reflexivity. Qed.

Lemma bag_total_app l1 l2 : bag_total (l1 ++ l2) = (bag_total l1 + bag_total l2)%Z.
Proof.
  induction l1 as [|loot l1 IH]; [reflexivity|].
  change ((loot :: l1) ++ l2) with (loot :: (l1 ++ l2)).
  rewrite !bag_total_cons, IH. lia.
Qed.

Lemma bag_total_Permutation l1 l2 : l1 ≡ₚ l2 -> bag_total l1 = bag_total l2.
Proof.
  induction 1; rewrite ?bag_total_cons in *; try reflexivity; try lia.
Qed.

Lemma bag_total_filter (f : Loot -> bool) l :
  bag_total l =
  (bag_total (List.filter f l) + bag_total (List.filter (fun loot => negb (f loot)) l))%Z.
Proof.
  induction l as [|loot l IH]; [reflexivity|].
  simpl List.filter. destruct (f loot); simpl negb; cbv iota;
    rewrite !bag_total_cons, IH; lia.
Qed.

Lemma players_value_insert players i p p' :
  players !! i = Some p ->
  players_value (<[i:=p']> players) =
  (players_value players - player_value p + player_value p')%Z.
Proof.
  revert i. induction players as [|q players IH]; intros [|i] Hi; try discriminate.
  - injection Hi as ->. simpl. lia.
  - simpl in Hi. simpl. rewrite (IH _ Hi). lia.
Qed.

Lemma player_value_AddToBag player loot :
  IsBagFull player = false ->
  player_value (AddToBag player loot) = (player_value player + geom.value loot)%Z.
Proof.
  unfold IsBagFull, AddToBag. intros Hfull.
  apply N.leb_gt in Hfull. apply N.ltb_lt in Hfull. rewrite Hfull.
  unfold player_value. simpl. rewrite bag_total_app, bag_total_cons.
  change (bag_total []) with 0%Z. lia.
Qed.

Lemma process_event_value_inv players loots st ev :
  value_inv players st -> value_inv players (process_event loots st ev).
Proof.
  unfold value_inv, process_event. intros Hinv.
  destruct (cs_players st !! ge_gatherer_id ev) as [player|] eqn:Hp; [|exact Hinv].
  destruct (ge_type ev).
  - destruct (loots !! ge_item_id ev) as [loot|]; [|exact Hinv].
    destruct (decide (geom.id loot ∈ cs_collected st)); [exact Hinv|].
    destruct (IsBagFull player) eqn:Hfull; simpl; [exact Hinv|].
    rewrite (players_value_insert _ _ _ _ Hp), (player_value_AddToBag _ _ Hfull).
    rewrite List.map_app, bag_total_app. simpl List.map.
    rewrite bag_total_cons. change (bag_total []) with 0%Z. lia.
  - simpl. rewrite (players_value_insert _ _ _ _ Hp).
    unfold player_value at 2. simpl. change (bag_total []) with 0%Z.
    unfold player_value. lia.
Qed.

Lemma process_events_value_inv players loots evs : forall st,
  value_inv players st -> value_inv players (process_events loots evs st).
Proof.
  unfold process_events. induction evs as [|ev evs IH]; intros st Hinv; [exact Hinv|].
  simpl. apply IH, process_event_value_inv, Hinv.
Qed.

Lemma picked_loots_removed loots st :
  NoDup (loot_ids loots) -> picked_inv loots st ->
  List.filter (fun loot => bool_decide (geom.id loot ∈ cs_collected st)) loots ≡ₚ
  List.map snd (cs_picked st).
Proof.
  intros Hnd (Hpicked & Hcol & Hin).
  apply NoDup_Permutation.
  - apply NoDup_ListNoDup, List.NoDup_filter, NoDup_ListNoDup.
    apply (NoDup_fmap_1 geom.id). exact Hnd.
  - apply (NoDup_fmap_1 geom.id). unfold picked_ids in Hpicked.
    rewrite <- list_fmap_compose. exact Hpicked.
  - intros loot. rewrite SessionProofs.elem_of_bool_filter, bool_decide_eq_true, Hcol.
    split.
    + intros [Hl Hid]. unfold picked_ids in Hid.
      apply list_elem_of_fmap in Hid as (entry & Heq & Hentry).
      assert (snd entry = loot) as <-.
      { pose proof (Hin _ Hentry) as Hl'.
        apply list_elem_of_lookup in Hl as [i Hi].
        apply list_elem_of_lookup in Hl' as [j Hj].
        assert (i = j) as ->.
        { eapply NoDup_lookup; [exact Hnd| |].
          - unfold loot_ids. rewrite list_lookup_fmap, Hi. reflexivity.
          - unfold loot_ids. rewrite list_lookup_fmap, Hj. simpl. congruence. }
        congruence. }
      apply list_elem_of_fmap. exists entry. auto.
    + intros Hl. apply list_elem_of_fmap in Hl as (entry & -> & Hentry).
      split; [apply Hin, Hentry|].
      unfold picked_ids. apply list_elem_of_fmap. exists entry. auto.
Qed.

(** X6.  [HandleCollisions] creates and destroys no value: the scores, the
    bags and the loots on the map together are worth the same before and
    after, when the loots of the session have distinct identifiers. *)
Theorem HandleCollisions_conserves_value (s : GameSession) :
  NoDup (loot_ids (loots_ s)) ->
  session_value (fst (HandleCollisions s)) = session_value s.
Proof.
  intros Hnd. unfold HandleCollisions, session_value. simpl.
  set (st := process_events (loots_ s) (all_events s) (collisions_start s)).
  assert (Hval : value_inv (players_ s) st).
  { apply process_events_value_inv. unfold value_inv, collisions_start.
    cbn [cs_players cs_picked List.map]. change (bag_total []) with 0%Z. lia. }
  assert (Hinv : picked_inv (loots_ s) st).
  { apply SessionProofs.process_events_picked_inv,
      SessionProofs.collisions_start_picked_inv. }
  unfold value_inv in Hval. rewrite Hval.
  rewrite (bag_total_filter (fun loot => bool_decide (geom.id loot ∈ cs_collected st))
             (loots_ s)).
  rewrite (bag_total_Permutation _ _ (picked_loots_removed _ _ Hnd Hinv)). lia.
Qed.

Lemma HandleCollisions_conserves_value_witness :
  session_value (fst (HandleCollisions depot_session)) = session_value depot_session.
Proof.
  apply (HandleCollisions_conserves_value depot_session).
  vm_compute. repeat constructor. set_solver.
Defined.

End CollisionFacts.

(** ** What a tick leaves alone *)

Module TickFacts.
Import model accounting.

Lemma ticked_fields dt p p' q :
  ticked dt p p' ->
  player_id q = player_id p' -> token_ q = token_ p' ->
  bag_capacity_ q = bag_capacity_ p' ->
  dog_id (dog_ q) = dog_id (dog_ p') -> dog_name (dog_ q) = dog_name (dog_ p') ->
  dog_map_id (dog_ q) = dog_map_id (dog_ p') ->
  direction_ (dog_ q) = direction_ (dog_ p') ->
  play_time_ q = play_time_ p' -> idle_time_ q = idle_time_ p' ->
  ticked dt p q.
Proof.
  unfold ticked, same_identity. intros (Hs & Hp & Hi) H1 H2 H3 H4 H5 H6 H7 H8 H9.
  destruct Hs as (S1 & S2 & S3 & S4 & S5 & S6 & S7).
  repeat split; congruence.
Qed.

Lemma ticked_start m dt p :
  ticked dt p (move_player m dt (save_previous (update_times dt p))).
Proof.
  assert (Hu : ticked dt p (update_times dt p)).
  { unfold ticked, same_identity, update_times, is_idle. simpl.
    destruct (Qltb (Qabs (geom.vx (speed_ (dog_ p)))) EPS &&
              Qltb (Qabs (geom.vy (speed_ (dog_ p)))) EPS); simpl; repeat split. }
  unfold move_player.
  destruct (IsMoving _ || _ || _);
    [destruct (geom.hit_boundary _)|]; eapply ticked_fields; try exact Hu; reflexivity.
Qed.

Lemma Forall2_insert_right {A B} (P : A -> B -> Prop) (l : list A) (k : list B)
    (i : nat) (x : A) (y : B) :
  Forall2 P l k -> l !! i = Some x -> P x y -> Forall2 P l (<[i:=y]> k).
Proof.
  intros Hall Hx Hxy. rewrite <- (list_insert_id l i x Hx).
  apply Forall2_insert; assumption.
Qed.

Lemma process_event_ticked dt players loots st ev :
  Forall2 (ticked dt) players (cs_players st) ->
  Forall2 (ticked dt) players (cs_players (process_event loots st ev)).
Proof.
  intros Hall. unfold process_event.
  destruct (cs_players st !! ge_gatherer_id ev) as [player|] eqn:Hp; [|exact Hall].
  destruct (Forall2_lookup_r _ _ _ _ _ Hall Hp) as (p & Hp0 & Ht).
  destruct (ge_type ev).
  - destruct (loots !! ge_item_id ev) as [loot|]; [|exact Hall].
    destruct (decide (geom.id loot ∈ cs_collected st)); [exact Hall|].
    destruct (IsBagFull player); simpl; [exact Hall|].
    eapply Forall2_insert_right; [exact Hall | exact Hp0 |].
    unfold AddToBag. destruct (bag_size player <? bag_capacity_ player)%N; [|exact Ht].
    eapply ticked_fields; try exact Ht; reflexivity.
  - simpl. eapply Forall2_insert_right; [exact Hall | exact Hp0 |].
    eapply ticked_fields; try exact Ht; reflexivity.
Qed.

Lemma process_events_ticked dt players loots evs : forall st,
  Forall2 (ticked dt) players (cs_players st) ->
  Forall2 (ticked dt) players (cs_players (process_events loots evs st)).
Proof.
  unfold process_events. induction evs as [|ev evs IH]; intros st Hall; [exact Hall|].
  simpl. apply IH, process_event_ticked, Hall.
Qed.

Lemma tick_before_retirement_ticked std_pow s dt inp :
  Forall2 (ticked dt) (players_ s)
    (players_ (fst (tick_before_retirement std_pow s dt inp))).
Proof.
  unfold tick_before_retirement, HandleCollisions.
  cbn [fst players_ set_loots set_players].
  apply process_events_ticked. unfold collisions_start. cbn [cs_players].
  rewrite SessionProofs.tick_before_collisions_players.
  apply Forall2_fmap_r, Forall_Forall2_diag, Forall_forall.
  intros p _. apply ticked_start.
Qed.

Lemma tick_before_retirement_session std_pow s dt inp :
  session_id (fst (tick_before_retirement std_pow s dt inp)) = session_id s /\
  map_ (fst (tick_before_retirement std_pow s dt inp)) = map_ s.
Proof.
  unfold tick_before_retirement, HandleCollisions, tick_before_collisions. simpl.
  unfold generate_loots. destruct (loot_generator_ _) as [gen|]; simpl.
  - destruct (call_generator _ _ _ _ _) as [n gen']. 
    assert (Hs : forall k i s0, session_id (spawn_loots inp i k s0) = session_id s0 /\
                                map_ (spawn_loots inp i k s0) = map_ s0).
    { induction k as [|k IH]; intros i s0; simpl; [auto|].
      destruct (ti_draw inp i) as [type pos]. destruct (IH (S i)
        (AddLoot (SetNextLootId s0 ((next_loot_id_ s0 + 1) mod size_max)%N)
           {| geom.id := next_loot_id_ s0; geom.type := type; geom.loot_position := pos;
              geom.value := loot_value (map_ s0) type |})) as [H1 H2].
      rewrite H1, H2. auto. }
    destruct (Hs (N.to_nat n) 0%nat
                (SetLootGenerator
                   (set_players s (List.map (update_times dt) (players_ s))) (Some gen')))
      as [H1 H2].
    rewrite H1, H2. auto.
  - auto.
Qed.

(** X7.  A tick adds no player and changes, in the players it keeps or
    retires, neither the identifier, the token, the bag capacity, the
    identity of the dog nor its direction; it adds the elapsed time to the
    play time, and to the idle time of a standing dog, and it resets the
    idle time of a moving dog. *)
Theorem UpdateState_keeps_identity (std_pow : Q -> Q -> Q) (g : GameConfig)
    (s : GameSession) (dt : Q) (inp : TickInput) :
  let '(s', retired, _) := UpdateState std_pow g s dt inp in
  session_id s' = session_id s /\ map_ s' = map_ s /\
  (length (players_ s') <= length (players_ s))%nat /\
  forall p', p' ∈ players_ s' \/ p' ∈ retired ->
    exists p, p ∈ players_ s /\ same_identity p p' /\
      play_time_ p' = play_time_ p + dt /\
      idle_time_ p' = if is_idle p then idle_time_ p + dt else 0.
Proof.
  unfold UpdateState.
  pose proof (tick_before_retirement_ticked std_pow s dt inp) as Hall.
  pose proof (tick_before_retirement_session std_pow s dt inp) as [Hid Hmap].
  destruct (tick_before_retirement std_pow s dt inp) as [after picked].
  simpl in Hall, Hid, Hmap.
  assert (Hfrom : forall p', p' ∈ players_ after ->
            exists p, p ∈ players_ s /\ ticked dt p p').
  { intros p' Hp'. apply list_elem_of_lookup in Hp' as [i Hi].
    destruct (Forall2_lookup_r _ _ _ _ _ Hall Hi) as (p & Hp & Ht).
    exists p. split; [|exact Ht]. eapply list_elem_of_lookup_2, Hp. }
  pose proof (Forall2_length _ _ _ Hall) as Hlen.
  unfold RetireInactivePlayers. destruct (game_ after).
  - rewrite SessionProofs.retire_loop_filter. simpl.
    split; [exact Hid|]. split; [exact Hmap|]. split.
    + rewrite Hlen. apply filter_length_le.
    + intros p' [Hp'|Hp'].
      * apply SessionProofs.elem_of_bool_filter in Hp' as [Hp' _].
        destruct (Hfrom _ Hp') as (p & Hp & Ht & Hplay & Hidle). eauto.
      * destruct (retired_player_callback_ g); [|inversion Hp'].
        apply SessionProofs.elem_of_bool_filter in Hp' as [Hp' _].
        destruct (Hfrom _ Hp') as (p & Hp & Ht & Hplay & Hidle). eauto.
  - split; [exact Hid|]. split; [exact Hmap|]. split; [lia|].
    intros p' [Hp'|Hp']; [|inversion Hp'].
    destruct (Hfrom _ Hp') as (p & Hp & Ht & Hplay & Hidle). eauto.
Qed.

End TickFacts.

(** ** Bounds, projections and spawn positions *)

Module MapProofs.
Import model model_map.

Lemma GetMovementBounds_exact m : GetMovementBounds m = GetExactMovementBounds m.
Proof. reflexivity. Qed.

Lemma IsOutOfBounds_in_bounds m p : IsOutOfBounds m p = false <-> in_bounds m p.
Proof.
  unfold IsOutOfBounds, in_bounds. destruct (GetMovementBounds m) as [lo hi].
  rewrite !orb_false_iff, !Qltb_ge. tauto.
Qed.

Lemma strip_in_bounds m r p : r ∈ roads_ m -> in_strip r p -> in_bounds m p.
Proof.
  intros Hr Hp. pose proof (MoveDogProofs.bounds_cover m r Hr) as Hc.
  unfold in_bounds. rewrite GetMovementBounds_exact.
  destruct (GetExactMovementBounds m) as [lo hi].
  unfold covers in Hc. unfold in_strip in Hp. simpl in Hc. lra.
Qed.

(** X8.  The movement bounds hold every road: a position on a road is
    never out of bounds. *)
Theorem roads_within_bounds (m : Map) (p : Position) :
  on_roads m p -> IsOutOfBounds m p = false.
Proof.
  intros (r & Hr & Hp). apply IsOutOfBounds_in_bounds. eapply strip_in_bounds; eauto.
Qed.

Lemma roads_within_bounds_witness :
  IsOutOfBounds corner_map {| geom.x := 10; geom.y := 10.4 |} = false.
Proof.
  apply (roads_within_bounds corner_map {| geom.x := 10; geom.y := 10.4 |}).
  exists (Road_VERTICAL {| geom.x := 10; geom.y := 0 |} 10).
  split; [set_solver|]. vm_compute. intuition discriminate.
Defined.

Lemma bounds_ordered m :
  roads_ m <> [] ->
  geom.x (fst (GetExactMovementBounds m)) <= geom.x (snd (GetExactMovementBounds m)) /\
  geom.y (fst (GetExactMovementBounds m)) <= geom.y (snd (GetExactMovementBounds m)).
Proof.
  intros Hne. destruct (roads_ m) as [|r rest] eqn:Hroads; [congruence|].
  assert (Hr : r ∈ roads_ m) by (rewrite Hroads; left).
  pose proof (MoveDogProofs.bounds_cover m r Hr) as Hc.
  pose proof (MoveDogProofs.road_range r) as Hrange.
  unfold covers in Hc. lra.
Qed.

Lemma map_box_clamp_spec m target fp hit :
  roads_ m <> [] ->
  map_box_clamp m target = (fp, hit) ->
  in_bounds m fp /\
  (hit = false -> fp = target) /\
  (hit = true -> ~ in_bounds m target).
Proof.
  intros Hne Hclamp. pose proof (bounds_ordered m Hne) as [Hx Hy].
  unfold map_box_clamp in Hclamp. unfold in_bounds. rewrite GetMovementBounds_exact.
  destruct (GetExactMovementBounds m) as [lo hi]. simpl in Hx, Hy.
  destruct (MoveDogProofs.clamp_axis_spec (geom.x target) (geom.x lo) (geom.x hi))
    as [[Hx1 Ex]|[(Hx1 & Hx2 & Ex)|(Hx1 & Hx2 & Ex)]];
  destruct (MoveDogProofs.clamp_axis_spec (geom.y target) (geom.y lo) (geom.y hi))
    as [[Hy1 Ey]|[(Hy1 & Hy2 & Ey)|(Hy1 & Hy2 & Ey)]];
  rewrite Ex, Ey in Hclamp; simpl in Hclamp; injection Hclamp as <- <-; simpl;
  (split; [lra|]); (split; [intros Hf; try discriminate Hf | intros Hf; try discriminate Hf]);
  try lra.
  destruct target; reflexivity.
Qed.

Lemma MoveDog_cases m start speed dt :
  roads_ m <> [] ->
  let target := move_target start speed dt in
  let fp := fst (map_box_clamp m target) in
  let hit := snd (map_box_clamp m target) in
  let res := MoveDog m start speed dt in
  (on_roads m fp /\ res = {| geom.position := fp; geom.hit_boundary := hit |}) \/
  ((forall r, r ∈ roads_ m -> IsPositionInRoad r fp = false) /\
   (geom.position res = start \/ on_roads m (geom.position res)) /\
   geom.hit_boundary res =
     hit || (negb (Qeqb (geom.x (geom.position res)) (geom.x fp)) ||
             negb (Qeqb (geom.y (geom.position res)) (geom.y fp)))).
Proof.
  intros Hne target fp hit res. subst res. unfold MoveDog.
  destruct (roads_ m) as [|r0 rest] eqn:Hroads; [congruence|].
  fold target. subst fp hit.
  destruct (map_box_clamp m target) as [fp hit]. simpl fst. simpl snd.
  rewrite <- Hroads.
  destruct (scan_roads (roads_ m) fp start []) as [cur|] eqn:Hscan.
  - right. apply MoveDogProofs.scan_roads_Some in Hscan as [Hcur Hnone].
    split; [exact Hnone|]. split; [|reflexivity]. simpl.
    pose proof (MoveDogProofs.slide_fold_in_road fp speed start cur (start, None)) as Hfold.
    cbv zeta in Hfold. destruct Hfold as [Hs|(r & Hr & Hin)]; [left; reflexivity|auto|].
    right. apply MoveDogProofs.on_roads_exists. exists r. split; [|exact Hin].
    rewrite Hcur in Hr. simpl in Hr. apply list_elem_of_filter in Hr. tauto.
  - left. apply MoveDogProofs.scan_roads_None in Hscan.
    split; [|reflexivity]. apply MoveDogProofs.on_roads_exists. exact Hscan.
Qed.

Lemma on_roads_in_bounds m p : on_roads m p -> in_bounds m p.
Proof. intros (r & Hr & Hp). eapply strip_in_bounds; eauto. Qed.

(** X9.  [MoveDog] never takes a dog that is within the movement bounds of
    its map out of them. *)
Theorem MoveDog_stays_in_bounds (m : Map) (start : Position) (speed : Speed)
    (delta_time : Q) :
  IsOutOfBounds m start = false ->
  IsOutOfBounds m (geom.position (MoveDog m start speed delta_time)) = false.
Proof.
  intros Hstart. destruct (roads_ m) as [|r0 rest] eqn:Hroads.
  - unfold MoveDog. rewrite Hroads. exact Hstart.
  - assert (Hne : roads_ m <> []) by congruence.
    apply IsOutOfBounds_in_bounds.
    destruct (MoveDog_cases m start speed delta_time Hne) as [[Hon ->]|(_ & [->|Hon] & _)].
    + simpl. apply on_roads_in_bounds, Hon.
    + apply IsOutOfBounds_in_bounds, Hstart.
    + apply on_roads_in_bounds, Hon.
Qed.

Lemma MoveDog_stays_in_bounds_witness :
  IsOutOfBounds corner_map
    (geom.position (MoveDog corner_map {| geom.x := 10; geom.y := 0 |}
                      {| geom.vx := 50; geom.vy := 50 |} 1)) = false.
Proof.
  apply (MoveDog_stays_in_bounds corner_map {| geom.x := 10; geom.y := 0 |}
           {| geom.vx := 50; geom.vy := 50 |} 1).
  vm_compute. reflexivity.
Defined.

Lemma in_bounds_pos_eq m p q : pos_eq p q -> in_bounds m p -> in_bounds m q.
Proof.
  unfold pos_eq, in_bounds. destruct (GetMovementBounds m) as [lo hi].
  intros [Hx Hy]. rewrite Hx, Hy. auto.
Qed.

Lemma IsPositionInRoad_pos_eq r p q :
  pos_eq p q -> IsPositionInRoad r p = true -> IsPositionInRoad r q = true.
Proof.
  rewrite !MoveDogProofs.IsPositionInRoad_strip. unfold in_strip, pos_eq.
  intros [Hx Hy]. rewrite Hx, Hy. auto.
Qed.

(** X10.  On a map with roads [MoveDog] reports no hit exactly when the dog
    ends at the target [start + speed * delta_time]; a dog that started
    within the bounds and fell short of the target is reported (and then
    stopped by the tick). *)
Theorem MoveDog_hit_boundary (m : Map) (start : Position) (speed : Speed)
    (delta_time : Q) :
  roads_ m <> [] ->
  let res := MoveDog m start speed delta_time in
  let target := move_target start speed delta_time in
  (geom.hit_boundary res = false -> pos_eq (geom.position res) target) /\
  (IsOutOfBounds m start = false ->
   pos_eq (geom.position res) target -> geom.hit_boundary res = false).
Proof.
  intros Hne res target.
  pose proof (MoveDog_cases m start speed delta_time Hne) as Hcases.
  cbv zeta in Hcases. fold target res in Hcases.
  destruct (map_box_clamp m target) as [fp hit] eqn:Hclamp. simpl in Hcases.
  destruct (map_box_clamp_spec m target fp hit Hne Hclamp) as (Hfp & Hsame & Hout).
  destruct Hcases as [[Hon Hres]|(Hnone & Hbest & Hhit)].
  - rewrite Hres. simpl. split.
    + intros ->. rewrite (Hsame eq_refl). apply pos_eq_refl.
    + intros _ Heq. destruct hit; [|reflexivity].
      exfalso. apply (Hout eq_refl). eapply in_bounds_pos_eq; eauto.
  - rewrite Hhit. split.
    + intros Hf. apply orb_false_iff in Hf as [-> Hf].
      apply orb_false_iff in Hf as [Hx Hy].
      apply negb_false_iff in Hx, Hy. apply Qeqb_eq in Hx, Hy.
      rewrite <- (Hsame eq_refl). split; assumption.
    + intros Hstart Heq.
      assert (Hin : in_bounds m (geom.position res)).
      { destruct Hbest as [->|Hon].
        - apply IsOutOfBounds_in_bounds, Hstart.
        - apply on_roads_in_bounds, Hon. }
      destruct hit.
      * exfalso. apply (Hout eq_refl). eapply in_bounds_pos_eq; eauto.
      * rewrite (Hsame eq_refl). destruct Heq as [Hx Hy].
        apply Qeqb_eq in Hx, Hy. rewrite Hx, Hy. reflexivity.
Qed.

Lemma MoveDog_hit_boundary_witness :
  pos_eq (geom.position (MoveDog corner_map {| geom.x := 5; geom.y := 0 |}
                           {| geom.vx := 2; geom.vy := 0 |} 1))
         (move_target {| geom.x := 5; geom.y := 0 |} {| geom.vx := 2; geom.vy := 0 |} 1).
Proof.
  apply (MoveDog_hit_boundary corner_map {| geom.x := 5; geom.y := 0 |}
           {| geom.vx := 2; geom.vy := 0 |} 1).
  - discriminate.
  - vm_compute. reflexivity.
Defined.

Lemma ProjectToRoad_in_strip pos r : in_strip r (ProjectToRoad pos r).
Proof.
  unfold ProjectToRoad, in_strip, GetMinX, GetMaxX, GetMinY, GetMaxY, GetStart, GetEnd.
  destruct (IsHorizontal r) eqn:Hh; simpl.
  - apply Qeqb_eq in Hh.
    destruct (std_min_spec (geom.x (start_ r)) (geom.x (end_ r))) as [[? ->]|[? ->]];
    destruct (std_max_spec (geom.x (start_ r)) (geom.x (end_ r))) as [[? E]|[? E]];
    rewrite E;
    destruct (std_min_spec (geom.y (start_ r)) (geom.y (end_ r))) as [[? ->]|[? ->]];
    destruct (std_max_spec (geom.y (start_ r)) (geom.y (end_ r))) as [[? ->]|[? ->]];
    match goal with |- context [std_min ?a ?b] =>
      destruct (std_min_spec a b) as [[? ->]|[? ->]] end;
    match goal with |- context [std_max ?a ?b] =>
      destruct (std_max_spec a b) as [[? ->]|[? ->]] end;
    lra.
  - destruct (std_min_spec (geom.x (start_ r)) (geom.x (end_ r))) as [[? ->]|[? ->]];
    destruct (std_max_spec (geom.x (start_ r)) (geom.x (end_ r))) as [[? ->]|[? ->]];
    destruct (std_min_spec (geom.y (start_ r)) (geom.y (end_ r))) as [[? ->]|[? ->]];
    destruct (std_max_spec (geom.y (start_ r)) (geom.y (end_ r))) as [[? E]|[? E]];
    rewrite E;
    match goal with |- context [std_min ?a ?b] =>
      destruct (std_min_spec a b) as [[? ->]|[? ->]] end;
    match goal with |- context [std_max ?a ?b] =>
      destruct (std_max_spec a b) as [[? ->]|[? ->]] end;
    lra.
Qed.

Section distance.
Variable std_sqrt : Q -> Q.

Lemma closest_road_loop_spec pos todo : forall visited acc,
  closest_inv std_sqrt pos visited acc ->
  (forall r, r ∈ visited -> IsPositionInRoad r pos = false) ->
  let res := closest_road_loop std_sqrt todo pos acc in
  ((exists r, r ∈ todo /\ IsPositionInRoad r pos = true) /\ res = pos) \/
  ((forall r, r ∈ visited ++ todo -> IsPositionInRoad r pos = false) /\
   match visited ++ todo with
   | [] => res = pos
   | _ :: _ =>
       exists road, road ∈ visited ++ todo /\ res = ProjectToRoad pos road /\
         forall r, r ∈ visited ++ todo ->
           CalculateDistanceToRoad std_sqrt pos road <=
           CalculateDistanceToRoad std_sqrt pos r
   end).
Proof.
  induction todo as [|road todo IH]; intros visited acc Hinv Hout; cbv zeta.
  - right. rewrite app_nil_r. split; [exact Hout|]. simpl.
    destruct acc as [[closest d]|]; simpl in Hinv.
    + destruct Hinv as (Hin & -> & Hmin).
      destruct visited as [|v visited]; [inversion Hin|].
      exists closest. auto.
    + subst visited. reflexivity.
  - simpl. destruct (IsPositionInRoad road pos) eqn:Hroad.
    + left. split; [|reflexivity]. exists road. split; [left|exact Hroad].
    + assert (Hout' : forall r, r ∈ visited ++ [road] -> IsPositionInRoad r pos = false).
      { intros r Hr. apply elem_of_app in Hr as [Hr|Hr]; [auto|].
        apply list_elem_of_singleton in Hr as ->. exact Hroad. }
      assert (Hstep : forall acc', closest_inv std_sqrt pos (visited ++ [road]) acc' ->
                let res := closest_road_loop std_sqrt todo pos acc' in
                ((exists r, r ∈ road :: todo /\ IsPositionInRoad r pos = true) /\ res = pos) \/
                ((forall r, r ∈ visited ++ road :: todo -> IsPositionInRoad r pos = false) /\
                 match visited ++ road :: todo with
                 | [] => res = pos
                 | _ :: _ =>
                     exists road0, road0 ∈ visited ++ road :: todo /\
                       res = ProjectToRoad pos road0 /\
                       forall r, r ∈ visited ++ road :: todo ->
                         CalculateDistanceToRoad std_sqrt pos road0 <=
                         CalculateDistanceToRoad std_sqrt pos r
                 end)).
      { intros acc' Hinv'. specialize (IH (visited ++ [road]) acc' Hinv' Hout').
        cbv zeta in IH. rewrite <- app_assoc in IH. simpl in IH.
        destruct IH as [[(r & Hr & Hin) Hres]|IH]; [|right; exact IH].
        left. split; [|exact Hres]. exists r. split; [right; exact Hr|exact Hin]. }
      destruct acc as [[closest d]|]; simpl in Hinv.
      * destruct Hinv as (Hin & Hd & Hmin).
        destruct (Qltb (CalculateDistanceToRoad std_sqrt pos road) d) eqn:Hlt.
        -- apply Hstep. simpl. apply Qltb_lt in Hlt.
           split; [apply elem_of_app; right; left|]. split; [reflexivity|].
           intros r Hr. apply elem_of_app in Hr as [Hr|Hr].
           ++ specialize (Hmin r Hr). lra.
           ++ apply list_elem_of_singleton in Hr as ->. lra.
        -- apply Hstep. simpl. apply Qltb_ge in Hlt.
           split; [apply elem_of_app; left; exact Hin|]. split; [exact Hd|].
           intros r Hr. apply elem_of_app in Hr as [Hr|Hr].
           ++ apply Hmin, Hr.
           ++ apply list_elem_of_singleton in Hr as ->. exact Hlt.
      * subst visited. apply Hstep. simpl.
        split; [left|]. split; [reflexivity|].
        intros r Hr. apply list_elem_of_singleton in Hr as ->. lra.
Qed.

Lemma clamp_within v a b :
  a <= b -> a <= std_max a (std_min v b) <= b /\ (a <= v <= b -> std_max a (std_min v b) == v).
Proof.
  intros Hab.
  destruct (std_min_spec v b) as [[? ->]|[? ->]];
    match goal with |- context [std_max ?a ?b] =>
      destruct (std_max_spec a b) as [[? E]|[? E]] end; rewrite E; split; lra.
Qed.

Lemma clamp_to_bounds_spec m pos :
  roads_ m <> [] ->
  in_bounds m (clamp_to_bounds m pos) /\
  (in_bounds m pos -> pos_eq (clamp_to_bounds m pos) pos).
Proof.
  intros Hne. pose proof (bounds_ordered m Hne) as [Hx Hy].
  unfold in_bounds, clamp_to_bounds, pos_eq. rewrite GetMovementBounds_exact.
  destruct (GetExactMovementBounds m) as [lo hi]. simpl in *.
  pose proof (clamp_within (geom.x pos) _ _ Hx) as [Hx1 Hx2].
  pose proof (clamp_within (geom.y pos) _ _ Hy) as [Hy1 Hy2].
  split; [tauto|]. intros [Hpx Hpy]. auto.
Qed.

Lemma pos_eq_sym p q : pos_eq p q -> pos_eq q p.
Proof. unfold pos_eq. intros [Hx Hy]. split; symmetry; assumption. Qed.

Lemma on_roads_pos_eq m p q : pos_eq p q -> on_roads m p -> on_roads m q.
Proof.
  intros Heq Hp. apply MoveDogProofs.on_roads_exists in Hp as (r & Hr & Hin).
  apply MoveDogProofs.on_roads_exists. exists r. split; [exact Hr|].
  eapply IsPositionInRoad_pos_eq; eauto.
Qed.

(** X11.  On a map with roads [GetClosestValidPosition] returns a position on
    a road: the position it is given when that lies on a road, and
    otherwise the projection of the position, clamped to the movement
    bounds, onto the centre line of a road at the least distance
    [CalculateDistanceToRoad] computes. *)
Theorem GetClosestValidPosition_on_road (m : Map) (pos : Position) :
  roads_ m <> [] ->
  let clamped := clamp_to_bounds m pos in
  let res := GetClosestValidPosition std_sqrt m pos in
  on_roads m res /\
  (on_roads m pos -> pos_eq res pos) /\
  (~ on_roads m clamped ->
   exists road, road ∈ roads_ m /\ res = ProjectToRoad clamped road /\
     forall r, r ∈ roads_ m ->
       CalculateDistanceToRoad std_sqrt clamped road <=
       CalculateDistanceToRoad std_sqrt clamped r).
Proof.
  intros Hne clamped res.
  pose proof (clamp_to_bounds_spec m pos Hne) as [_ Hid]. fold clamped in Hid.
  assert (Hres : res = closest_road_loop std_sqrt (roads_ m) clamped None).
  { subst res. unfold GetClosestValidPosition.
    destruct (roads_ m); [congruence|reflexivity]. }
  pose proof (closest_road_loop_spec clamped (roads_ m) [] None eq_refl) as Hloop.
  cbv zeta in Hloop. rewrite <- Hres in Hloop. simpl app in Hloop.
  destruct Hloop as [[Hon ->]|[Hnone Hloop]].
  - intros r Hr. inversion Hr.
  - apply MoveDogProofs.on_roads_exists in Hon.
    split; [exact Hon|]. split; [|contradiction].
    intros Hpos. apply Hid, on_roads_in_bounds, Hpos.
  - destruct (roads_ m) as [|r0 rest] eqn:Hroads; [congruence|].
    destruct Hloop as (road & Hroad & Hproj & Hmin).
    split; [|split].
    + exists road. rewrite Hroads. split; [exact Hroad|].
      rewrite Hproj. apply ProjectToRoad_in_strip.
    + intros Hpos. exfalso.
      assert (Hc : on_roads m clamped).
      { eapply on_roads_pos_eq; [apply pos_eq_sym, Hid, on_roads_in_bounds, Hpos|].
        exact Hpos. }
      apply MoveDogProofs.on_roads_exists in Hc as (r & Hr & Hin).
      rewrite Hroads in Hr. rewrite (Hnone r Hr) in Hin. discriminate.
    + intros _. exists road. auto.
Qed.

End distance.

Lemma GetClosestValidPosition_on_road_witness :
  on_roads corner_map
    (GetClosestValidPosition sqrt_stand_in corner_map {| geom.x := 3; geom.y := 7 |}).
Proof.
  apply (GetClosestValidPosition_on_road sqrt_stand_in corner_map
           {| geom.x := 3; geom.y := 7 |}).
  discriminate.
Defined.

Lemma start_in_strip r : in_strip r (start_ r).
Proof.
  unfold in_strip, GetMinX, GetMaxX, GetMinY, GetMaxY.
  destruct (std_min_spec (geom.x (start_ r)) (geom.x (end_ r))) as [[? ->]|[? ->]];
  destruct (std_max_spec (geom.x (start_ r)) (geom.x (end_ r))) as [[? ->]|[? ->]];
  destruct (std_min_spec (geom.y (start_ r)) (geom.y (end_ r))) as [[? ->]|[? ->]];
  destruct (std_max_spec (geom.y (start_ r)) (geom.y (end_ r))) as [[? ->]|[? ->]];
  lra.
Qed.

Lemma GetStartPosition_on_road m : roads_ m <> [] -> on_roads m (GetStartPosition m).
Proof.
  intros Hne. unfold GetStartPosition.
  destruct (roads_ m) as [|r rest] eqn:Hroads; [congruence|].
  exists r. rewrite Hroads. split; [left|]. apply start_in_strip.
Qed.

Lemma GetRandomPosition_on_road m draw :
  roads_ m <> [] ->
  uniform_int draw ->
  uniform_real draw ->
  Forall samplable (roads_ m) ->
  on_roads m (GetRandomPosition m draw).
Proof.
  intros Hne Hidx Hdraw Hall. unfold GetRandomPosition.
  destruct (roads_ m) as [|r0 rest] eqn:Hroads; [congruence|].
  rewrite <- Hroads in *.
  set (road := nth (road_dist draw 0 (length (roads_ m) - 1)) (roads_ m) r0).
  assert (Hroad : road ∈ roads_ m).
  { apply list_elem_of_In, nth_In.
    pose proof (Hidx 0%nat (length (roads_ m) - 1)%nat ltac:(lia)) as Hi.
    rewrite Hroads in Hi |- *. simpl in Hi |- *. lia. }
  pose proof (proj1 (Forall_forall _ _) Hall road Hroad) as Hs.
  exists road. split; [exact Hroad|].
  pose proof (start_in_strip road) as Hstart.
  unfold samplable in Hs. unfold in_strip in *.
  unfold GetStart, GetEnd. unfold GetMinX, GetMaxX, GetMinY, GetMaxY in *.
  destruct (IsHorizontal road).
  - destruct (Qleb _ _) eqn:Hshort.
    + apply Qleb_le in Hshort.
      assert (Hord : geom.x (start_ road) <= geom.x (end_ road)) by (destruct Hs; lra).
      pose proof (Hdraw _ _ Hord) as Hd. simpl.
      destruct (std_min_spec (geom.x (start_ road)) (geom.x (end_ road))) as [[? E1]|[? E1]];
      destruct (std_max_spec (geom.x (start_ road)) (geom.x (end_ road))) as [[? E2]|[? E2]];
      rewrite E1, E2 in *; lra.
    + apply Qleb_gt in Hshort.
      assert (Hord : std_min (geom.x (start_ road)) (geom.x (end_ road)) + 0.4 <=
                     std_max (geom.x (start_ road)) (geom.x (end_ road)) - 0.4) by lra.
      pose proof (Hdraw _ _ Hord) as Hd. simpl. lra.
  - destruct (Qleb _ _) eqn:Hshort.
    + apply Qleb_le in Hshort.
      assert (Hord : geom.y (start_ road) <= geom.y (end_ road)) by (destruct Hs; lra).
      pose proof (Hdraw _ _ Hord) as Hd. simpl.
      destruct (std_min_spec (geom.y (start_ road)) (geom.y (end_ road))) as [[? E1]|[? E1]];
      destruct (std_max_spec (geom.y (start_ road)) (geom.y (end_ road))) as [[? E2]|[? E2]];
      rewrite E1, E2 in *; lra.
    + apply Qleb_gt in Hshort.
      assert (Hord : std_min (geom.y (start_ road)) (geom.y (end_ road)) + 0.4 <=
                     std_max (geom.y (start_ road)) (geom.y (end_ road)) - 0.4) by lra.
      pose proof (Hdraw _ _ Hord) as Hd. simpl. lra.
Qed.

(** X12.  Both spawn positions lie on a road of the map: the start of the
    first road, and the random position when the random engine keeps to the
    contract of its distributions and every road is sampled with bounds in
    order. *)
Theorem spawn_positions_on_roads (m : Map) (draw : PositionDraw) :
  roads_ m <> [] ->
  on_roads m (GetStartPosition m) /\
  (uniform_int draw ->
   uniform_real draw ->
   Forall samplable (roads_ m) ->
   on_roads m (GetRandomPosition m draw)).
Proof.
  intros Hne. split; [apply GetStartPosition_on_road, Hne|].
  apply GetRandomPosition_on_road, Hne.
Qed.

Lemma spawn_positions_on_roads_witness :
  on_roads corner_map (GetStartPosition corner_map).
Proof.
  apply (spawn_positions_on_roads corner_map
           {| road_dist := fun a b => a; pos_dist := fun a b => a |}).
  discriminate.
Defined.

End MapProofs.

(** ** Maps, sessions and tokens of a game *)

Module GameProofs.
Import model game game_index.

Lemma AddMap_inv st m st' :
  index_inv st -> AddMap st m = Some st' ->
  index_inv st' /\ store_maps_ st' = store_maps_ st ++ [m].
Proof.
  unfold AddMap. intros [H1 H2] Hadd.
  destruct (map_id_to_index_ st !! map_id m) eqn:Hfree; [discriminate|].
  injection Hadd as <-. simpl. split; [|reflexivity]. split.
  - intros id i Hi. simpl in Hi |- *. destruct (decide (map_id m = id)) as [<-|Hne].
    + rewrite lookup_insert_eq in Hi. injection Hi as <-.
      exists m. split; [|reflexivity]. apply list_lookup_middle. reflexivity.
    + rewrite lookup_insert_ne in Hi by exact Hne.
      destruct (H1 _ _ Hi) as (m' & Hm' & Hid).
      exists m'. split; [|exact Hid]. apply lookup_app_l_Some. exact Hm'.
  - intros i m' Hm'. simpl in Hm' |- *. apply lookup_app_Some in Hm' as [Hm'|[Hlen Hm']].
    + pose proof (H2 _ _ Hm') as Hi.
      rewrite lookup_insert_ne; [exact Hi|]. intros Heq. congruence.
    + apply list_lookup_singleton_Some in Hm' as [Hi <-].
      assert (i = length (store_maps_ st)) as -> by lia.
      apply lookup_insert_eq.
Qed.

Lemma add_maps_None maps : foldl (fun acc m => acc ≫= fun st => AddMap st m) None maps = None.
Proof. induction maps as [|m maps IH]; simpl; auto. Qed.

Lemma add_maps_inv maps : forall st st',
  index_inv st -> add_maps maps st = Some st' ->
  index_inv st' /\ store_maps_ st' = store_maps_ st ++ maps.
Proof.
  unfold add_maps. induction maps as [|m maps IH]; intros st st' Hinv Hadd; simpl in Hadd.
  - injection Hadd as <-. rewrite app_nil_r. auto.
  - destruct (AddMap st m) as [st1|] eqn:Hm; simpl in Hadd.
    + destruct (AddMap_inv _ _ _ Hinv Hm) as [Hinv1 Hmaps1].
      destruct (IH _ _ Hinv1 Hadd) as [Hinv' Hmaps'].
      split; [exact Hinv'|]. rewrite Hmaps', Hmaps1, <- app_assoc. reflexivity.
    + rewrite add_maps_None in Hadd. discriminate.
Qed.

Lemma index_inv_ids st : index_inv st -> NoDup (List.map map_id (store_maps_ st)).
Proof.
  intros [H1 H2]. apply NoDup_alt. intros i j id Hi Hj.
  rewrite list_lookup_fmap in Hi, Hj.
  destruct (store_maps_ st !! i) as [mi|] eqn:Emi; [|discriminate].
  destruct (store_maps_ st !! j) as [mj|] eqn:Emj; [|discriminate].
  simpl in Hi, Hj. injection Hi as Hi. injection Hj as Hj.
  pose proof (H2 _ _ Emi) as Ii. pose proof (H2 _ _ Emj) as Ij. congruence.
Qed.

Lemma find_lookup {A} (f : A -> bool) (l : list A) (i : nat) (x : A) :
  l !! i = Some x -> f x = true ->
  (forall j y, (j < i)%nat -> l !! j = Some y -> f y = false) ->
  List.find f l = Some x.
Proof.
  revert i. induction l as [|a l IH]; intros [|i] Hx Hf Hfirst; try discriminate.
  - injection Hx as ->. simpl. rewrite Hf. reflexivity.
  - simpl in Hx. simpl. rewrite (Hfirst 0%nat a); [|lia|reflexivity].
    apply (IH i Hx Hf). intros j y Hj Hy. apply (Hfirst (S j) y); [lia|exact Hy].
Qed.

Lemma find_none_all {A} (f : A -> bool) (l : list A) :
  (forall x, x ∈ l -> f x = false) -> List.find f l = None.
Proof.
  induction l as [|a l IH]; intros Hall; [reflexivity|].
  simpl. rewrite (Hall a) by left. apply IH. intros x Hx. apply Hall. right. exact Hx.
Qed.

Lemma index_inv_find st id :
  index_inv st ->
  FindMap st id = List.find (fun m => String.eqb (map_id m) id) (store_maps_ st).
Proof.
  intros [H1 H2]. unfold FindMap.
  destruct (map_id_to_index_ st !! id) as [i|] eqn:Hidx.
  - destruct (H1 _ _ Hidx) as (m & Hm & Hid). rewrite Hm. symmetry.
    apply (find_lookup _ _ i); [exact Hm|apply String.eqb_eq, Hid|].
    intros j y Hj Hy. apply String.eqb_neq. intros Heq.
    pose proof (H2 _ _ Hy) as Hy'. rewrite Heq, Hidx in Hy'. injection Hy' as ->. lia.
  - symmetry. apply find_none_all. intros m Hm.
    apply String.eqb_neq. intros Heq.
    apply list_elem_of_lookup in Hm as [i Hi].
    pose proof (H2 _ _ Hi) as Hi'. rewrite Heq, Hidx in Hi'. discriminate.
Qed.

Lemma empty_store_inv : index_inv empty_store.
Proof.
  split.
  - intros id i Hi. simpl in Hi. rewrite lookup_empty in Hi. discriminate.
  - intros i m Hm. simpl in Hm. rewrite lookup_nil in Hm. discriminate.
Qed.

Lemma add_maps_NoDup maps : forall st,
  index_inv st ->
  NoDup (List.map map_id (store_maps_ st ++ maps)) ->
  is_Some (add_maps maps st).
Proof.
  unfold add_maps. induction maps as [|m maps IH]; intros st Hinv Hnd; simpl.
  - eauto.
  - assert (Hfree : map_id_to_index_ st !! map_id m = None).
    { destruct (map_id_to_index_ st !! map_id m) as [i|] eqn:Hi; [|reflexivity].
      exfalso. destruct Hinv as [H1 _]. destruct (H1 _ _ Hi) as (m' & Hm' & Hid).
      rewrite List.map_app in Hnd. apply NoDup_app in Hnd as (_ & Hdisj & _).
      apply (Hdisj (map_id m)).
      - rewrite <- Hid. apply list_elem_of_fmap. exists m'. split; [reflexivity|].
        eapply list_elem_of_lookup_2, Hm'.
      - simpl. left. }
    assert (Hadd : AddMap st m = Some {| store_maps_ := store_maps_ st ++ [m];
                     map_id_to_index_ := <[map_id m := length (store_maps_ st)]>
                                           (map_id_to_index_ st) |}).
    { unfold AddMap. rewrite Hfree. reflexivity. }
    rewrite Hadd. simpl. apply IH.
    + apply (AddMap_inv _ _ _ Hinv Hadd).
    + simpl. rewrite <- app_assoc. exact Hnd.
Qed.

(** X13.  A list of maps is accepted by [AddMap], one after the other,
    exactly when the ids are distinct; the game then holds the maps in
    order, and [FindMap], which follows the index, returns the first map
    with the id it is given, as a search of [maps_] does. *)
Theorem AddMap_FindMap (maps : list Map) :
  (is_Some (add_maps maps empty_store) <-> NoDup (List.map map_id maps)) /\
  forall st, add_maps maps empty_store = Some st ->
    store_maps_ st = maps /\
    forall g id, maps_ g = maps -> game_index.FindMap st id = game.FindMap g id.
Proof.
  split; [split|].
  - intros [st Hst].
    destruct (add_maps_inv _ _ _ empty_store_inv Hst) as [Hinv Hmaps].
    simpl in Hmaps. rewrite <- Hmaps. apply index_inv_ids, Hinv.
  - intros Hnd. apply add_maps_NoDup; [apply empty_store_inv|exact Hnd].
  - intros st Hst.
    destruct (add_maps_inv _ _ _ empty_store_inv Hst) as [Hinv Hmaps].
    simpl in Hmaps. split; [exact Hmaps|].
    intros g id Hg. unfold game.FindMap. rewrite Hg, <- Hmaps.
    apply index_inv_find, Hinv.
Qed.

Lemma find_session_Some sessions id idx :
  find_session sessions id = Some idx ->
  exists s, sessions !! idx = Some s /\ map_id (map_ s) = id.
Proof.
  revert idx. induction sessions as [|s sessions IH]; intros idx Hfind; [discriminate|].
  simpl in Hfind. destruct (String.eqb (map_id (map_ s)) id) eqn:Hid.
  - injection Hfind as <-. exists s. split; [reflexivity|]. apply String.eqb_eq, Hid.
  - destruct (find_session sessions id) as [i|]; [|discriminate].
    injection Hfind as <-. destruct (IH i eq_refl) as (s' & Hs' & Hid'). eauto.
Qed.

Lemma find_session_None sessions id :
  find_session sessions id = None <->
  forall s, s ∈ sessions -> map_id (map_ s) <> id.
Proof.
  induction sessions as [|s sessions IH]; simpl.
  - split; [intros _ s Hs; inversion Hs|reflexivity].
  - destruct (String.eqb (map_id (map_ s)) id) eqn:Hid.
    + apply String.eqb_eq in Hid. split; [discriminate|].
      intros Hall. exfalso. apply (Hall s); [left|exact Hid].
    + apply String.eqb_neq in Hid.
      destruct (find_session sessions id) as [i|]; simpl.
      * split; [discriminate|]. intros Hall. exfalso.
        assert (Hnone : @None nat = None) by reflexivity.
        destruct IH as [_ IH]. discriminate IH.
        intros s' Hs'. apply Hall. right. exact Hs'.
      * split; [|reflexivity]. intros _ s' Hs'.
        apply elem_of_cons in Hs' as [->|Hs']; [exact Hid|].
        destruct IH as [IH _]. apply (IH eq_refl), Hs'.
Qed.

Lemma find_session_last sessions s id :
  find_session sessions id = None -> map_id (map_ s) = id ->
  find_session (sessions ++ [s]) id = Some (length sessions).
Proof.
  intros Hnone Hid. induction sessions as [|s0 sessions IH]; simpl.
  - rewrite (proj2 (String.eqb_eq _ _) Hid). reflexivity.
  - simpl in Hnone. destruct (String.eqb (map_id (map_ s0)) id); [discriminate|].
    destruct (find_session sessions id); [discriminate|].
    rewrite (IH eq_refl). reflexivity.
Qed.

Lemma FindMap_Some g id m : game.FindMap g id = Some m -> map_id m = id /\ m ∈ maps_ g.
Proof.
  unfold game.FindMap. intros Hfind. apply List.find_some in Hfind as [Hin Hid].
  split; [apply String.eqb_eq, Hid|apply list_elem_of_In, Hin].
Qed.

(** X14.  [GetOrCreateSession] throws only when the game has neither a
    session nor a map for the id.  Otherwise it returns a session of that
    map: the one that was there, or a new, empty one appended to the
    sessions, named after the map and holding a copy of the configured loot
    generator.  A second call returns the same session and adds none, and
    no two sessions of one map arise. *)
Theorem GetOrCreateSession_spec (g : Game) (id : string) :
  (GetOrCreateSession g id = None <->
   FindSessionByMapId g id = None /\ game.FindMap g id = None) /\
  forall g' idx, GetOrCreateSession g id = Some (g', idx) ->
    maps_ g' = maps_ g /\
    (exists s, sessions_ g' !! idx = Some s /\ map_id (map_ s) = id /\
       ((sessions_ g' = sessions_ g /\ FindSessionByMapId g id = Some idx) \/
        (sessions_ g' = sessions_ g ++ [s] /\ FindSessionByMapId g id = None /\
         session_id s = (id ++ "_session")%string /\
         game.FindMap g id = Some (map_ s) /\
         players_ s = [] /\ loots_ s = [] /\ next_loot_id_ s = 0%N /\
         loot_generator_ s = loot_generator_config_ g))) /\
    GetOrCreateSession g' id = Some (g', idx) /\
    (NoDup (session_map_ids g) -> NoDup (session_map_ids g')).
Proof.
  unfold GetOrCreateSession, FindSessionByMapId. split.
  - destruct (find_session (sessions_ g) id) as [idx|];
      [split; [discriminate|intros [H _]; discriminate H]|].
    destruct (game.FindMap g id) as [m|];
      [split; [discriminate|intros [_ H]; discriminate H]|].
    split; auto.
  - intros g' idx Hget.
    destruct (find_session (sessions_ g) id) as [i|] eqn:Hfind.
    + injection Hget as <- <-. split; [reflexivity|].
      destruct (find_session_Some _ _ _ Hfind) as (s & Hs & Hid).
      split; [exists s; auto|]. rewrite Hfind. auto.
    + destruct (game.FindMap g id) as [m|] eqn:Hmap; [|discriminate].
      destruct (FindMap_Some _ _ _ Hmap) as [Hid _].
      set (s := match loot_generator_config_ g with
                | Some config => SetLootGenerator (GameSession_new (id ++ "_session") m true)
                                   (Some config)
                | None => GameSession_new (id ++ "_session") m true
                end) in *.
      assert (Hs : map_ s = m /\ session_id s = (id ++ "_session")%string /\
                   players_ s = [] /\ loots_ s = [] /\ next_loot_id_ s = 0%N /\
                   loot_generator_ s = loot_generator_config_ g).
      { subst s. destruct (loot_generator_config_ g); simpl; auto 10. }
      destruct Hs as (Hm & Hsid & Hp & Hl & Hn & Hgen).
      injection Hget as <- <-. simpl. split; [reflexivity|].
      assert (Hlast : find_session (sessions_ g ++ [s]) id = Some (length (sessions_ g))).
      { apply find_session_last; [exact Hfind|]. rewrite Hm. exact Hid. }
      split; [|split].
      * exists s. split; [apply list_lookup_middle; reflexivity|].
        split; [rewrite Hm; exact Hid|]. right. rewrite Hm. auto 10.
      * rewrite Hlast. reflexivity.
      * unfold session_map_ids. simpl. intros Hnd.
        rewrite List.map_app. apply NoDup_app. split; [exact Hnd|].
        split; [|apply NoDup_singleton].
        intros id' Hin Hin'. simpl in Hin'. apply list_elem_of_singleton in Hin'.
        apply list_elem_of_fmap in Hin as (s' & Heq & Hs').
        apply (proj1 (find_session_None _ _) Hfind s' Hs'). congruence.
Qed.

Lemma find_player_Some players token j :
  find_player players token = Some j ->
  exists p, players !! j = Some p /\ token_ p = token /\
    forall j' p', (j' < j)%nat -> players !! j' = Some p' -> token_ p' <> token.
Proof.
  revert j. induction players as [|p players IH]; intros j Hfind; [discriminate|].
  simpl in Hfind. destruct (String.eqb (token_ p) token) eqn:Ht.
  - injection Hfind as <-. exists p. split; [reflexivity|].
    split; [apply String.eqb_eq, Ht|]. intros j' p' Hj'. lia.
  - destruct (find_player players token) as [i|]; [|discriminate].
    injection Hfind as <-. destruct (IH i eq_refl) as (p0 & Hp0 & Htok & Hfirst).
    exists p0. split; [exact Hp0|]. split; [exact Htok|].
    intros [|j'] p' Hj' Hp'.
    + injection Hp' as <-. apply String.eqb_neq, Ht.
    + apply (Hfirst j' p'); [lia|exact Hp'].
Qed.

Lemma find_player_None players token :
  find_player players token = None <-> forall p, p ∈ players -> token_ p <> token.
Proof.
  induction players as [|p players IH]; simpl.
  - split; [intros _ q Hq; inversion Hq|reflexivity].
  - destruct (String.eqb (token_ p) token) eqn:Ht.
    + apply String.eqb_eq in Ht. split; [discriminate|].
      intros Hall. exfalso. apply (Hall p); [left|exact Ht].
    + apply String.eqb_neq in Ht.
      destruct (find_player players token) as [i|]; simpl.
      * split; [discriminate|]. intros Hall. exfalso.
        destruct IH as [_ IH]. discriminate IH.
        intros q Hq. apply Hall. right. exact Hq.
      * split; [|reflexivity]. intros _ q Hq.
        apply elem_of_cons in Hq as [->|Hq]; [exact Ht|].
        destruct IH as [IH _]. apply (IH eq_refl), Hq.
Qed.

Lemma find_player_in_Some sessions token i j :
  find_player_in sessions token = Some (i, j) ->
  exists s p, sessions !! i = Some s /\ players_ s !! j = Some p /\ token_ p = token /\
    (forall j' p', (j' < j)%nat -> players_ s !! j' = Some p' -> token_ p' <> token) /\
    (forall i' s' p', (i' < i)%nat -> sessions !! i' = Some s' -> p' ∈ players_ s' ->
       token_ p' <> token).
Proof.
  revert i. induction sessions as [|s sessions IH]; intros i Hfind; [discriminate|].
  simpl in Hfind. destruct (find_player (players_ s) token) as [j0|] eqn:Hp.
  - injection Hfind as <- <-.
    destruct (find_player_Some _ _ _ Hp) as (p & Hj & Htok & Hfirst).
    exists s, p. split; [reflexivity|]. split; [exact Hj|]. split; [exact Htok|].
    split; [exact Hfirst|]. intros i' s' p' Hi'. lia.
  - destruct (find_player_in sessions token) as [[i0 j0]|]; [|discriminate].
    simpl in Hfind. injection Hfind as <- <-.
    destruct (IH i0 eq_refl) as (s0 & p0 & Hs0 & Hj & Htok & Hfirst & Hbefore).
    exists s0, p0. split; [exact Hs0|]. split; [exact Hj|]. split; [exact Htok|].
    split; [exact Hfirst|]. intros [|i'] s' p' Hi' Hs' Hp'.
    + injection Hs' as <-. apply (proj1 (find_player_None _ _) Hp), Hp'.
    + apply (Hbefore i' s' p'); [lia|exact Hs'|exact Hp'].
Qed.

Lemma find_player_in_None sessions token :
  find_player_in sessions token = None <->
  forall s p, s ∈ sessions -> p ∈ players_ s -> token_ p <> token.
Proof.
  induction sessions as [|s sessions IH]; simpl.
  - split; [intros _ s p Hs; inversion Hs|reflexivity].
  - destruct (find_player (players_ s) token) as [j|] eqn:Hp.
    + split; [discriminate|]. intros Hall. exfalso.
      destruct (find_player_Some _ _ _ Hp) as (p & Hj & Htok & _).
      apply (Hall s p); [left|eapply list_elem_of_lookup_2, Hj|exact Htok].
    + destruct (find_player_in sessions token) as [found|]; simpl.
      * split; [discriminate|]. intros Hall. exfalso.
        destruct IH as [_ IH]. discriminate IH.
        intros s' p Hs'. apply Hall. right. exact Hs'.
      * split; [|reflexivity]. intros _ s' p Hs' Hp'.
        apply elem_of_cons in Hs' as [->|Hs'].
        -- apply (proj1 (find_player_None _ _) Hp), Hp'.
        -- destruct IH as [IH _]. apply (IH eq_refl s' p Hs' Hp').
Qed.

(** X15.  [Game::FindPlayerByToken] returns the first player, in the order
    of the sessions and of their players, that holds the token, and returns
    nothing only when no player of any session holds it. *)
Theorem FindPlayerByToken_finds_first (g : Game) (token : string) :
  match FindPlayerByToken g token with
  | Some (i, j) =>
      exists s p, sessions_ g !! i = Some s /\ players_ s !! j = Some p /\
        token_ p = token /\
        (forall j' p', (j' < j)%nat -> players_ s !! j' = Some p' -> token_ p' <> token) /\
        (forall i' s' p', (i' < i)%nat -> sessions_ g !! i' = Some s' ->
           p' ∈ players_ s' -> token_ p' <> token)
  | None => forall s p, s ∈ sessions_ g -> p ∈ players_ s -> token_ p <> token
  end.
Proof.
  unfold FindPlayerByToken.
  destruct (find_player_in (sessions_ g) token) as [[i j]|] eqn:Hfind.
  - apply find_player_in_Some, Hfind.
  - apply find_player_in_None, Hfind.
Qed.

Lemma find_player_last players player token :
  find_player players token = None ->
  find_player (players ++ [player]) token =
  if String.eqb (token_ player) token then Some (length players) else None.
Proof.
  induction players as [|p players IH]; simpl; intros Hnone.
  - destruct (String.eqb (token_ player) token); reflexivity.
  - destruct (String.eqb (token_ p) token); [discriminate|].
    destruct (find_player players token); [discriminate|].
    rewrite (IH eq_refl). destruct (String.eqb (token_ player) token); reflexivity.
Qed.

Lemma find_player_app_Some players player token j :
  find_player players token = Some j ->
  find_player (players ++ [player]) token = Some j.
Proof.
  revert j. induction players as [|p players IH]; simpl; intros j Hj; [discriminate|].
  destruct (String.eqb (token_ p) token); [exact Hj|].
  destruct (find_player players token) as [i|]; [|discriminate].
  rewrite (IH i eq_refl). exact Hj.
Qed.

(** X16.  A player added to a session under a token that no player of the
    game holds is the player [FindPlayerByToken] returns for that token
    afterwards, and the lookup of every other token is as before. *)
Theorem FindPlayerByToken_after_AddPlayer (g : Game) (idx : nat) (s : GameSession)
    (player : Player) :
  sessions_ g !! idx = Some s ->
  FindPlayerByToken g (token_ player) = None ->
  let g' := update_session g idx (fun s => AddPlayer s player) in
  FindPlayerByToken g' (token_ player) = Some (idx, length (players_ s)) /\
  forall token, token <> token_ player ->
    FindPlayerByToken g' token = FindPlayerByToken g token.
Proof.
  unfold FindPlayerByToken, update_session. simpl.
  generalize (sessions_ g). intros sessions. revert idx.
  induction sessions as [|s0 sessions IH]; intros idx Hs Hnone; [discriminate|].
  simpl in Hnone. destruct (find_player (players_ s0) (token_ player)) eqn:Hp0; [discriminate|].
  destruct (find_player_in sessions (token_ player)) eqn:Hrest; [discriminate|].
  destruct idx as [|idx].
  - injection Hs as ->. simpl. split.
    + rewrite (find_player_last _ _ _ Hp0), String.eqb_refl. reflexivity.
    + intros token Hne.
      destruct (find_player (players_ s) token) as [j|] eqn:Hj.
      * rewrite (find_player_app_Some _ _ _ _ Hj). reflexivity.
      * rewrite (find_player_last _ _ _ Hj).
        rewrite (proj2 (String.eqb_neq _ _)) by congruence. reflexivity.
  - simpl in Hs. destruct (IH idx Hs eq_refl) as [Hfound Hother].
    change (@alter nat GameSession (list GameSession) _) with (@list_alter GameSession) in Hfound, Hother.
    simpl. split.
    + rewrite Hp0, Hfound. reflexivity.
    + intros token Hne. rewrite (Hother token Hne). reflexivity.
Qed.

Lemma FindPlayerByToken_after_AddPlayer_witness :
  FindPlayerByToken (update_session line_game 0 (fun s => AddPlayer s newcomer))
    (token_ newcomer) = Some (0%nat, 2%nat).
Proof.
  apply (FindPlayerByToken_after_AddPlayer line_game 0 line_session newcomer);
    reflexivity.
Defined.

End GameProofs.

(** ** Tokens *)

Module TokenProofs.
Import token.

Lemma hex_digit_value d : (d < 16)%N -> digit_value (hex_digit d) = d.
Proof.
  intros Hd. assert (Hc : d ∈ List.map N.of_nat (seq 0 16)).
  { apply list_elem_of_fmap. exists (N.to_nat d). split; [lia|].
    apply elem_of_seq. lia. }
  simpl in Hc. repeat (apply elem_of_cons in Hc as [->|Hc]; [reflexivity|]).
  inversion Hc.
Qed.

Lemma hex_digit_isxdigit d : (d < 16)%N -> isxdigit (hex_digit d) = true.
Proof.
  intros Hd. assert (Hc : d ∈ List.map N.of_nat (seq 0 16)).
  { apply list_elem_of_fmap. exists (N.to_nat d). split; [lia|].
    apply elem_of_seq. lia. }
  simpl in Hc. repeat (apply elem_of_cons in Hc as [->|Hc]; [reflexivity|]).
  inversion Hc.
Qed.

Lemma hex_digit_not_nul d : (d < 16)%N -> hex_digit d <> Ascii.zero.
Proof.
  intros Hd. assert (Hc : d ∈ List.map N.of_nat (seq 0 16)).
  { apply list_elem_of_fmap. exists (N.to_nat d). split; [lia|].
    apply elem_of_seq. lia. }
  simpl in Hc. repeat (apply elem_of_cons in Hc as [->|Hc]; [discriminate|]).
  inversion Hc.
Qed.

Lemma hex_value_app l c : hex_value (l ++ [c]) = (hex_value l * 16 + digit_value c)%N.
Proof. unfold hex_value. rewrite fold_left_app. reflexivity. Qed.

(** What [hex_digits] writes for a number of at most [fuel] digits. *)
Lemma hex_digits_spec fuel : forall n,
  (n < 16 ^ N.of_nat fuel)%N -> (0 < fuel)%nat ->
  (0 < length (hex_digits fuel n) <= fuel)%nat /\
  hex_value (hex_digits fuel n) = n /\
  Forall (fun c => isxdigit c = true /\ c <> Ascii.zero) (hex_digits fuel n).
Proof.
  induction fuel as [|fuel IH]; intros n Hn Hfuel; [lia|].
  simpl. destruct (n <? 16)%N eqn:Hsmall.
  - apply N.ltb_lt in Hsmall. simpl. split; [lia|].
    split; [unfold hex_value; simpl; apply hex_digit_value, Hsmall|].
    constructor; [|constructor].
    split; [apply hex_digit_isxdigit|apply hex_digit_not_nul]; exact Hsmall.
  - apply N.ltb_ge in Hsmall.
    assert (Hmod : (n mod 16 < 16)%N) by (apply N.mod_lt; lia).
    destruct fuel as [|fuel'].
    { simpl in Hn. lia. }
    assert (Hdiv : (n / 16 < 16 ^ N.of_nat (S fuel'))%N).
    { apply N.Div0.div_lt_upper_bound.
      replace (N.of_nat (S (S fuel'))) with (N.succ (N.of_nat (S fuel'))) in Hn by lia.
      rewrite N.pow_succ_r' in Hn. exact Hn. }
    destruct (IH (n / 16)%N Hdiv (Nat.lt_0_succ _)) as (Hlen & Hval & Hall).
    rewrite length_app. change (length [hex_digit (n mod 16)]) with 1%nat. split; [lia|].
    split.
    + rewrite hex_value_app, Hval, (hex_digit_value _ Hmod).
      rewrite N.mul_comm. symmetry. apply N.div_mod. lia.
    + apply Forall_app. split; [exact Hall|].
      constructor; [|constructor].
      split; [apply hex_digit_isxdigit|apply hex_digit_not_nul]; exact Hmod.
Qed.

Lemma hex_value_zeros k l : hex_value (replicate k "0"%char ++ l) = hex_value l.
Proof.
  unfold hex_value. rewrite fold_left_app.
  assert (Hz : fold_left (fun acc c => acc * 16 + digit_value c)%N
                 (replicate k "0"%char) 0%N = 0%N).
  { induction k as [|k IH]; simpl; [reflexivity|exact IH]. }
  rewrite Hz. reflexivity.
Qed.

Lemma setw_spec n :
  (n < 2 ^ 64)%N ->
  length (setw 16 "0"%char (hex_digits 16 n)) = 16%nat /\
  hex_value (setw 16 "0"%char (hex_digits 16 n)) = n /\
  Forall (fun c => isxdigit c = true /\ c <> Ascii.zero)
    (setw 16 "0"%char (hex_digits 16 n)).
Proof.
  intros Hn.
  destruct (hex_digits_spec 16 n) as (Hlen & Hval & Hall); [exact Hn|lia|].
  unfold setw. split; [|split].
  - rewrite length_app, length_replicate. lia.
  - rewrite hex_value_zeros. exact Hval.
  - apply Forall_app. split; [|exact Hall].
    apply Forall_replicate. split; [reflexivity|discriminate].
Qed.

Lemma hex_value_append l1 l2 :
  hex_value (l1 ++ l2) = (hex_value l1 * 16 ^ N.of_nat (length l2) + hex_value l2)%N.
Proof.
  induction l2 as [|c l2 IH] using rev_ind.
  - rewrite app_nil_r. simpl. unfold hex_value at 3. simpl. lia.
  - rewrite app_assoc, !hex_value_app, IH, length_app. simpl length.
    replace (N.of_nat (length l2 + 1)) with (N.succ (N.of_nat (length l2))) by lia.
    rewrite N.pow_succ_r'. lia.
Qed.

Lemma length_string_of_list_ascii l : String.length (String.string_of_list_ascii l) = length l.
Proof. induction l as [|c l IH]; simpl; congruence. Qed.

Lemma no_nul_string_of_list_ascii l :
  Forall (fun c => c <> Ascii.zero) l ->
  state_serializer.no_nul (String.string_of_list_ascii l).
Proof. induction 1; simpl; auto. Qed.

Lemma GenerateToken_chars part1 part2 :
  (part1 < 2 ^ 64)%N -> (part2 < 2 ^ 64)%N ->
  GenerateToken part1 part2 = String.string_of_list_ascii (token_chars part1 part2) /\
  length (token_chars part1 part2) = 32%nat.
Proof.
  intros H1 H2.
  destruct (setw_spec part1 H1) as (Hl1 & _).
  destruct (setw_spec part2 H2) as (Hl2 & _).
  assert (Hlen : length (token_chars part1 part2) = 32%nat).
  { unfold token_chars. rewrite length_app, Hl1, Hl2. reflexivity. }
  split; [|exact Hlen].
  unfold GenerateToken. fold (token_chars part1 part2). rewrite Hlen. reflexivity.
Qed.

Lemma GenerateToken_valid part1 part2 :
  (part1 < 2 ^ 64)%N -> (part2 < 2 ^ 64)%N ->
  valid_token_format (GenerateToken part1 part2) = true.
Proof.
  intros H1 H2.
  destruct (GenerateToken_chars part1 part2 H1 H2) as [Htok Hlen].
  destruct (setw_spec part1 H1) as (_ & _ & Hall1).
  destruct (setw_spec part2 H2) as (_ & _ & Hall2).
  assert (Hall : Forall (fun c => isxdigit c = true /\ c <> Ascii.zero)
                   (token_chars part1 part2)).
  { apply Forall_app. auto. }
  rewrite Htok. unfold valid_token_format.
  rewrite length_string_of_list_ascii, Hlen, String.list_ascii_of_string_of_list_ascii.
  simpl. apply forallb_forall. intros c Hc.
  apply list_elem_of_In in Hc. apply (proj1 (Forall_forall _ _) Hall c Hc).
Qed.

(** X17.  For any two 64-bit numbers [GenerateToken] returns 32 lower-case
    hexadecimal digits without a NUL, which the handlers' test of the token
    format accepts, and tokens made from different pairs of numbers
    differ. *)
Theorem GenerateToken_format (part1 part2 : N) :
  (part1 < 2 ^ 64)%N -> (part2 < 2 ^ 64)%N ->
  String.length (GenerateToken part1 part2) = 32%nat /\
  valid_token_format (GenerateToken part1 part2) = true /\
  state_serializer.no_nul (GenerateToken part1 part2) /\
  forall part1' part2', (part1' < 2 ^ 64)%N -> (part2' < 2 ^ 64)%N ->
    GenerateToken part1' part2' = GenerateToken part1 part2 ->
    part1' = part1 /\ part2' = part2.
Proof.
  intros H1 H2.
  destruct (GenerateToken_chars part1 part2 H1 H2) as [Htok Hlen].
  destruct (setw_spec part1 H1) as (Hl1 & Hv1 & Hall1).
  destruct (setw_spec part2 H2) as (Hl2 & Hv2 & Hall2).
  assert (Hall : Forall (fun c => isxdigit c = true /\ c <> Ascii.zero)
                   (token_chars part1 part2)).
  { apply Forall_app. auto. }
  rewrite Htok. split; [rewrite length_string_of_list_ascii; exact Hlen|].
  split; [|split].
  - rewrite <- Htok. apply GenerateToken_valid; assumption.
  - apply no_nul_string_of_list_ascii. eapply Forall_impl; [exact Hall|].
    intros c [_ Hc]. exact Hc.
  - intros part1' part2' H1' H2' Heq.
    destruct (GenerateToken_chars part1' part2' H1' H2') as [Htok' _].
    rewrite Htok' in Heq.
    assert (Hchars : token_chars part1' part2' = token_chars part1 part2).
    { rewrite <- (String.list_ascii_of_string_of_list_ascii (token_chars part1' part2')),
              <- (String.list_ascii_of_string_of_list_ascii (token_chars part1 part2)).
      rewrite Heq. reflexivity. }
    destruct (setw_spec part1' H1') as (Hl1' & Hv1' & _).
    destruct (setw_spec part2' H2') as (Hl2' & Hv2' & _).
    unfold token_chars in Hchars.
    apply app_inj_1 in Hchars as [Ha Hb]; [|congruence].
    split; congruence.
Qed.

Lemma GenerateToken_format_witness :
  String.length (GenerateToken 255 4096) = 32%nat.
Proof.
  apply (GenerateToken_format 255 4096); reflexivity.
Defined.

End TokenProofs.

(** ** Roads of the configuration *)

Module LoaderProofs.
Import model json_loader.

(** X18.  A road that [ParseRoad] returns is horizontal or vertical and has
    whole coordinates; it is horizontal when the object has a member
    ["x1"], whatever else it has, and vertical otherwise. *)
Theorem ParseRoad_roads (road_obj : json.object) (r : Road) :
  ParseRoad road_obj = Some r ->
  road_wf r /\ integer_road r /\
  (if json.contains road_obj "x1" then IsHorizontal r = true else IsVertical r = true).
Proof.
  unfold ParseRoad. intros Hparse.
  destruct (json.contains road_obj "x0" && json.contains road_obj "y0"); [|discriminate].
  destruct (json.at_ road_obj "x0" ≫= json.as_int64) as [x0|]; [|discriminate].
  destruct (json.at_ road_obj "y0" ≫= json.as_int64) as [y0|]; [|discriminate].
  simpl in Hparse.
  destruct (json.contains road_obj "x1").
  - destruct (json.at_ road_obj "x1" ≫= json.as_int64) as [x1|]; [|discriminate].
    injection Hparse as <-.
    split; [apply MoveDogProofs.Road_HORIZONTAL_wf|].
    split; [exists x0, y0, x1, y0; auto|].
    unfold IsHorizontal. simpl. apply Qeqb_eq. reflexivity.
  - destruct (json.contains road_obj "y1"); [|discriminate].
    destruct (json.at_ road_obj "y1" ≫= json.as_int64) as [y1|]; [|discriminate].
    injection Hparse as <-.
    split; [apply MoveDogProofs.Road_VERTICAL_wf|].
    split; [exists x0, y0, x0, y1; auto|].
    unfold IsVertical. simpl. apply Qeqb_eq. reflexivity.
Qed.

Lemma ParseRoad_roads_witness :
  road_wf (Road_HORIZONTAL {| geom.x := inject_Z 0; geom.y := inject_Z 0 |} (inject_Z 10)).
Proof.
  apply (ParseRoad_roads
           [ ("x0"%string, json.int64 0); ("y0"%string, json.int64 0);
             ("x1"%string, json.int64 10); ("y1"%string, json.int64 7) ]).
  reflexivity.
Defined.

End LoaderProofs.

(** ** Automatic saving *)

Module ListenerProofs.
Import serializing_listener.

Lemma OnTick_period l delta written : save_period_ (fst (OnTick l delta written)) = save_period_ l.
Proof.
  unfold OnTick. destruct (save_period_ l <=? _)%Z; [destruct written|]; reflexivity.
Qed.

Lemma run_time ticks : forall l,
  let '(l', log) := run l ticks in
  length log = length ticks /\
  save_period_ l' = save_period_ l /\
  time_since_last_save_ l' =
    ((if existsb (fun saved : bool => saved) log then 0 else time_since_last_save_ l) + uncovered ticks log)%Z.
Proof.
  induction ticks as [|[delta written] ticks IH]; intros l; simpl.
  - split; [reflexivity|]. split; [reflexivity|]. lia.
  - pose proof (OnTick_period l delta written) as Hperiod.
    destruct (OnTick l delta written) as [l1 saved] eqn:Htick.
    specialize (IH l1). destruct (run l1 ticks) as [l2 log].
    destruct IH as (Hlen & Hp & Htime). simpl in Hperiod.
    split; [simpl; congruence|]. split; [congruence|].
    rewrite Htime. simpl existsb.
    unfold OnTick in Htick.
    destruct (existsb (fun saved : bool => saved) log);
      destruct (save_period_ l <=? time_since_last_save_ l + delta)%Z;
      try destruct written; injection Htick as <- <-; simpl; lia.
Qed.

Lemma run_bound ticks : forall l,
  Forall (fun t => (0 <= fst t)%Z /\ snd t = true) ticks ->
  (0 <= time_since_last_save_ l < Z.max 1 (save_period_ l))%Z ->
  (0 <= time_since_last_save_ (fst (run l ticks)) < Z.max 1 (save_period_ l))%Z.
Proof.
  induction ticks as [|[delta written] ticks IH]; intros l Hall Hl; simpl; [exact Hl|].
  apply Forall_cons in Hall as [[Hdelta Hw] Hall]. simpl in Hdelta, Hw. subst written.
  pose proof (OnTick_period l delta true) as Hperiod.
  destruct (OnTick l delta true) as [l1 saved] eqn:Htick. simpl in Hperiod.
  specialize (IH l1 Hall). destruct (run l1 ticks) as [l2 log]. simpl in IH |- *.
  rewrite <- Hperiod. apply IH. rewrite Hperiod.
  unfold OnTick in Htick.
  destruct (save_period_ l <=? time_since_last_save_ l + delta)%Z eqn:Hdue;
    injection Htick as <- <-; simpl.
  - lia.
  - apply Z.leb_gt in Hdue. lia.
Qed.

(** X19.  The time the listener keeps is the game time that the last
    written state does not cover; when every write succeeds and no tick
    runs backwards it stays below the save period (and is zero after every
    tick when the period is zero), so a crash loses less than one period of
    game time. *)
Theorem OnTick_bounds_unsaved_time (save_period : Z) (ticks : list (Z * bool)) :
  let '(l, log) := run (SerializingListener_new save_period) ticks in
  length log = length ticks /\
  time_since_last_save_ l = uncovered ticks log /\
  (Forall (fun t => (0 <= fst t)%Z /\ snd t = true) ticks ->
   (0 <= uncovered ticks log < Z.max 1 save_period)%Z).
Proof.
  pose proof (run_time ticks (SerializingListener_new save_period)) as Htime.
  pose proof (run_bound ticks (SerializingListener_new save_period)) as Hbound.
  destruct (run (SerializingListener_new save_period) ticks) as [l log].
  destruct Htime as (Hlen & _ & Htime). simpl in Htime, Hbound.
  assert (Heq : time_since_last_save_ l = uncovered ticks log).
  { rewrite Htime. destruct (existsb (fun saved : bool => saved) log); lia. }
  split; [exact Hlen|]. split; [exact Heq|].
  intros Hall. rewrite <- Heq. apply Hbound; [exact Hall|lia].
Qed.

End ListenerProofs.

(** ** More on the saved state *)

Module SnapshotProofs.
Import model game state_serializer snapshot json_loader.

(** *** Saving a restored game *)

Lemma SerializePosition_rounded pos :
  SerializePosition (rounded_position pos) = SerializePosition pos.
Proof.
  unfold SerializePosition, rounded_position. simpl.
  rewrite !GeomProofs.Round6_idempotent. reflexivity.
Qed.

Lemma SerializeLoot_saved loot : SerializeLoot (saved_loot loot) = SerializeLoot loot.
Proof.
  unfold SerializeLoot, saved_loot. simpl. rewrite SerializePosition_rounded. reflexivity.
Qed.

Lemma SerializeDog_saved dog : SerializeDog (saved_dog dog) = SerializeDog dog.
Proof.
  unfold SerializeDog, saved_dog. simpl.
  rewrite SerializePosition_rounded, !GeomProofs.Round6_idempotent. reflexivity.
Qed.

Lemma SerializePlayer_saved player :
  SerializePlayer (saved_player player) = SerializePlayer player.
Proof.
  unfold SerializePlayer, saved_player. simpl.
  rewrite SerializeDog_saved, List.map_map.
  rewrite (map_ext (fun x => json.object_ (SerializeLoot (saved_loot x)))
             (fun loot => json.object_ (SerializeLoot loot)));
    [reflexivity|]. intros loot. rewrite SerializeLoot_saved. reflexivity.
Qed.

Lemma SerializeSession_saved g session :
  SerializeSession (saved_session g session) = SerializeSession session.
Proof.
  unfold SerializeSession, saved_session. simpl. rewrite !List.map_map.
  rewrite (map_ext (fun x => json.object_ (SerializePlayer (saved_player x)))
             (fun player => json.object_ (SerializePlayer player)));
    [|intros p; rewrite SerializePlayer_saved; reflexivity].
  rewrite (map_ext (fun x => json.object_ (SerializeLoot (saved_loot x)))
             (fun loot => json.object_ (SerializeLoot loot)));
    [reflexivity|]. intros l. rewrite SerializeLoot_saved. reflexivity.
Qed.

(** What loading a saved game into a game without sessions yields. *)
Lemma Deserialize_saved src target :
  maps_ target = maps_ src ->
  sessions_ target = [] ->
  NoDup (List.map (fun s => map_id (map_ s)) (sessions_ src)) ->
  Forall (session_wf src) (sessions_ src) ->
  Deserialize target (saved_state src) =
  Some (set_sessions target (List.map (saved_session target) (sessions_ src))).
Proof.
  intros Hmaps Hempty Hnd Hwf.
  unfold Deserialize, saved_state, SerializeGame.
  cbn [json.reparse List.map fst snd json.as_object mbind option_bind].
  unfold DeserializeGame.
  cbn [json.contains json.at_ existsb String.eqb Ascii.eqb Bool.eqb fst snd negb orb
       mbind option_bind json.as_array].
  rewrite SerializerProofs.restore_sessions_saved.
  - rewrite Hempty. reflexivity.
  - exact Hnd.
  - eapply Forall_impl; [exact Hwf|]. intros s (H1 & H2 & H3).
    split; [exact H1|]. split; [|exact H3].
    unfold game.FindMap in *. rewrite Hmaps. exact H2.
  - intros s _. rewrite Hempty. reflexivity.
Qed.

(** X20.  Saving the game that was loaded from a saved state writes that
    state again: nothing drifts when a server is restarted repeatedly. *)
Theorem snapshot_stable (src target : Game) :
  maps_ target = maps_ src ->
  sessions_ target = [] ->
  NoDup (List.map (fun s => map_id (map_ s)) (sessions_ src)) ->
  Forall (session_wf src) (sessions_ src) ->
  exists restored,
    Deserialize target (saved_state src) = Some restored /\
    SerializeGame restored = SerializeGame src /\
    saved_state restored = saved_state src.
Proof.
  intros Hmaps Hempty Hnd Hwf.
  exists (set_sessions target (List.map (saved_session target) (sessions_ src))).
  split; [apply Deserialize_saved; assumption|].
  assert (Heq : SerializeGame
                  (set_sessions target (List.map (saved_session target) (sessions_ src))) =
                SerializeGame src).
  { unfold SerializeGame. simpl. rewrite List.map_map.
    rewrite (map_ext (fun x => json.object_ (SerializeSession (saved_session target x)))
               (fun session => json.object_ (SerializeSession session)));
      [reflexivity|]. intros s. rewrite SerializeSession_saved. reflexivity. }
  split; [exact Heq|]. unfold saved_state. rewrite Heq. reflexivity.
Qed.

Lemma snapshot_stable_witness :
  exists restored,
    Deserialize empty_game (saved_state running_game) = Some restored /\
    SerializeGame restored = SerializeGame running_game /\
    saved_state restored = saved_state running_game.
Proof.
  apply snapshot_stable.
  - reflexivity.
  - reflexivity.
  - vm_compute. apply NoDup_cons. split; [intros H; inversion H | apply NoDup_nil_2].
  - remember (sessions_ running_game) as l eqn:Hl. vm_compute in Hl. subst l.
    apply List.Forall_cons; [|apply List.Forall_nil].
    unfold session_wf. cbn [session_id map_ next_loot_id_ players_ loots_ map_id].
    split; [reflexivity|]. split; [reflexivity|]. split; [SerializerProofs.no_nul_fact|].
    split; [SerializerProofs.range_fact|]. split; [|SerializerProofs.loots_fact].
    apply List.Forall_cons; [SerializerProofs.player_fact|].
    apply List.Forall_cons; [SerializerProofs.player_fact|]. apply List.Forall_nil.
Defined.

(** *** Rounding and the roads *)

Lemma Round6_below (v b : Q) (k : Z) :
  b * 1000000 == inject_Z k -> v <= b -> geom.Round6 v <= b.
Proof.
  intros Hk Hv. rewrite <- (GeomProofs.Round6_exact b k Hk).
  apply GeomProofs.Round6_mono, Hv.
Qed.

Lemma Round6_above (v b : Q) (k : Z) :
  b * 1000000 == inject_Z k -> b <= v -> b <= geom.Round6 v.
Proof.
  intros Hk Hv. rewrite <- (GeomProofs.Round6_exact b k Hk).
  apply GeomProofs.Round6_mono, Hv.
Qed.

Lemma border_decimals (z : Z) :
  (inject_Z z - 0.4) * 1000000 == inject_Z (z * 1000000 - 400000) /\
  (inject_Z z + 0.4) * 1000000 == inject_Z (z * 1000000 + 400000).
Proof.
  unfold Zminus. rewrite !inject_Z_plus, !inject_Z_mult, inject_Z_opp.
  change (inject_Z 1000000) with 1000000. change (inject_Z 400000) with 400000.
  split; field.
Qed.

Lemma std_min_cases (a b : Q) : std_min a b = a \/ std_min a b = b.
Proof. unfold std_min. destruct (Qltb b a); auto. Qed.

Lemma std_max_cases (a b : Q) : std_max a b = a \/ std_max a b = b.
Proof. unfold std_max. destruct (Qltb a b); auto. Qed.

Lemma integer_road_borders r :
  integer_road r ->
  exists x0 y0 x1 y1 : Z,
    GetMinX r = inject_Z x0 /\ GetMinY r = inject_Z y0 /\
    GetMaxX r = inject_Z x1 /\ GetMaxY r = inject_Z y1.
Proof.
  intros (x0 & y0 & x1 & y1 & Hs & He).
  unfold GetMinX, GetMinY, GetMaxX, GetMaxY. rewrite Hs, He. simpl.
  destruct (std_min_cases (inject_Z x0) (inject_Z x1)) as [-> | ->];
  destruct (std_min_cases (inject_Z y0) (inject_Z y1)) as [-> | ->];
  destruct (std_max_cases (inject_Z x0) (inject_Z x1)) as [-> | ->];
  destruct (std_max_cases (inject_Z y0) (inject_Z y1)) as [-> | ->]; eauto 10.
Qed.

Lemma rounded_position_in_strip r p :
  integer_road r -> in_strip r p -> in_strip r (rounded_position p).
Proof.
  intros Hr. destruct (integer_road_borders r Hr) as (x0 & y0 & x1 & y1 & H1 & H2 & H3 & H4).
  unfold in_strip, rounded_position. rewrite H1, H2, H3, H4. simpl.
  intros [[Hx0 Hy0] [Hx1 Hy1]].
  repeat split.
  - eapply Round6_above; [apply border_decimals|exact Hx0].
  - eapply Round6_above; [apply border_decimals|exact Hy0].
  - eapply Round6_below; [apply border_decimals|exact Hx1].
  - eapply Round6_below; [apply border_decimals|exact Hy1].
Qed.

(** X21.  On a map whose roads have whole coordinates, as [ParseRoad] makes
    them, a position on a road is still on that road when rounded to six
    decimals; a saved state therefore restores every dog and every loot that
    was on a road onto a road. *)
Theorem rounding_keeps_on_roads (m : Map) (p : Position) :
  Forall integer_road (roads_ m) ->
  on_roads m p ->
  on_roads m (rounded_position p).
Proof.
  intros Hall (r & Hr & Hp). exists r. split; [exact Hr|].
  apply rounded_position_in_strip; [|exact Hp].
  apply (proj1 (Forall_forall _ _) Hall r Hr).
Qed.

Lemma rounding_keeps_on_roads_witness :
  on_roads corner_map (rounded_position {| geom.x := 10.4; geom.y := 3.1234567 |}).
Proof.
  apply (rounding_keeps_on_roads corner_map {| geom.x := 10.4; geom.y := 3.1234567 |}).
  - apply List.Forall_cons; [exists 0%Z, 0%Z, 10%Z, 0%Z; split; reflexivity|].
    apply List.Forall_cons; [exists 10%Z, 0%Z, 10%Z, 10%Z; split; reflexivity|].
    apply List.Forall_nil.
  - exists (Road_VERTICAL {| geom.x := 10; geom.y := 0 |} 10).
    split; [set_solver|]. vm_compute. intuition discriminate.
Defined.

(** *** What loading leaves alone *)

Lemma session_extends_refl s : session_extends s s.
Proof. unfold session_extends. auto 10. Qed.

Lemma session_extends_trans s1 s2 s3 :
  session_extends s1 s2 -> session_extends s2 s3 -> session_extends s1 s3.
Proof.
  unfold session_extends.
  intros (A1 & A2 & A3 & A4 & A5 & A6) (B1 & B2 & B3 & B4 & B5 & B6).
  repeat split; try congruence; etransitivity; eassumption.
Qed.

Lemma game_extends_refl g : game_extends g g.
Proof.
  unfold game_extends. repeat split; auto.
  intros i s Hs. exists s. split; [exact Hs|apply session_extends_refl].
Qed.

Lemma game_extends_trans g1 g2 g3 :
  game_extends g1 g2 -> game_extends g2 g3 -> game_extends g1 g3.
Proof.
  unfold game_extends.
  intros (A1 & A2 & A3 & A4) (B1 & B2 & B3 & B4).
  repeat split; try congruence.
  intros i s Hs. destruct (A4 i s Hs) as (s2 & Hs2 & He2).
  destruct (B4 i s2 Hs2) as (s3 & Hs3 & He3).
  exists s3. split; [exact Hs3|]. eapply session_extends_trans; eassumption.
Qed.

Lemma update_session_extends g idx f :
  (forall s, session_extends s (f s)) -> game_extends g (update_session g idx f).
Proof.
  intros Hf. unfold game_extends, update_session. simpl. repeat split; auto.
  intros i s Hs. destruct (decide (i = idx)) as [->|Hne].
  - exists (f s). split; [|apply Hf].
    rewrite list_lookup_alter_eq, Hs. reflexivity.
  - exists s. split; [|apply session_extends_refl].
    rewrite list_lookup_alter_ne by congruence. exact Hs.
Qed.

Lemma GetOrCreateSession_extends g id g' idx :
  GetOrCreateSession g id = Some (g', idx) -> game_extends g g'.
Proof.
  unfold GetOrCreateSession. intros Hget.
  destruct (FindSessionByMapId g id).
  - injection Hget as <- <-. apply game_extends_refl.
  - destruct (game.FindMap g id); [|discriminate]. injection Hget as <- <-.
    unfold game_extends. simpl. repeat split; auto.
    intros i s Hs. exists s. split; [|apply session_extends_refl].
    apply lookup_app_l_Some, Hs.
Qed.

Lemma restore_players_extends players_array : forall s,
  session_extends s (fold_left restore_player players_array s).
Proof.
  induction players_array as [|v vs IH]; intros s; simpl; [apply session_extends_refl|].
  eapply session_extends_trans; [|apply IH].
  unfold restore_player. destruct (json.as_object v ≫= DeserializePlayer);
    [|apply session_extends_refl].
  unfold session_extends, AddPlayer. simpl. repeat split; auto.
  apply prefix_app_r. reflexivity.
Qed.

Lemma restore_loots_extends loots_array : forall s,
  session_extends s (fold_left restore_loot loots_array s).
Proof.
  induction loots_array as [|v vs IH]; intros s; simpl; [apply session_extends_refl|].
  eapply session_extends_trans; [|apply IH].
  unfold restore_loot. destruct (json.as_object v ≫= DeserializeLoot);
    [|apply session_extends_refl].
  unfold session_extends, AddLoot. simpl. repeat split; auto.
  apply prefix_app_r. reflexivity.
Qed.

Lemma DeserializeSession_extends g json_val :
  game_extends g (fst (DeserializeSession g json_val)).
Proof.
  unfold DeserializeSession.
  destruct (negb (json.contains json_val "map_id")); [apply game_extends_refl|].
  destruct (json.at_ json_val "map_id" ≫= json.as_string) as [map_id_str|];
    [|apply game_extends_refl].
  destruct (GetOrCreateSession g (c_str map_id_str)) as [[g1 idx]|] eqn:Hget;
    [|apply game_extends_refl].
  pose proof (GetOrCreateSession_extends _ _ _ _ Hget) as H1.
  assert (Hnext : forall n, game_extends g
            (update_session g1 idx (fun s => SetNextLootId s n))).
  { intros n. eapply game_extends_trans; [exact H1|].
    apply update_session_extends. intros s. unfold session_extends. simpl.
    repeat split; auto. }
  destruct (json.contains json_val "next_loot_id").
  - destruct (json.at_ json_val "next_loot_id" ≫= json.as_int64) as [next|]; simpl;
      [|exact H1].
    set (g2 := update_session g1 idx (fun s => SetNextLootId s (to_size_t next))).
    assert (H2 : game_extends g g2) by apply Hnext.
    clearbody g2.
    assert (Hplayers : forall arr, game_extends g
              (update_session g2 idx (fun s => fold_left restore_player arr s))).
    { intros arr. eapply game_extends_trans; [exact H2|].
      apply update_session_extends, restore_players_extends. }
    assert (Hloots : forall g3 arr, game_extends g g3 -> game_extends g
              (update_session g3 idx (fun s => fold_left restore_loot arr s))).
    { intros g3 arr H3. eapply game_extends_trans; [exact H3|].
      apply update_session_extends, restore_loots_extends. }
    destruct (json.contains json_val "players").
    + destruct (json.at_ json_val "players" ≫= json.as_array) as [players_array|]; simpl;
        [|exact H2].
      destruct (json.contains json_val "loots").
      * destruct (json.at_ json_val "loots" ≫= json.as_array) as [loots_array|]; simpl;
          [apply Hloots|]; apply Hplayers.
      * simpl. apply Hplayers.
    + simpl. destruct (json.contains json_val "loots").
      * destruct (json.at_ json_val "loots" ≫= json.as_array) as [loots_array|]; simpl;
          [apply Hloots|]; exact H2.
      * simpl. exact H2.
  - simpl.
    assert (Hplayers : forall arr, game_extends g
              (update_session g1 idx (fun s => fold_left restore_player arr s))).
    { intros arr. eapply game_extends_trans; [exact H1|].
      apply update_session_extends, restore_players_extends. }
    assert (Hloots : forall g3 arr, game_extends g g3 -> game_extends g
              (update_session g3 idx (fun s => fold_left restore_loot arr s))).
    { intros g3 arr H3. eapply game_extends_trans; [exact H3|].
      apply update_session_extends, restore_loots_extends. }
    destruct (json.contains json_val "players").
    + destruct (json.at_ json_val "players" ≫= json.as_array) as [players_array|]; simpl;
        [|exact H1].
      destruct (json.contains json_val "loots").
      * destruct (json.at_ json_val "loots" ≫= json.as_array) as [loots_array|]; simpl;
          [apply Hloots|]; apply Hplayers.
      * simpl. apply Hplayers.
    + simpl. destruct (json.contains json_val "loots").
      * destruct (json.at_ json_val "loots" ≫= json.as_array) as [loots_array|]; simpl;
          [apply Hloots|]; exact H1.
      * simpl. exact H1.
Qed.

Lemma restore_sessions_extends sessions_array : forall g,
  game_extends g (fold_left restore_session sessions_array g).
Proof.
  induction sessions_array as [|v vs IH]; intros g; simpl; [apply game_extends_refl|].
  eapply game_extends_trans; [|apply IH].
  unfold restore_session. destruct (json.as_object v); [|apply game_extends_refl].
  apply DeserializeSession_extends.
Qed.

(** X22.  [Deserialize] throws only when the file holds no object or its
    member ["sessions"] is no array; a session, a player or a loot that
    cannot be read is skipped.  What it returns holds all that the game
    held before: the maps and the configuration, every session with its id
    and map, and in every session the players and loots that were there, in
    their places. *)
Theorem Deserialize_only_adds (g : Game) (file : json.value) :
  (Deserialize g file = None <->
   forall obj, file = json.object_ obj ->
     json.contains obj "sessions" = true /\
     json.at_ obj "sessions" ≫= json.as_array = None) /\
  forall g', Deserialize g file = Some g' -> game_extends g g'.
Proof.
  unfold Deserialize, DeserializeGame. split.
  - destruct file as [| | | | | |a|obj]; simpl;
      try (split; [intros _ obj Hobj; discriminate Hobj|reflexivity]).
    destruct (json.contains obj "sessions") eqn:Hc; simpl.
    + destruct (json.at_ obj "sessions" ≫= json.as_array) eqn:Ha; simpl.
      * split; [discriminate|]. intros Hall.
        destruct (Hall obj eq_refl) as [_ Hnone]. rewrite Ha in Hnone. discriminate.
      * split; [|reflexivity]. intros _ obj' Hobj. injection Hobj as <-. auto.
    + split; [discriminate|]. intros Hall.
      destruct (Hall obj eq_refl) as [Hcontains _]. rewrite Hc in Hcontains. discriminate.
  - intros g' Hload. destruct file as [| | | | | |a|obj]; simpl in Hload; try discriminate.
    destruct (json.contains obj "sessions"); simpl in Hload.
    + destruct (json.at_ obj "sessions" ≫= json.as_array) as [arr|]; simpl in Hload;
        [|discriminate].
      injection Hload as <-. apply restore_sessions_extends.
    + injection Hload as <-. apply game_extends_refl.
Qed.

(** *** A name that the snapshot does not bring back *)

(** C9.  The round trip loses what follows a NUL character in the name of a
    dog.  [HandleJoinGame] refuses the empty name only and keeps the name as
    the JSON string holds it, so a user whose name is [a], NUL, [b] joins
    the map [line] and gets the dog with that name and the id made of it.
    [SerializeDog] writes both in full; [DeserializeDog] reads them through
    [c_str()], which ends at the NUL.  Loading the saved state into the game
    with the same map and no session yields a dog whose id and name are [a],
    and the restored session is not the saved one up to rounding. *)
Theorem snapshot_truncates_names :
  let joined := http_handler.HandleJoinGame parse_nul_join fresh_handler join_request
                  first_draw in
  let dogs := fun g : Game =>
    List.map (fun p => (dog_id (dog_ p), dog_name (dog_ p))) (flat_map players_ (sessions_ g)) in
  http_handler.result (snd joined) = http_handler.ok /\
  dogs (http_handler.rh_game_ (fst joined)) = [((nul_name ++ "_line")%string, nul_name)] /\
  exists restored,
    Deserialize (http_handler.rh_game_ fresh_handler)
      (saved_state (http_handler.rh_game_ (fst joined))) = Some restored /\
    dogs restored = [("a"%string, "a"%string)] /\
    ~ Forall2 session_restored (sessions_ (http_handler.rh_game_ (fst joined)))
        (sessions_ restored).
Proof.
  cbv zeta. split; [vm_compute; reflexivity|]. split; [vm_compute; reflexivity|].
  destruct (Deserialize (http_handler.rh_game_ fresh_handler)
              (saved_state (http_handler.rh_game_
                 (fst (http_handler.HandleJoinGame parse_nul_join fresh_handler
                         join_request first_draw))))) as [restored|] eqn:Hload;
    [|vm_compute in Hload; discriminate].
  exists restored. split; [reflexivity|].
  vm_compute in Hload. injection Hload as <-.
  split; [vm_compute; reflexivity|].
  intros Hsame. apply Forall2_cons_1 in Hsame as [(_ & _ & _ & Hplayers & _) _].
  vm_compute in Hplayers.
  apply Forall2_cons_1 in Hplayers as [(_ & _ & _ & _ & _ & _ & Hname & _) _].
  discriminate Hname.
Qed.

End SnapshotProofs.

(** ** The request handlers *)

Module HandlerProofs.
Import model game game_index model_map token serializing_listener http_handler served snapshot.

Lemma player_inv_bag m p q :
  dog_ q = dog_ p -> token_ q = token_ p -> bag_capacity_ q = bag_capacity_ p ->
  bag_ok q -> player_inv m p -> player_inv m q.
Proof.
  unfold player_inv. intros Hd Ht Hc Hb (H1 & H2 & H3 & _ & H5 & H6).
  rewrite Hd, Ht, Hc. tauto.
Qed.

Lemma MoveDog_on_roads m start speed dt :
  roads_ m <> [] -> on_roads m start ->
  on_roads m (geom.position (MoveDog m start speed dt)).
Proof.
  intros Hne Hs. pose proof (MapProofs.MoveDog_cases m start speed dt Hne) as H.
  cbv zeta in H. destruct H as [[Hfp ->]|(_ & [->|H] & _)]; auto.
Qed.

Lemma move_player_inv m dt p :
  roads_ m <> [] -> player_inv m p -> player_inv m (move_player m dt p).
Proof.
  intros Hne (H1 & H2 & H3 & H4 & H5 & H6). unfold move_player.
  destruct (IsMoving _ || _ || _); [|unfold player_inv; tauto].
  pose proof (MoveDog_on_roads m (position_ (dog_ p)) (speed_ (dog_ p)) dt Hne H1) as Hm.
  destruct (geom.hit_boundary _); unfold player_inv; cbn [set_dog dog_ Stop SetSpeed
    SetPosition position_ dog_map_id speed_ token_ bag_capacity_];
    (split; [exact Hm|]); (split; [exact H2|]); (split; [|tauto]);
    [left; reflexivity|exact H3].
Qed.

Lemma before_collisions_inv m dt p :
  roads_ m <> [] -> player_inv m p ->
  player_inv m (move_player m dt (save_previous (update_times dt p))).
Proof.
  intros Hne Hp. apply move_player_inv; [exact Hne|].
  destruct Hp as (H1 & H2 & H3 & H4 & H5 & H6).
  unfold save_previous, update_times, player_inv.
  destruct (Qltb (Qabs (geom.vx (speed_ (dog_ (AddPlayTime p dt))))) EPS &&
            Qltb (Qabs (geom.vy (speed_ (dog_ (AddPlayTime p dt))))) EPS);
    simpl; tauto.
Qed.

Lemma process_event_player_inv m loots st ev :
  Forall (player_inv m) (cs_players st) ->
  Forall (player_inv m) (cs_players (process_event loots st ev)).
Proof.
  intros H. unfold process_event.
  destruct (cs_players st !! ge_gatherer_id ev) as [pl|] eqn:Hpl; [|exact H].
  assert (Hok : player_inv m pl).
  { apply (proj1 (Forall_forall _ _) H), list_elem_of_lookup. eauto. }
  destruct (ge_type ev).
  - destruct (loots !! ge_item_id ev) as [loot|]; [|exact H].
    destruct (decide (geom.id loot ∈ cs_collected st)); [exact H|].
    destruct (IsBagFull pl); simpl; [exact H|].
    apply Forall_insert; [exact H|].
    apply (player_inv_bag m pl); try exact Hok;
      try (unfold AddToBag; destruct (bag_size pl <? bag_capacity_ pl)%N; reflexivity).
    apply SessionProofs.bag_ok_AddToBag. apply Hok.
  - simpl. apply Forall_insert; [exact H|].
    apply (player_inv_bag m pl); try exact Hok; try reflexivity.
    unfold bag_ok, bag_size. simpl. lia.
Qed.

Lemma process_events_player_inv m loots evs : forall st,
  Forall (player_inv m) (cs_players st) ->
  Forall (player_inv m) (cs_players (process_events loots evs st)).
Proof.
  unfold process_events. induction evs as [|ev evs IH]; intros st H; simpl; [exact H|].
  apply IH, process_event_player_inv, H.
Qed.

Lemma UpdateState_player_inv std_pow g s dt inp :
  roads_ (map_ s) <> [] ->
  Forall (player_inv (map_ s)) (players_ s) ->
  map_ (fst (fst (UpdateState std_pow g s dt inp))) = map_ s /\
  Forall (player_inv (map_ s)) (players_ (fst (fst (UpdateState std_pow g s dt inp)))).
Proof.
  intros Hne H.
  assert (Hbefore : Forall (player_inv (map_ s))
                      (players_ (tick_before_collisions std_pow s dt inp))).
  { rewrite SessionProofs.tick_before_collisions_players. rewrite Forall_forall in *.
    intros q Hq. apply list_elem_of_In, in_map_iff in Hq. destruct Hq as (p & <- & Hp).
    apply before_collisions_inv; [exact Hne|]. apply H, list_elem_of_In, Hp. }
  destruct (TickFacts.tick_before_retirement_session std_pow s dt inp) as [_ Hmap].
  revert Hmap.
  unfold UpdateState, tick_before_retirement, HandleCollisions.
  set (before := tick_before_collisions std_pow s dt inp) in *.
  set (st := process_events (loots_ before) (all_events before) (collisions_start before)).
  assert (Hst : Forall (player_inv (map_ s)) (cs_players st))
    by (apply process_events_player_inv, Hbefore).
  unfold RetireInactivePlayers. cbn [fst game_ set_loots set_players players_ map_].
  intros Hmap.
  destruct (game_ before); [|split; [exact Hmap|exact Hst]].
  rewrite SessionProofs.retire_loop_filter. cbn [fst players_ set_players app map_].
  split; [exact Hmap|].
  rewrite Forall_forall in *. intros q Hq. apply SessionProofs.elem_of_bool_filter in Hq.
  apply Hst. tauto.
Qed.

Lemma update_times_inv m dt p : player_inv m p -> player_inv m (update_times dt p).
Proof.
  intros (H1 & H2 & H3 & H4 & H5 & H6). unfold update_times, player_inv.
  destruct (Qltb (Qabs (geom.vx (speed_ (dog_ (AddPlayTime p dt))))) EPS &&
            Qltb (Qabs (geom.vy (speed_ (dog_ (AddPlayTime p dt))))) EPS);
    simpl; tauto.
Qed.

(** The loop that creates the loots touches the loots and their counter
    only, and it is the loop of the tick that does not throw when no read
    throws. *)
Lemma spawn_loots_checked_fields inp n : forall i s,
  players_ (fst (game_tick.spawn_loots_checked inp i n s)) = players_ s /\
  map_ (fst (game_tick.spawn_loots_checked inp i n s)) = map_ s /\
  (snd (game_tick.spawn_loots_checked inp i n s) = false ->
   fst (game_tick.spawn_loots_checked inp i n s) = spawn_loots inp i n s) /\
  (catalogue_readable (map_ s) ->
   snd (game_tick.spawn_loots_checked inp i n s) = false).
Proof.
  induction n as [|n IH]; intros i s; simpl; [auto|].
  destruct (ti_draw inp i) as [type pos].
  destruct (game_tick.loot_value_throws (map_ s) type) eqn:Hthrows; simpl.
  - split; [reflexivity|]. split; [reflexivity|]. split; [discriminate|].
    intros Hread. exfalso. unfold game_tick.loot_value_throws in Hthrows.
    destruct (loot_types_ (map_ s) !! N.to_nat type) as [[value|]|] eqn:Hentry;
      try discriminate.
    assert (Hin : None ∈ loot_types_ (map_ s)) by (apply list_elem_of_lookup; eauto).
    apply (proj1 (Forall_forall _ _) Hread) in Hin.
    destruct Hin as [value Hvalue]. discriminate.
  - match goal with |- context [game_tick.spawn_loots_checked inp (S i) n ?s1] =>
      destruct (IH (S i) s1) as (H1 & H2 & H3 & H4) end.
    rewrite H1, H2. auto.
Qed.

Lemma GameSession_UpdateState_readable std_pow g s dt inp :
  catalogue_readable (map_ s) ->
  snd (game_tick.GameSession_UpdateState std_pow g s dt inp) = false.
Proof.
  intros Hread. unfold game_tick.GameSession_UpdateState, game_tick.generate_loots_checked.
  cbn [loot_generator_ set_players].
  destruct (loot_generator_ s) as [gen|]; simpl.
  - destruct (call_generator std_pow gen inp dt _) as [count gen'].
    match goal with |- context [game_tick.spawn_loots_checked inp 0 ?n ?s1] =>
      destruct (spawn_loots_checked_fields inp n 0%nat s1) as (_ & _ & _ & H4);
      pose proof (H4 Hread) as Hfalse;
      destruct (game_tick.spawn_loots_checked inp 0 n s1) as [spawned thrown] end.
    simpl in Hfalse. subst thrown.
    destruct (UpdateState std_pow g s dt inp) as [[s' retired] picked]. reflexivity.
  - destruct (UpdateState std_pow g s dt inp) as [[s' retired] picked]. reflexivity.
Qed.

(** What [GameSession::UpdateState] leaves behind: the session after the
    whole tick, or, when it threw, the session with the times of the
    players updated and nothing else of them changed. *)
Lemma GameSession_UpdateState_cases std_pow g s dt inp :
  (game_tick.GameSession_UpdateState std_pow g s dt inp =
     (fst (fst (UpdateState std_pow g s dt inp)), snd (fst (UpdateState std_pow g s dt inp)),
      false)) \/
  (exists spawned,
     game_tick.GameSession_UpdateState std_pow g s dt inp = (spawned, [], true) /\
     map_ spawned = map_ s /\
     players_ spawned = List.map (update_times dt) (players_ s)).
Proof.
  unfold game_tick.GameSession_UpdateState, game_tick.generate_loots_checked.
  cbn [loot_generator_ set_players].
  destruct (loot_generator_ s) as [gen|]; simpl.
  - destruct (call_generator std_pow gen inp dt _) as [count gen'].
    match goal with |- context [game_tick.spawn_loots_checked inp 0 ?n ?s1] =>
      destruct (spawn_loots_checked_fields inp n 0%nat s1) as (H1 & H2 & _ & _);
      destruct (game_tick.spawn_loots_checked inp 0 n s1) as [spawned thrown] end.
    simpl in H1, H2. destruct thrown.
    + right. exists spawned. auto.
    + left. destruct (UpdateState std_pow g s dt inp) as [[s' retired] picked]. reflexivity.
  - left. destruct (UpdateState std_pow g s dt inp) as [[s' retired] picked]. reflexivity.
Qed.

Lemma GameSession_UpdateState_inv std_pow g s dt inp :
  roads_ (map_ s) <> [] ->
  Forall (player_inv (map_ s)) (players_ s) ->
  map_ (fst (fst (game_tick.GameSession_UpdateState std_pow g s dt inp))) = map_ s /\
  Forall (player_inv (map_ s))
    (players_ (fst (fst (game_tick.GameSession_UpdateState std_pow g s dt inp)))).
Proof.
  intros Hne H.
  destruct (GameSession_UpdateState_cases std_pow g s dt inp)
    as [->|(spawned & -> & Hmap & Hplayers)]; cbn [fst].
  - apply UpdateState_player_inv; assumption.
  - split; [exact Hmap|]. rewrite Hplayers. rewrite Forall_forall in *.
    intros q Hq. apply list_elem_of_In, in_map_iff in Hq. destruct Hq as (p & <- & Hp).
    apply update_times_inv, H, list_elem_of_In, Hp.
Qed.

Lemma update_sessions_inv std_pow cfg dt inp sessions : forall i,
  Forall (fun s => roads_ (map_ s) <> [] /\ Forall (player_inv (map_ s)) (players_ s))
    sessions ->
  List.map map_ (fst (fst (game_tick.update_sessions std_pow cfg sessions dt inp i))) =
    List.map map_ sessions /\
  Forall (fun s => Forall (player_inv (map_ s)) (players_ s))
    (fst (fst (game_tick.update_sessions std_pow cfg sessions dt inp i))).
Proof.
  induction sessions as [|s sessions IH]; intros i Hall; simpl; [auto|].
  pose proof Hall as Hall0.
  apply Forall_cons in Hall as [[Hne Hs] Hall].
  destruct (GameSession_UpdateState_inv std_pow cfg s dt (inp i) Hne Hs) as [Hmap Hinv].
  destruct (game_tick.GameSession_UpdateState std_pow cfg s dt (inp i))
    as [[s' retired] thrown].
  simpl in Hmap, Hinv. destruct thrown; simpl.
  - split; [congruence|]. apply Forall_cons. split; [rewrite Hmap; exact Hinv|].
    eapply Forall_impl; [exact Hall|]. simpl. tauto.
  - destruct (IH (S i) Hall) as [Hmaps Hrest].
    destruct (game_tick.update_sessions std_pow cfg sessions dt inp (S i))
      as [[rest' retired'] thrown'].
    simpl in *. split; [congruence|].
    apply Forall_cons. split; [rewrite Hmap; exact Hinv|exact Hrest].
Qed.

Lemma FindMap_maps g g' id : maps_ g' = maps_ g -> game.FindMap g' id = game.FindMap g id.
Proof. unfold game.FindMap. intros ->. reflexivity. Qed.

Lemma session_inv_maps g g' s : maps_ g' = maps_ g -> session_inv g s -> session_inv g' s.
Proof. unfold session_inv. intros Hm [H1 H2]. rewrite (FindMap_maps g g' _ Hm). auto. Qed.

Lemma game_UpdateState_inv std_pow g dt inp :
  (forall m, m ∈ maps_ g -> roads_ m <> []) ->
  NoDup (session_map_ids g) -> Forall (session_inv g) (sessions_ g) ->
  maps_ (fst (fst (game_tick.UpdateState std_pow g dt inp))) = maps_ g /\
  NoDup (session_map_ids (fst (fst (game_tick.UpdateState std_pow g dt inp)))) /\
  Forall (session_inv (fst (fst (game_tick.UpdateState std_pow g dt inp))))
    (sessions_ (fst (fst (game_tick.UpdateState std_pow g dt inp)))).
Proof.
  intros Hroads Hnd Hinv. unfold game_tick.UpdateState.
  assert (Hall : Forall (fun s => roads_ (map_ s) <> [] /\
                                  Forall (player_inv (map_ s)) (players_ s)) (sessions_ g)).
  { eapply Forall_impl; [exact Hinv|]. intros s [Hfind Hp]. split; [|exact Hp].
    apply GameProofs.FindMap_Some in Hfind as [_ Hin]. apply Hroads, Hin. }
  destruct (update_sessions_inv std_pow (config_ g) dt inp (sessions_ g) 0%nat Hall)
    as [Hmaps Hplayers].
  destruct (game_tick.update_sessions std_pow (config_ g) (sessions_ g) dt inp 0)
    as [[sessions' retired] thrown]. simpl in *.
  split; [reflexivity|]. split.
  - unfold session_map_ids in *. simpl.
    rewrite <- (List.map_map map_ map_id), Hmaps, List.map_map. exact Hnd.
  - rewrite Forall_forall in *. intros s' Hs'. split; [|apply Hplayers, Hs'].
    assert (Hin : map_ s' ∈ List.map map_ (sessions_ g)).
    { rewrite <- Hmaps. apply list_elem_of_In, in_map, list_elem_of_In, Hs'. }
    apply list_elem_of_In, in_map_iff in Hin. destruct Hin as (s & Hmap & Hs).
    apply list_elem_of_In, Hinv in Hs. destruct Hs as [Hfind _].
    rewrite Hmap in Hfind. exact Hfind.
Qed.

(** What [HandleJoinGame] does when it does not refuse the request. *)
Lemma HandleJoinGame_cases json_parse h req draw :
  (fst (HandleJoinGame json_parse h req draw) = h /\
   result (snd (HandleJoinGame json_parse h req draw)) <> ok) \/
  exists obj user_name map_id m g idx,
    is_json req = true /\
    json_parse (body req) ≫= json.as_object = Some obj /\
    json.at_ obj "userName" ≫= json.as_string = Some user_name /\
    json.at_ obj "mapId" ≫= json.as_string = Some map_id /\
    user_name <> ""%string /\
    game.FindMap (rh_game_ h) map_id = Some m /\
    GetOrCreateSession (rh_game_ h) map_id = Some (g, idx) /\
    HandleJoinGame json_parse h req draw =
      ({| rh_game_ :=
            update_session g idx
              (fun s => AddPlayer s
                 (Player_new (next_player_id_ h)
                    (SetPosition (Dog_new (user_name ++ "_" ++ map_id) user_name map_id)
                       (if randomize_spawn_points_ h
                        then GetRandomPosition m (spawn_draw draw)
                        else GetStartPosition m))
                    (GenerateToken (token_part1 draw) (token_part2 draw))
                    (map_bag_capacity_ m)));
          next_player_id_ := (next_player_id_ h + 1) mod size_max;
          randomize_spawn_points_ := randomize_spawn_points_ h;
          tick_listener_ := tick_listener_ h |},
       MakeJsonResponse req ok
         (json.object_
            [ ("authToken"%string,
               json.string_ (GenerateToken (token_part1 draw) (token_part2 draw)));
              ("playerId"%string,
               json.int64 (state_serializer.to_int64 (next_player_id_ h))) ])).
Proof.
  unfold HandleJoinGame.
  destruct (is_json req) eqn:Hjson; simpl negb; cbv iota;
    [|left; split; [reflexivity|discriminate]].
  destruct (json_parse (body req) ≫= json.as_object) as [obj|] eqn:Hobj;
    [|left; split; [reflexivity|discriminate]].
  destruct (negb (json.contains obj "userName") || negb (json.contains obj "mapId"));
    [left; split; [reflexivity|discriminate]|].
  destruct (json.at_ obj "userName" ≫= json.as_string) as [user_name|] eqn:Huser;
    [|left; split; [reflexivity|discriminate]].
  destruct (json.at_ obj "mapId" ≫= json.as_string) as [map_id|] eqn:Hmap;
    [|left; split; [reflexivity|discriminate]].
  destruct (String.eqb user_name "") eqn:Hname; [left; split; [reflexivity|discriminate]|].
  destruct (game.FindMap (rh_game_ h) map_id) as [m|] eqn:Hfind;
    [|left; split; [reflexivity|discriminate]].
  destruct (GetOrCreateSession (rh_game_ h) map_id) as [[g idx]|] eqn:Hsession;
    [|left; split; [reflexivity|discriminate]].
  right. exists obj, user_name, map_id, m, g, idx.
  apply String.eqb_neq in Hname. repeat split; try assumption; reflexivity.
Qed.

Lemma GetOrCreateSession_cases g id g' idx :
  GetOrCreateSession g id = Some (g', idx) ->
  (g' = g /\ exists s, sessions_ g !! idx = Some s /\ map_id (map_ s) = id) \/
  (exists m s, game.FindMap g id = Some m /\ find_session (sessions_ g) id = None /\
     map_ s = m /\ players_ s = [] /\ loots_ s = [] /\
     g' = set_sessions g (sessions_ g ++ [s]) /\ idx = length (sessions_ g)).
Proof.
  unfold GetOrCreateSession, FindSessionByMapId.
  destruct (find_session (sessions_ g) id) as [i|] eqn:Hfind.
  - intros [= <- <-]. left. split; [reflexivity|].
    apply GameProofs.find_session_Some, Hfind.
  - destruct (game.FindMap g id) as [m|]; [|discriminate].
    intros [= <- <-]. right. eexists m, _. split; [reflexivity|]. split; [reflexivity|].
    repeat split; destruct (loot_generator_config_ g); reflexivity.
Qed.


Lemma GetOrCreateSession_inv g id g' idx :
  GetOrCreateSession g id = Some (g', idx) ->
  NoDup (session_map_ids g) -> Forall (session_inv g) (sessions_ g) ->
  maps_ g' = maps_ g /\ NoDup (session_map_ids g') /\
  Forall (session_inv g') (sessions_ g') /\
  exists s, sessions_ g' !! idx = Some s /\ map_id (map_ s) = id.
Proof.
  intros Hget Hnd Hinv.
  destruct (GetOrCreateSession_cases g id g' idx Hget)
    as [[-> Hs]|(m & s & Hfind & Hnone & Hmap & Hplayers & _ & -> & ->)]; [auto|].
  destruct (GameProofs.FindMap_Some _ _ _ Hfind) as [Hid _].
  simpl. split; [reflexivity|]. split; [|split].
  - unfold session_map_ids in *. simpl. rewrite List.map_app. simpl.
    apply NoDup_app. split; [exact Hnd|]. split; [|apply NoDup_singleton].
    intros x Hx Hx'. apply list_elem_of_singleton in Hx'. subst x.
    apply list_elem_of_In, in_map_iff in Hx. destruct Hx as (s0 & Hs0 & Hin).
    apply (proj1 (GameProofs.find_session_None _ _) Hnone s0);
      [apply list_elem_of_In, Hin|]. congruence.
  - apply Forall_app. split.
    + eapply Forall_impl; [exact Hinv|]. intros s0. apply session_inv_maps. reflexivity.
    + apply Forall_singleton. split; [|rewrite Hplayers; constructor].
      rewrite (FindMap_maps g); [|reflexivity]. rewrite Hmap, Hid. exact Hfind.
  - exists s. split; [apply list_lookup_middle; reflexivity|congruence].
Qed.

Lemma session_map_ids_alter f idx sessions :
  (forall s, map_ (f s) = map_ s) ->
  List.map (fun s => map_id (map_ s)) (alter f idx sessions) =
  List.map (fun s => map_id (map_ s)) sessions.
Proof.
  intros Hf. revert idx. induction sessions as [|s sessions IH]; intros [|idx]; simpl;
    try reflexivity.
  - rewrite Hf. reflexivity.
  - f_equal. apply IH.
Qed.

Lemma update_session_inv g idx f :
  (forall s, map_ (f s) = map_ s) ->
  (forall s, sessions_ g !! idx = Some s -> session_inv g s ->
     Forall (player_inv (map_ s)) (players_ (f s))) ->
  NoDup (session_map_ids g) -> Forall (session_inv g) (sessions_ g) ->
  maps_ (update_session g idx f) = maps_ g /\
  NoDup (session_map_ids (update_session g idx f)) /\
  Forall (session_inv (update_session g idx f)) (sessions_ (update_session g idx f)).
Proof.
  intros Hmap Hf Hnd Hinv. unfold update_session. simpl. split; [reflexivity|]. split.
  - unfold session_map_ids in *. simpl. rewrite session_map_ids_alter; assumption.
  - apply Forall_alter.
    + eapply Forall_impl; [exact Hinv|]. intros s. apply session_inv_maps. reflexivity.
    + intros s Hs [Hfind _].
      assert (Hold : session_inv g s).
      { apply (proj1 (Forall_forall _ _) Hinv), list_elem_of_lookup. eauto. }
      split; [rewrite Hmap; exact Hfind|]. rewrite Hmap. apply Hf; assumption.
Qed.

Lemma new_player_inv h draw m id user_name token_value :
  maps_ok h -> uniform_int (spawn_draw draw) -> uniform_real (spawn_draw draw) ->
  game.FindMap (rh_game_ h) id = Some m ->
  valid_token_format token_value = true ->
  player_inv m
    (Player_new (next_player_id_ h)
       (SetPosition (Dog_new (user_name ++ "_" ++ id) user_name id)
          (if randomize_spawn_points_ h
           then GetRandomPosition m (spawn_draw draw)
           else GetStartPosition m))
       token_value (map_bag_capacity_ m)).
Proof.
  intros Hok Hint Hreal Hfind Htoken.
  destruct (GameProofs.FindMap_Some _ _ _ Hfind) as [Hid Hin].
  destruct (proj1 (Forall_forall _ _) Hok m Hin) as [Hne Hsamp].
  unfold player_inv. simpl. split; [|split; [congruence|split; [left; reflexivity|]]].
  - destruct (randomize_spawn_points_ h).
    + apply MapProofs.GetRandomPosition_on_road; auto.
    + apply MapProofs.GetStartPosition_on_road, Hne.
  - split; [unfold bag_ok, bag_size; simpl; lia|]. split; [reflexivity|exact Htoken].
Qed.

Lemma HandleJoinGame_inv json_parse h req draw :
  maps_ok h -> draw_ok draw -> handler_inv h ->
  maps_ (rh_game_ (fst (HandleJoinGame json_parse h req draw))) = maps_ (rh_game_ h) /\
  randomize_spawn_points_ (fst (HandleJoinGame json_parse h req draw)) =
    randomize_spawn_points_ h /\
  handler_inv (fst (HandleJoinGame json_parse h req draw)).
Proof.
  intros Hok (Hp1 & Hp2 & Hint & Hreal) [Hnd Hinv].
  destruct (HandleJoinGame_cases json_parse h req draw)
    as [[-> _]|(obj & user_name & id & m & g & idx & _ & _ & _ & _ & _ & Hfind & Hget & ->)].
  { split; [reflexivity|]. split; [reflexivity|]. split; assumption. }
  cbn [fst rh_game_ randomize_spawn_points_].
  destruct (GetOrCreateSession_inv _ _ _ _ Hget Hnd Hinv) as (Hmaps & Hnd' & Hinv' & s & Hs & Hid).
  match goal with |- context [update_session g idx ?f] =>
    destruct (update_session_inv g idx f) as (Hm & Hn & Hi); auto end.
  - intros s0 Hs0 [Hfind0 Hplayers]. cbn [AddPlayer set_players players_].
    apply Forall_app. split; [exact Hplayers|]. apply Forall_singleton.
    assert (Hsame : s0 = s) by congruence. subst s0.
    rewrite Hid, (FindMap_maps _ _ _ Hmaps), Hfind in Hfind0. injection Hfind0 as <-.
    apply new_player_inv; auto. apply TokenProofs.GenerateToken_valid; assumption.
  - split; [congruence|]. split; [reflexivity|]. split; assumption.
Qed.

(** What [HandlePlayerAction] does when it does not refuse the request. *)
Lemma HandlePlayerAction_cases json_parse h req :
  (fst (HandlePlayerAction json_parse h req) = h /\
   result (snd (HandlePlayerAction json_parse h req)) <> ok) \/
  exists token_str si pi s p m obj move_str dog',
    method req = post /\
    bearer_token req = inr token_str /\
    FindPlayerByToken (rh_game_ h) token_str = Some (si, pi) /\
    is_json req = true /\
    json_parse (body req) ≫= json.as_object = Some obj /\
    json.at_ obj "move" = Some (json.string_ move_str) /\
    sessions_ (rh_game_ h) !! si = Some s /\ players_ s !! pi = Some p /\
    game.FindMap (rh_game_ h) (dog_map_id (dog_ p)) = Some m /\
    apply_move (dog_speed_ m) (dog_ p) move_str = Some dog' /\
    HandlePlayerAction json_parse h req =
      (set_game h (update_player (rh_game_ h) si pi (fun p => set_dog p dog')),
       MakeJsonResponse req ok (json.object_ [])).
Proof.
  unfold HandlePlayerAction.
  destruct (method req) eqn:Hmethod; try (left; split; [reflexivity|discriminate]).
  destruct (bearer_token req) as [refused|token_str] eqn:Hbearer.
  { left. split; [reflexivity|]. unfold bearer_token in Hbearer.
    destruct (authorization req) as [auth|]; [|injection Hbearer as <-; discriminate].
    destruct ((String.length auth <? 7)%nat || negb (String.prefix "Bearer " auth));
      [injection Hbearer as <-; discriminate|].
    destruct (negb (valid_token_format _)); [injection Hbearer as <-|]; discriminate. }
  destruct (FindPlayerByToken (rh_game_ h) token_str) as [[si pi]|] eqn:Hfound;
    [|left; split; [reflexivity|discriminate]].
  destruct (is_json req) eqn:Hjson; simpl negb; cbv iota;
    [|left; split; [reflexivity|discriminate]].
  destruct (json_parse (body req) ≫= json.as_object) as [obj|] eqn:Hobj;
    [|left; split; [reflexivity|discriminate]].
  destruct (negb (json.contains obj "move")); [left; split; [reflexivity|discriminate]|].
  destruct (json.at_ obj "move") as [[| | | | |move_str| |]|] eqn:Hmove;
    try (left; split; [reflexivity|discriminate]).
  destruct (sessions_ (rh_game_ h) !! si) as [s|] eqn:Hs; simpl;
    [|left; split; [reflexivity|discriminate]].
  destruct (players_ s !! pi) as [p|] eqn:Hp; [|left; split; [reflexivity|discriminate]].
  destruct (game.FindMap (rh_game_ h) (dog_map_id (dog_ p))) as [m|] eqn:Hfind;
    [|left; split; [reflexivity|discriminate]].
  destruct (apply_move (dog_speed_ m) (dog_ p) _) as [dog'|] eqn:Hdog;
    [|left; split; [reflexivity|discriminate]].
  right. exists token_str, si, pi, s, p, m, obj, move_str, dog'.
  repeat split; try eassumption; reflexivity.
Qed.


Lemma apply_move_spec v dog move_str dog' :
  apply_move v dog move_str = Some dog' ->
  dog_id dog' = dog_id dog /\ dog_name dog' = dog_name dog /\
  dog_map_id dog' = dog_map_id dog /\ position_ dog' = position_ dog /\
  previous_position_ dog' = previous_position_ dog /\
  ((move_str = "L"%string /\ speed_ dog' = {| geom.vx := - v; geom.vy := 0 |} /\
    direction_ dog' = geom.WEST) \/
   (move_str = "R"%string /\ speed_ dog' = {| geom.vx := v; geom.vy := 0 |} /\
    direction_ dog' = geom.EAST) \/
   (move_str = "U"%string /\ speed_ dog' = {| geom.vx := 0; geom.vy := - v |} /\
    direction_ dog' = geom.NORTH) \/
   (move_str = "D"%string /\ speed_ dog' = {| geom.vx := 0; geom.vy := v |} /\
    direction_ dog' = geom.SOUTH) \/
   (move_str = ""%string /\ speed_ dog' = {| geom.vx := 0; geom.vy := 0 |} /\
    direction_ dog' = direction_ dog)).
Proof.
  unfold apply_move.
  destruct (String.eqb move_str "L") eqn:HL;
    [apply String.eqb_eq in HL; intros [= <-]; simpl; tauto|].
  destruct (String.eqb move_str "R") eqn:HR;
    [apply String.eqb_eq in HR; intros [= <-]; simpl; tauto|].
  destruct (String.eqb move_str "U") eqn:HU;
    [apply String.eqb_eq in HU; intros [= <-]; simpl; tauto|].
  destruct (String.eqb move_str "D") eqn:HD;
    [apply String.eqb_eq in HD; intros [= <-]; simpl; tauto|].
  destruct (String.eqb move_str "") eqn:HS; [|discriminate].
  apply String.eqb_eq in HS. intros [= <-]. simpl. tauto.
Qed.

Lemma apply_move_axis v dog move_str dog' :
  apply_move v dog move_str = Some dog' -> axis_speed v (speed_ dog').
Proof.
  intros H. apply apply_move_spec in H as (_ & _ & _ & _ & _ & H). unfold axis_speed.
  destruct H as [(_ & -> & _)|[(_ & -> & _)|[(_ & -> & _)|[(_ & -> & _)|(_ & -> & _)]]]];
    tauto.
Qed.

Lemma HandlePlayerAction_inv json_parse h req :
  handler_inv h ->
  maps_ (rh_game_ (fst (HandlePlayerAction json_parse h req))) = maps_ (rh_game_ h) /\
  randomize_spawn_points_ (fst (HandlePlayerAction json_parse h req)) =
    randomize_spawn_points_ h /\
  handler_inv (fst (HandlePlayerAction json_parse h req)).
Proof.
  intros [Hnd Hinv].
  destruct (HandlePlayerAction_cases json_parse h req)
    as [[-> _]|(token_str & si & pi & s & p & m & obj & move_str & dog' & _ & _ & _ & _ & _ &
                _ & Hs & Hp & Hfind & Hmove & ->)].
  { split; [reflexivity|]. split; [reflexivity|]. split; assumption. }
  cbn [fst set_game rh_game_ randomize_spawn_points_]. unfold update_player.
  match goal with |- context [update_session ?g si ?f] =>
    destruct (update_session_inv g si f) as (Hm & Hn & Hi); auto end.
  - intros s0 Hs0 [Hfind0 Hplayers]. cbn [set_players players_].
    assert (Hsame : s0 = s) by congruence. subst s0.
    apply Forall_alter; [exact Hplayers|]. intros p0 Hp0 Hinv0.
    assert (Hsame : p0 = p) by congruence. subst p0.
    destruct Hinv0 as (H1 & H2 & H3 & H4 & H5 & H6).
    rewrite H2, Hfind0 in Hfind. injection Hfind as <-.
    destruct (apply_move_spec _ _ _ _ Hmove) as (_ & _ & Hid & Hpos & _).
    unfold player_inv. cbn [set_dog dog_ token_ bag_capacity_].
    rewrite Hpos, Hid. split; [exact H1|]. split; [exact H2|].
    split; [eapply apply_move_axis, Hmove|]. tauto.
  - split; [exact Hm|]. split; [reflexivity|]. split; assumption.
Qed.

(** What [HandleGameTick] does: it refuses the request before the game is
    touched, or it runs the tick of the game and answers by what the tick
    did: with the answer of the [catch], the listener not told, when the
    tick threw, and with 200 otherwise. *)
Lemma HandleGameTick_cases json_parse std_pow h req inp writable :
  (HandleGameTick json_parse std_pow h req inp writable =
     (h, snd (fst (HandleGameTick json_parse std_pow h req inp writable)), no_effects) /\
   result (snd (fst (HandleGameTick json_parse std_pow h req inp writable))) <> ok) \/
  exists obj time_delta_ms,
    method req = post /\ is_json req = true /\
    json_parse (body req) ≫= json.as_object = Some obj /\
    json.at_ obj "timeDelta" = Some (json.int64 time_delta_ms) /\
    (0 <= time_delta_ms)%Z /\
    let ticked := game_tick.UpdateState std_pow (rh_game_ h)
                    (inject_Z time_delta_ms / 1000) inp in
    let listened := option_map (fun l => OnTick l time_delta_ms writable)
                      (tick_listener_ h) in
    (snd ticked = true /\
     HandleGameTick json_parse std_pow h req inp writable =
       (set_game h (fst (fst ticked)),
        MakeErrorResponse bad_request "Failed to parse tick request JSON" "invalidArgument",
        {| retired := snd (fst ticked); written_state := None |})) \/
    (snd ticked = false /\
     HandleGameTick json_parse std_pow h req inp writable =
       ({| rh_game_ := fst (fst ticked); next_player_id_ := next_player_id_ h;
           randomize_spawn_points_ := randomize_spawn_points_ h;
           tick_listener_ := option_map fst listened |},
        MakeJsonResponse req ok (json.object_ []),
        {| retired := snd (fst ticked);
           written_state :=
             match listened with
             | Some (_, true) => Some (state_serializer.SerializeGame (fst (fst ticked)))
             | _ => None
             end |})).
Proof.
  unfold HandleGameTick.
  destruct (method req) eqn:Hmethod; try (left; split; [reflexivity|discriminate]).
  destruct (is_json req) eqn:Hjson; simpl negb; cbv iota;
    [|left; split; [reflexivity|discriminate]].
  destruct (json_parse (body req) ≫= json.as_object) as [obj|] eqn:Hobj;
    [|left; split; [reflexivity|discriminate]].
  destruct (negb (json.contains obj "timeDelta"));
    [left; split; [reflexivity|discriminate]|].
  destruct (json.at_ obj "timeDelta") as [[| |ms| | | | |]|] eqn:Hdelta;
    try (left; split; [reflexivity|discriminate]).
  destruct (ms <? 0)%Z eqn:Hneg; [left; split; [reflexivity|discriminate]|].
  right. exists obj, ms. apply Z.ltb_ge in Hneg. repeat split; try assumption.
  cbv zeta.
  destruct (game_tick.UpdateState std_pow (rh_game_ h) (inject_Z ms / 1000) inp)
    as [[g retired_players] thrown].
  destruct thrown; [left; split; reflexivity|]. right. split; [reflexivity|].
  destruct (tick_listener_ h) as [l|]; simpl; [|reflexivity].
  destruct (OnTick l ms writable) as [l' saved]. simpl. destruct saved; reflexivity.
Qed.

Lemma HandleGameTick_inv json_parse std_pow h req inp writable :
  maps_ok h -> handler_inv h ->
  maps_ (rh_game_ (fst (fst (HandleGameTick json_parse std_pow h req inp writable)))) =
    maps_ (rh_game_ h) /\
  randomize_spawn_points_ (fst (fst (HandleGameTick json_parse std_pow h req inp writable))) =
    randomize_spawn_points_ h /\
  handler_inv (fst (fst (HandleGameTick json_parse std_pow h req inp writable))).
Proof.
  intros Hok [Hnd Hinv].
  destruct (HandleGameTick_cases json_parse std_pow h req inp writable)
    as [[-> _]|(obj & ms & _ & _ & _ & _ & _ & H)].
  { split; [reflexivity|]. split; [reflexivity|]. split; assumption. }
  cbv zeta in H.
  destruct (game_UpdateState_inv std_pow (rh_game_ h) (inject_Z ms / 1000) inp)
    as (Hm & Hn & Hi); auto.
  { intros m Hin. apply (proj1 (Forall_forall _ _) Hok m Hin). }
  destruct H as [[_ H]|[_ H]]; rewrite H; cbn [fst set_game rh_game_ randomize_spawn_points_];
    (split; [exact Hm|]); (split; [reflexivity|]); split; assumption.
Qed.

Lemma reachable_inv json_parse std_pow start h :
  sessions_ (rh_game_ start) = [] -> maps_ok start ->
  reachable json_parse std_pow start h ->
  maps_ (rh_game_ h) = maps_ (rh_game_ start) /\
  randomize_spawn_points_ h = randomize_spawn_points_ start /\
  handler_inv h.
Proof.
  intros Hempty Hok Hreach.
  induction Hreach as [|h req draw _ (Hm & Hr & Hinv) Hdraw|h req _ (Hm & Hr & Hinv)
                       |h req inp writable _ (Hm & Hr & Hinv)].
  - split; [reflexivity|]. split; [reflexivity|].
    unfold handler_inv, session_map_ids. rewrite Hempty. split; constructor.
  - assert (Hok' : maps_ok h) by (unfold maps_ok in *; rewrite Hm, Hr; exact Hok).
    destruct (HandleJoinGame_inv json_parse h req draw Hok' Hdraw Hinv) as (Hm' & Hr' & Hinv').
    split; [congruence|]. split; [congruence|exact Hinv'].
  - destruct (HandlePlayerAction_inv json_parse h req Hinv) as (Hm' & Hr' & Hinv').
    split; [congruence|]. split; [congruence|exact Hinv'].
  - assert (Hok' : maps_ok h) by (unfold maps_ok in *; rewrite Hm, Hr; exact Hok).
    destruct (HandleGameTick_inv json_parse std_pow h req inp writable Hok' Hinv)
      as (Hm' & Hr' & Hinv').
    split; [congruence|]. split; [congruence|exact Hinv'].
Qed.


(** A tick throws in no session when the catalogue of every session can be
    read. *)
Lemma update_sessions_readable std_pow cfg dt inp sessions : forall i,
  Forall (fun s => catalogue_readable (map_ s)) sessions ->
  snd (game_tick.update_sessions std_pow cfg sessions dt inp i) = false.
Proof.
  induction sessions as [|s sessions IH]; intros i Hall; simpl; [reflexivity|].
  apply Forall_cons in Hall as [Hs Hall].
  pose proof (GameSession_UpdateState_readable std_pow cfg s dt (inp i) Hs) as Hfalse.
  destruct (game_tick.GameSession_UpdateState std_pow cfg s dt (inp i))
    as [[s' retired] thrown].
  simpl in Hfalse. subst thrown.
  specialize (IH (S i) Hall).
  destruct (game_tick.update_sessions std_pow cfg sessions dt inp (S i))
    as [[rest' retired'] thrown'].
  exact IH.
Qed.

(** A tick that is refused after the game was updated: the catalogue of the
    map has an entry that the read of the tick throws on, so the request is
    answered 400 by the [catch], and the play time of both players of the
    session has advanced by the second of the request. *)
Lemma refused_tick_after_update :
  let served := HandleGameTick parse_tick pow_one unreadable_handler tick_request
                  (fun _ => random_one) true in
  result (snd (fst served)) = bad_request /\
  snd served = no_effects /\
  length (all_players (rh_game_ (fst (fst served)))) = 2%nat /\
  Forall (fun p => play_time_ p == 0) (all_players (rh_game_ unreadable_handler)) /\
  Forall (fun p => play_time_ p == 1) (all_players (rh_game_ (fst (fst served)))).
Proof.
  cbv zeta. split; [vm_compute; reflexivity|]. split; [vm_compute; reflexivity|].
  split; [vm_compute; reflexivity|].
  split; repeat (apply Forall_cons; split; [vm_compute; reflexivity|]); apply Forall_nil_2.
Qed.

(** X23.  What a request that one of the three handlers refuses (any answer
    other than 200) changes.  A refused join and a refused move change
    nothing.  A refused tick writes no state and changes neither the counter
    of player ids, nor the listener, nor the maps and the configuration of
    the game; the sessions it may have advanced, since the tick of the game
    runs inside the [try] and throws on an entry of the loot catalogue it
    cannot read.  Where the catalogue of every session can be read, a
    refused tick changes nothing and retires no player. *)
Theorem refused_request_effects (json_parse : string -> option json.value)
    (std_pow : Q -> Q -> Q) (h : RequestHandler) (req : Request) (draw : JoinDraw)
    (inp : nat -> TickInput) (writable : bool) :
  (result (snd (HandleJoinGame json_parse h req draw)) <> ok ->
   fst (HandleJoinGame json_parse h req draw) = h) /\
  (result (snd (HandlePlayerAction json_parse h req)) <> ok ->
   fst (HandlePlayerAction json_parse h req) = h) /\
  (result (snd (fst (HandleGameTick json_parse std_pow h req inp writable))) <> ok ->
   let served := HandleGameTick json_parse std_pow h req inp writable in
   next_player_id_ (fst (fst served)) = next_player_id_ h /\
   randomize_spawn_points_ (fst (fst served)) = randomize_spawn_points_ h /\
   tick_listener_ (fst (fst served)) = tick_listener_ h /\
   maps_ (rh_game_ (fst (fst served))) = maps_ (rh_game_ h) /\
   config_ (rh_game_ (fst (fst served))) = config_ (rh_game_ h) /\
   written_state (snd served) = None /\
   (Forall (fun s => catalogue_readable (map_ s)) (sessions_ (rh_game_ h)) ->
    fst (fst served) = h /\ snd served = no_effects)).
Proof.
  split; [|split].
  - intros Hrefused.
    destruct (HandleJoinGame_cases json_parse h req draw)
      as [[Hsame _]|(obj & user_name & id & m & g & idx & _ & _ & _ & _ & _ & _ & _ & Heq)];
      [exact Hsame|].
    rewrite Heq in Hrefused. exfalso. apply Hrefused. reflexivity.
  - intros Hrefused.
    destruct (HandlePlayerAction_cases json_parse h req)
      as [[Hsame _]|(token_str & si & pi & s & p & m & obj & move_str & dog' & _ & _ & _ & _ &
                     _ & _ & _ & _ & _ & _ & Heq)]; [exact Hsame|].
    rewrite Heq in Hrefused. exfalso. apply Hrefused. reflexivity.
  - intros Hrefused. cbv zeta.
    destruct (HandleGameTick_cases json_parse std_pow h req inp writable)
      as [[Hsame _]|(obj & ms & _ & _ & _ & _ & _ & Heq)].
    + rewrite Hsame. cbn [fst snd]. repeat split; reflexivity.
    + cbv zeta in Heq. destruct Heq as [[Hthrown Heq]|[_ Heq]].
      * rewrite Heq. cbn [fst snd set_game next_player_id_ randomize_spawn_points_
                          tick_listener_ rh_game_ written_state].
        unfold game_tick.UpdateState in *.
        destruct (game_tick.update_sessions std_pow (config_ (rh_game_ h))
                    (sessions_ (rh_game_ h)) (inject_Z ms / 1000) inp 0)
          as [[sessions' retired_players] thrown] eqn:Hsessions.
        cbn [fst snd set_sessions maps_ config_] in *.
        repeat (split; [reflexivity|]).
        intros Hread. exfalso.
        pose proof (update_sessions_readable std_pow (config_ (rh_game_ h))
                      (inject_Z ms / 1000) inp (sessions_ (rh_game_ h)) 0%nat Hread) as Hfalse.
        rewrite Hsessions in Hfalse. simpl in Hfalse. congruence.
      * rewrite Heq in Hrefused. exfalso. apply Hrefused. reflexivity.
Qed.

Lemma all_players_alter f idx sessions s player :
  sessions !! idx = Some s -> players_ (f s) = players_ s ++ [player] ->
  length (flat_map players_ (alter f idx sessions)) =
  S (length (flat_map players_ sessions)).
Proof.
  revert idx. induction sessions as [|s0 sessions IH]; intros [|idx] Hs Hf;
    try discriminate; simpl in *.
  - injection Hs as ->. rewrite Hf, !length_app. simpl. lia.
  - pose proof (IH idx Hs Hf) as E. rewrite !length_app.
    change (length (flat_map players_ (alter f idx sessions)) =
            S (length (flat_map players_ sessions))) in E.
    match goal with |- (_ + ?a = S (_ + _))%nat =>
      change a with (length (flat_map players_ (alter f idx sessions))) end.
    rewrite E. lia.
Qed.

Lemma GetOrCreateSession_players g id g' idx :
  GetOrCreateSession g id = Some (g', idx) ->
  length (all_players g') = length (all_players g).
Proof.
  intros Hget.
  destruct (GetOrCreateSession_cases g id g' idx Hget)
    as [[-> _]|(m & s & _ & _ & _ & Hplayers & _ & -> & _)]; [reflexivity|].
  unfold all_players. simpl. rewrite flat_map_app. simpl.
  rewrite Hplayers, !app_nil_r. reflexivity.
Qed.

(** X24.  A join that is answered with 200 adds exactly one player and
    changes nothing else.  The body names a user (not empty) and a map of
    the game; the new player stands last in the session of that map (made
    on the spot when there was none), holds the player id that was next and
    a fresh token of the accepted format, both returned in the response,
    and has a dog that stands still on a road of the map with an empty bag
    of the capacity of the map; all that the game held is still where it
    was, and the counter of player ids has advanced by one (modulo
    [2^64]). *)
Theorem HandleJoinGame_adds_one_player (json_parse : string -> option json.value)
    (h : RequestHandler) (req : Request) (draw : JoinDraw) :
  maps_ok h -> draw_ok draw ->
  result (snd (HandleJoinGame json_parse h req draw)) = ok ->
  exists obj user_name id m idx s position,
    let h' := fst (HandleJoinGame json_parse h req draw) in
    let token_value := GenerateToken (token_part1 draw) (token_part2 draw) in
    let player :=
      Player_new (next_player_id_ h)
        (SetPosition (Dog_new (user_name ++ "_" ++ id) user_name id) position)
        token_value (map_bag_capacity_ m) in
    json_parse (body req) ≫= json.as_object = Some obj /\
    json.at_ obj "userName" ≫= json.as_string = Some user_name /\
    json.at_ obj "mapId" ≫= json.as_string = Some id /\
    user_name <> ""%string /\
    game.FindMap (rh_game_ h) id = Some m /\
    on_roads m position /\
    valid_token_format token_value = true /\
    game_extends (rh_game_ h) (rh_game_ h') /\
    length (all_players (rh_game_ h')) = S (length (all_players (rh_game_ h))) /\
    sessions_ (rh_game_ h') !! idx = Some s /\
    map_id (map_ s) = id /\
    last (players_ s) = Some player /\
    next_player_id_ h' = ((next_player_id_ h + 1) mod 2 ^ 64)%N /\
    snd (HandleJoinGame json_parse h req draw) =
      MakeJsonResponse req ok
        (json.object_
           [ ("authToken"%string, json.string_ token_value);
             ("playerId"%string,
              json.int64 (state_serializer.to_int64 (next_player_id_ h))) ]).
Proof.
  intros Hok (Hp1 & Hp2 & Hint & Hreal) Hresult.
  destruct (HandleJoinGame_cases json_parse h req draw)
    as [[_ Hrefused]|(obj & user_name & id & m & g & idx & _ & Hobj & Huser & Hmap & Hname &
                      Hfind & Hget & Heq)]; [contradiction|].
  assert (Htoken : valid_token_format (GenerateToken (token_part1 draw) (token_part2 draw))
                   = true) by (apply TokenProofs.GenerateToken_valid; assumption).
  destruct (new_player_inv h draw m id user_name _ Hok Hint Hreal Hfind Htoken)
    as (Hroad & _).
  cbn [Player_new dog_ SetPosition position_] in Hroad.
  assert (Hsession : exists s0, sessions_ g !! idx = Some s0 /\ map_id (map_ s0) = id).
  { destruct (GetOrCreateSession_cases _ _ _ _ Hget)
      as [[-> Hs]|(m0 & s0 & Hfind0 & _ & Hm0 & _ & _ & -> & ->)]; [exact Hs|].
    exists s0. split; [apply list_lookup_middle; reflexivity|].
    destruct (GameProofs.FindMap_Some _ _ _ Hfind0) as [Hid _]. congruence. }
  destruct Hsession as (s0 & Hs0 & Hid).
  rewrite Heq. cbn [fst snd rh_game_ next_player_id_].
  eexists obj, user_name, id, m, idx, _, _. cbv zeta.
  split; [exact Hobj|]. split; [exact Huser|]. split; [exact Hmap|].
  split; [exact Hname|]. split; [exact Hfind|]. split; [exact Hroad|].
  split; [exact Htoken|]. split.
  { eapply SnapshotProofs.game_extends_trans;
      [eapply SnapshotProofs.GetOrCreateSession_extends, Hget|].
    apply SnapshotProofs.update_session_extends. intros s1.
    unfold session_extends, AddPlayer. simpl. repeat split; try reflexivity.
    apply prefix_app_r. reflexivity. }
  split.
  { unfold all_players, update_session. cbn [sessions_ set_sessions].
    match goal with |- context [alter ?f idx (sessions_ g)] =>
      rewrite (all_players_alter f idx (sessions_ g) s0 _ Hs0
                 (eq_refl : players_ (f s0) = players_ s0 ++ [_])) end.
    f_equal. apply (GetOrCreateSession_players _ _ _ _ Hget). }
  split.
  { unfold update_session. cbn [sessions_ set_sessions].
    rewrite list_lookup_alter_eq, Hs0. reflexivity. }
  split; [exact Hid|]. split; [apply last_snoc|]. split; reflexivity.
Qed.


Lemma HandleJoinGame_adds_one_player_witness :
  exists obj user_name id m idx s position,
    let h' := fst (HandleJoinGame parse_stand_in fresh_handler join_request first_draw) in
    let token_value := GenerateToken (token_part1 first_draw) (token_part2 first_draw) in
    let player :=
      Player_new (next_player_id_ fresh_handler)
        (SetPosition (Dog_new (user_name ++ "_" ++ id) user_name id) position)
        token_value (map_bag_capacity_ m) in
    parse_stand_in (body join_request) ≫= json.as_object = Some obj /\
    json.at_ obj "userName" ≫= json.as_string = Some user_name /\
    json.at_ obj "mapId" ≫= json.as_string = Some id /\
    user_name <> ""%string /\
    game.FindMap (rh_game_ fresh_handler) id = Some m /\
    on_roads m position /\
    valid_token_format token_value = true /\
    game_extends (rh_game_ fresh_handler) (rh_game_ h') /\
    length (all_players (rh_game_ h')) = S (length (all_players (rh_game_ fresh_handler))) /\
    sessions_ (rh_game_ h') !! idx = Some s /\
    map_id (map_ s) = id /\
    last (players_ s) = Some player /\
    next_player_id_ h' = ((next_player_id_ fresh_handler + 1) mod 2 ^ 64)%N /\
    snd (HandleJoinGame parse_stand_in fresh_handler join_request first_draw) =
      MakeJsonResponse join_request ok
        (json.object_
           [ ("authToken"%string, json.string_ token_value);
             ("playerId"%string,
              json.int64 (state_serializer.to_int64 (next_player_id_ fresh_handler))) ]).
Proof.
  apply (HandleJoinGame_adds_one_player parse_stand_in fresh_handler join_request first_draw).
  - apply Forall_singleton. split; [discriminate|]. intros _.
    apply Forall_singleton. vm_compute. right. discriminate.
  - split; [reflexivity|]. split; [reflexivity|]. split.
    + intros a b Hab. simpl. lia.
    + intros a b Hab. simpl. split; [apply Qle_refl|exact Hab].
  - reflexivity.
Defined.

Lemma substring_all s : String.substring 0 (String.length s) s = s.
Proof. induction s as [|c s IH]; simpl; [reflexivity|]. rewrite IH. reflexivity. Qed.

Lemma prefix_split p : forall s,
  String.prefix p s = true ->
  s = (p ++ String.substring (String.length p) (String.length s - String.length p) s)%string.
Proof.
  induction p as [|a p IH]; intros s Hp; simpl.
  - rewrite Nat.sub_0_r, substring_all. reflexivity.
  - destruct s as [|b s]; simpl in Hp; [discriminate|].
    destruct (Ascii.ascii_dec a b) as [->|]; [|discriminate].
    change (String b s =
            String b (p ++ String.substring (String.length p)
                             (String.length s - String.length p) s)%string).
    f_equal. apply IH, Hp.
Qed.

Lemma bearer_token_inr req token_str :
  bearer_token req = inr token_str ->
  authorization req = Some ("Bearer " ++ token_str)%string /\
  valid_token_format token_str = true.
Proof.
  unfold bearer_token. destruct (authorization req) as [auth|]; [|discriminate].
  destruct (String.length auth <? 7)%nat; simpl; [discriminate|].
  destruct (String.prefix "Bearer " auth) eqn:Hprefix; simpl; [|discriminate].
  destruct (valid_token_format _) eqn:Hvalid; simpl; [|discriminate].
  intros [= <-]. split; [|exact Hvalid].
  f_equal. apply (prefix_split "Bearer " auth Hprefix).
Qed.

Lemma alter_as_insert {A} (f : A -> A) (l : list A) (i : nat) (x : A) :
  l !! i = Some x -> alter f i l = <[i := f x]> l.
Proof.
  revert i. induction l as [|a l IH]; intros [|i] Hx; try discriminate; simpl in *.
  - injection Hx as ->. reflexivity.
  - f_equal. apply IH, Hx.
Qed.

(** X25.  An action that is answered with 200 steers exactly one dog.  The
    request carries [Bearer] and a token of the accepted format, which the
    first player holding it owns, and a move that is one of L, R, U, D and
    the empty string.  The speed of the dog of that player becomes the dog
    speed of its map along the axis of the move (zero for the empty
    string), its direction the one of the move (kept for the empty string);
    the position of the dog, all else of the player, and every other
    player, session and member of the handler stay as they were. *)
Theorem HandlePlayerAction_steers_one_dog (json_parse : string -> option json.value)
    (h : RequestHandler) (req : Request) :
  result (snd (HandlePlayerAction json_parse h req)) = ok ->
  exists token_str si pi s p m obj move_str dog',
    authorization req = Some ("Bearer " ++ token_str)%string /\
    valid_token_format token_str = true /\
    FindPlayerByToken (rh_game_ h) token_str = Some (si, pi) /\
    sessions_ (rh_game_ h) !! si = Some s /\ players_ s !! pi = Some p /\
    token_ p = token_str /\
    json_parse (body req) ≫= json.as_object = Some obj /\
    json.at_ obj "move" = Some (json.string_ move_str) /\
    game.FindMap (rh_game_ h) (dog_map_id (dog_ p)) = Some m /\
    dog_id dog' = dog_id (dog_ p) /\ dog_name dog' = dog_name (dog_ p) /\
    dog_map_id dog' = dog_map_id (dog_ p) /\ position_ dog' = position_ (dog_ p) /\
    previous_position_ dog' = previous_position_ (dog_ p) /\
    ((move_str = "L"%string /\
      speed_ dog' = {| geom.vx := - dog_speed_ m; geom.vy := 0 |} /\
      direction_ dog' = geom.WEST) \/
     (move_str = "R"%string /\
      speed_ dog' = {| geom.vx := dog_speed_ m; geom.vy := 0 |} /\
      direction_ dog' = geom.EAST) \/
     (move_str = "U"%string /\
      speed_ dog' = {| geom.vx := 0; geom.vy := - dog_speed_ m |} /\
      direction_ dog' = geom.NORTH) \/
     (move_str = "D"%string /\
      speed_ dog' = {| geom.vx := 0; geom.vy := dog_speed_ m |} /\
      direction_ dog' = geom.SOUTH) \/
     (move_str = ""%string /\
      speed_ dog' = {| geom.vx := 0; geom.vy := 0 |} /\
      direction_ dog' = direction_ (dog_ p))) /\
    fst (HandlePlayerAction json_parse h req) =
      set_game h
        (set_sessions (rh_game_ h)
           (<[si := set_players s (<[pi := set_dog p dog']> (players_ s))]>
              (sessions_ (rh_game_ h)))).
Proof.
  intros Hresult.
  destruct (HandlePlayerAction_cases json_parse h req)
    as [[_ Hrefused]|(token_str & si & pi & s & p & m & obj & move_str & dog' & _ & Hbearer &
                      Hfound & _ & Hobj & Hmove & Hs & Hp & Hfind & Hdog & Heq)];
    [contradiction|].
  destruct (bearer_token_inr _ _ Hbearer) as [Hauth Hvalid].
  destruct (GameProofs.find_player_in_Some _ _ _ _ Hfound)
    as (s1 & p1 & Hs1 & Hp1 & Htoken & _).
  assert (Hsame : s1 = s) by congruence. subst s1.
  assert (Hsame : p1 = p) by congruence. subst p1.
  destruct (apply_move_spec _ _ _ _ Hdog) as (H1 & H2 & H3 & H4 & H5 & H6).
  exists token_str, si, pi, s, p, m, obj, move_str, dog'.
  repeat (split; [assumption|]).
  rewrite Heq. cbn [fst]. unfold update_player, update_session.
  rewrite (alter_as_insert _ _ _ _ Hs). cbn beta.
  rewrite (alter_as_insert _ _ _ _ Hp). reflexivity.
Qed.


Lemma HandlePlayerAction_steers_one_dog_witness :
  exists token_str si pi s p m obj move_str dog',
    authorization move_request = Some ("Bearer " ++ token_str)%string /\
    valid_token_format token_str = true /\
    FindPlayerByToken (rh_game_ joined_handler) token_str = Some (si, pi) /\
    sessions_ (rh_game_ joined_handler) !! si = Some s /\ players_ s !! pi = Some p /\
    token_ p = token_str /\
    parse_stand_in (body move_request) ≫= json.as_object = Some obj /\
    json.at_ obj "move" = Some (json.string_ move_str) /\
    game.FindMap (rh_game_ joined_handler) (dog_map_id (dog_ p)) = Some m /\
    dog_id dog' = dog_id (dog_ p) /\ dog_name dog' = dog_name (dog_ p) /\
    dog_map_id dog' = dog_map_id (dog_ p) /\ position_ dog' = position_ (dog_ p) /\
    previous_position_ dog' = previous_position_ (dog_ p) /\
    ((move_str = "L"%string /\
      speed_ dog' = {| geom.vx := - dog_speed_ m; geom.vy := 0 |} /\
      direction_ dog' = geom.WEST) \/
     (move_str = "R"%string /\
      speed_ dog' = {| geom.vx := dog_speed_ m; geom.vy := 0 |} /\
      direction_ dog' = geom.EAST) \/
     (move_str = "U"%string /\
      speed_ dog' = {| geom.vx := 0; geom.vy := - dog_speed_ m |} /\
      direction_ dog' = geom.NORTH) \/
     (move_str = "D"%string /\
      speed_ dog' = {| geom.vx := 0; geom.vy := dog_speed_ m |} /\
      direction_ dog' = geom.SOUTH) \/
     (move_str = ""%string /\
      speed_ dog' = {| geom.vx := 0; geom.vy := 0 |} /\
      direction_ dog' = direction_ (dog_ p))) /\
    fst (HandlePlayerAction parse_stand_in joined_handler move_request) =
      set_game joined_handler
        (set_sessions (rh_game_ joined_handler)
           (<[si := set_players s (<[pi := set_dog p dog']> (players_ s))]>
              (sessions_ (rh_game_ joined_handler)))).
Proof.
  apply (HandlePlayerAction_steers_one_dog parse_stand_in joined_handler move_request).
  vm_compute. reflexivity.
Defined.

(** X26.  Whatever requests to join, to move and to tick the handler is
    given, starting from a game without sessions whose maps all have a road
    (and, when dogs spawn at random, roads that can be sampled), and
    whatever the random engines deliver within the contracts of their
    distributions: the maps stay as they are, no two sessions share a map,
    every session holds the map the game finds under its id, and every
    player of every session keeps to [player_inv]: the dog stands on a
    road of the map of the session and carries its id, its speed is zero or
    the dog speed of the map along one axis, the bag has the capacity of
    the map and holds no more, and the token has the accepted format. *)
Theorem served_game_stays_consistent (json_parse : string -> option json.value)
    (std_pow : Q -> Q -> Q) (start h : RequestHandler) :
  sessions_ (rh_game_ start) = [] ->
  maps_ok start ->
  reachable json_parse std_pow start h ->
  maps_ (rh_game_ h) = maps_ (rh_game_ start) /\
  NoDup (session_map_ids (rh_game_ h)) /\
  Forall (session_inv (rh_game_ h)) (sessions_ (rh_game_ h)).
Proof.
  intros Hempty Hok Hreach.
  destruct (reachable_inv json_parse std_pow start h Hempty Hok Hreach)
    as (Hmaps & _ & Hnd & Hinv).
  auto.
Qed.

Lemma served_game_stays_consistent_witness :
  maps_ (rh_game_ (fst (HandlePlayerAction parse_stand_in joined_handler move_request))) =
    maps_ (rh_game_ fresh_handler) /\
  NoDup (session_map_ids
           (rh_game_ (fst (HandlePlayerAction parse_stand_in joined_handler move_request)))) /\
  Forall (session_inv
            (rh_game_ (fst (HandlePlayerAction parse_stand_in joined_handler move_request))))
    (sessions_
       (rh_game_ (fst (HandlePlayerAction parse_stand_in joined_handler move_request)))).
Proof.
  apply (served_game_stays_consistent parse_stand_in pow_one fresh_handler).
  - reflexivity.
  - apply Forall_singleton. split; [discriminate|]. intros _.
    apply Forall_singleton. vm_compute. right. discriminate.
  - apply reach_action. apply reach_join; [apply reach_start|].
    split; [reflexivity|]. split; [reflexivity|]. split.
    + intros a b Hab. simpl. lia.
    + intros a b Hab. simpl. split; [apply Qle_refl|exact Hab].
Defined.


(** *** The requests that read the game *)

Lemma find_session_unique sessions : forall id si s,
  NoDup (List.map (fun s => map_id (map_ s)) sessions) ->
  sessions !! si = Some s -> map_id (map_ s) = id ->
  find_session sessions id = Some si.
Proof.
  induction sessions as [|s0 sessions IH]; intros id si s Hnd Hs Hid; [discriminate|].
  simpl in Hnd. apply NoDup_cons in Hnd as [Hnotin Hnd]. simpl.
  destruct si as [|si]; simpl in Hs.
  - injection Hs as ->. rewrite (proj2 (String.eqb_eq _ _) Hid). reflexivity.
  - destruct (String.eqb (map_id (map_ s0)) id) eqn:Heq.
    + exfalso. apply Hnotin. apply String.eqb_eq in Heq. rewrite Heq, <- Hid.
      apply list_elem_of_In, (in_map (fun s => map_id (map_ s))), list_elem_of_In,
        list_elem_of_lookup. eauto.
    + rewrite (IH id si s Hnd Hs Hid). reflexivity.
Qed.

Lemma session_of_token_own h token_str si pi s :
  handler_inv h ->
  FindPlayerByToken (rh_game_ h) token_str = Some (si, pi) ->
  sessions_ (rh_game_ h) !! si = Some s ->
  session_of_token (rh_game_ h) token_str = inr s.
Proof.
  intros [Hnd Hinv] Hfound Hs. unfold session_of_token. rewrite Hfound.
  destruct (GameProofs.find_player_in_Some _ _ _ _ Hfound) as (s1 & p & Hs1 & Hp & _).
  assert (Hsame : s1 = s) by congruence. subst s1.
  rewrite Hs. simpl. rewrite Hp.
  assert (Hsession : session_inv (rh_game_ h) s).
  { apply (proj1 (Forall_forall _ _) Hinv), list_elem_of_lookup. eauto. }
  destruct Hsession as [_ Hplayers].
  assert (Hplayer : player_inv (map_ s) p).
  { apply (proj1 (Forall_forall _ _) Hplayers), list_elem_of_lookup. eauto. }
  destruct Hplayer as (_ & Hmap & _).
  unfold FindSessionByMapId.
  rewrite (find_session_unique _ _ si s Hnd Hs (eq_sym Hmap)). simpl. rewrite Hs. reflexivity.
Qed.

Lemma prefix_append p s : String.prefix p (p ++ s)%string = true.
Proof.
  induction p as [|a p IH]; simpl; [destruct s; reflexivity|].
  destruct (Ascii.ascii_dec a a); [exact IH|congruence].
Qed.

Lemma bearer_token_of_get_accepts req token_str :
  authorization req = Some ("Bearer " ++ token_str)%string ->
  valid_token_format token_str = true ->
  bearer_token_of_get req = inr token_str.
Proof.
  intros Hauth Hvalid. unfold bearer_token_of_get. rewrite Hauth.
  unfold valid_token_format in Hvalid. apply andb_true_iff in Hvalid as [Hlen Hhex].
  change (String.length ("Bearer " ++ token_str))
    with (7 + String.length token_str)%nat.
  replace (7 + String.length token_str - 7)%nat with (String.length token_str) by lia.
  replace (7 + String.length token_str <? 7)%nat with false
    by (symmetry; apply Nat.ltb_ge; lia).
  rewrite (prefix_append "Bearer " token_str).
  change (String.substring 7 (String.length token_str) ("Bearer " ++ token_str))
    with (String.substring 0 (String.length token_str) token_str).
  rewrite substring_all, Hlen, Hhex. reflexivity.
Qed.


Lemma contains_member (o : json.object) key :
  json.contains o key = true <-> exists v, (key, v) ∈ o.
Proof.
  unfold json.contains. rewrite existsb_exists. split.
  - intros ([k v] & Hin & Heq). simpl in Heq. apply String.eqb_eq in Heq. subst k.
    exists v. apply list_elem_of_In, Hin.
  - intros (v & Hin). exists (key, v). split; [apply list_elem_of_In, Hin|].
    simpl. apply String.eqb_refl.
Qed.

Lemma at_member (o : json.object) key v :
  NoDup (List.map fst o) -> (key, v) ∈ o -> json.at_ o key = Some v.
Proof.
  induction o as [|[k x] o IH]; intros Hnd Hin; [inversion Hin|].
  simpl in Hnd. apply NoDup_cons in Hnd as [Hnotin Hnd]. simpl.
  apply elem_of_cons in Hin as [[= <- <-]|Hin].
  - rewrite String.eqb_refl. reflexivity.
  - destruct (String.eqb k key) eqn:Heq; [|apply IH; assumption].
    exfalso. apply Hnotin. apply String.eqb_eq in Heq. subst k.
    apply list_elem_of_In, (in_map fst _ (key, v)), list_elem_of_In, Hin.
Qed.

Lemma json_set_member o key x k v :
  (k, v) ∈ json_set o key x -> (k, v) ∈ o \/ (k = key /\ v = x).
Proof.
  induction o as [|[k0 x0] o IH]; simpl; intros Hin.
  - apply list_elem_of_singleton in Hin. injection Hin as -> ->. auto.
  - destruct (String.eqb k0 key) eqn:Heq.
    + apply String.eqb_eq in Heq. subst k0.
      apply elem_of_cons in Hin as [[= -> ->]|Hin]; [auto|].
      left. right. exact Hin.
    + apply elem_of_cons in Hin as [Hin|Hin]; [left; rewrite Hin; left|].
      destruct (IH Hin) as [H|H]; [left; right; exact H|auto].
Qed.

Lemma json_set_here o key x : (key, x) ∈ json_set o key x.
Proof.
  induction o as [|[k0 x0] o IH]; simpl; [left|].
  destruct (String.eqb k0 key) eqn:Heq; [|right; exact IH].
  apply String.eqb_eq in Heq. subst k0. left.
Qed.

Lemma json_set_other o key x k v :
  k <> key -> (k, v) ∈ o -> (k, v) ∈ json_set o key x.
Proof.
  intros Hne. induction o as [|[k0 x0] o IH]; simpl; intros Hin; [inversion Hin|].
  destruct (String.eqb k0 key) eqn:Heq.
  - apply String.eqb_eq in Heq. subst k0.
    apply elem_of_cons in Hin as [[= -> ->]|Hin]; [congruence|right; exact Hin].
  - apply elem_of_cons in Hin as [->|Hin]; [left|right; apply IH, Hin].
Qed.

Lemma json_set_keys o key x :
  NoDup (List.map fst o) -> NoDup (List.map fst (json_set o key x)).
Proof.
  induction o as [|[k0 x0] o IH]; simpl; intros Hnd.
  - apply NoDup_singleton.
  - apply NoDup_cons in Hnd as [Hnotin Hnd].
    destruct (String.eqb k0 key) eqn:Heq; simpl.
    + apply NoDup_cons. auto.
    + apply NoDup_cons. split; [|apply IH, Hnd].
      intros Hin. apply list_elem_of_In, in_map_iff in Hin.
      destruct Hin as ([k v] & Hk & Hin). simpl in Hk. subst k.
      apply list_elem_of_In, json_set_member in Hin as [Hin|[-> _]].
      * apply Hnotin, list_elem_of_In, (in_map fst _ (k0, v)), list_elem_of_In, Hin.
      * rewrite String.eqb_refl in Heq. discriminate.
Qed.

(** The loops that fill an object item by item. *)
Lemma fold_json_set {A} (key : A -> string) (entry : A -> json.value) (items : list A) :
  forall o,
  NoDup (List.map fst o) ->
  NoDup (List.map fst
           (fold_left (fun o item => json_set o (key item) (entry item)) items o)) /\
  (forall k v,
     (k, v) ∈ fold_left (fun o item => json_set o (key item) (entry item)) items o ->
     (k, v) ∈ o \/ exists item, item ∈ items /\ k = key item /\ v = entry item) /\
  (forall k, json.contains o k = true ->
     json.contains
       (fold_left (fun o item => json_set o (key item) (entry item)) items o) k = true) /\
  (forall item, item ∈ items ->
     json.contains
       (fold_left (fun o item => json_set o (key item) (entry item)) items o) (key item)
     = true).
Proof.
  induction items as [|item items IH]; intros o Hnd; simpl.
  - split; [exact Hnd|]. split; [auto|]. split; [auto|]. intros item Hin. inversion Hin.
  - destruct (IH (json_set o (key item) (entry item)) (json_set_keys _ _ _ Hnd))
      as (H1 & H2 & H3 & H4).
    split; [exact H1|]. split; [|split].
    + intros k v Hin. destruct (H2 k v Hin) as [Hold|(item' & Hin' & Hk & Hv)].
      * apply json_set_member in Hold as [Hold|[-> ->]]; [auto|].
        right. exists item. split; [left|auto].
      * right. exists item'. split; [right; exact Hin'|auto].
    + intros k Hk. apply H3. apply contains_member in Hk as (v & Hin).
      apply contains_member. destruct (String.eqb k (key item)) eqn:Heq.
      * apply String.eqb_eq in Heq. subst k. eexists. apply json_set_here.
      * apply String.eqb_neq in Heq. exists v. apply json_set_other; assumption.
    + intros item' Hin'. apply elem_of_cons in Hin' as [->|Hin']; [|apply H4, Hin'].
      apply H3, contains_member. eexists. apply json_set_here.
Qed.

Lemma fold_json_set_lists {A} (key : A -> string) (entry : A -> json.value)
    (items : list A) :
  lists key entry items
    (fold_left (fun o item => json_set o (key item) (entry item)) items []).
Proof.
  destruct (fold_json_set key entry items [] (NoDup_nil_2 : NoDup (List.map fst []))) as (H1 & H2 & H3 & H4).
  unfold lists. split; [exact H1|]. split; [|split; [exact H4|]].
  - intros k v Hin. destruct (H2 k v Hin) as [Hnil|H]; [inversion Hnil|exact H].
  - intros item Hin Hunique.
    pose proof (H4 item Hin) as Hc. apply contains_member in Hc as (v & Hv).
    destruct (H2 _ _ Hv) as [Hnil|(item' & Hin' & Hk & ->)]; [inversion Hnil|].
    rewrite (Hunique item' Hin' (eq_sym Hk)) in Hv. apply at_member; assumption.
Qed.

Lemma to_int_not_nil z :
  Z.to_int z <> Decimal.Pos Decimal.Nil /\ Z.to_int z <> Decimal.Neg Decimal.Nil.
Proof.
  pose proof (DecimalZ.to_of (Z.to_int z)) as H. rewrite DecimalZ.of_to in H.
  split; intros Heq; rewrite Heq in H; discriminate H.
Qed.

Lemma to_string_inj a b : to_string a = to_string b -> a = b.
Proof.
  unfold to_string. intros Heq. apply DecimalZ.to_int_inj.
  destruct (to_int_not_nil a) as [Ha1 Ha2]. destruct (to_int_not_nil b) as [Hb1 Hb2].
  pose proof (NilZero.isi (Z.to_int a) Ha1 Ha2) as Ia.
  pose proof (NilZero.isi (Z.to_int b) Hb1 Hb2) as Ib.
  rewrite Heq in Ia. congruence.
Qed.


(** X27.  In every state the handler reaches from a game without sessions
    (maps and random engines as for the invariant of the served game), a
    GET or HEAD request for the players or for the game state that carries
    [Bearer] and the token of a player is answered with 200 from the very
    session that holds the first player with this token: the players of
    that session, and for the state also its loots. *)
Theorem known_token_is_answered_from_own_session
    (json_parse : string -> option json.value) (std_pow : Q -> Q -> Q)
    (start h : RequestHandler) (req : Request) (token_str : string) (si pi : nat) :
  sessions_ (rh_game_ start) = [] ->
  maps_ok start ->
  reachable json_parse std_pow start h ->
  method req = get \/ method req = head ->
  authorization req = Some ("Bearer " ++ token_str)%string ->
  FindPlayerByToken (rh_game_ h) token_str = Some (si, pi) ->
  exists s,
    sessions_ (rh_game_ h) !! si = Some s /\
    HandleGetPlayers h req =
      MakeJsonResponse req ok (json.object_ (players_names (players_ s))) /\
    HandleGetGameState h req =
      MakeJsonResponse req ok
        (json.object_
           [ ("players"%string, json.object_ (players_state (players_ s)));
             ("lostObjects"%string, json.object_ (lost_objects (loots_ s))) ]).
Proof.
  intros Hempty Hok Hreach Hmethod Hauth Hfound.
  destruct (reachable_inv json_parse std_pow start h Hempty Hok Hreach) as (_ & _ & Hinv).
  destruct (GameProofs.find_player_in_Some _ _ _ _ Hfound)
    as (s & p & Hs & Hp & Htoken & _).
  assert (Hvalid : valid_token_format token_str = true).
  { destruct Hinv as [_ Hsessions].
    assert (Hsession : session_inv (rh_game_ h) s).
    { apply (proj1 (Forall_forall _ _) Hsessions), list_elem_of_lookup. eauto. }
    destruct Hsession as [_ Hplayers].
    assert (Hplayer : player_inv (map_ s) p).
    { apply (proj1 (Forall_forall _ _) Hplayers), list_elem_of_lookup. eauto. }
    rewrite <- Htoken. apply Hplayer. }
  exists s. split; [exact Hs|].
  unfold HandleGetPlayers, HandleGetGameState.
  rewrite (bearer_token_of_get_accepts req token_str Hauth Hvalid).
  rewrite (session_of_token_own h token_str si pi s Hinv Hfound Hs).
  destruct Hmethod as [-> | ->]; split; reflexivity.
Qed.

Lemma known_token_is_answered_from_own_session_witness :
  exists s,
    sessions_ (rh_game_ joined_handler) !! 0%nat = Some s /\
    HandleGetPlayers joined_handler players_request =
      MakeJsonResponse players_request ok (json.object_ (players_names (players_ s))) /\
    HandleGetGameState joined_handler players_request =
      MakeJsonResponse players_request ok
        (json.object_
           [ ("players"%string, json.object_ (players_state (players_ s)));
             ("lostObjects"%string, json.object_ (lost_objects (loots_ s))) ]).
Proof.
  apply (known_token_is_answered_from_own_session parse_stand_in pow_one fresh_handler
           joined_handler players_request "00000000000000ff0000000000001000" 0 0).
  - reflexivity.
  - apply Forall_singleton. split; [discriminate|]. intros _.
    apply Forall_singleton. vm_compute. right. discriminate.
  - apply reach_join; [apply reach_start|].
    split; [reflexivity|]. split; [reflexivity|]. split.
    + intros a b Hab. simpl. lia.
    + intros a b Hab. simpl. split; [apply Qle_refl|exact Hab].
  - left. reflexivity.
  - reflexivity.
  - vm_compute. reflexivity.
Defined.

(** X28.  The objects that [HandleGetPlayers] and [HandleGetGameState]
    build show the players, and the loots, of the session one by one under
    the decimal numeral of the id: the keys are distinct, every member
    stands for a player (a loot) of the session, every player (loot) has a
    member under its id, and one that shares its id with no other is shown
    with its own name (state, type and position).  Different ids have
    different numerals. *)
Theorem listings_show_the_session (players : list Player) (loots : list Loot) :
  lists (fun q => to_string (state_serializer.to_int64 (player_id q)))
    (fun q => json.object_ [ ("name"%string, json.string_ (dog_name (dog_ q))) ])
    players (players_names players) /\
  lists (fun q => to_string (state_serializer.to_int64 (player_id q)))
    player_state players (players_state players) /\
  lists (fun loot => to_string (state_serializer.to_int64 (geom.id loot)))
    CreateLootJson loots (lost_objects loots) /\
  forall a b, to_string a = to_string b -> a = b.
Proof.
  split; [apply fold_json_set_lists|]. split; [apply fold_json_set_lists|].
  split; [apply fold_json_set_lists|]. apply to_string_inj.
Qed.

Lemma bearer_token_accepts req token_str :
  authorization req = Some ("Bearer " ++ token_str)%string ->
  valid_token_format token_str = true ->
  bearer_token req = inr token_str.
Proof.
  intros Hauth Hvalid. unfold bearer_token. rewrite Hauth.
  change (String.length ("Bearer " ++ token_str))
    with (7 + String.length token_str)%nat.
  replace (7 + String.length token_str - 7)%nat with (String.length token_str) by lia.
  replace (7 + String.length token_str <? 7)%nat with false
    by (symmetry; apply Nat.ltb_ge; lia).
  rewrite (prefix_append "Bearer " token_str).
  change (String.substring 7 (String.length token_str) ("Bearer " ++ token_str))
    with (String.substring 0 (String.length token_str) token_str).
  rewrite substring_all, Hvalid. reflexivity.
Qed.

Lemma bearer_token_refuses req refused :
  bearer_token req = inl refused -> result refused = unauthorized.
Proof.
  unfold bearer_token. destruct (authorization req) as [auth|]; [|intros [= <-]; reflexivity].
  destruct ((String.length auth <? 7)%nat || negb (String.prefix "Bearer " auth));
    [intros [= <-]; reflexivity|].
  destruct (negb (valid_token_format _)); [intros [= <-]; reflexivity|discriminate].
Qed.

Lemma bearer_token_of_get_inr req token_str :
  bearer_token_of_get req = inr token_str ->
  authorization req = Some ("Bearer " ++ token_str)%string /\
  valid_token_format token_str = true.
Proof.
  unfold bearer_token_of_get. destruct (authorization req) as [auth|]; [|discriminate].
  destruct (String.length auth <? 7)%nat; simpl; [discriminate|].
  destruct (String.prefix "Bearer " auth) eqn:Hprefix; simpl; [|discriminate].
  destruct (String.length _ =? 32)%nat eqn:Hlen; simpl; [|discriminate].
  destruct (forallb isxdigit _) eqn:Hhex; simpl; [|discriminate].
  intros [= <-]. split.
  - f_equal. apply (prefix_split "Bearer " auth Hprefix).
  - unfold valid_token_format. rewrite Hlen, Hhex. reflexivity.
Qed.

Lemma bearer_token_of_get_refuses req refused :
  bearer_token_of_get req = inl refused -> result refused = unauthorized.
Proof.
  unfold bearer_token_of_get.
  destruct (authorization req) as [auth|]; [|intros [= <-]; reflexivity].
  destruct ((String.length auth <? 7)%nat || negb (String.prefix "Bearer " auth));
    [intros [= <-]; reflexivity|].
  destruct (negb (String.length _ =? 32)%nat); [intros [= <-]; reflexivity|].
  destruct (negb (forallb isxdigit _)); [intros [= <-]; reflexivity|discriminate].
Qed.

Lemma found_is_authorized h req token_str si pi :
  authorization req = Some ("Bearer " ++ token_str)%string ->
  FindPlayerByToken (rh_game_ h) token_str = Some (si, pi) ->
  authorized h req.
Proof.
  intros Hauth Hfound.
  destruct (GameProofs.find_player_in_Some _ _ _ _ Hfound) as (s & p & Hs & Hp & Htoken & _).
  exists token_str, s, p. split; [exact Hauth|].
  split; [apply list_elem_of_lookup; eauto|]. split; [apply list_elem_of_lookup; eauto|].
  exact Htoken.
Qed.

Lemma authorized_is_found h req :
  handler_inv h -> authorized h req ->
  exists token_str si pi,
    authorization req = Some ("Bearer " ++ token_str)%string /\
    valid_token_format token_str = true /\
    FindPlayerByToken (rh_game_ h) token_str = Some (si, pi).
Proof.
  intros [_ Hinv] (token_str & s & p & Hauth & Hs & Hp & Htoken).
  assert (Hvalid : valid_token_format token_str = true).
  { pose proof (proj1 (Forall_forall _ _) Hinv s Hs) as [_ Hplayers].
    pose proof (proj1 (Forall_forall _ _) Hplayers p Hp) as Hplayer.
    rewrite <- Htoken. apply Hplayer. }
  destruct (FindPlayerByToken (rh_game_ h) token_str) as [[si pi]|] eqn:Hfound.
  - exists token_str, si, pi. auto.
  - exfalso. unfold FindPlayerByToken in Hfound.
    apply (proj1 (GameProofs.find_player_in_None _ _) Hfound s p Hs Hp Htoken).
Qed.


Lemma session_of_token_refuses g token_str refused :
  session_of_token g token_str = inl refused -> result refused = unauthorized.
Proof.
  unfold session_of_token.
  destruct (FindPlayerByToken g token_str) as [[si pi]|]; [|intros [= <-]; reflexivity].
  destruct (sessions_ g !! si ≫= _) as [player|]; [|intros [= <-]; reflexivity].
  destruct (FindSessionByMapId g (dog_map_id (dog_ player)) ≫= _);
    [discriminate|intros [= <-]; reflexivity].
Qed.

Lemma session_of_token_inr g token_str session :
  session_of_token g token_str = inr session ->
  exists si pi, FindPlayerByToken g token_str = Some (si, pi).
Proof.
  unfold session_of_token.
  destruct (FindPlayerByToken g token_str) as [[si pi]|]; [eauto|discriminate].
Qed.

(** X29.  In every state the handler reaches from a game without sessions
    (maps and random engines as for the invariant of the served game), the
    requests that need a token are let in exactly when they carry [Bearer]
    and the token of a player of the game.  A POST to [HandlePlayerAction]
    is answered with 401 exactly when it carries no such token, and never
    with 500; a GET or HEAD to [HandleGetPlayers] or [HandleGetGameState]
    is answered with 200 when it carries one and with 401 when not. *)
Theorem token_holders_are_let_in (json_parse : string -> option json.value)
    (std_pow : Q -> Q -> Q) (start h : RequestHandler) (req : Request) :
  sessions_ (rh_game_ start) = [] ->
  maps_ok start ->
  reachable json_parse std_pow start h ->
  (method req = post ->
   (result (snd (HandlePlayerAction json_parse h req)) = unauthorized <->
    ~ authorized h req) /\
   result (snd (HandlePlayerAction json_parse h req)) <> internal_server_error) /\
  (method req = get \/ method req = head ->
   (result (HandleGetPlayers h req) = ok <-> authorized h req) /\
   (result (HandleGetPlayers h req) = unauthorized <-> ~ authorized h req) /\
   (result (HandleGetGameState h req) = ok <-> authorized h req) /\
   (result (HandleGetGameState h req) = unauthorized <-> ~ authorized h req)).
Proof.
  intros Hempty Hok Hreach.
  destruct (reachable_inv json_parse std_pow start h Hempty Hok Hreach) as (_ & _ & Hinv).
  split.
  - intros Hmethod.
    assert (Hlet : authorized h req ->
                   result (snd (HandlePlayerAction json_parse h req)) <> unauthorized /\
                   result (snd (HandlePlayerAction json_parse h req)) <>
                     internal_server_error).
    { intros Hauth.
      destruct (authorized_is_found h req Hinv Hauth)
        as (token_str & si & pi & Hheader & Hvalid & Hfound).
      destruct (GameProofs.find_player_in_Some _ _ _ _ Hfound)
        as (s & p & Hs & Hp & _).
      assert (Hmap : game.FindMap (rh_game_ h) (dog_map_id (dog_ p)) = Some (map_ s)).
      { destruct Hinv as [_ Hsessions].
        assert (Hsession : session_inv (rh_game_ h) s).
        { apply (proj1 (Forall_forall _ _) Hsessions), list_elem_of_lookup. eauto. }
        destruct Hsession as [Hfind Hplayers].
        assert (Hplayer : player_inv (map_ s) p).
        { apply (proj1 (Forall_forall _ _) Hplayers), list_elem_of_lookup. eauto. }
        destruct Hplayer as (_ & -> & _). exact Hfind. }
      unfold HandlePlayerAction.
      rewrite Hmethod, (bearer_token_accepts req token_str Hheader Hvalid), Hfound.
      destruct (negb (is_json req)); [split; discriminate|].
      destruct (json_parse (body req) ≫= json.as_object) as [obj|]; [|split; discriminate].
      destruct (negb (json.contains obj "move")); [split; discriminate|].
      destruct (json.at_ obj "move") as [[| | | | |move_str| |]|]; try (split; discriminate).
      rewrite Hs. simpl. rewrite Hp, Hmap.
      destruct (apply_move (dog_speed_ (map_ s)) (dog_ p) move_str); split; discriminate. }
    split; [split|].
    + intros H401 Hauth. destruct (Hlet Hauth) as [Hne _]. contradiction.
    + intros Hnot. unfold HandlePlayerAction. rewrite Hmethod.
      destruct (bearer_token req) as [refused|token_str] eqn:Hbearer;
        [apply (bearer_token_refuses _ _ Hbearer)|].
      destruct (FindPlayerByToken (rh_game_ h) token_str) as [[si pi]|] eqn:Hfound;
        [|reflexivity].
      exfalso. apply Hnot. destruct (bearer_token_inr _ _ Hbearer) as [Hheader _].
      apply (found_is_authorized h req token_str si pi Hheader Hfound).
    + unfold HandlePlayerAction. rewrite Hmethod.
      destruct (bearer_token req) as [refused|token_str] eqn:Hbearer.
      { simpl. rewrite (bearer_token_refuses _ _ Hbearer). discriminate. }
      destruct (FindPlayerByToken (rh_game_ h) token_str) as [[si pi]|] eqn:Hfound;
        [|discriminate].
      destruct (bearer_token_inr _ _ Hbearer) as [Hheader _].
      pose proof (found_is_authorized h req token_str si pi Hheader Hfound) as Hauth.
      destruct (Hlet Hauth) as [_ Hne]. unfold HandlePlayerAction in Hne.
      rewrite Hmethod, Hbearer, Hfound in Hne. exact Hne.
  - intros Hmethod.
    assert (Hin : authorized h req ->
                  result (HandleGetPlayers h req) = ok /\
                  result (HandleGetGameState h req) = ok).
    { intros Hauth.
      destruct (authorized_is_found h req Hinv Hauth)
        as (token_str & si & pi & Hheader & Hvalid & Hfound).
      destruct (GameProofs.find_player_in_Some _ _ _ _ Hfound) as (s & p & Hs & _).
      unfold HandleGetPlayers, HandleGetGameState.
      rewrite (bearer_token_of_get_accepts req token_str Hheader Hvalid).
      rewrite (session_of_token_own h token_str si pi s Hinv Hfound Hs).
      destruct Hmethod as [-> | ->]; split; reflexivity. }
    assert (Hout : (result (HandleGetPlayers h req) = ok /\
                    result (HandleGetGameState h req) = ok /\ authorized h req) \/
                   (result (HandleGetPlayers h req) = unauthorized /\
                    result (HandleGetGameState h req) = unauthorized)).
    { unfold HandleGetPlayers, HandleGetGameState.
      assert (Hget : forall (a b : Response),
                match method req with
                | get | head => a
                | _ => b
                end = a) by (intros a b; destruct Hmethod as [-> | ->]; reflexivity).
      rewrite !Hget.
      destruct (bearer_token_of_get req) as [refused|token_str] eqn:Hbearer.
      { right. rewrite (bearer_token_of_get_refuses _ _ Hbearer). auto. }
      destruct (session_of_token (rh_game_ h) token_str) as [refused|session] eqn:Hsession.
      { right. rewrite (session_of_token_refuses _ _ _ Hsession). auto. }
      left. split; [reflexivity|]. split; [reflexivity|].
      destruct (session_of_token_inr _ _ _ Hsession) as (si & pi & Hfound).
      destruct (bearer_token_of_get_inr _ _ Hbearer) as [Hheader _].
      apply (found_is_authorized h req token_str si pi Hheader Hfound). }
    split; [|split; [|split]].
    + split; [|apply Hin].
      intros H200. destruct Hout as [(_ & _ & Hauth)|[H401 _]]; [exact Hauth|congruence].
    + split.
      * intros H401 Hauth. destruct (Hin Hauth) as [H200 _]. congruence.
      * intros Hnot. destruct Hout as [(_ & _ & Hauth)|[H401 _]]; [contradiction|exact H401].
    + split; [|apply Hin].
      intros H200. destruct Hout as [(_ & _ & Hauth)|[_ H401]]; [exact Hauth|congruence].
    + split.
      * intros H401 Hauth. destruct (Hin Hauth) as [_ H200]. congruence.
      * intros Hnot. destruct Hout as [(_ & _ & Hauth)|[_ H401]]; [contradiction|exact H401].
Qed.


Lemma token_holders_are_let_in_witness :
  (method move_request = post ->
   (result (snd (HandlePlayerAction parse_stand_in joined_handler move_request)) =
      unauthorized <-> ~ authorized joined_handler move_request) /\
   result (snd (HandlePlayerAction parse_stand_in joined_handler move_request)) <>
     internal_server_error) /\
  (method move_request = get \/ method move_request = head ->
   (result (HandleGetPlayers joined_handler move_request) = ok <->
    authorized joined_handler move_request) /\
   (result (HandleGetPlayers joined_handler move_request) = unauthorized <->
    ~ authorized joined_handler move_request) /\
   (result (HandleGetGameState joined_handler move_request) = ok <->
    authorized joined_handler move_request) /\
   (result (HandleGetGameState joined_handler move_request) = unauthorized <->
    ~ authorized joined_handler move_request)).
Proof.
  apply (token_holders_are_let_in parse_stand_in pow_one fresh_handler joined_handler
           move_request).
  - reflexivity.
  - apply Forall_singleton. split; [discriminate|]. intros _.
    apply Forall_singleton. vm_compute. right. discriminate.
  - apply reach_join; [apply reach_start|].
    split; [reflexivity|]. split; [reflexivity|]. split.
    + intros a b Hab. simpl. lia.
    + intros a b Hab. simpl. split; [apply Qle_refl|exact Hab].
Defined.

(** *** The ids of the players *)

Lemma Forall_sublist_of {A} (P : A -> Prop) (l k : list A) :
  l `sublist_of` k -> Forall P k -> Forall P l.
Proof.
  induction 1 as [|x l k _ IH|x l k _ IH]; intros Hall; [constructor| |].
  - apply Forall_cons in Hall as [Hx Hall]. constructor; auto.
  - apply Forall_cons in Hall as [_ Hall]. auto.
Qed.

Lemma map_bool_filter_sublist {A B} (g : A -> B) (f : A -> bool) (l : list A) :
  List.map g (List.filter f l) `sublist_of` List.map g l.
Proof.
  induction l as [|a l IH]; simpl; [constructor|].
  destruct (f a); simpl; [apply sublist_skip|apply sublist_cons]; exact IH.
Qed.

Lemma ticked_ids dt players players' :
  Forall2 (accounting.ticked dt) players players' ->
  List.map player_id players' = List.map player_id players.
Proof.
  induction 1 as [|p p' players players' Hp _ IH]; simpl; [reflexivity|].
  destruct Hp as ((Hid & _) & _). rewrite Hid, IH. reflexivity.
Qed.

Lemma UpdateState_ids std_pow g s dt inp :
  List.map player_id (players_ (fst (fst (UpdateState std_pow g s dt inp))))
    `sublist_of` List.map player_id (players_ s).
Proof.
  pose proof (TickFacts.tick_before_retirement_ticked std_pow s dt inp) as Hticked.
  apply ticked_ids in Hticked. rewrite <- Hticked.
  unfold UpdateState.
  destruct (tick_before_retirement std_pow s dt inp) as [s1 picked]. cbn [fst].
  unfold RetireInactivePlayers. destruct (game_ s1); [|reflexivity].
  rewrite SessionProofs.retire_loop_filter. cbn [fst players_ set_players app].
  apply map_bool_filter_sublist.
Qed.

Lemma update_times_id dt p : player_id (update_times dt p) = player_id p.
Proof.
  unfold update_times.
  destruct (Qltb (Qabs (geom.vx (speed_ (dog_ (AddPlayTime p dt))))) EPS &&
            Qltb (Qabs (geom.vy (speed_ (dog_ (AddPlayTime p dt))))) EPS); reflexivity.
Qed.

Lemma GameSession_UpdateState_ids std_pow g s dt inp :
  List.map player_id
    (players_ (fst (fst (game_tick.GameSession_UpdateState std_pow g s dt inp))))
    `sublist_of` List.map player_id (players_ s).
Proof.
  destruct (GameSession_UpdateState_cases std_pow g s dt inp)
    as [->|(spawned & -> & _ & Hplayers)]; cbn [fst].
  - apply UpdateState_ids.
  - rewrite Hplayers, List.map_map.
    rewrite (List.map_ext _ player_id (update_times_id dt)). reflexivity.
Qed.

Lemma update_sessions_ids std_pow cfg dt inp sessions : forall i,
  List.map player_id
    (flat_map players_ (fst (fst (game_tick.update_sessions std_pow cfg sessions dt inp i))))
    `sublist_of` List.map player_id (flat_map players_ sessions).
Proof.
  induction sessions as [|s sessions IH]; intros i; simpl; [constructor|].
  pose proof (GameSession_UpdateState_ids std_pow cfg s dt (inp i)) as Hs.
  destruct (game_tick.GameSession_UpdateState std_pow cfg s dt (inp i))
    as [[s' retired] thrown].
  destruct thrown.
  - simpl in *. rewrite !List.map_app. apply sublist_app; [assumption|reflexivity].
  - pose proof (IH (S i)) as Hrest.
    destruct (game_tick.update_sessions std_pow cfg sessions dt inp (S i))
      as [[rest' retired'] thrown'].
    simpl in *. rewrite !List.map_app. apply sublist_app; assumption.
Qed.

Lemma update_player_ids g si pi f :
  (forall p, player_id (f p) = player_id p) ->
  player_ids (update_player g si pi f) = player_ids g.
Proof.
  intros Hf. unfold player_ids, all_players, update_player, update_session.
  cbn [sessions_ set_sessions]. generalize (sessions_ g). intros sessions. revert si.
  induction sessions as [|s sessions IH]; intros [|si]; simpl; try reflexivity.
  - rewrite !List.map_app. f_equal. clear IH.
    generalize (players_ s). intros players. revert pi.
    induction players as [|p players IHp]; intros [|pi]; simpl; try reflexivity.
    + rewrite Hf. reflexivity.
    + f_equal. apply IHp.
  - rewrite !List.map_app. f_equal. apply IH.
Qed.

Lemma AddPlayer_players idx player sessions s :
  sessions !! idx = Some s ->
  flat_map players_ (alter (fun s => AddPlayer s player) idx sessions)
    ≡ₚ player :: flat_map players_ sessions.
Proof.
  revert idx. induction sessions as [|s0 sessions IH]; intros [|idx] Hs;
    try discriminate; simpl in *.
  - rewrite <- app_assoc. simpl. symmetry. apply Permutation_middle.
  - etransitivity; [apply Permutation_app_head, (IH idx Hs)|].
    symmetry. apply Permutation_middle.
Qed.

Lemma GetOrCreateSession_all_players g id g' idx :
  GetOrCreateSession g id = Some (g', idx) -> all_players g' = all_players g.
Proof.
  intros Hget.
  destruct (GetOrCreateSession_cases g id g' idx Hget)
    as [[-> _]|(m & s & _ & _ & _ & Hplayers & _ & -> & _)]; [reflexivity|].
  unfold all_players. simpl. rewrite flat_map_app. simpl.
  rewrite Hplayers, !app_nil_r. reflexivity.
Qed.

(** X30.  The ids of the players stay distinct.  When they are distinct and
    below the counter of player ids, they are so after a join for which the
    counter does not wrap around at [2^64], after an action and after a
    tick, whether the request is accepted or refused. *)
Theorem player_ids_stay_distinct (json_parse : string -> option json.value)
    (std_pow : Q -> Q -> Q) (h : RequestHandler) (req : Request) (draw : JoinDraw)
    (inp : nat -> TickInput) (writable : bool) :
  ids_fresh h ->
  ((next_player_id_ h + 1 < 2 ^ 64)%N ->
   ids_fresh (fst (HandleJoinGame json_parse h req draw))) /\
  ids_fresh (fst (HandlePlayerAction json_parse h req)) /\
  ids_fresh (fst (fst (HandleGameTick json_parse std_pow h req inp writable))).
Proof.
  intros [Hnd Hbelow]. split; [|split].
  - intros Hwrap.
    destruct (HandleJoinGame_cases json_parse h req draw)
      as [[-> _]|(obj & user_name & id & m & g & idx & _ & _ & _ & _ & _ & _ & Hget & ->)];
      [split; assumption|].
    assert (Hsession : exists s0, sessions_ g !! idx = Some s0).
    { destruct (GetOrCreateSession_cases _ _ _ _ Hget)
        as [[-> (s0 & Hs & _)]|(m0 & s0 & _ & _ & _ & _ & _ & -> & ->)]; [eauto|].
      exists s0. apply list_lookup_middle. reflexivity. }
    destruct Hsession as (s0 & Hs0).
    unfold ids_fresh, player_ids, all_players, update_session.
    cbn [fst rh_game_ next_player_id_ sessions_ set_sessions].
    rewrite (AddPlayer_players idx _ (sessions_ g) s0 Hs0).
    fold (all_players g). rewrite (GetOrCreateSession_all_players _ _ _ _ Hget).
    cbn [List.map Player_new player_id]. fold (player_ids (rh_game_ h)).
    assert (Hnext : ((next_player_id_ h + 1) mod size_max = next_player_id_ h + 1)%N)
      by (apply N.mod_small; exact Hwrap).
    rewrite Hnext. split.
    + apply NoDup_cons. split; [|exact Hnd].
      intros Hin. apply (proj1 (Forall_forall _ _) Hbelow) in Hin. lia.
    + constructor; [lia|]. eapply Forall_impl; [exact Hbelow|]. simpl. intros x Hx. lia.
  - destruct (HandlePlayerAction_cases json_parse h req)
      as [[-> _]|(token_str & si & pi & s & p & m & obj & move_str & dog' & _ & _ & _ & _ & _ &
                  _ & _ & _ & _ & _ & ->)]; [split; assumption|].
    unfold ids_fresh. cbn [fst set_game rh_game_ next_player_id_].
    rewrite update_player_ids by reflexivity. split; assumption.
  - destruct (HandleGameTick_cases json_parse std_pow h req inp writable)
      as [[-> _]|(obj & ms & _ & _ & _ & _ & _ & H)]; [split; assumption|].
    cbv zeta in H.
    assert (Hsub : player_ids (fst (fst (game_tick.UpdateState std_pow (rh_game_ h)
                                           (inject_Z ms / 1000) inp)))
                   `sublist_of` player_ids (rh_game_ h)).
    { unfold game_tick.UpdateState, player_ids, all_players.
      pose proof (update_sessions_ids std_pow (config_ (rh_game_ h)) (inject_Z ms / 1000)
                    inp (sessions_ (rh_game_ h)) 0) as Hs.
      destruct (game_tick.update_sessions std_pow (config_ (rh_game_ h))
                  (sessions_ (rh_game_ h)) (inject_Z ms / 1000) inp 0)
        as [[sessions' retired] thrown]. exact Hs. }
    destruct H as [[_ H]|[_ H]]; rewrite H; unfold ids_fresh;
      cbn [fst set_game rh_game_ next_player_id_];
      (split; [eapply sublist_NoDup; eassumption|eapply Forall_sublist_of; eassumption]).
Qed.

Lemma player_ids_stay_distinct_witness :
  ((next_player_id_ joined_handler + 1 < 2 ^ 64)%N ->
   ids_fresh (fst (HandleJoinGame parse_stand_in joined_handler move_request first_draw))) /\
  ids_fresh (fst (HandlePlayerAction parse_stand_in joined_handler move_request)) /\
  ids_fresh (fst (fst (HandleGameTick parse_stand_in pow_one joined_handler move_request
                         (fun _ => no_randomness) true))).
Proof.
  apply (player_ids_stay_distinct parse_stand_in pow_one joined_handler move_request).
  assert (Hids : player_ids (rh_game_ joined_handler) = [0%N]) by (vm_compute; reflexivity).
  unfold ids_fresh. rewrite Hids. split.
  - apply NoDup_singleton.
  - apply Forall_singleton. reflexivity.
Defined.

End HandlerProofs.
